(** * SeemoRe super-resolution: tiling scheduler, MoE routing and shape semantics

    A shallow embedding of [src/seemore/core.py].

    - Python integers are [Z]; a raised exception is [Err e] in the [result]
      monad, a normal return is [Ok v].
    - The tiling scheduler [SeemoReUpscaler.tile_inference] is written once
      against the small tensor interface [TensorLike] it actually uses
      (shape, [new_zeros], slicing on the two spatial axes, slice assignment).
    - Tensor values are real numbers with exact [+] and [*]; the softmax of
      the router is modelled a second time in float32, with the rounding of
      every operation ([round32], [softmax32]), for the bounds on the gate
      weights, which rounding decides.
    - Part I holds the definitions, Part II the lemmas and theorems, Part III
      further properties of the code. *)

From Stdlib Require Import String Reals Lra ZArith List Lia Bool FinFun Permutation.
Import ListNotations.
Open Scope Z_scope.

(* ===================================================================== *)
(** * Part I: definitions                                                 *)
(* ===================================================================== *)

(** ** Exceptions and the result monad *)

(** The reason carried by a torch [RuntimeError]. *)
Inductive RuntimeReason :=
| BroadcastMismatch      (* operands of an elementwise op cannot be broadcast *)
| InplaceShapeMismatch   (* the broadcast shape differs from the in-place target *)
| ChannelMismatch        (* conv / linear input channels differ from the weight *)
| KernelTooLarge         (* kernel larger than the padded input *)
| TopkOutOfRange         (* torch.topk: k out of range for the dimension *)
| TypeMismatch           (* input tensor type differs from the weight type *)
| NegativeDimension      (* a tensor is created with a negative size *)
| BadRank                (* an operator does not accept this number of dims *)
| BadView                (* view / pixel_shuffle: sizes do not divide *)
| EmptyInput             (* pooling or interpolation of an empty image *)
| AssignShapeMismatch.   (* slice assignment from a tensor of another shape *)

Inductive PyError :=
| ZeroDivisionError
| AssertionError
| NotImplementedError
| ValueError
| TypeError
| IndexError
| RuntimeError (why : RuntimeReason).

Inductive result (A : Type) : Type :=
| Ok (a : A)
| Err (e : PyError).
Arguments Ok {A} a.
Arguments Err {A} e.

Definition bind {A B : Type} (r : result A) (f : A -> result B) : result B :=
  match r with
  | Ok a => f a
  | Err e => Err e
  end.

Notation "x <- c1 ;; c2" := (bind c1 (fun x => c2))
  (at level 61, c1 at next level, right associativity).

Definition is_ok {A : Type} (r : result A) : bool :=
  match r with Ok _ => true | Err _ => false end.

(** [for x in xs: s = body(x, s)], stopping at the first exception. *)
Fixpoint for_loop {S : Type} (xs : list Z) (body : Z -> S -> result S) (s : S)
  : result S :=
  match xs with
  | [] => Ok s
  | x :: xs' => s' <- body x s ;; for_loop xs' body s'
  end.

(** The same loop over any list of work items. *)
Fixpoint for_each {I S : Type} (xs : list I) (body : I -> S -> result S) (s : S)
  : result S :=
  match xs with
  | [] => Ok s
  | x :: xs' => s' <- body x s ;; for_each xs' body s'
  end.

(** Python's [range(n)]: empty when [n <= 0]. *)
Definition range (n : Z) : list Z := map Z.of_nat (seq 0 (Z.to_nat n)).

(** ** Tile arithmetic of [tile_inference] *)

(** [math.ceil(a / b)] on Python ints.  [a / b] is true division and raises
    [ZeroDivisionError] for [b = 0]; for the image sizes at hand (far below
    2^53) the ceiling of the double quotient is the exact ceiling, which is
    [- floor(-a / b)] for either sign of [b]. *)
Definition ceil_div (a b : Z) : result Z :=
  if b =? 0 then Err ZeroDivisionError else Ok (- ((- a) / b)).

(** [tile_pad = 12] *)
Definition tile_pad : Z := 12.

(** All the coordinates the loop body computes for the tile [(y_idx, x_idx)]. *)
Record TileBounds := {
  x_start : Z; y_start : Z; x_end : Z; y_end : Z;
  x_start_pad : Z; x_end_pad : Z; y_start_pad : Z; y_end_pad : Z;
  out_x_start : Z; out_x_end : Z; out_y_start : Z; out_y_end : Z;
  out_x_start_valid : Z; out_x_end_valid : Z;
  out_y_start_valid : Z; out_y_end_valid : Z
}.

Definition tile_bounds (scale height width tile_size y_idx x_idx : Z)
  : TileBounds :=
  let x_start := x_idx * tile_size in
  let y_start := y_idx * tile_size in
  let x_end := Z.min (x_start + tile_size) width in
  let y_end := Z.min (y_start + tile_size) height in
  let x_start_pad := Z.max (x_start - tile_pad) 0 in
  let x_end_pad := Z.min (x_end + tile_pad) width in
  let y_start_pad := Z.max (y_start - tile_pad) 0 in
  let y_end_pad := Z.min (y_end + tile_pad) height in
  let out_x_start := x_start * scale in
  let out_x_end := x_end * scale in
  let out_y_start := y_start * scale in
  let out_y_end := y_end * scale in
  let out_x_start_valid := (x_start - x_start_pad) * scale in
  let out_x_end_valid := out_x_start_valid + (x_end - x_start) * scale in
  let out_y_start_valid := (y_start - y_start_pad) * scale in
  let out_y_end_valid := out_y_start_valid + (y_end - y_start) * scale in
  {| x_start := x_start; y_start := y_start; x_end := x_end; y_end := y_end;
     x_start_pad := x_start_pad; x_end_pad := x_end_pad;
     y_start_pad := y_start_pad; y_end_pad := y_end_pad;
     out_x_start := out_x_start; out_x_end := out_x_end;
     out_y_start := out_y_start; out_y_end := out_y_end;
     out_x_start_valid := out_x_start_valid;
     out_x_end_valid := out_x_end_valid;
     out_y_start_valid := out_y_start_valid;
     out_y_end_valid := out_y_end_valid |}.

(** The grid indices in the order the two nested loops visit them:
    [for y_idx in range(tiles_y): for x_idx in range(tiles_x)]. *)
Definition grid (tiles_y tiles_x : Z) : list (Z * Z) :=
  flat_map (fun y_idx => map (fun x_idx => (y_idx, x_idx)) (range tiles_x))
           (range tiles_y).

(** The tiles of an input of the given size, in visiting order. *)
Definition tile_schedule (scale height width tile_size : Z)
  : result (list TileBounds) :=
  tiles_x <- ceil_div width tile_size ;;
  tiles_y <- ceil_div height tile_size ;;
  Ok (map (fun p => tile_bounds scale height width tile_size (fst p) (snd p))
          (grid tiles_y tiles_x)).

(** The output pixel [(oy, ox)] lies in the region the tile writes:
    [output[:, :, out_y_start:out_y_end, out_x_start:out_x_end]]. *)
Definition writes (tb : TileBounds) (oy ox : Z) : Prop :=
  out_y_start tb <= oy < out_y_end tb /\ out_x_start tb <= ox < out_x_end tb.

(** ** The tensor interface used by the scheduler *)

(** A half-open Python slice [a:b]. *)
Definition slice : Type := Z * Z.

Class TensorLike (T : Type) := {
  (** [t.shape] *)
  shape_of : T -> list Z;
  (** [t.new_zeros(shape)] *)
  new_zeros : T -> list Z -> result T;
  (** [t[:, :, a:b, c:d]] *)
  getitem_hw : T -> slice -> slice -> result T;
  (** [t[:, :, a:b, c:d] = src] *)
  setitem_hw : T -> slice -> slice -> T -> result T
}.

(** ** [SeemoReUpscaler.tile_inference] *)

Section TileInference.
Context {T : Type} `{TensorLike T}.

(** [model] is [self.model.__call__], [scale] is [self.model.scale]. *)
Variable model : T -> result T.
Variable scale : Z.

(** The body of the inner loop for one tile. *)
Definition process_tile (y : T) (tb : TileBounds) (output : T) : result T :=
  tile <- getitem_hw y (y_start_pad tb, y_end_pad tb)
                       (x_start_pad tb, x_end_pad tb) ;;
  output_tile <- model tile ;;
  valid <- getitem_hw output_tile
             (out_y_start_valid tb, out_y_end_valid tb)
             (out_x_start_valid tb, out_x_end_valid tb) ;;
  setitem_hw output (out_y_start tb, out_y_end tb)
                    (out_x_start tb, out_x_end tb) valid.

Definition tile_inference (y : T) (tile_size : Z) : result T :=
  match shape_of y with
  | [batch; channel; height; width] =>
      let output_height := height * scale in
      let output_width := width * scale in
      let output_shape := [batch; channel; output_height; output_width] in
      output <- new_zeros y output_shape ;;
      tiles_x <- ceil_div width tile_size ;;
      tiles_y <- ceil_div height tile_size ;;
      for_loop (range tiles_y) (fun y_idx output =>
        for_loop (range tiles_x) (fun x_idx output =>
          process_tile y
            (tile_bounds scale height width tile_size y_idx x_idx) output)
          output)
        output
  | _ => Err ValueError
  end.

(** What [SeemoReUpscaler.__call__] does with the tensor [y]:
    [if tile_size > 0: tile_inference(y, tile_size) else: model(y)]. *)
Definition call_dispatch (y : T) (tile_size : Z) : result T :=
  if 0 <? tile_size then tile_inference y tile_size else model y.
End TileInference.


(** ** Shapes

    The network is embedded at the level of tensor shapes: every torch
    operator is modelled by its shape rule, including the exceptions it raises
    on incompatible shapes.  Tensor values never influence a shape or an
    exception, with one exception: which experts [torch.topk] selects in the
    inference path of [MoELayer.forward] (section "Routing"). *)

Definition Shape : Type := list Z.

Fixpoint shape_eqb (a b : Shape) : bool :=
  match a, b with
  | [], [] => true
  | x :: a', y :: b' => (x =? y) && shape_eqb a' b'
  | _, _ => false
  end.

(** Number of elements. *)
Definition numel (s : Shape) : Z := fold_right Z.mul 1 s.

(** Broadcasting of two sizes of one dimension. *)
Definition broadcast_dim (x y : Z) : result Z :=
  if x =? y then Ok x
  else if x =? 1 then Ok y
  else if y =? 1 then Ok x
  else Err (RuntimeError BroadcastMismatch).

(** Broadcasting, on the shapes written last dimension first. *)
Fixpoint broadcast_rev (a b : Shape) : result Shape :=
  match a, b with
  | [], _ => Ok b
  | _, [] => Ok a
  | x :: a', y :: b' =>
      d <- broadcast_dim x y ;;
      r <- broadcast_rev a' b' ;;
      Ok (d :: r)
  end.

(** The shape of [a op b] for an elementwise binary operator. *)
Definition broadcast_shapes (a b : Shape) : result Shape :=
  r <- broadcast_rev (rev a) (rev b) ;; Ok (rev r).

(** [out += t]: the broadcast shape must be the shape of [out]. *)
Definition iadd (out t : Shape) : result Shape :=
  s <- broadcast_shapes out t ;;
  if shape_eqb s out then Ok out
  else Err (RuntimeError InplaceShapeMismatch).

(** A source of shape [src] can be expanded to [tgt] (both written last
    dimension first): each of its sizes is the target's, or 1. *)
Fixpoint expandable_rev (src tgt : Shape) : bool :=
  match src, tgt with
  | [], _ => true
  | _ :: _, [] => false
  | x :: s', y :: t' => ((x =? y) || (x =? 1)) && expandable_rev s' t'
  end.

Definition expandable (src tgt : Shape) : bool :=
  expandable_rev (rev src) (rev tgt).

(** Python's normalisation of a slice bound against a length. *)
Definition norm_index (i len : Z) : Z :=
  if i <? 0 then Z.max (i + len) 0 else Z.min i len.

(** Length of [t[a:b]] along a dimension of size [len]. *)
Definition slice_len (a b len : Z) : Z :=
  Z.max 0 (norm_index b len - norm_index a len).

(** [x.mean(1, keepdim=True)] *)
Definition mean_keepdim1 (x : Shape) : result Shape :=
  match x with
  | n :: _ :: rest => Ok (n :: 1 :: rest)
  | _ => Err IndexError
  end.

(** [torch.chunk(x, 2, dim=1)] unpacked into two names.  torch cuts chunks of
    [ceil(c/2)] channels: two of them unless [c = 1], where the single chunk
    makes the unpacking raise [ValueError]. *)
Definition chunk2 (x : Shape) : result (Shape * Shape) :=
  match x with
  | n :: c :: rest =>
      if c =? 1 then Err ValueError
      else let c1 := (c + 1) / 2 in
           Ok (n :: c1 :: rest, n :: (c - c1) :: rest)
  | _ => Err IndexError
  end.

(** [x.squeeze(-1)] *)
Definition squeeze_last (x : Shape) : result Shape :=
  match rev x with
  | [] => Err IndexError
  | d :: r => if d =? 1 then Ok (rev r) else Ok x
  end.

(** [x.squeeze(dim=0)] *)
Definition squeeze0 (x : Shape) : result Shape :=
  match x with
  | [] => Err IndexError
  | d :: r => if d =? 1 then Ok r else Ok x
  end.

(** [F.softmax(x, dim=1)] *)
Definition softmax_dim1 (x : Shape) : result Shape :=
  match x with
  | _ :: _ :: _ => Ok x
  | _ => Err IndexError
  end.

(** [torch.topk(x, k)] along the last dimension: shape of values and of
    indices. *)
Definition topk_shape (x : Shape) (k : Z) : result Shape :=
  match rev x with
  | [] => Err (RuntimeError TopkOutOfRange)
  | d :: r =>
      if (k <? 0) || (d <? k) then Err (RuntimeError TopkOutOfRange)
      else Ok (rev (k :: r))
  end.

(** [F.interpolate(x, size=(h, w), mode="bilinear", align_corners=False)] *)
Definition interpolate (x : Shape) (h w : Z) : result Shape :=
  match x with
  | [n; c; ih; iw] =>
      if (ih <=? 0) || (iw <=? 0) || (h <=? 0) || (w <=? 0)
      then Err (RuntimeError EmptyInput)
      else Ok [n; c; h; w]
  | _ => Err (RuntimeError BadRank)
  end.

(** [nn.PixelShuffle(r)] *)
Definition pixel_shuffle (r : Z) (x : Shape) : result Shape :=
  match x with
  | [n; c; h; w] =>
      if r <=? 0 then Err (RuntimeError BadView)
      else if negb (c mod (r * r) =? 0) then Err (RuntimeError BadView)
      else Ok [n; c / (r * r); h * r; w * r]
  | [c; h; w] =>
      if r <=? 0 then Err (RuntimeError BadView)
      else if negb (c mod (r * r) =? 0) then Err (RuntimeError BadView)
      else Ok [c / (r * r); h * r; w * r]
  | _ => Err (RuntimeError BadRank)
  end.

(** [nn.AdaptiveAvgPool2d(1)] *)
Definition adaptive_avg_pool_1 (x : Shape) : result Shape :=
  match x with
  | [n; c; h; w] =>
      if (c =? 0) || (h =? 0) || (w =? 0) then Err (RuntimeError EmptyInput)
      else Ok [n; c; 1; 1]
  | [c; h; w] =>
      if (h =? 0) || (w =? 0) then Err (RuntimeError EmptyInput)
      else Ok [c; 1; 1]
  | _ => Err (RuntimeError BadRank)
  end.

(** [nn.GELU()] keeps the shape. *)
Definition GELU (x : Shape) : result Shape := Ok x.

(** [mapM] of the result monad. *)
Fixpoint mapM {A B : Type} (f : A -> result B) (xs : list A) : result (list B) :=
  match xs with
  | [] => Ok []
  | x :: xs' => y <- f x ;; ys <- mapM f xs' ;; Ok (y :: ys)
  end.

(** ** [nn.Conv2d] and [nn.Linear] *)

Module Conv2d.
Record t := mk {
  in_channels : Z; out_channels : Z;
  kernel_size : Z * Z; stride : Z * Z; padding : Z * Z; groups : Z
}.

(** The argument checks of [torch.nn.modules.conv._ConvNd.__init__]. *)
Definition init (in_channels out_channels : Z) (kernel_size stride padding : Z * Z)
           (groups : Z) : result t :=
  if groups <=? 0 then Err ValueError
  else if negb (in_channels mod groups =? 0) then Err ValueError
  else if negb (out_channels mod groups =? 0) then Err ValueError
  else Ok (mk in_channels out_channels kernel_size stride padding groups).

(** Output size along one axis (dilation 1). *)
Definition out_size (i k s p : Z) : Z := (i + 2 * p - k) / s + 1.

Definition forward_chw (m : t) (c h w : Z) : result (Z * Z * Z) :=
  if negb (c =? in_channels m) then Err (RuntimeError ChannelMismatch)
  else if (h + 2 * fst (padding m) <? fst (kernel_size m))
          || (w + 2 * snd (padding m) <? snd (kernel_size m))
  then Err (RuntimeError KernelTooLarge)
  else Ok (out_channels m,
           out_size h (fst (kernel_size m)) (fst (stride m)) (fst (padding m)),
           out_size w (snd (kernel_size m)) (snd (stride m)) (snd (padding m))).

Definition forward (m : t) (x : Shape) : result Shape :=
  match x with
  | [n; c; h; w] =>
      r <- forward_chw m c h w ;;
      let '(c', h', w') := r in Ok [n; c'; h'; w']
  | [c; h; w] =>
      r <- forward_chw m c h w ;;
      let '(c', h', w') := r in Ok [c'; h'; w']
  | _ => Err (RuntimeError BadRank)
  end.
End Conv2d.

Module Linear.
Record t := mk { in_features : Z; out_features : Z }.

Definition forward (m : t) (x : Shape) : result Shape :=
  match rev x with
  | [] => Err (RuntimeError BadRank)
  | d :: r =>
      if d =? in_features m then Ok (rev (out_features m :: r))
      else Err (RuntimeError ChannelMismatch)
  end.
End Linear.

(** ** Utilities of [core.py] *)

Module LayerNorm.
(** Only [data_format="channels_first"] is used in this file. *)
Record t := mk { normalized_shape : Z }.

Definition init (normalized_shape : Z) : result t := Ok (mk normalized_shape).

(** The [channels_first] branch of [LayerNorm.forward]. *)
Definition forward (m : t) (x : Shape) : result Shape :=
  u <- mean_keepdim1 x ;;
  d <- broadcast_shapes x u ;;
  s <- mean_keepdim1 d ;;
  xu <- broadcast_shapes x u ;;
  x <- broadcast_shapes xu s ;;
  wx <- broadcast_shapes [normalized_shape m; 1; 1] x ;;
  broadcast_shapes wx [normalized_shape m; 1; 1].
End LayerNorm.

Module StripedConv2d.
Record t := mk { conv_h : Conv2d.t; conv_v : Conv2d.t }.

Definition init (in_ch kernel_size : Z) (depthwise : bool) : result t :=
  let padding := kernel_size / 2 in
  a <- Conv2d.init in_ch in_ch (1, kernel_size) (1, 1) (0, padding)
         (if depthwise then in_ch else 1) ;;
  b <- Conv2d.init in_ch in_ch (kernel_size, 1) (1, 1) (padding, 0)
         (if depthwise then in_ch else 1) ;;
  Ok (mk a b).

Definition forward (m : t) (x : Shape) : result Shape :=
  x <- Conv2d.forward (conv_h m) x ;;
  Conv2d.forward (conv_v m) x.
End StripedConv2d.

(** [channel_shuffle(x, groups=2)] *)
Definition channel_shuffle (x : Shape) : result Shape :=
  match x with
  | [bat_size; channels; w; h] =>
      let group_c := channels / 2 in
      (* x.view(bat_size, groups, group_c, w, h) *)
      if negb (numel [bat_size; 2; group_c; w; h] =? numel x)
      then Err (RuntimeError BadView)
      (* x.view(bat_size, -1, w, h) *)
      else if (bat_size * w * h =? 0) then Err (RuntimeError BadView)
      else Ok [bat_size; numel x / (bat_size * w * h); w; h]
  | _ => Err ValueError
  end.

Module GatedFFN.
Record t := mk { fn_1 : Conv2d.t; fn_2 : Conv2d.t; gate : Conv2d.t }.

Definition init (in_ch mlp_ratio kernel_size : Z) : result t :=
  let mlp_ch := in_ch * mlp_ratio in
  fn_1 <- Conv2d.init in_ch mlp_ch (1, 1) (1, 1) (0, 0) 1 ;;
  fn_2 <- Conv2d.init in_ch in_ch (1, 1) (1, 1) (0, 0) 1 ;;
  gate <- Conv2d.init (mlp_ch / 2) (mlp_ch / 2) (kernel_size, kernel_size) (1, 1)
            (kernel_size / 2, kernel_size / 2) (mlp_ch / 2) ;;
  Ok (mk fn_1 fn_2 gate).

Definition forward (m : t) (x : Shape) : result Shape :=
  x <- Conv2d.forward (fn_1 m) x ;;
  x <- GELU x ;;
  xg <- chunk2 x ;;
  let '(x, gate_in) := xg in
  g <- Conv2d.forward (gate m) gate_in ;;
  x <- broadcast_shapes x g ;;
  x <- Conv2d.forward (fn_2 m) x ;;
  GELU x.
End GatedFFN.

(** ** MoE layer *)

Module Expert.
Record t := mk { conv_1 : Conv2d.t; conv_2 : Conv2d.t; conv_3 : Conv2d.t }.

Definition init (in_ch low_dim : Z) : result t :=
  c1 <- Conv2d.init in_ch low_dim (1, 1) (1, 1) (0, 0) 1 ;;
  c2 <- Conv2d.init in_ch low_dim (1, 1) (1, 1) (0, 0) 1 ;;
  c3 <- Conv2d.init low_dim in_ch (1, 1) (1, 1) (0, 0) 1 ;;
  Ok (mk c1 c2 c3).

Definition forward (m : t) (x k : Shape) : result Shape :=
  x <- Conv2d.forward (conv_1 m) x ;;
  k <- Conv2d.forward (conv_2 m) k ;;
  x <- broadcast_shapes k x ;;
  Conv2d.forward (conv_3 m) x.
End Expert.

Module Router.
(** [AdaptiveAvgPool2d(1)], [Squeeze()], [Linear(in_ch, num_experts)] *)
Record t := mk { body : Linear.t }.

Definition init (in_ch num_experts : Z) : t := mk (Linear.mk in_ch num_experts).

Definition forward (m : t) (x : Shape) : result Shape :=
  x <- adaptive_avg_pool_1 x ;;
  x <- squeeze_last x ;;
  x <- squeeze_last x ;;
  Linear.forward (body m) x.
End Router.

(** *** Routing

    [pick b j] stands for [topk_experts[b, j]], the index of the expert of
    rank [j] for batch item [b].  It is the only value the shape semantics
    depends on, and it is a parameter of the inference path. *)
Definition Routing : Type := Z -> Z -> Z.

Module MoELayer.
Record t := mk { experts : list Expert.t; gate : Router.t; num_expert : Z }.

Definition init (experts : list Expert.t) (gate : Router.t) (num_expert : Z)
  : result t :=
  (* assert len(experts) > 0 *)
  if 0 <? Z.of_nat (List.length experts) then Ok (mk experts gate num_expert)
  else Err AssertionError.

(** [self.experts[i]] for a non-negative index. *)
Definition get_expert (m : t) (i : Z) : result Expert.t :=
  if (i <? 0) || (Z.of_nat (List.length (experts m)) <=? i) then Err IndexError
  else match nth_error (experts m) (Z.to_nat i) with
       | Some e => Ok e
       | None => Err IndexError
       end.

(** [[self.experts[i] for i in topk_experts.squeeze(dim=0)]].  Iterating a
    tensor yields its slices along dimension 0; a slice is accepted as a list
    index only when it holds a single element. *)
Definition selected_experts (m : t) (pick : Routing) (topk_experts : Shape)
  : result (list Expert.t) :=
  sq <- squeeze0 topk_experts ;;
  match sq with
  | [] => Err TypeError   (* iteration over a 0-d tensor *)
  | [k] => mapM (fun j => get_expert m (pick 0 j)) (range k)
  | n :: item =>
      mapM (fun b => if numel item =? 1 then get_expert m (pick b 0)
                     else Err TypeError) (range n)
  end.

(** One step of either loop:
    [out += expert(inputs, k) * w[:, i : i + 1, None, None]]
    where [w] has shape [wshape]. *)
Definition accumulate (inputs k wshape : Shape) (i : Z) (expert : Expert.t)
           (out : Shape) : result Shape :=
  y <- Expert.forward expert inputs k ;;
  match wshape with
  | [n; cols] =>
      yw <- broadcast_shapes y [n; slice_len i (i + 1) cols; 1; 1] ;;
      iadd out yw
  | _ => Err IndexError
  end.

(** [for i, expert in enumerate(es): out += ...] *)
Fixpoint enumerate_loop (inputs k wshape : Shape) (i : Z) (es : list Expert.t)
         (out : Shape) : result Shape :=
  match es with
  | [] => Ok out
  | e :: es' =>
      out' <- accumulate inputs k wshape i e out ;;
      enumerate_loop inputs k wshape (i + 1) es' out'
  end.

Definition forward (m : t) (training : bool) (pick : Routing) (inputs k : Shape)
  : result Shape :=
  out <- Router.forward (gate m) inputs ;;
  weights <- softmax_dim1 out ;;
  topk_weights <- topk_shape weights (num_expert m) ;;
  let topk_experts := topk_weights in
  let out := inputs in
  if training then
    let exp_weights := weights in
    enumerate_loop inputs k exp_weights 0 (experts m) out
  else
    sel <- selected_experts m pick topk_experts ;;
    enumerate_loop inputs k topk_weights 0 sel out.
End MoELayer.

(** The [lr_space] argument: annotated [str] in [MoEBlock], but [SeemoRe]
    declares it [int] with default [1] and passes it through. *)
Inductive LrSpace :=
| LrStr (s : string)
| LrInt (n : Z).

Definition grow_func (lr_space : LrSpace) : result (Z -> Z) :=
  match lr_space with
  | LrStr s =>
      if String.eqb s "linear" then Ok (fun i => i + 2)
      else if String.eqb s "exp" then Ok (fun i => 2 ^ (i + 1))
      else if String.eqb s "double" then Ok (fun i => 2 * i + 2)
      else Err NotImplementedError
  | LrInt _ => Err NotImplementedError
  end.

Module MoEBlock.
Record t := mk {
  use_shuffle : bool;
  recursive : Z;
  conv_1 : Conv2d.t * Conv2d.t;       (* Conv2d, GELU, Conv2d *)
  agg_conv : Conv2d.t;                (* Conv2d, GELU *)
  conv : Conv2d.t * Conv2d.t;
  conv_2 : StripedConv2d.t;           (* StripedConv2d, GELU *)
  moe_layer : MoELayer.t;
  proj : Conv2d.t
}.

Definition init (in_ch num_experts topk : Z) (use_shuffle : bool)
           (lr_space : LrSpace) (recursive : Z) : result t :=
  c1a <- Conv2d.init in_ch in_ch (3, 3) (1, 1) (1, 1) 1 ;;
  c1b <- Conv2d.init in_ch (2 * in_ch) (1, 1) (1, 1) (0, 0) 1 ;;
  agg <- Conv2d.init in_ch in_ch (4, 4) (4, 4) (0, 0) in_ch ;;
  ca <- Conv2d.init in_ch in_ch (3, 3) (1, 1) (1, 1) in_ch ;;
  cb <- Conv2d.init in_ch in_ch (1, 1) (1, 1) (0, 0) 1 ;;
  c2 <- StripedConv2d.init in_ch 3 true ;;
  grow <- grow_func lr_space ;;
  experts <- mapM (fun i => Expert.init in_ch (grow i)) (range num_experts) ;;
  let gate := Router.init in_ch num_experts in
  moe <- MoELayer.init experts gate topk ;;
  proj <- Conv2d.init in_ch in_ch (1, 1) (1, 1) (0, 0) 1 ;;
  Ok (mk use_shuffle recursive (c1a, c1b) agg (ca, cb) c2 moe proj).

Definition calibrate (m : t) (x : Shape) : result Shape :=
  match x with
  | [b; c; h; w] =>
      let res := x in
      x <- for_loop (range (recursive m))
             (fun _ x => x <- Conv2d.forward (agg_conv m) x ;; GELU x) x ;;
      x <- Conv2d.forward (fst (conv m)) x ;;
      x <- Conv2d.forward (snd (conv m)) x ;;
      x <- interpolate x h w ;;
      broadcast_shapes res x
  | _ => Err ValueError
  end.

Definition forward (m : t) (training : bool) (pick : Routing) (x : Shape)
  : result Shape :=
  x <- Conv2d.forward (fst (conv_1 m)) x ;;
  x <- GELU x ;;
  x <- Conv2d.forward (snd (conv_1 m)) x ;;
  x <- (if use_shuffle m then channel_shuffle x else Ok x) ;;
  xk <- chunk2 x ;;
  let '(x, k) := xk in
  x <- StripedConv2d.forward (conv_2 m) x ;;
  x <- GELU x ;;
  k <- calibrate m k ;;
  x <- MoELayer.forward (moe_layer m) training pick x k ;;
  Conv2d.forward (proj m) x.
End MoEBlock.

(** ** Local and global blocks *)

Module RME.
Record t := mk {
  norm_1 : LayerNorm.t; block : MoEBlock.t;
  norm_2 : LayerNorm.t; ffn : GatedFFN.t
}.

Definition init (in_ch num_experts topk : Z) (lr_space : LrSpace) (recursive : Z)
           (use_shuffle : bool) : result t :=
  norm_1 <- LayerNorm.init in_ch ;;
  block <- MoEBlock.init in_ch num_experts topk use_shuffle lr_space recursive ;;
  norm_2 <- LayerNorm.init in_ch ;;
  ffn <- GatedFFN.init in_ch 2 3 ;;
  Ok (mk norm_1 block norm_2 ffn).

Definition forward (m : t) (training : bool) (pick : Routing) (x : Shape)
  : result Shape :=
  n <- LayerNorm.forward (norm_1 m) x ;;
  b <- MoEBlock.forward (block m) training pick n ;;
  x <- broadcast_shapes b x ;;
  n <- LayerNorm.forward (norm_2 m) x ;;
  f <- GatedFFN.forward (ffn m) n ;;
  broadcast_shapes f x.
End RME.

Module StripedConvFormer.
Record t := mk {
  proj : Conv2d.t;
  to_qv : Conv2d.t;                   (* Conv2d, GELU *)
  attn : StripedConv2d.t
}.

Definition init (in_ch kernel_size : Z) : result t :=
  proj <- Conv2d.init in_ch in_ch (1, 1) (1, 1) (0, 0) 1 ;;
  to_qv <- Conv2d.init in_ch (in_ch * 2) (1, 1) (1, 1) (0, 0) 1 ;;
  attn <- StripedConv2d.init in_ch kernel_size true ;;
  Ok (mk proj to_qv attn).

Definition forward (m : t) (x : Shape) : result Shape :=
  qv <- Conv2d.forward (to_qv m) x ;;
  qv <- GELU qv ;;
  qv <- chunk2 qv ;;
  let '(q, v) := qv in
  q <- StripedConv2d.forward (attn m) q ;;
  x <- broadcast_shapes q v ;;
  Conv2d.forward (proj m) x.
End StripedConvFormer.

Module SME.
Record t := mk {
  norm_1 : LayerNorm.t; block : StripedConvFormer.t;
  norm_2 : LayerNorm.t; ffn : GatedFFN.t
}.

Definition init (in_ch kernel_size : Z) : result t :=
  norm_1 <- LayerNorm.init in_ch ;;
  block <- StripedConvFormer.init in_ch kernel_size ;;
  norm_2 <- LayerNorm.init in_ch ;;
  ffn <- GatedFFN.init in_ch 2 3 ;;
  Ok (mk norm_1 block norm_2 ffn).

Definition forward (m : t) (x : Shape) : result Shape :=
  n <- LayerNorm.forward (norm_1 m) x ;;
  b <- StripedConvFormer.forward (block m) n ;;
  x <- broadcast_shapes b x ;;
  n <- LayerNorm.forward (norm_2 m) x ;;
  f <- GatedFFN.forward (ffn m) n ;;
  broadcast_shapes f x.
End SME.

Module ResGroup.
Record t := mk { local_block : RME.t; global_block : SME.t }.

Definition init (in_ch num_experts global_kernel_size : Z) (lr_space : LrSpace)
           (topk recursive : Z) (use_shuffle : bool) : result t :=
  local_block <- RME.init in_ch num_experts topk lr_space recursive use_shuffle ;;
  global_block <- SME.init in_ch global_kernel_size ;;
  Ok (mk local_block global_block).

Definition forward (m : t) (training : bool) (pick : Routing) (x : Shape)
  : result Shape :=
  x <- RME.forward (local_block m) training pick x ;;
  SME.forward (global_block m) x.
End ResGroup.

(** ** Tensor types and meta tensors *)

Inductive Device := Cpu | Cuda.
Inductive DType := Float16 | Float32 | Float64.

(** What [tensor.type()] names: device and element type. *)
Record TensorType := { device : Device; dtype : DType }.

Definition TensorType_eqb (a b : TensorType) : bool :=
  match device a, device b with
  | Cpu, Cpu | Cuda, Cuda =>
      match dtype a, dtype b with
      | Float16, Float16 | Float32, Float32 | Float64, Float64 => true
      | _, _ => false
      end
  | _, _ => false
  end.

(** [torch.FloatTensor]: what [torch.Tensor(...)] and fresh parameters are. *)
Definition FloatTensor : TensorType := {| device := Cpu; dtype := Float32 |}.

(** A tensor without its values. *)
Record MetaTensor := { m_shape : Shape; m_type : TensorType }.

(** [t.type_as(x)] *)
Definition type_as (t x : MetaTensor) : MetaTensor :=
  {| m_shape := m_shape t; m_type := m_type x |}.

#[export] Instance MetaTensor_TensorLike : TensorLike MetaTensor := {
  shape_of := m_shape;
  new_zeros t s :=
    if existsb (fun d => d <? 0) s then Err (RuntimeError NegativeDimension)
    else Ok {| m_shape := s; m_type := m_type t |};
  getitem_hw t ys xs :=
    match m_shape t with
    | n :: c :: h :: w :: rest =>
        Ok {| m_shape := n :: c :: slice_len (fst ys) (snd ys) h
                           :: slice_len (fst xs) (snd xs) w :: rest;
              m_type := m_type t |}
    | _ => Err IndexError
    end;
  setitem_hw t ys xs src :=
    match m_shape t with
    | n :: c :: h :: w :: rest =>
        if expandable (m_shape src)
             (n :: c :: slice_len (fst ys) (snd ys) h
                :: slice_len (fst xs) (snd xs) w :: rest)
        then Ok t
        else Err (RuntimeError AssignShapeMismatch)
    | _ => Err IndexError
    end
}.

(** ** Meta architecture *)

Module SeemoRe.
(** The constructor arguments ([img_range] is a float factor and has no
    influence on shapes or exceptions; it is left out). *)
Record Config := {
  cfg_scale : Z;
  cfg_in_chans : Z;
  cfg_num_experts : Z;
  cfg_num_layers : Z;
  cfg_embedding_dim : Z;
  cfg_use_shuffle : bool;
  cfg_global_kernel_size : Z;
  cfg_recursive : Z;
  cfg_lr_space : LrSpace;
  cfg_topk : Z
}.

(** The defaults of [SeemoRe.__init__]. *)
Definition default_config : Config := {|
  cfg_scale := 4; cfg_in_chans := 3; cfg_num_experts := 6; cfg_num_layers := 6;
  cfg_embedding_dim := 64; cfg_use_shuffle := false;
  cfg_global_kernel_size := 11; cfg_recursive := 2; cfg_lr_space := LrInt 1;
  cfg_topk := 2
|}.

(** The module state.  [params] stands for the values of all weights (never
    assigned by any method below); [param_type] is their tensor type, moved
    by [to]; [training] is the flag [train()]/[eval()] set on every submodule
    alike, so it is kept once; [mean] is the plain attribute [self.mean]. *)
Record t {P : Type} := mk {
  scale : Z;
  num_in_channels : Z;
  num_out_channels : Z;
  mean : MetaTensor;
  conv_1 : Conv2d.t;
  body : list ResGroup.t;
  norm : LayerNorm.t;
  conv_2 : Conv2d.t;
  upsampler : Conv2d.t * Z;           (* Conv2d, PixelShuffle(scale) *)
  training : bool;
  param_type : TensorType;
  params : P
}.
Arguments t : clear implicits.

Definition init {P : Type} (cfg : Config) (weights : P) : result (t P) :=
  let scale := cfg_scale cfg in
  let num_in_channels := cfg_in_chans cfg in
  let num_out_channels := cfg_in_chans cfg in
  let embedding_dim := cfg_embedding_dim cfg in
  (* rgb_mean = (0.4488, 0.4371, 0.4040);
     self.mean = torch.Tensor(rgb_mean).view(1, 3, 1, 1) *)
  let mean := {| m_shape := [1; 3; 1; 1]; m_type := FloatTensor |} in
  conv_1 <- Conv2d.init num_in_channels embedding_dim (3, 3) (1, 1) (1, 1) 1 ;;
  body <- mapM (fun _ =>
            ResGroup.init embedding_dim (cfg_num_experts cfg)
              (cfg_global_kernel_size cfg) (cfg_lr_space cfg) (cfg_topk cfg)
              (cfg_recursive cfg) (cfg_use_shuffle cfg))
            (range (cfg_num_layers cfg)) ;;
  norm <- LayerNorm.init embedding_dim ;;
  conv_2 <- Conv2d.init embedding_dim embedding_dim (3, 3) (1, 1) (1, 1) 1 ;;
  up <- Conv2d.init embedding_dim (scale ^ 2 * num_out_channels)
          (3, 3) (1, 1) (1, 1) 1 ;;
  Ok (mk P scale num_in_channels num_out_channels mean conv_1 body norm conv_2
         (up, scale) true FloatTensor weights).

(** [model.to(device)] moves the parameters; [self.mean] is a plain attribute
    and is not moved. *)
Definition to {P : Type} (m : t P) (d : Device) : t P :=
  mk P (scale m) (num_in_channels m) (num_out_channels m) (mean m) (conv_1 m)
     (body m) (norm m) (conv_2 m) (upsampler m) (training m)
     {| device := d; dtype := dtype (param_type m) |} (params m).

(** [model.eval()] / [model.train(mode)] *)
Definition train {P : Type} (m : t P) (mode : bool) : t P :=
  mk P (scale m) (num_in_channels m) (num_out_channels m) (mean m) (conv_1 m)
     (body m) (norm m) (conv_2 m) (upsampler m) mode (param_type m) (params m).

(** The attribute assignment [self.mean = v]. *)
Definition set_mean {P : Type} (m : t P) (v : MetaTensor) : t P :=
  mk P (scale m) (num_in_channels m) (num_out_channels m) v (conv_1 m)
     (body m) (norm m) (conv_2 m) (upsampler m) (training m) (param_type m)
     (params m).

(** [for idx, layer in enumerate(self.body): x = layer(x)]; the routing of
    layer [idx] is [route idx]. *)
Fixpoint body_loop (training : bool) (route : Z -> Routing) (idx : Z)
         (layers : list ResGroup.t) (x : Shape) : result Shape :=
  match layers with
  | [] => Ok x
  | layer :: rest =>
      x <- ResGroup.forward layer training (route idx) x ;;
      body_loop training route (idx + 1) rest x
  end.

(** The statements of [forward] after the assignment to [self.mean], on the
    shape of [x]. *)
Definition forward_shape {P : Type} (m : t P) (route : Z -> Routing)
           (x_type : TensorType) (x : Shape) : result Shape :=
  (* x = (x - self.mean) * self.img_range *)
  x <- broadcast_shapes x (m_shape (mean m)) ;;
  (* the first convolution checks the input type against its weight *)
  x <- (if TensorType_eqb x_type (param_type m) then Conv2d.forward (conv_1 m) x
        else Err (RuntimeError TypeMismatch)) ;;
  let res := x in
  x <- body_loop (training m) route 0 (body m) x ;;
  x <- LayerNorm.forward (norm m) x ;;
  c <- Conv2d.forward (conv_2 m) x ;;
  x <- broadcast_shapes c res ;;
  x <- Conv2d.forward (fst (upsampler m)) x ;;
  x <- pixel_shuffle (snd (upsampler m)) x ;;
  (* x = x / self.img_range + self.mean *)
  broadcast_shapes x (m_shape (mean m)).

(** [forward]: the new module state and the returned tensor or exception. *)
Definition forward {P : Type} (m : t P) (route : Z -> Routing) (x : MetaTensor)
  : t P * result MetaTensor :=
  (* self.mean = self.mean.type_as(x) *)
  let m := set_mean m (type_as (mean m) x) in
  (m, s <- forward_shape m route (m_type x) (m_shape x) ;;
      Ok {| m_shape := s; m_type := m_type x |}).
End SeemoRe.

(** ** Configurations of [SeemoReUpscaler] *)

Definition seemore_t_base_cfg (scale : Z) : SeemoRe.Config := {|
  SeemoRe.cfg_scale := scale; SeemoRe.cfg_in_chans := 3;
  SeemoRe.cfg_num_experts := 3; SeemoRe.cfg_num_layers := 6;
  SeemoRe.cfg_embedding_dim := 36; SeemoRe.cfg_use_shuffle := true;
  SeemoRe.cfg_global_kernel_size := 11; SeemoRe.cfg_recursive := 2;
  SeemoRe.cfg_lr_space := LrStr "exp"; SeemoRe.cfg_topk := 1
|}.

Definition seemore_b_base_cfg (scale : Z) : SeemoRe.Config := {|
  SeemoRe.cfg_scale := scale; SeemoRe.cfg_in_chans := 3;
  SeemoRe.cfg_num_experts := 3; SeemoRe.cfg_num_layers := 8;
  SeemoRe.cfg_embedding_dim := 48; SeemoRe.cfg_use_shuffle := true;
  SeemoRe.cfg_global_kernel_size := 11; SeemoRe.cfg_recursive := 2;
  SeemoRe.cfg_lr_space := LrStr "exp"; SeemoRe.cfg_topk := 1
|}.

(** [seemore_model_cfgs]: the six names [seemore_{b,t}_x{2,3,4}]. *)
Definition seemore_model_cfgs : list (string * SeemoRe.Config) :=
  flat_map (fun model_type : string =>
    map (fun scale =>
           (("seemore_" ++ model_type ++ "_x"
               ++ String (Ascii.ascii_of_nat (48 + Z.to_nat scale)) "")%string,
            if String.eqb model_type "b" then seemore_b_base_cfg scale
            else seemore_t_base_cfg scale))
        [2; 3; 4])
    ["b"%string; "t"%string].

Fixpoint lookup_cfg (name : string) (cfgs : list (string * SeemoRe.Config))
  : option SeemoRe.Config :=
  match cfgs with
  | [] => None
  | (n, c) :: rest => if String.eqb n name then Some c else lookup_cfg name rest
  end.

(** ** Tensors with values

    Where a claim is about the numbers in a tensor, a four-dimensional tensor
    is its shape together with its elements as a function of the four
    indices (batch, channel, row, column); only the elements at indices
    inside the shape are meaningful.  Floating-point numbers are idealised as
    real numbers: [+] and [*] are exact. *)

Record VTensor (A : Type) := {
  dims : Z * Z * Z * Z;
  at4 : Z -> Z -> Z -> Z -> A
}.
Arguments dims {A} _.
Arguments at4 {A} _ _ _ _ _.

(** An index inside the shape. *)
Definition in_dims (d : Z * Z * Z * Z) (b c i j : Z) : Prop :=
  let '(n, ch, h, w) := d in
  0 <= b < n /\ 0 <= c < ch /\ 0 <= i < h /\ 0 <= j < w.

(** Two tensors with the same shape and the same elements. *)
Definition teq {A : Type} (x y : VTensor A) : Prop :=
  dims x = dims y /\
  forall b c i j, in_dims (dims x) b c i j -> at4 x b c i j = at4 y b c i j.

Definition dims_shape (d : Z * Z * Z * Z) : Shape :=
  let '(n, c, h, w) := d in [n; c; h; w].

Definition dims_eqb (a b : Z * Z * Z * Z) : bool :=
  shape_eqb (dims_shape a) (dims_shape b).

(** The index read from an operand of size [size] along one dimension when
    it is broadcast: a dimension of size 1 is read at 0. *)
Definition bidx (size i : Z) : Z := if size =? 1 then 0 else i.

Section ValueTensorLike.
Context {A : Type}.
(** The zero of the element type. *)
Variable zero : A.

Definition v_new_zeros (t : VTensor A) (s : Shape) : result (VTensor A) :=
  if existsb (fun d => d <? 0) s then Err (RuntimeError NegativeDimension)
  else match s with
       | [n; c; h; w] => Ok {| dims := (n, c, h, w); at4 := fun _ _ _ _ => zero |}
       | _ => Err (RuntimeError BadRank)
       end.

Definition v_getitem_hw (t : VTensor A) (ys xs : slice) : result (VTensor A) :=
  let '(n, c, h, w) := dims t in
  Ok {| dims := (n, c, slice_len (fst ys) (snd ys) h,
                       slice_len (fst xs) (snd xs) w);
        at4 := fun b ch i j =>
                 at4 t b ch (norm_index (fst ys) h + i)
                            (norm_index (fst xs) w + j) |}.

Definition v_setitem_hw (t : VTensor A) (ys xs : slice) (src : VTensor A)
  : result (VTensor A) :=
  let '(n, c, h, w) := dims t in
  let '(sn, sc, sh, sw) := dims src in
  let y0 := norm_index (fst ys) h in
  let x0 := norm_index (fst xs) w in
  let lh := slice_len (fst ys) (snd ys) h in
  let lw := slice_len (fst xs) (snd xs) w in
  if expandable [sn; sc; sh; sw] [n; c; lh; lw] then
    Ok {| dims := (n, c, h, w);
          at4 := fun b ch i j =>
                   if (y0 <=? i) && (i <? y0 + lh) && (x0 <=? j) && (j <? x0 + lw)
                   then at4 src (bidx sn b) (bidx sc ch)
                                (bidx sh (i - y0)) (bidx sw (j - x0))
                   else at4 t b ch i j |}
  else Err (RuntimeError AssignShapeMismatch).

#[export] Instance VTensor_TensorLike : TensorLike (VTensor A) := {
  shape_of t := dims_shape (dims t);
  new_zeros := v_new_zeros;
  getitem_hw := v_getitem_hw;
  setitem_hw := v_setitem_hw
}.
End ValueTensorLike.

(** A toy upscaler used to exercise the scheduler: nearest-neighbour
    enlargement by [scale]. *)
Definition nearest_upscale (scale : Z) (x : VTensor Z) : result (VTensor Z) :=
  let '(n, c, h, w) := dims x in
  Ok {| dims := (n, c, h * scale, w * scale);
        at4 := fun b ch i j => at4 x b ch (i / scale) (j / scale) |}.

(** A 2x3 single-channel image with pixel value [10 * row + column]. *)
Definition tiny_image : VTensor Z :=
  {| dims := (1, 1, 2, 3); at4 := fun _ _ i j => 10 * i + j |}.

(** ** Real-valued operators of the MoE layer *)

Open Scope R_scope.

Definition rsum (l : list R) : R := fold_right Rplus 0 l.

(** [sum(f(i) for i in range(n))] *)
Definition sum_range (n : Z) (f : Z -> R) : R := rsum (map f (range n)).

Definition broadcast_dims (a b : Z * Z * Z * Z) : result (Z * Z * Z * Z) :=
  let '(an, ac, ah, aw) := a in
  let '(bn, bc, bh, bw) := b in
  w <- broadcast_dim aw bw ;;
  h <- broadcast_dim ah bh ;;
  c <- broadcast_dim ac bc ;;
  n <- broadcast_dim an bn ;;
  Ok (n, c, h, w).

(** An elementwise binary operator with broadcasting. *)
Definition vbinop (f : R -> R -> R) (a b : VTensor R) : result (VTensor R) :=
  d <- broadcast_dims (dims a) (dims b) ;;
  let '(an, ac, ah, aw) := dims a in
  let '(bn, bc, bh, bw) := dims b in
  Ok {| dims := d;
        at4 := fun n c i j =>
                 f (at4 a (bidx an n) (bidx ac c) (bidx ah i) (bidx aw j))
                   (at4 b (bidx bn n) (bidx bc c) (bidx bh i) (bidx bw j)) |}.

Definition vmul : VTensor R -> VTensor R -> result (VTensor R) := vbinop Rmult.
Definition vadd : VTensor R -> VTensor R -> result (VTensor R) := vbinop Rplus.

(** [out += t] *)
Definition viadd (out t : VTensor R) : result (VTensor R) :=
  s <- vadd out t ;;
  if dims_eqb (dims s) (dims out) then Ok {| dims := dims out; at4 := at4 s |}
  else Err (RuntimeError InplaceShapeMismatch).

(** [F.softmax] of one row in exact arithmetic: the function the library
    computes in float32.  The theorems on the two paths of the layer and on
    its output as a mixture are stated on it; the library's computation with
    its rounding is [softmax32] below, on which the bounds of the gate
    weights are stated. *)
Definition softmax (row : list R) : list R :=
  let s := rsum (map exp row) in map (fun x => exp x / s) row.

(** The largest entry of [best :: l]; among equal entries the first. *)
Fixpoint argmax (best : R * Z) (l : list (R * Z)) : R * Z :=
  match l with
  | [] => best
  | x :: l' =>
      if Rlt_dec (fst best) (fst x) then argmax x l' else argmax best l'
  end.

Definition remove_idx (i : Z) (l : list (R * Z)) : list (R * Z) :=
  filter (fun p => negb (Z.eqb (snd p) i)) l.

(** The [k] largest (value, index) pairs, largest first. *)
Fixpoint topk_sel (k : nat) (l : list (R * Z)) : list (R * Z) :=
  match k with
  | O => []
  | S k' =>
      match l with
      | [] => []
      | x :: l' =>
          let b := argmax x l' in b :: topk_sel k' (remove_idx (snd b) l)
      end
  end.

(** A row with its column indices. *)
Definition indexed (row : list R) : list (R * Z) :=
  combine row (range (Z.of_nat (List.length row))).

(** [torch.topk(row, k)]: values and indices. *)
Definition topk_row (row : list R) (k : Z) : list R * list Z :=
  let sel := topk_sel (Z.to_nat k) (indexed row) in (map fst sel, map snd sel).

(** [row[i]] *)
Definition getcol (row : list R) (i : Z) : R := nth (Z.to_nat i) row 0.

(** [row[i] = v] *)
Definition setcol (row : list R) (i : Z) (v : R) : list R :=
  map (fun p => if Z.eqb (snd p) i then v else fst p) (indexed row).

(** One row of [exp_weights.scatter_(1, index, src)]. *)
Definition scatter_row (row : list R) (index : list Z) (src : list R) : list R :=
  fold_left (fun r p => setcol r (fst p) (snd p)) (combine index src) row.

(** One row of [weights.gather(1, index)]. *)
Definition gather_row (row : list R) (index : list Z) : list R :=
  map (getcol row) index.

(** [w[:, i : i + 1, None, None]] for a matrix [w] with [cols] columns, given
    by its rows. *)
Definition wslice (w : list (list R)) (cols i : Z) : VTensor R :=
  {| dims := (Z.of_nat (List.length w), slice_len i (i + 1) cols, 1%Z, 1%Z);
     at4 := fun b c _ _ =>
              getcol (nth (Z.to_nat b) w []) (norm_index i cols + c)%Z |}.

(** [nn.Conv2d(in_channels, out_channels, kernel_size=1, padding=0)] with its
    weight [weight o c] and bias [bias o]. *)
Module VConv.
Record t := mk {
  in_channels : Z; out_channels : Z;
  weight : Z -> Z -> R; bias : Z -> R
}.

Definition forward (m : t) (x : VTensor R) : result (VTensor R) :=
  let '(n, c, h, w) := dims x in
  if negb (c =? in_channels m)%Z then Err (RuntimeError ChannelMismatch)
  else if ((h <? 1) || (w <? 1))%Z then Err (RuntimeError KernelTooLarge)
  else Ok {| dims := (n, out_channels m, h, w);
             at4 := fun b o i j =>
                      bias m o +
                      sum_range (in_channels m)
                        (fun ci => weight m o ci * at4 x b ci i j) |}.
End VConv.

Module VExpert.
Record t := mk { conv_1 : VConv.t; conv_2 : VConv.t; conv_3 : VConv.t }.

Definition forward (m : t) (x k : VTensor R) : result (VTensor R) :=
  x <- VConv.forward (conv_1 m) x ;;
  k <- VConv.forward (conv_2 m) k ;;
  x <- vmul k x ;;
  VConv.forward (conv_3 m) x.
End VExpert.

Module VRouter.
(** [AdaptiveAvgPool2d(1)], [Squeeze()], [Linear(in_ch, num_experts,
    bias=False)] with its weight [weight e c]. *)
Record t := mk { in_ch : Z; num_experts : Z; weight : Z -> Z -> R }.

(** The mean of channel [c] of batch item [b]. *)
Definition pooled (x : VTensor R) (b c : Z) : R :=
  let '(_, _, h, w) := dims x in
  sum_range h (fun i => sum_range w (fun j => at4 x b c i j)) / IZR (h * w).

(** The scores of batch item [b]. *)
Definition logits (m : t) (x : VTensor R) (b : Z) : list R :=
  map (fun e => sum_range (in_ch m) (fun c => weight m e c * pooled x b c))
      (range (num_experts m)).

(** The [(batch, num_experts)] matrix of scores, by rows. *)
Definition forward (m : t) (x : VTensor R) : result (list (list R)) :=
  let '(n, c, h, w) := dims x in
  if ((c =? 0) || (h =? 0) || (w =? 0))%Z then Err (RuntimeError EmptyInput)
  else if negb (c =? in_ch m)%Z then Err (RuntimeError ChannelMismatch)
  else Ok (map (logits m x) (range n)).
End VRouter.

Module VMoELayer.
Record t := mk { experts : list VExpert.t; gate : VRouter.t; num_expert : Z }.

(** [self.experts[i]] *)
Definition get_expert (m : t) (i : Z) : result VExpert.t :=
  if ((i <? 0) || (Z.of_nat (List.length (experts m)) <=? i))%Z
  then Err IndexError
  else match nth_error (experts m) (Z.to_nat i) with
       | Some e => Ok e
       | None => Err IndexError
       end.

(** [weights = F.softmax(self.gate(inputs), dim=1)], by rows, in exact
    arithmetic. *)
Definition gate_weights (m : t) (inputs : VTensor R) : result (list (list R)) :=
  out <- VRouter.forward (gate m) inputs ;;
  Ok (map softmax out).

(** [torch.topk(weights, self.num_expert)]: the rows of [topk_weights] and
    of [topk_experts]. *)
Definition topk (m : t) (weights : list (list R))
  : result (list (list R) * list (list Z)) :=
  if ((num_expert m <? 0) || (VRouter.num_experts (gate m) <? num_expert m))%Z
  then Err (RuntimeError TopkOutOfRange)
  else Ok (map (fun row => fst (topk_row row (num_expert m))) weights,
           map (fun row => snd (topk_row row (num_expert m))) weights).

(** [[self.experts[i] for i in topk_experts.squeeze(dim=0)]] *)
Definition selected_experts (m : t) (topk_experts : list (list Z))
  : result (list VExpert.t) :=
  match topk_experts with
  | [row] => mapM (get_expert m) row
  | rows => mapM (fun r => match r with
                           | [i] => get_expert m i
                           | _ => Err TypeError
                           end) rows
  end.

(** [out += expert(inputs, k) * w[:, i : i + 1, None, None]] *)
Definition accumulate (inputs k : VTensor R) (w : list (list R)) (cols i : Z)
           (expert : VExpert.t) (out : VTensor R) : result (VTensor R) :=
  y <- VExpert.forward expert inputs k ;;
  yw <- vmul y (wslice w cols i) ;;
  viadd out yw.

Fixpoint enumerate_loop (inputs k : VTensor R) (w : list (list R)) (cols i : Z)
         (es : list VExpert.t) (out : VTensor R) : result (VTensor R) :=
  match es with
  | [] => Ok out
  | e :: es' =>
      out' <- accumulate inputs k w cols i e out ;;
      enumerate_loop inputs k w cols (i + 1)%Z es' out'
  end.

(** [exp_weights]: zeros with the selected weights scattered in. *)
Definition exp_weights (weights : list (list R)) (topk_experts : list (list Z))
  : list (list R) :=
  map (fun p => scatter_row (map (fun _ => 0) (fst p)) (snd p)
                            (gather_row (fst p) (snd p)))
      (combine weights topk_experts).

Definition forward (m : t) (training : bool) (inputs k : VTensor R)
  : result (VTensor R) :=
  weights <- gate_weights m inputs ;;
  tk <- topk m weights ;;
  let '(topk_weights, topk_experts) := tk in
  let out := inputs in
  if training then
    enumerate_loop inputs k (exp_weights weights topk_experts)
      (VRouter.num_experts (gate m)) 0%Z (experts m) out
  else
    sel <- selected_experts m topk_experts ;;
    enumerate_loop inputs k topk_weights (num_expert m) 0%Z sel out.
End VMoELayer.

Close Scope R_scope.

(** ** Specification predicates *)

(** The padded input window and the valid output window of one tile. *)
Definition padding_ok (scale height width : Z) (tb : TileBounds) : Prop :=
  (0 <= x_start_pad tb <= x_start tb /\ x_start tb < x_end tb
   /\ x_end tb <= x_end_pad tb <= width) /\
  (0 <= y_start_pad tb <= y_start tb /\ y_start tb < y_end tb
   /\ y_end tb <= y_end_pad tb <= height) /\
  x_start tb - x_start_pad tb = Z.min 12 (x_start tb) /\
  x_end_pad tb - x_end tb = Z.min 12 (width - x_end tb) /\
  y_start tb - y_start_pad tb = Z.min 12 (y_start tb) /\
  y_end_pad tb - y_end tb = Z.min 12 (height - y_end tb) /\
  (* the window read from the tile's output has the size of the window
     written, and lies inside the output of the padded tile *)
  out_x_end_valid tb - out_x_start_valid tb = out_x_end tb - out_x_start tb /\
  out_y_end_valid tb - out_y_start_valid tb = out_y_end tb - out_y_start tb /\
  0 <= out_x_start_valid tb /\
  out_x_end_valid tb <= (x_end_pad tb - x_start_pad tb) * scale /\
  0 <= out_y_start_valid tb /\
  out_y_end_valid tb <= (y_end_pad tb - y_start_pad tb) * scale.

(** A 100x100 RGB image on the CPU. *)
Definition image_100 : MetaTensor :=
  {| m_shape := [1; 3; 100; 100]; m_type := FloatTensor |}.

(** An expert that maps a pair of [d]-channel feature maps to a [d]-channel
    feature map of the same size. *)
Definition Expert_ok (d : Z) (e : Expert.t) : Prop :=
  forall n h w, 1 <= h -> 1 <= w ->
    Expert.forward e [n; d; h; w] [n; d; h; w] = Ok [n; d; h; w].

(** The indices [torch.topk] returns address experts. *)
Definition valid_pick (num_experts : Z) (pick : Routing) : Prop :=
  forall b j, 0 <= pick b j < num_experts.

(** What the constructor arguments of a block must satisfy. *)
Definition valid_lr_space (lr : LrSpace) : Prop :=
  lr = LrStr "linear" \/ lr = LrStr "exp" \/ lr = LrStr "double".

(** The conditions under which a block maps [n, d, h, w] to itself. *)
Definition runnable (training : bool) (num_experts topk recursive : Z)
           (pick : Routing) (n h w : Z) : Prop :=
  1 <= n /\ 0 <= recursive /\ 4 ^ recursive <= h /\ 4 ^ recursive <= w /\
  0 <= topk <= num_experts /\
  (training = true \/ (n = 1 /\ valid_pick num_experts pick)).

(** A layer of the body that keeps the shape [n, d, h, w] of a feature map. *)
Definition ResGroup_ok (d num_experts topk recursive : Z) (m : ResGroup.t)
  : Prop :=
  forall training pick n h w,
    runnable training num_experts topk recursive pick n h w ->
    ResGroup.forward m training pick [n; d; h; w] = Ok [n; d; h; w].

(** Every layer is routed to existing experts. *)
Definition valid_route (num_experts : Z) (route : Z -> Routing) : Prop :=
  forall idx, valid_pick num_experts (route idx).

(** Constructor arguments for which [SeemoRe] can be built and run: three
    input channels (the mean is RGB), a positive scale and width, at least one
    expert, a top-k within the experts, a known growth policy, an odd global
    kernel and a non-negative calibration depth. *)
Definition valid_config (cfg : SeemoRe.Config) : Prop :=
  SeemoRe.cfg_in_chans cfg = 3 /\
  1 <= SeemoRe.cfg_scale cfg /\
  1 <= SeemoRe.cfg_embedding_dim cfg /\
  1 <= SeemoRe.cfg_num_experts cfg /\
  0 <= SeemoRe.cfg_topk cfg <= SeemoRe.cfg_num_experts cfg /\
  valid_lr_space (SeemoRe.cfg_lr_space cfg) /\
  1 <= SeemoRe.cfg_global_kernel_size cfg /\
  SeemoRe.cfg_global_kernel_size cfg mod 2 = 1 /\
  0 <= SeemoRe.cfg_recursive cfg.

(** A routing that always names expert 0. *)
Definition route0 : Z -> Routing := fun _ _ _ => 0.

(** [self.model(x)] as the scheduler sees it: the returned tensor. *)
Definition run_model {P : Type} (m : SeemoRe.t P) (route : Z -> Routing)
           (x : MetaTensor) : result MetaTensor :=
  snd (SeemoRe.forward m route x).

(** An image tensor of the given size, as [__call__] builds it. *)
Definition image (t : TensorType) (h w : Z) : MetaTensor :=
  {| m_shape := [1; 3; h; w]; m_type := t |}.

(** The same configuration as [seemore_t_x2] with four input channels. *)
Definition rgba_cfg : SeemoRe.Config := {|
  SeemoRe.cfg_scale := 2; SeemoRe.cfg_in_chans := 4;
  SeemoRe.cfg_num_experts := 3; SeemoRe.cfg_num_layers := 6;
  SeemoRe.cfg_embedding_dim := 36; SeemoRe.cfg_use_shuffle := true;
  SeemoRe.cfg_global_kernel_size := 11; SeemoRe.cfg_recursive := 2;
  SeemoRe.cfg_lr_space := LrStr "exp"; SeemoRe.cfg_topk := 1
|}.

(** [torch.cuda.FloatTensor] *)
Definition CudaFloatTensor : TensorType := {| device := Cuda; dtype := Float32 |}.

(** An expert as [Expert.__init__(in_ch=d, low_dim)] builds it: [conv_1] and
    [conv_2] map [d] channels to the same bottleneck width, [conv_3] maps the
    bottleneck back to [d] channels. *)
Definition VExpert_shaped (d : Z) (e : VExpert.t) : Prop :=
  VConv.in_channels (VExpert.conv_1 e) = d /\
  VConv.in_channels (VExpert.conv_2 e) = d /\
  VConv.out_channels (VExpert.conv_2 e) = VConv.out_channels (VExpert.conv_1 e) /\
  VConv.in_channels (VExpert.conv_3 e) = VConv.out_channels (VExpert.conv_1 e) /\
  VConv.out_channels (VExpert.conv_3 e) = d.

(** A layer as [MoEBlock.__init__] builds it: the router scores as many
    experts as the layer holds, on the experts' channel count. *)
Definition VMoELayer_ok (d : Z) (m : VMoELayer.t) : Prop :=
  Forall (VExpert_shaped d) (VMoELayer.experts m) /\
  VRouter.in_ch (VMoELayer.gate m) = d /\
  VRouter.num_experts (VMoELayer.gate m)
    = Z.of_nat (List.length (VMoELayer.experts m)).

(** A layer of three experts on two channels with top-2 routing, and a 1x2
    two-channel input, used to exercise the theorems on the MoE layer. *)
Definition demo_conv (i o : Z) : VConv.t :=
  VConv.mk i o (fun a b => IZR (a + 2 * b + 1)) (fun a => IZR a).

Definition demo_expert (low : Z) : VExpert.t :=
  VExpert.mk (demo_conv 2 low) (demo_conv 2 low) (demo_conv low 2).

Definition demo_layer (k : Z) : VMoELayer.t :=
  VMoELayer.mk [demo_expert 2; demo_expert 4; demo_expert 8]
    (VRouter.mk 2 3 (fun e c => IZR (e - c))) k.

Definition demo_input : VTensor R :=
  {| dims := (1, 2, 1, 2); at4 := fun _ c _ j => IZR (c + j) |}.

(** Two items of that size in one batch. *)
Definition demo_batch : VTensor R :=
  {| dims := (2, 2, 1, 2); at4 := fun b c _ j => IZR (b + c + j) |}.

(** The element of [expert(inputs, k)] at an index (0 if the expert raises). *)
Definition expert_val (e : VExpert.t) (inputs k : VTensor R) (b c i j : Z) : R :=
  match VExpert.forward e inputs k with
  | Ok y => at4 y b c i j
  | Err _ => 0%R
  end.

(** What the loop [for i, expert in enumerate(es)] adds to one element of
    [out]: the sum of [ev expert * wv i], the columns counted from [i]. *)
Fixpoint wsum (ev : VExpert.t -> R) (wv : Z -> R) (i : Z) (es : list VExpert.t)
  : R :=
  match es with
  | [] => 0%R
  | e :: es' => (ev e * wv i + wsum ev wv (i + 1) es')%R
  end.

(** [ev] of the expert of index [idx] in a list. *)
Definition at_index (es : list VExpert.t) (ev : VExpert.t -> R) (idx : Z) : R :=
  match nth_error es (Z.to_nat idx) with
  | Some e => ev e
  | None => 0%R
  end.

(** The gate weights of batch item [b]. *)
Definition gate_row (m : VMoELayer.t) (inputs : VTensor R) (b : Z) : list R :=
  softmax (VRouter.logits (VMoELayer.gate m) inputs b).

(** One row of [exp_weights] of the training path. *)
Definition dense_row (row : list R) (k : Z) : list R :=
  scatter_row (map (fun _ => 0%R) row) (snd (topk_row row k))
              (gather_row row (snd (topk_row row k))).

(** Batch item [b] of a tensor, as a batch of one. *)
Definition item {A : Type} (t : VTensor A) (b : Z) : VTensor A :=
  let '(_, c, h, w) := dims t in
  {| dims := (1, c, h, w); at4 := fun _ ch i j => at4 t b ch i j |}.

(** ** Further definitions *)

(** A configuration with another [global_kernel_size]. *)
Definition with_global_kernel_size (cfg : SeemoRe.Config) (k : Z)
  : SeemoRe.Config := {|
  SeemoRe.cfg_scale := SeemoRe.cfg_scale cfg;
  SeemoRe.cfg_in_chans := SeemoRe.cfg_in_chans cfg;
  SeemoRe.cfg_num_experts := SeemoRe.cfg_num_experts cfg;
  SeemoRe.cfg_num_layers := SeemoRe.cfg_num_layers cfg;
  SeemoRe.cfg_embedding_dim := SeemoRe.cfg_embedding_dim cfg;
  SeemoRe.cfg_use_shuffle := SeemoRe.cfg_use_shuffle cfg;
  SeemoRe.cfg_global_kernel_size := k;
  SeemoRe.cfg_recursive := SeemoRe.cfg_recursive cfg;
  SeemoRe.cfg_lr_space := SeemoRe.cfg_lr_space cfg;
  SeemoRe.cfg_topk := SeemoRe.cfg_topk cfg
|}.

(** ** Tiles as the model sees them *)

(** The size of the padded window [y[:, :, y_start_pad:y_end_pad,
    x_start_pad:x_end_pad]] handed to the model. *)
Definition padded_height (tb : TileBounds) : Z := y_end_pad tb - y_start_pad tb.
Definition padded_width (tb : TileBounds) : Z := x_end_pad tb - x_start_pad tb.

(** The padded window is at least [min_side] pixels high and wide. *)
Definition tile_fits (min_side : Z) (tb : TileBounds) : bool :=
  (min_side <=? padded_height tb) && (min_side <=? padded_width tb).

(** Every tile of the schedule is. *)
Definition all_tiles_fit (min_side scale height width tile_size : Z) : bool :=
  match tile_schedule scale height width tile_size with
  | Ok tiles => forallb (tile_fits min_side) tiles
  | Err _ => false
  end.

(** The first two statements of the loop body: the padded window of a tile
    and the model's output on it. *)
Definition tile_output {A : Type} (model : VTensor A -> result (VTensor A))
           (y : VTensor A) (tb : TileBounds) : result (VTensor A) :=
  tile <- v_getitem_hw y (y_start_pad tb, y_end_pad tb)
                         (x_start_pad tb, x_end_pad tb) ;;
  model tile.

(** The model enlarges the padded window of a tile [scale] times. *)
Definition tile_scaled {A : Type} (model : VTensor A -> result (VTensor A))
           (scale : Z) (y : VTensor A) (tb : TileBounds) : Prop :=
  let '(n, c, _, _) := dims y in
  exists out_tile,
    tile_output model y tb = Ok out_tile /\
    dims out_tile = (n, c, padded_height tb * scale, padded_width tb * scale).

(** A 100x100 single-channel image with pixel value [100 * row + column]. *)
Definition numbered_image : VTensor Z :=
  {| dims := (1, 1, 100, 100); at4 := fun _ _ i j => 100 * i + j |}.

(** The model, run on the padded window of a tile, returns over the tile's
    valid region what it returns there when run on the whole image [y]
    (with result [whole]). *)
Definition tile_exact {A : Type} (model : VTensor A -> result (VTensor A))
           (scale : Z) (y whole : VTensor A) (tb : TileBounds) : Prop :=
  let '(n, c, _, _) := dims y in
  exists tile out_tile,
    v_getitem_hw y (y_start_pad tb, y_end_pad tb) (x_start_pad tb, x_end_pad tb)
      = Ok tile /\
    model tile = Ok out_tile /\
    dims out_tile = (n, c, padded_height tb * scale, padded_width tb * scale) /\
    forall b ch oy ox,
      0 <= b < n -> 0 <= ch < c -> writes tb oy ox ->
      at4 out_tile b ch (out_y_start_valid tb + (oy - out_y_start tb))
                        (out_x_start_valid tb + (ox - out_x_start tb))
      = at4 whole b ch oy ox.

(** ** [SeemoReUpscaler] *)

(** [model.load_state_dict(state_dict)]: assigns the parameters only. *)
Definition load_state_dict {P : Type} (m : SeemoRe.t P) (state_dict : P)
  : SeemoRe.t P :=
  SeemoRe.mk P (SeemoRe.scale m) (SeemoRe.num_in_channels m)
    (SeemoRe.num_out_channels m) (SeemoRe.mean m) (SeemoRe.conv_1 m)
    (SeemoRe.body m) (SeemoRe.norm m) (SeemoRe.conv_2 m) (SeemoRe.upsampler m)
    (SeemoRe.training m) (SeemoRe.param_type m) state_dict.

(** How [__call__] treats the channels of the image it is given. *)
Inductive ImageMode :=
| IMAGE_MODE_GRAY
| IMAGE_MODE_BGRA
| IMAGE_MODE_BGR.

(** [__call__] calls OpenCV next to torch: besides a Python exception it can
    end in a [cv2.error]. *)
Inductive outcome (A : Type) : Type :=
| Returned (a : A)
| Raised (e : PyError)
| Cv2Error.
Arguments Returned {A} a.
Arguments Raised {A} e.
Arguments Cv2Error {A}.

Definition obind {A B : Type} (r : outcome A) (f : A -> outcome B) : outcome B :=
  match r with
  | Returned a => f a
  | Raised e => Raised e
  | Cv2Error => Cv2Error
  end.

Notation "x <~ c1 ;; c2" := (obind c1 (fun x => c2))
  (at level 61, c1 at next level, right associativity).

Definition of_result {A : Type} (r : result A) : outcome A :=
  match r with Ok a => Returned a | Err e => Raised e end.

(** *** OpenCV and numpy on the shapes of arrays

    An image is a numpy array of bytes, here its shape: [h; w] or
    [h; w; channels]. *)

(** The number of channels OpenCV sees in an array of at most three
    dimensions. *)
Definition cv_channels (img : list Z) : option Z :=
  match img with
  | [_; _] => Some 1
  | [_; _; c] => Some c
  | _ => None
  end.

Definition cv_empty (img : list Z) : bool :=
  match img with
  | h :: w :: _ => (h <=? 0) || (w <=? 0)
  | _ => true
  end.

(** The colour conversions [__call__] uses: the channel counts accepted and
    the channels of the result ([None]: a two-dimensional array). *)
Inductive ColorCode :=
| COLOR_GRAY2RGB | COLOR_BGR2RGB | COLOR_RGB2GRAY | COLOR_RGB2BGRA | COLOR_RGB2BGR.

Definition cv_accepts (code : ColorCode) (scn : Z) : bool :=
  match code with
  | COLOR_GRAY2RGB => scn =? 1
  | _ => (scn =? 3) || (scn =? 4)
  end.

Definition cv_dst_channels (code : ColorCode) : option Z :=
  match code with
  | COLOR_GRAY2RGB | COLOR_BGR2RGB | COLOR_RGB2BGR => Some 3
  | COLOR_RGB2GRAY => None
  | COLOR_RGB2BGRA => Some 4
  end.

(** [cv2.cvtColor(img, code)] *)
Definition cvtColor (img : list Z) (code : ColorCode) : outcome (list Z) :=
  match cv_channels img, img with
  | Some scn, h :: w :: _ =>
      if cv_empty img then Cv2Error
      else if cv_accepts code scn then
        Returned (match cv_dst_channels code with
                  | Some c => [h; w; c]
                  | None => [h; w]
                  end)
      else Cv2Error
  | _, _ => Cv2Error
  end.

(** [cv2.resize(img, (dw, dh), interpolation=...)] *)
Definition resize (img : list Z) (dw dh : Z) : outcome (list Z) :=
  if cv_empty img || (dw <=? 0) || (dh <=? 0) then Cv2Error
  else match img with
       | [_; _] => Returned [dh; dw]
       | [_; _; c] =>
           if 1 <=? c then Returned (if c =? 1 then [dh; dw] else [dh; dw; c])
           else Cv2Error
       | _ => Cv2Error
       end.

(** [x.squeeze()]: every dimension of size one is dropped. *)
Definition squeeze_all (x : Shape) : Shape := filter (fun d => negb (d =? 1)) x.

(** [x.permute(1, 2, 0)] *)
Definition permute_120 (x : Shape) : result Shape :=
  match x with
  | [a; b; c] => Ok [b; c; a]
  | _ => Err (RuntimeError BadRank)
  end.

(** [x.permute(2, 0, 1).unsqueeze(0)] *)
Definition permute_201_unsqueeze (x : list Z) : result Shape :=
  match x with
  | [a; b; c] => Ok [1; c; a; b]
  | _ => Err (RuntimeError BadRank)
  end.

(** [img[:, :, 3] = alpha] *)
Definition assign_channel (img alpha : list Z) : result (list Z) :=
  match img with
  | [h; w; c] =>
      if c <=? 3 then Err IndexError
      else if expandable alpha [h; w] then Ok img
      else Err ValueError
  | _ => Err IndexError
  end.

(** The type of [y]: a [float32] tensor on the device. *)
Definition float_on (d : Device) : TensorType :=
  {| device := d; dtype := Float32 |}.

Module SeemoReUpscaler.
Record t {P : Type} := mk { model : SeemoRe.t P; device : Device }.
Arguments t : clear implicits.
Arguments mk {P} model device.

Section Upscaler.
Context {P : Type}.

(** The freshly initialised parameters of [SeemoRe(...)], and what
    [torch.load(ckpt_path, map_location="cpu")["params"]] followed by
    [load_state_dict(state_dict, strict=True)] gives for a path: the loaded
    parameters or the exception raised on the way. *)
Variable fresh : P.
Variable load_params : string -> result P.

Definition init (model_name : string) (dev : Device) : result (t P) :=
  match lookup_cfg model_name seemore_model_cfgs with
  | None => Err ValueError
  | Some cfg =>
      m <- SeemoRe.init cfg fresh ;;
      let ckpt_path := ""%string in
      state_dict <- load_params ckpt_path ;;
      let m := load_state_dict m state_dict in
      let m := SeemoRe.to m dev in
      Ok (mk m dev)
  end.

(** The routing of the MoE layers, should the model be in evaluation mode. *)
Variable route : Z -> Routing.

(** The branch of [__call__] on the layout of [np_img]. *)
Definition image_mode (np_img : list Z) : ImageMode :=
  match np_img with
  | [_; _] => IMAGE_MODE_GRAY
  | [_; _; c] =>
      if c =? 1 then IMAGE_MODE_GRAY
      else if c =? 4 then IMAGE_MODE_BGRA
      else IMAGE_MODE_BGR
  | _ => IMAGE_MODE_BGR
  end.

(** [__call__] on the shape of [np_img]: the shape of the returned array. *)
Definition call (u : t P) (np_img : list Z) (tile_size scale : Z)
  : outcome (list Z) :=
  match np_img with
  | original_h :: original_w :: _ =>
      let mode := image_mode np_img in
      (* the alpha plane [np_img[:, :, 3]] and the colour planes *)
      let alpha := [original_h; original_w] in
      let bgr := match mode with
                 | IMAGE_MODE_BGRA => [original_h; original_w; 3]
                 | _ => np_img
                 end in
      rgb_np_img <~ cvtColor bgr (match mode with
                                  | IMAGE_MODE_GRAY => COLOR_GRAY2RGB
                                  | _ => COLOR_BGR2RGB
                                  end) ;;
      y_shape <~ of_result (permute_201_unsqueeze rgb_np_img) ;;
      let y := {| m_shape := y_shape; m_type := float_on (device u) |} in
      x_hat <~ of_result
                 (call_dispatch (run_model (model u) route)
                    (SeemoRe.scale (model u)) y tile_size) ;;
      restored_img <~ of_result (permute_120 (squeeze_all (m_shape x_hat))) ;;
      restored_img <~
        match mode with
        | IMAGE_MODE_GRAY => cvtColor restored_img COLOR_RGB2GRAY
        | IMAGE_MODE_BGRA =>
            upscaled_alpha <~ resize alpha (original_w * SeemoRe.scale (model u))
                                           (original_h * SeemoRe.scale (model u)) ;;
            restored_img <~ cvtColor restored_img COLOR_RGB2BGRA ;;
            of_result (assign_channel restored_img upscaled_alpha)
        | IMAGE_MODE_BGR => cvtColor restored_img COLOR_RGB2BGR
        end ;;
      if (0 <? scale) && negb (scale =? SeemoRe.scale (model u)) then
        resize restored_img (original_w * scale) (original_h * scale)
      else Returned restored_img
  | _ => Raised ValueError
  end.
End Upscaler.
End SeemoReUpscaler.

(** The arrays [__call__] is written for: a gray image with or without a
    channel axis, a BGR image, a BGRA image. *)
Definition supported_image (np_img : list Z) (h w : Z) : Prop :=
  np_img = [h; w] \/ np_img = [h; w; 1] \/ np_img = [h; w; 3]
  \/ np_img = [h; w; 4].

(** The factor between the input and the returned image: the [scale]
    argument when it is positive, the model's scale otherwise. *)
Definition effective_scale (model_scale scale : Z) : Z :=
  if 0 <? scale then scale else model_scale.

(** An array of the given height and width in the layout of a mode. *)
Definition with_layout (mode : ImageMode) (h w : Z) : list Z :=
  match mode with
  | IMAGE_MODE_GRAY => [h; w]
  | IMAGE_MODE_BGRA => [h; w; 4]
  | IMAGE_MODE_BGR => [h; w; 3]
  end.

(** The names under which [seemore_model_cfgs] holds a configuration. *)
Definition model_names : list string :=
  ["seemore_b_x2"; "seemore_b_x3"; "seemore_b_x4";
   "seemore_t_x2"; "seemore_t_x3"; "seemore_t_x4"]%string.

(** ** The MoE layer as a mixture *)

(** The (weight, expert index) pairs [torch.topk] selects for batch item
    [b]. *)
Definition selected_pairs (m : VMoELayer.t) (inputs : VTensor R) (b : Z)
  : list (R * Z) :=
  topk_sel (Z.to_nat (VMoELayer.num_expert m)) (indexed (gate_row m inputs b)).

(** The weighted sum of the selected experts' outputs at one element. *)
Definition mixture (m : VMoELayer.t) (inputs k : VTensor R) (b c y x : Z) : R :=
  rsum (map (fun p =>
               (at_index (VMoELayer.experts m)
                  (fun e => expert_val e inputs k b c y x) (snd p) * fst p)%R)
            (selected_pairs m inputs b)).

(** An expert at one pixel: the three 1x1 convolutions on the channel
    vectors [xs] and [ks] of that pixel, for output channel [c]. *)
Definition expert_pixel (e : VExpert.t) (xs ks : Z -> R) (c : Z) : R :=
  (VConv.bias (VExpert.conv_3 e) c +
   sum_range (VConv.in_channels (VExpert.conv_3 e))
     (fun q =>
        VConv.weight (VExpert.conv_3 e) c q *
        ((VConv.bias (VExpert.conv_2 e) q +
          sum_range (VConv.in_channels (VExpert.conv_2 e))
            (fun ci => VConv.weight (VExpert.conv_2 e) q ci * ks ci)) *
         (VConv.bias (VExpert.conv_1 e) q +
          sum_range (VConv.in_channels (VExpert.conv_1 e))
            (fun ci => VConv.weight (VExpert.conv_1 e) q ci * xs ci)))))%R.

(** ** Tensors as contiguous memory

    [view] and [transpose(...).contiguous()] are about the order of the
    elements in memory: here a tensor is its shape and its elements in
    row-major order, as a function of the flat index. *)

Record FlatTensor (A : Type) := {
  fshape : Shape;
  fdata : Z -> A
}.
Arguments fshape {A} _.
Arguments fdata {A} _ _.

(** The flat index of the element [(b, c, i, j)] of a tensor of shape
    [(_, C, H, W)]. *)
Definition idx4 (C H W b c i j : Z) : Z := ((b * C + c) * H + i) * W + j.

(** [x.view(shape)] for a shape without [-1]. *)
Definition view {A : Type} (x : FlatTensor A) (shape : Shape)
  : result (FlatTensor A) :=
  if numel shape =? numel (fshape x)
  then Ok {| fshape := shape; fdata := fdata x |}
  else Err (RuntimeError BadView).

(** [x.view(a, -1, c, d)] *)
Definition view_infer1 {A : Type} (x : FlatTensor A) (a c d : Z)
  : result (FlatTensor A) :=
  let known := a * c * d in
  if known =? 0 then Err (RuntimeError BadView)
  else if negb (numel (fshape x) mod known =? 0) then Err (RuntimeError BadView)
  else Ok {| fshape := [a; numel (fshape x) / known; c; d]; fdata := fdata x |}.

(** [torch.transpose(x, 1, 2).contiguous()] *)
Definition transpose12 {A : Type} (x : FlatTensor A) : result (FlatTensor A) :=
  match fshape x with
  | b :: d1 :: d2 :: rest =>
      let inner := numel rest in
      Ok {| fshape := b :: d2 :: d1 :: rest;
            fdata := fun f =>
              let r := f mod inner in
              let q := f / inner in
              let i1 := q mod d1 in
              let q2 := q / d1 in
              let i2 := q2 mod d2 in
              let bi := q2 / d2 in
              fdata x (((bi * d1 + i1) * d2 + i2) * inner + r) |}
  | _ => Err IndexError
  end.

(** [channel_shuffle(x, groups=2)] on the elements. *)
Definition channel_shuffle_values {A : Type} (x : FlatTensor A)
  : result (FlatTensor A) :=
  match fshape x with
  | [bat_size; channels; w; h] =>
      let groups := 2 in
      let group_c := channels / groups in
      x <- view x [bat_size; groups; group_c; w; h] ;;
      x <- transpose12 x ;;
      view_infer1 x bat_size w h
  | _ => Err ValueError
  end.

(** The input channel that [channel_shuffle] moves to output channel [c],
    for [2 * g] channels. *)
Definition shuffle_source (g c : Z) : Z := (c mod 2) * g + c / 2.

(** ** [LayerNorm] on values *)

Open Scope R_scope.

(** An elementwise unary operator. *)
Definition vmap (f : R -> R) (x : VTensor R) : VTensor R :=
  {| dims := dims x; at4 := fun b c i j => f (at4 x b c i j) |}.

Definition vsub : VTensor R -> VTensor R -> result (VTensor R) := vbinop Rminus.
Definition vdiv : VTensor R -> VTensor R -> result (VTensor R) := vbinop Rdiv.

(** [x.mean(1, keepdim=True)] *)
Definition vmean1 (x : VTensor R) : VTensor R :=
  let '(n, c, h, w) := dims x in
  {| dims := (n, 1%Z, h, w);
     at4 := fun b _ i j => sum_range c (fun ch => at4 x b ch i j) / IZR c |}.

(** [v[:, None, None]] for a vector [v] of [c] entries, read as a tensor of
    shape (1, c, 1, 1). *)
Definition per_channel (c : Z) (v : Z -> R) : VTensor R :=
  {| dims := (1%Z, c, 1%Z, 1%Z); at4 := fun _ ch _ _ => v ch |}.

(** [F.layer_norm(x, (c,), weight, bias, eps)]: normalisation over the last
    dimension, which must have [c] entries. *)
Definition layer_norm_last (x : VTensor R) (c : Z) (weight bias : Z -> R)
           (eps : R) : result (VTensor R) :=
  let '(n, d1, d2, last) := dims x in
  if negb (last =? c)%Z then Err (RuntimeError ChannelMismatch)
  else
    let mean := fun b p q => sum_range c (fun t => at4 x b p q t) / IZR c in
    let var := fun b p q =>
                 sum_range c (fun t => (at4 x b p q t - mean b p q) ^ 2) / IZR c in
    Ok {| dims := dims x;
          at4 := fun b p q t =>
                   (at4 x b p q t - mean b p q) / sqrt (var b p q + eps)
                   * weight t + bias t |}.

Inductive DataFormat := channels_last | channels_first.

Module VLayerNorm.
Record t := mk {
  weight : Z -> R; bias : Z -> R; eps : R;
  data_format : DataFormat; normalized_shape : Z
}.

(** [torch.ones] and [torch.zeros] for the parameters; a [data_format] that
    is neither of the two names raises. *)
Definition init (normalized_shape : Z) (eps : R) (data_format : string)
  : result t :=
  if String.eqb data_format "channels_last" then
    Ok (mk (fun _ => 1) (fun _ => 0) eps channels_last normalized_shape)
  else if String.eqb data_format "channels_first" then
    Ok (mk (fun _ => 1) (fun _ => 0) eps channels_first normalized_shape)
  else Err NotImplementedError.

Definition forward (m : t) (x : VTensor R) : result (VTensor R) :=
  match data_format m with
  | channels_last =>
      layer_norm_last x (normalized_shape m) (weight m) (bias m) (eps m)
  | channels_first =>
      let u := vmean1 x in
      d <- vsub x u ;;
      let s := vmean1 (vmap (fun v => v ^ 2) d) in
      xu <- vsub x u ;;
      x <- vdiv xu (vmap sqrt (vmap (fun v => v + eps m) s)) ;;
      wx <- vmul (per_channel (normalized_shape m) (weight m)) x ;;
      vadd wx (per_channel (normalized_shape m) (bias m))
  end.
End VLayerNorm.

(** The mean and the (biased) variance over the channels of one pixel. *)
Definition channel_mean (x : VTensor R) (c b i j : Z) : R :=
  sum_range c (fun ch => at4 x b ch i j) / IZR c.

Definition channel_var (x : VTensor R) (c b i j : Z) : R :=
  sum_range c (fun ch => (at4 x b ch i j - channel_mean x c b i j) ^ 2) / IZR c.

Close Scope R_scope.

(** ** Pixel values in [__call__]

    The image goes in as bytes, is scaled to [0, 1] for the model, and the
    model's output is clamped, scaled back and rounded to bytes.  A float is
    idealised as a rational number here. *)

From Stdlib Require QArith Qround.

(** [y / 255.0] on one byte. *)
Definition to_unit (p : Z) : QArith_base.Q :=
  QArith_base.Qdiv (QArith_base.inject_Z p) (QArith_base.inject_Z 255).

(** [x.clamp_(lo, hi)] and [np.clip(x, lo, hi)] on one element. *)
Definition clamp (lo hi v : QArith_base.Q) : QArith_base.Q :=
  if QArith_base.Qlt_le_dec v lo then lo
  else if QArith_base.Qlt_le_dec hi v then hi else v.

(** [np.round]: to the nearest integer, halves to the even one. *)
Definition np_round (v : QArith_base.Q) : Z :=
  let f := Qround.Qfloor v in
  match QArith_base.Qcompare (QArith_base.Qminus v (QArith_base.inject_Z f))
                             (QArith_base.Qmake 1 2) with
  | Lt => f
  | Gt => f + 1
  | Eq => if Z.even f then f else f + 1
  end.

(** [astype(np.uint8)] of an integral value: the low eight bits. *)
Definition astype_uint8 (z : Z) : Z := z mod 256.

(** The value before the cast: clamped by torch, clipped by numpy, scaled,
    rounded. *)
Definition restored_value (v : QArith_base.Q) : Z :=
  let zero := QArith_base.inject_Z 0 in
  let one := QArith_base.inject_Z 1 in
  np_round (QArith_base.Qmult (clamp zero one (clamp zero one v))
                              (QArith_base.inject_Z 255)).

(** An element of [x_hat] to a byte of [restored_img]. *)
Definition to_byte (v : QArith_base.Q) : Z := astype_uint8 (restored_value v).

(** ** A layer that shows the dependence on the window

    Two experts on one channel: the first returns 1 everywhere, the second
    0; the router scores them with the mean of the input and with 0; both
    experts are selected. *)
Definition const_expert (v : R) : VExpert.t :=
  VExpert.mk (VConv.mk 1 1 (fun _ _ => 0%R) (fun _ => 0%R))
             (VConv.mk 1 1 (fun _ _ => 0%R) (fun _ => 0%R))
             (VConv.mk 1 1 (fun _ _ => 0%R) (fun _ => v)).

Definition gap_layer : VMoELayer.t :=
  VMoELayer.mk [const_expert 1; const_expert 0]
    (VRouter.mk 1 2 (fun e _ => IZR (1 - e))) 2.

(** A one-channel image of two pixels, 0 and 2. *)
Definition ramp : VTensor R :=
  {| dims := (1, 1, 1, 2); at4 := fun _ _ _ j => IZR (2 * j) |}.

(** ** The softmax of the router in float32

    [MoELayer.forward] computes its gate weights with
    [F.softmax(out, dim=1, dtype=torch.float)]: in float32.  The definitions
    of this section model that computation with its rounding; [softmax]
    above is the same function in exact arithmetic.  A float32 number is
    modelled by the real number it denotes. *)

Open Scope R_scope.

(** [2 ^ e] *)
Definition bpow (e : Z) : R := powerRZ 2 e.

(** [floor (log2 |x|)] of a non-zero [x]. *)
Definition mag (x : R) : Z := Int_part (ln (Rabs x) / ln 2).

(** The exponent of the binade of [x]; below [2 ^ -126], the smallest normal
    number, the numbers are subnormal and share the exponent -126.  (At 0
    the exponent plays no part: 0 is rounded to 0.) *)
Definition f32_exponent (x : R) : Z := Z.max (-126) (mag x).

(** The distance between the float32 numbers around [x]: a significand of
    24 bits. *)
Definition ulp32 (x : R) : R := bpow (f32_exponent x - 23).

(** The nearest integer, a half going to the even neighbour. *)
Definition round_half_even (r : R) : Z :=
  let f := Int_part r in
  match total_order_T (r - IZR f) (/ 2) with
  | inleft (left _) => f
  | inleft (right _) => if Z.even f then f else (f + 1)%Z
  | inright _ => (f + 1)%Z
  end.

(** Rounding of a non-negative number to the nearest float32. *)
Definition round32_pos (x : R) : R :=
  IZR (round_half_even (x / ulp32 x)) * ulp32 x.

(** Rounding to the nearest float32, ties to even, as IEEE 754 arithmetic
    rounds every result; sign and magnitude are rounded apart.  The result
    is that of float32 arithmetic as long as it does not exceed the largest
    float32 number, [(2 - 2^-23) * 2^127]: overflow to infinity is not
    modelled. *)
Definition round32 (x : R) : R :=
  if Rle_dec 0 x then round32_pos x else - round32_pos (- x).

(** [sum] in float32: every addition is rounded. *)
Definition fsum32 (l : list R) : R :=
  fold_left (fun acc e => round32 (acc + e)) l 0.

(** The numerators of the softmax of one row: the library subtracts the
    largest score before it exponentiates.  [fexp] is the library's float32
    exponential, which is accurate to about a unit in the last place but
    not specified bit by bit. *)
Definition exps32 (fexp : R -> R) (row : list R) : list R :=
  match row with
  | [] => []
  | x :: rest =>
      let m := fold_left Rmax rest x in
      map (fun v => fexp (round32 (v - m))) row
  end.

(** [F.softmax(row, dtype=torch.float)] of one row of float32 scores.  The
    kernels normalise in one of two ways: by a division ([recip = false]) or
    by a multiplication with the rounded reciprocal of the sum
    ([recip = true]). *)
Definition softmax32 (fexp : R -> R) (recip : bool) (row : list R) : list R :=
  let es := exps32 fexp row in
  let s := fsum32 es in
  if recip then let r := round32 (1 / s) in map (fun e => round32 (e * r)) es
  else map (fun e => round32 (e / s)) es.

(** [weights = F.softmax(out, dim=1, dtype=torch.float).to(inputs.dtype)] for
    float32 inputs, by rows; [out] is what the router returned. *)
Definition gate_weights32 (fexp : R -> R) (recip : bool) (out : list (list R))
  : list (list R) :=
  map (softmax32 fexp recip) out.

(** An exponential as a library may compute it: the exact value, rounded. *)
Definition exp32 (d : R) : R := round32 (exp d).

(** What the theorems need of the library's exponential: on the
    non-positive numbers its values lie in [0, 1], and it is exact at 0. *)
Definition exp_like (fexp : R -> R) : Prop :=
  (forall d, d <= 0 -> 0 <= fexp d <= 1) /\ fexp 0 = 1.

(** The selected weights of one batch item in float32: [k] numbers, each in
    [0, 1], with a sum of at most 1 up to the rounding of the [n] scores. *)
Definition bounded_row32 (n k : Z) (row : list R) : Prop :=
  List.length row = Z.to_nat k /\
  Forall (fun v => 0 <= v <= 1) row /\
  rsum row <= 1 + IZR n * bpow (-22).

Close Scope R_scope.

(** An all-zero input of two channels and 1x2 pixels: the router scores
    every expert with 0. *)
Definition black_input : VTensor R :=
  {| dims := (1, 2, 1, 2); at4 := fun _ _ _ _ => 0%R |}.
(* ===================================================================== *)
(** * Part II: lemmas and theorems                                        *)
(* ===================================================================== *)

Lemma range_length n : length (range n) = Z.to_nat n.
Proof. unfold range. now rewrite length_map, length_seq. Qed.

Lemma in_range n i : In i (range n) <-> 0 <= i < n.
Proof.
  unfold range. rewrite in_map_iff. split.
  - intros (k & <- & Hk). apply in_seq in Hk. lia.
  - intros Hi. exists (Z.to_nat i). split; [lia|]. apply in_seq. lia.
Qed.

Lemma range_NoDup n : NoDup (range n).
Proof.
  unfold range. apply Injective_map_NoDup.
  - intros a b Hab. lia.
  - apply seq_NoDup.
Qed.

Lemma range_nonpos n : n <= 0 -> range n = [].
Proof. intros Hn. unfold range. now replace (Z.to_nat n) with 0%nat by lia. Qed.

Lemma grid_length ty tx :
  length (grid ty tx) = (Z.to_nat ty * Z.to_nat tx)%nat.
Proof.
  unfold grid. rewrite <- (range_length ty).
  induction (range ty) as [|a l IH]; simpl; [reflexivity|].
  rewrite length_app, length_map, range_length, IH. reflexivity.
Qed.

Lemma in_grid ty tx p :
  In p (grid ty tx) <-> 0 <= fst p < ty /\ 0 <= snd p < tx.
Proof.
  unfold grid. rewrite in_flat_map. split.
  - intros (yi & Hy & Hp). apply in_map_iff in Hp as (xi & <- & Hx).
    apply in_range in Hy, Hx. simpl. lia.
  - intros [Hy Hx]. exists (fst p). split; [now apply in_range|].
    apply in_map_iff. exists (snd p). split; [now destruct p|now apply in_range].
Qed.

Lemma grid_NoDup ty tx : NoDup (grid ty tx).
Proof.
  unfold grid. generalize (range_NoDup ty).
  induction (range ty) as [|a l IH]; intros Hnd; simpl; [constructor|].
  inversion Hnd as [|? ? Hnotin Hnd']; subst.
  apply NoDup_app.
  - apply Injective_map_NoDup; [|apply range_NoDup].
    intros x y Hxy. now inversion Hxy.
  - now apply IH.
  - intros p Hp Hq. apply in_map_iff in Hp as (xi & <- & _).
    apply in_flat_map in Hq as (yi & Hyi & Hq).
    apply in_map_iff in Hq as (xj & Heq & _). inversion Heq; subst. contradiction.
Qed.

(** ** The tile grid *)

Lemma ceil_div_pos a b :
  1 <= b -> 0 <= a ->
  exists n, ceil_div a b = Ok n /\ 0 <= n /\ (n - 1) * b < a <= n * b.
Proof.
  intros Hb Ha. unfold ceil_div.
  destruct (Z.eqb_spec b 0) as [->|_]; [lia|].
  exists (- (- a / b)). split; [reflexivity|].
  pose proof (Z.mul_div_le (- a) b ltac:(lia)).
  pose proof (Z.mul_succ_div_gt (- a) b ltac:(lia)).
  nia.
Qed.

(** One axis of the grid: the written intervals [x_start*s, x_end*s) of the
    tiles [0 .. n-1] cover [0, len*s) and each point lies in one of them only. *)
Lemma axis_partition (s len t n o : Z) :
  1 <= t -> 0 <= len -> (n - 1) * t < len <= n * t ->
  0 <= o < len * s ->
  exists i, 0 <= i < n /\
    (i * t * s <= o < Z.min (i * t + t) len * s) /\
    forall j, 0 <= j < n ->
      j * t * s <= o < Z.min (j * t + t) len * s -> j = i.
Proof.
  intros Ht Hlen Hn Ho.
  assert (Hs : 0 < s) by nia.
  set (p := o / s).
  assert (Hp : p * s <= o < p * s + s).
  { pose proof (Z.mul_div_le o s Hs). pose proof (Z.mul_succ_div_gt o s Hs).
    subst p. nia. }
  assert (Hpl : 0 <= p < len) by nia.
  set (i := p / t).
  assert (Hi : i * t <= p < i * t + t).
  { pose proof (Z.mul_div_le p t ltac:(lia)).
    pose proof (Z.mul_succ_div_gt p t ltac:(lia)). subst i. nia. }
  exists i. split; [nia|]. split.
  - split; [nia|]. apply Z.lt_le_trans with ((p + 1) * s); [lia|].
    apply Z.mul_le_mono_nonneg_r; lia.
  - intros j Hj [Hlo Hhi].
    assert (j * t <= p) by nia.
    assert (p < j * t + t).
    { assert (Z.min (j * t + t) len <= j * t + t) by lia. nia. }
    nia.
Qed.

Lemma for_loop_for_each {S : Type} (xs : list Z) (body : Z -> S -> result S) s :
  for_loop xs body s = for_each xs body s.
Proof. revert s. induction xs as [|x xs IH]; intros s; simpl; [reflexivity|].
  destruct (body x s); simpl; auto. Qed.

Lemma for_each_app {I S : Type} (xs ys : list I) (body : I -> S -> result S) s :
  for_each (xs ++ ys) body s = s' <- for_each xs body s ;; for_each ys body s'.
Proof.
  revert s. induction xs as [|x xs IH]; intros s; simpl; [reflexivity|].
  destruct (body x s); simpl; auto.
Qed.

Lemma for_each_map {I J S : Type} (f : I -> J) (xs : list I)
      (body : J -> S -> result S) s :
  for_each (map f xs) body s = for_each xs (fun i => body (f i)) s.
Proof.
  revert s. induction xs as [|x xs IH]; intros s; simpl; [reflexivity|].
  destruct (body (f x) s); simpl; auto.
Qed.

(** The two nested loops visit exactly the cells of [grid], in order. *)
Lemma nested_loops_grid {S : Type} (ty tx : Z) (body : Z -> Z -> S -> result S) s :
  for_loop (range ty) (fun y_idx s => for_loop (range tx) (body y_idx) s) s
  = for_each (grid ty tx) (fun p => body (fst p) (snd p)) s.
Proof.
  unfold grid. revert s.
  induction (range ty) as [|a l IH]; intros s; simpl; [reflexivity|].
  rewrite for_each_app, for_each_map, for_loop_for_each. simpl.
  destruct (for_each (range tx) (body a) s); simpl; auto.
Qed.

(** [tile_inference] runs [process_tile] (one model invocation and one slice
    assignment) once per entry of [tile_schedule], in order. *)
Lemma tile_inference_schedule {T : Type} `{TensorLike T}
      (model : T -> result T) (scale : Z) (y : T) (tile_size : Z)
      (batch channel height width : Z) :
  shape_of y = [batch; channel; height; width] ->
  tile_inference model scale y tile_size =
    (output <- new_zeros y [batch; channel; height * scale; width * scale] ;;
     tiles <- tile_schedule scale height width tile_size ;;
     for_each tiles (process_tile model y) output).
Proof.
  intros Hshape. unfold tile_inference, tile_schedule. rewrite Hshape.
  destruct (new_zeros y _) as [output|e]; simpl; [|reflexivity].
  destruct (ceil_div width tile_size) as [tx|e]; simpl; [|reflexivity].
  destruct (ceil_div height tile_size) as [ty|e]; simpl; [|reflexivity].
  rewrite nested_loops_grid, for_each_map. reflexivity.
Qed.

Lemma tile_bounds_padding (scale height width tile_size ty tx yi xi : Z) :
  0 <= scale -> 1 <= tile_size ->
  (tx - 1) * tile_size < width <= tx * tile_size ->
  (ty - 1) * tile_size < height <= ty * tile_size ->
  0 <= yi < ty -> 0 <= xi < tx ->
  padding_ok scale height width (tile_bounds scale height width tile_size yi xi).
Proof.
  intros Hs Ht Hx Hy Hyi Hxi.
  assert (xi * tile_size < width) by nia.
  assert (yi * tile_size < height) by nia.
  assert (0 <= xi * tile_size) by nia.
  assert (0 <= yi * tile_size) by nia.
  unfold padding_ok, tile_bounds, tile_pad; simpl.
  repeat split; try lia; try nia.
Qed.

(** The grid of the scheduler.  For an input of height [h] and width [w]
    and a tile size of at least one, the loops visit [ceil(w/t) * ceil(h/t)]
    grid cells, each once; every pixel of the scaled output lies in the
    written region of exactly one cell, no cell writes outside the output,
    and every cell reads its bounds extended by 12 pixels on each side,
    clipped to the image. *)
Lemma tile_schedule_partition
        (scale height width tile_size : Z) :
  0 <= scale -> 1 <= tile_size -> 0 <= height -> 0 <= width ->
  exists tiles_x tiles_y,
    ceil_div width tile_size = Ok tiles_x /\
    ceil_div height tile_size = Ok tiles_y /\
    (tiles_x - 1) * tile_size < width <= tiles_x * tile_size /\
    (tiles_y - 1) * tile_size < height <= tiles_y * tile_size /\
    tile_schedule scale height width tile_size =
      Ok (map (fun p => tile_bounds scale height width tile_size (fst p) (snd p))
              (grid tiles_y tiles_x)) /\
    Z.of_nat (length (grid tiles_y tiles_x)) = tiles_x * tiles_y /\
    NoDup (grid tiles_y tiles_x) /\
    (forall oy ox, 0 <= oy < height * scale -> 0 <= ox < width * scale ->
       exists p, In p (grid tiles_y tiles_x) /\
         writes (tile_bounds scale height width tile_size (fst p) (snd p)) oy ox /\
         forall q, In q (grid tiles_y tiles_x) ->
           writes (tile_bounds scale height width tile_size (fst q) (snd q)) oy ox ->
           q = p) /\
    (forall p oy ox, In p (grid tiles_y tiles_x) ->
       writes (tile_bounds scale height width tile_size (fst p) (snd p)) oy ox ->
       0 <= oy < height * scale /\ 0 <= ox < width * scale) /\
    (forall p, In p (grid tiles_y tiles_x) ->
       padding_ok scale height width
         (tile_bounds scale height width tile_size (fst p) (snd p))).
Proof.
  intros Hs Ht Hh Hw.
  destruct (ceil_div_pos width tile_size Ht Hw) as (tx & Etx & Htx0 & Htx).
  destruct (ceil_div_pos height tile_size Ht Hh) as (ty & Ety & Hty0 & Hty).
  exists tx, ty.
  split; [exact Etx|]. split; [exact Ety|].
  split; [exact Htx|]. split; [exact Hty|].
  split; [unfold tile_schedule; rewrite Etx, Ety; reflexivity|].
  split; [rewrite grid_length; nia|].
  split; [apply grid_NoDup|].
  split; [|split].
  - intros oy ox Hoy Hox.
    destruct (axis_partition scale height tile_size ty oy Ht Hh Hty Hoy)
      as (yi & Hyi & Hyw & Hyu).
    destruct (axis_partition scale width tile_size tx ox Ht Hw Htx Hox)
      as (xi & Hxi & Hxw & Hxu).
    exists (yi, xi). split; [apply in_grid; simpl; lia|]. split.
    + unfold writes, tile_bounds; simpl. lia.
    + intros [yj xj] Hq Hwq. apply in_grid in Hq. simpl in Hq.
      unfold writes, tile_bounds in Hwq; simpl in Hwq.
      f_equal; [apply Hyu|apply Hxu]; lia.
  - intros p oy ox Hp Hwp. apply in_grid in Hp.
    unfold writes, tile_bounds in Hwp; simpl in Hwp.
    assert (Z.min (fst p * tile_size + tile_size) height <= height) by lia.
    assert (Z.min (snd p * tile_size + tile_size) width <= width) by lia.
    assert (0 <= fst p * tile_size) by nia.
    assert (0 <= snd p * tile_size) by nia.
    nia.
  - intros p Hp. apply in_grid in Hp.
    apply (tile_bounds_padding scale height width tile_size ty tx); lia.
Qed.

(** The nine tiles of a 100x100 input with [tile_size = 37], as (padded
    input rows, padded input columns): the border tiles are padded on their
    inner sides only. *)
Example tiles_100_37 :
  match tile_schedule 2 100 100 37 with
  | Ok tiles =>
      map (fun tb => ((y_start_pad tb, y_end_pad tb), (x_start_pad tb, x_end_pad tb)))
          tiles
  | Err _ => []
  end
  = [((0, 49), (0, 49)); ((0, 49), (25, 86)); ((0, 49), (62, 100));
     ((25, 86), (0, 49)); ((25, 86), (25, 86)); ((25, 86), (62, 100));
     ((62, 100), (0, 49)); ((62, 100), (25, 86)); ((62, 100), (62, 100))].
Proof. reflexivity. Qed.

(** ** Non-positive tile sizes *)

Lemma ceil_div_negative a b :
  b < 0 -> 0 <= a -> exists n, ceil_div a b = Ok n /\ n <= 0.
Proof.
  intros Hb Ha. unfold ceil_div.
  destruct (Z.eqb_spec b 0) as [->|_]; [lia|].
  exists (- (- a / b)). split; [reflexivity|].
  assert (0 <= - a / b); [|lia].
  rewrite <- Z.div_opp_opp by lia.
  apply Z.div_pos; lia.
Qed.

(** C3, as the code has it.  Called with [tile_size = 0] the scheduler raises
    [ZeroDivisionError]; called with a negative [tile_size] it runs no tile
    and returns the all-zero output without any error; and [__call__] never
    hands it a non-positive [tile_size]: it runs whole-image inference. *)
Theorem tile_size_nonpositive
        {T : Type} `{TensorLike T} (model : T -> result T) (scale : Z) (y : T)
        (tile_size batch channel height width : Z) (zeros : T) :
  shape_of y = [batch; channel; height; width] ->
  0 <= height -> 0 <= width ->
  new_zeros y [batch; channel; height * scale; width * scale] = Ok zeros ->
  tile_size <= 0 ->
  (tile_size = 0 ->
     tile_inference model scale y tile_size = Err ZeroDivisionError) /\
  (tile_size < 0 -> tile_inference model scale y tile_size = Ok zeros) /\
  call_dispatch model scale y tile_size = model y.
Proof.
  intros Hshape Hh Hw Hz Ht. split; [|split].
  - intros ->. unfold tile_inference. rewrite Hshape, Hz. reflexivity.
  - intros Hneg. unfold tile_inference. rewrite Hshape, Hz. simpl.
    destruct (ceil_div_negative width tile_size Hneg Hw) as (tx & -> & Htx).
    destruct (ceil_div_negative height tile_size Hneg Hh) as (ty & -> & Hty).
    simpl. rewrite (range_nonpos ty Hty). reflexivity.
  - unfold call_dispatch. destruct (Z.ltb_spec 0 tile_size); [lia|reflexivity].
Qed.

Lemma tile_size_nonpositive_witness :
  tile_inference (fun _ : MetaTensor => Err ValueError) 2 image_100 0
    = Err ZeroDivisionError /\
  call_dispatch (fun _ : MetaTensor => Err ValueError) 2 image_100 0
    = Err ValueError.
Proof.
  destruct (@tile_size_nonpositive MetaTensor MetaTensor_TensorLike
              (fun _ : MetaTensor => Err ValueError) 2
              image_100 0 1 3 100 100
              {| m_shape := [1; 3; 200; 200]; m_type := FloatTensor |}
              ltac:(reflexivity) ltac:(lia) ltac:(lia) ltac:(reflexivity)
              ltac:(lia))
    as (H0 & _ & Hc).
  split; [apply H0; reflexivity|exact Hc].
Defined.

(** C3 fails as stated: with [tile_size = -37] the scheduler returns a tensor
    (200x200, never written, hence all zeros) and reports nothing.  The model
    used here raises whenever it is called, so no tile was run. *)
Lemma negative_tile_size_returns_zeros :
  tile_inference (fun _ : MetaTensor => Err ValueError) 2 image_100 (-37)
  = Ok {| m_shape := [1; 3; 200; 200]; m_type := FloatTensor |}.
Proof. reflexivity. Qed.

(** ** Shape rules on four-dimensional tensors *)

Lemma shape_eqb_refl s : shape_eqb s s = true.
Proof. induction s as [|x s IH]; simpl; [reflexivity|]. now rewrite Z.eqb_refl. Qed.

Lemma broadcast_dim_refl x : broadcast_dim x x = Ok x.
Proof. unfold broadcast_dim. now rewrite Z.eqb_refl. Qed.

Lemma broadcast_dim_1_l y : broadcast_dim 1 y = Ok y.
Proof.
  unfold broadcast_dim. destruct (Z.eqb_spec 1 y) as [<-|_]; reflexivity.
Qed.

Lemma broadcast_dim_1_r x : broadcast_dim x 1 = Ok x.
Proof.
  unfold broadcast_dim. destruct (Z.eqb_spec x 1) as [->|_]; reflexivity.
Qed.

Lemma broadcast_dim_mismatch x y :
  x <> y -> x <> 1 -> y <> 1 ->
  broadcast_dim x y = Err (RuntimeError BroadcastMismatch).
Proof.
  intros Hxy Hx Hy. unfold broadcast_dim.
  destruct (Z.eqb_spec x y); [contradiction|].
  destruct (Z.eqb_spec x 1); [contradiction|].
  destruct (Z.eqb_spec y 1); [contradiction|reflexivity].
Qed.


(** Evaluates a broadcast of explicit shapes whose sizes agree or are 1. *)
Ltac broadcast :=
  unfold broadcast_shapes; cbn [rev app broadcast_rev];
  rewrite ?broadcast_dim_refl, ?broadcast_dim_1_l, ?broadcast_dim_1_r;
  cbn [bind rev app]; try reflexivity.

Lemma broadcast_rev_same s : broadcast_rev s s = Ok s.
Proof.
  induction s as [|x s IH]; simpl; [reflexivity|].
  now rewrite broadcast_dim_refl, IH.
Qed.

Lemma broadcast_same s : broadcast_shapes s s = Ok s.
Proof.
  unfold broadcast_shapes. rewrite broadcast_rev_same. simpl.
  now rewrite rev_involutive.
Qed.

(** A per-channel vector [c, 1, 1] against a feature map. *)
Lemma broadcast_channel_l n c h w :
  broadcast_shapes [c; 1; 1] [n; c; h; w] = Ok [n; c; h; w].
Proof.
  broadcast.
Qed.

Lemma broadcast_channel_r n c h w :
  broadcast_shapes [n; c; h; w] [c; 1; 1] = Ok [n; c; h; w].
Proof.
  broadcast.
Qed.

(** A feature map against its channel mean [n, 1, h, w]. *)
Lemma broadcast_keepdim n c h w :
  broadcast_shapes [n; c; h; w] [n; 1; h; w] = Ok [n; c; h; w].
Proof.
  broadcast.
Qed.

(** A feature map against a per-item gate weight [n, 1, 1, 1]. *)
Lemma broadcast_gate n c h w :
  broadcast_shapes [n; c; h; w] [n; 1; 1; 1] = Ok [n; c; h; w].
Proof.
  broadcast.
Qed.

(** An image against [self.mean], of shape [1, 3, 1, 1]. *)
Lemma broadcast_mean n h w :
  broadcast_shapes [n; 3; h; w] [1; 3; 1; 1] = Ok [n; 3; h; w].
Proof.
  broadcast.
Qed.

Lemma broadcast_mean_mismatch n c h w :
  c <> 3 -> c <> 1 ->
  broadcast_shapes [n; c; h; w] [1; 3; 1; 1] = Err (RuntimeError BroadcastMismatch).
Proof.
  intros H3 H1. unfold broadcast_shapes. cbn [rev app broadcast_rev].
  rewrite !broadcast_dim_1_r. cbn [bind].
  rewrite (broadcast_dim_mismatch c 3) by lia. reflexivity.
Qed.

Lemma iadd_gate n c h w :
  yw <- broadcast_shapes [n; c; h; w] [n; 1; 1; 1] ;; iadd [n; c; h; w] yw
  = Ok [n; c; h; w].
Proof.
  rewrite broadcast_gate. cbn [bind]. unfold iadd.
  rewrite broadcast_same. cbn [bind]. now rewrite shape_eqb_refl.
Qed.

(** *** Convolutions *)

Lemma Conv2d_init_ok i o k s p g :
  0 < g -> i mod g = 0 -> o mod g = 0 ->
  Conv2d.init i o k s p g = Ok (Conv2d.mk i o k s p g).
Proof.
  intros Hg Hi Ho. unfold Conv2d.init.
  destruct (Z.leb_spec g 0); [lia|]. rewrite Hi, Ho. reflexivity.
Qed.

Lemma Conv2d_init_g1 i o k s p :
  Conv2d.init i o k s p 1 = Ok (Conv2d.mk i o k s p 1).
Proof. apply Conv2d_init_ok; [lia| |]; apply Z.mod_1_r. Qed.

Lemma Conv2d_init_depthwise i k s p :
  0 < i -> Conv2d.init i i k s p i = Ok (Conv2d.mk i i k s p i).
Proof. intros Hi. apply Conv2d_init_ok; [lia| |]; apply Z.mod_same; lia. Qed.

Lemma Conv2d_forward_4d i o kh kw sh sw ph pw g n h w :
  kh <= h + 2 * ph -> kw <= w + 2 * pw ->
  Conv2d.forward (Conv2d.mk i o (kh, kw) (sh, sw) (ph, pw) g) [n; i; h; w]
  = Ok [n; o; Conv2d.out_size h kh sh ph; Conv2d.out_size w kw sw pw].
Proof.
  intros Hh Hw. unfold Conv2d.forward, Conv2d.forward_chw.
  cbn [fst snd Conv2d.padding Conv2d.kernel_size Conv2d.stride
       Conv2d.in_channels Conv2d.out_channels].
  rewrite Z.eqb_refl. cbn [negb].
  destruct (Z.ltb_spec (h + 2 * ph) kh); [lia|].
  destruct (Z.ltb_spec (w + 2 * pw) kw); [lia|]. reflexivity.
Qed.

Lemma out_size_same i p : Conv2d.out_size i (2 * p + 1) 1 p = i.
Proof. unfold Conv2d.out_size. rewrite Z.div_1_r. lia. Qed.

(** A stride-1 convolution with an odd kernel [2p+1] and padding [p] keeps
    the spatial size. *)
Lemma Conv2d_forward_same i o ph pw g n h w :
  1 <= h -> 1 <= w ->
  Conv2d.forward
    (Conv2d.mk i o (2 * ph + 1, 2 * pw + 1) (1, 1) (ph, pw) g) [n; i; h; w]
  = Ok [n; o; h; w].
Proof.
  intros Hh Hw. rewrite Conv2d_forward_4d by lia. now rewrite !out_size_same.
Qed.

Lemma Conv2d_forward_1x1 i o g n h w :
  1 <= h -> 1 <= w ->
  Conv2d.forward (Conv2d.mk i o (1, 1) (1, 1) (0, 0) g) [n; i; h; w]
  = Ok [n; o; h; w].
Proof.
  intros Hh Hw. rewrite Conv2d_forward_4d by lia.
  assert (E : forall x, Conv2d.out_size x 1 1 0 = x).
  { intros x. unfold Conv2d.out_size. rewrite Z.div_1_r. lia. }
  now rewrite !E.
Qed.

Lemma Conv2d_forward_3x3 i o g n h w :
  1 <= h -> 1 <= w ->
  Conv2d.forward (Conv2d.mk i o (3, 3) (1, 1) (1, 1) g) [n; i; h; w]
  = Ok [n; o; h; w].
Proof. intros. now apply (Conv2d_forward_same i o 1 1). Qed.

Lemma Conv2d_forward_channel_mismatch m n c h w :
  c <> Conv2d.in_channels m ->
  Conv2d.forward m [n; c; h; w] = Err (RuntimeError ChannelMismatch).
Proof.
  intros Hc. unfold Conv2d.forward, Conv2d.forward_chw.
  destruct (Z.eqb_spec c (Conv2d.in_channels m)); [contradiction|reflexivity].
Qed.

(** *** Normalisation, chunking, shuffling *)

Lemma LayerNorm_forward_4d n c h w :
  LayerNorm.forward (LayerNorm.mk c) [n; c; h; w] = Ok [n; c; h; w].
Proof.
  unfold LayerNorm.forward. simpl mean_keepdim1. cbn [bind].
  rewrite broadcast_keepdim. cbn [bind mean_keepdim1].
  rewrite broadcast_keepdim. cbn [bind LayerNorm.normalized_shape].
  rewrite broadcast_channel_l. cbn [bind]. apply broadcast_channel_r.
Qed.

Lemma chunk2_even n c h w :
  1 <= c -> chunk2 [n; 2 * c; h; w] = Ok ([n; c; h; w], [n; c; h; w]).
Proof.
  intros Hc. unfold chunk2. destruct (Z.eqb_spec (2 * c) 1); [lia|].
  assert (E : (2 * c + 1) / 2 = c).
  { symmetry. apply (Z.div_unique (2 * c + 1) 2 c 1); lia. }
  rewrite E. replace (2 * c - c) with c by lia. reflexivity.
Qed.

Lemma channel_shuffle_even n c h w :
  1 <= n -> 1 <= c -> 1 <= h -> 1 <= w ->
  channel_shuffle [n; 2 * c; h; w] = Ok [n; 2 * c; h; w].
Proof.
  intros Hn Hc Hh Hw. unfold channel_shuffle, numel. cbn [fold_right].
  assert (E : 2 * c / 2 = c) by (rewrite Z.mul_comm; apply Z.div_mul; lia).
  rewrite E.
  assert (Hnz : n * h * w <> 0) by nia.
  replace (n * (2 * (c * (h * (w * 1))))) with (2 * c * (n * h * w)) by ring.
  replace (n * (2 * c * (h * (w * 1)))) with (2 * c * (n * h * w)) by ring.
  rewrite Z.eqb_refl. cbn [negb].
  destruct (Z.eqb_spec (n * h * w) 0); [contradiction|].
  now rewrite Z.div_mul.
Qed.

Lemma out_size_odd i k : k mod 2 = 1 -> Conv2d.out_size i k 1 (k / 2) = i.
Proof.
  intros Hk. pose proof (Z.div_mod k 2 ltac:(lia)) as E.
  unfold Conv2d.out_size. rewrite Z.div_1_r. lia.
Qed.

Lemma StripedConv2d_ok d k :
  1 <= d -> 1 <= k -> k mod 2 = 1 ->
  exists m, StripedConv2d.init d k true = Ok m /\
    forall n h w, 1 <= h -> 1 <= w ->
      StripedConv2d.forward m [n; d; h; w] = Ok [n; d; h; w].
Proof.
  intros Hd Hk Hodd. unfold StripedConv2d.init.
  rewrite !Conv2d_init_depthwise by lia. cbn [bind].
  eexists. split; [reflexivity|]. intros n h w Hh Hw.
  pose proof (Z.div_mod k 2 ltac:(lia)) as E.
  unfold StripedConv2d.forward.
  cbn [StripedConv2d.conv_h StripedConv2d.conv_v].
  assert (E1 : forall x, Conv2d.out_size x 1 1 0 = x).
  { intros x. unfold Conv2d.out_size. rewrite Z.div_1_r. lia. }
  rewrite Conv2d_forward_4d by lia. cbn [bind].
  rewrite (out_size_odd w k), E1 by assumption.
  rewrite Conv2d_forward_4d by lia.
  now rewrite (out_size_odd h k), E1 by assumption.
Qed.

Lemma GatedFFN_ok d :
  1 <= d ->
  exists m, GatedFFN.init d 2 3 = Ok m /\
    forall n h w, 1 <= h -> 1 <= w ->
      GatedFFN.forward m [n; d; h; w] = Ok [n; d; h; w].
Proof.
  intros Hd. unfold GatedFFN.init.
  rewrite !Conv2d_init_g1. cbn [bind].
  rewrite Z.div_mul by lia.
  rewrite Conv2d_init_depthwise by lia. cbn [bind].
  eexists. split; [reflexivity|]. intros n h w Hh Hw.
  unfold GatedFFN.forward, GELU.
  cbn [GatedFFN.fn_1 GatedFFN.fn_2 GatedFFN.gate].
  rewrite Conv2d_forward_1x1 by lia. cbn [bind].
  rewrite (Z.mul_comm d 2), chunk2_even by lia. cbn [bind].
  change (3 / 2) with 1.
  rewrite Conv2d_forward_3x3 by lia. cbn [bind].
  rewrite broadcast_same. cbn [bind].
  rewrite Conv2d_forward_1x1 by lia. reflexivity.
Qed.

(** *** Experts and routing *)

Lemma Expert_init_ok d low :
  exists e, Expert.init d low = Ok e /\ Expert_ok d e.
Proof.
  unfold Expert.init. rewrite !Conv2d_init_g1. cbn [bind].
  eexists. split; [reflexivity|]. intros n h w Hh Hw.
  unfold Expert.forward. cbn [Expert.conv_1 Expert.conv_2 Expert.conv_3].
  rewrite !Conv2d_forward_1x1 by lia. cbn [bind].
  rewrite broadcast_same. cbn [bind].
  now rewrite Conv2d_forward_1x1 by lia.
Qed.

Lemma mapM_Forall {A B : Type} (f : A -> result B) (P : B -> Prop) xs :
  (forall x, In x xs -> exists y, f x = Ok y /\ P y) ->
  exists ys, mapM f xs = Ok ys /\ List.length ys = List.length xs /\ Forall P ys.
Proof.
  induction xs as [|x xs IH]; intros H; simpl.
  - exists []. repeat split. constructor.
  - destruct (H x (or_introl eq_refl)) as (y & -> & Py).
    destruct IH as (ys & -> & Hlen & HP); [intros; apply H; now right|].
    exists (y :: ys). simpl. repeat split; [now rewrite Hlen|now constructor].
Qed.

Lemma experts_init_ok d (grow : Z -> Z) num_experts :
  exists es, mapM (fun i => Expert.init d (grow i)) (range num_experts) = Ok es /\
    List.length es = Z.to_nat num_experts /\ Forall (Expert_ok d) es.
Proof.
  destruct (mapM_Forall (fun i => Expert.init d (grow i)) (Expert_ok d)
              (range num_experts)) as (es & E & Hlen & HP).
  - intros i _. apply Expert_init_ok.
  - exists es. rewrite range_length in Hlen. auto.
Qed.

Lemma slice_len_one j cols : 0 <= j < cols -> slice_len j (j + 1) cols = 1.
Proof.
  intros Hj. unfold slice_len, norm_index.
  destruct (Z.ltb_spec (j + 1) 0); [lia|]. destruct (Z.ltb_spec j 0); lia.
Qed.

Lemma slice_len_past j cols : 0 <= cols <= j -> slice_len j (j + 1) cols = 0.
Proof.
  intros Hj. unfold slice_len, norm_index.
  destruct (Z.ltb_spec (j + 1) 0); [lia|]. destruct (Z.ltb_spec j 0); lia.
Qed.

Lemma enumerate_loop_ok d n h w cols es : forall i,
  1 <= h -> 1 <= w -> Forall (Expert_ok d) es ->
  0 <= i -> i + Z.of_nat (List.length es) <= cols ->
  MoELayer.enumerate_loop [n; d; h; w] [n; d; h; w] [n; cols] i es [n; d; h; w]
  = Ok [n; d; h; w].
Proof.
  induction es as [|e es IH]; intros i Hh Hw Hes Hi Hcols; [reflexivity|].
  inversion Hes as [|? ? He Hes']; subst.
  cbn [MoELayer.enumerate_loop]. unfold MoELayer.accumulate.
  rewrite (He n h w Hh Hw). cbn [bind].
  rewrite slice_len_one by (cbn [List.length] in Hcols; lia).
  rewrite iadd_gate. cbn [bind].
  apply IH; auto; cbn [List.length] in Hcols; lia.
Qed.

Lemma Router_forward_4d d num_experts n h w :
  1 <= d -> 1 <= h -> 1 <= w ->
  Router.forward (Router.init d num_experts) [n; d; h; w] = Ok [n; num_experts].
Proof.
  intros Hd Hh Hw. unfold Router.forward, adaptive_avg_pool_1.
  destruct (Z.eqb_spec d 0); [lia|]. destruct (Z.eqb_spec h 0); [lia|].
  destruct (Z.eqb_spec w 0); [lia|]. cbn [orb bind].
  unfold squeeze_last. cbn [rev app]. cbn [Z.eqb Pos.eqb bind rev app].
  unfold Linear.forward. cbn [rev app Router.init Router.body Linear.in_features
                              Linear.out_features].
  now rewrite Z.eqb_refl.
Qed.

Lemma topk_shape_2d n cols k :
  0 <= k <= cols -> topk_shape [n; cols] k = Ok [n; k].
Proof.
  intros Hk. unfold topk_shape. cbn [rev app].
  destruct (Z.ltb_spec k 0); [lia|]. destruct (Z.ltb_spec cols k); [lia|].
  reflexivity.
Qed.

Lemma topk_shape_out_of_range n cols k :
  cols < k -> topk_shape [n; cols] k = Err (RuntimeError TopkOutOfRange).
Proof.
  intros Hk. unfold topk_shape. cbn [rev app].
  destruct (Z.ltb_spec cols k); [|lia]. now rewrite orb_true_r.
Qed.

Lemma get_expert_ok d (m : MoELayer.t) i :
  Forall (Expert_ok d) (MoELayer.experts m) ->
  0 <= i < Z.of_nat (List.length (MoELayer.experts m)) ->
  exists e, MoELayer.get_expert m i = Ok e /\ Expert_ok d e.
Proof.
  intros Hes Hi. unfold MoELayer.get_expert.
  destruct (Z.ltb_spec i 0); [lia|].
  destruct (Z.leb_spec (Z.of_nat (List.length (MoELayer.experts m))) i); [lia|].
  cbn [orb].
  destruct (nth_error (MoELayer.experts m) (Z.to_nat i)) as [e|] eqn:E.
  - exists e. split; [reflexivity|].
    rewrite Forall_forall in Hes. apply Hes. eapply nth_error_In; eauto.
  - apply nth_error_None in E. lia.
Qed.

Lemma MoELayer_forward_ok d num_experts topk es training pick n h w :
  1 <= d -> 1 <= h -> 1 <= w ->
  Forall (Expert_ok d) es -> Z.of_nat (List.length es) = num_experts ->
  0 <= topk <= num_experts ->
  training = true \/ (n = 1 /\ valid_pick num_experts pick) ->
  MoELayer.forward (MoELayer.mk es (Router.init d num_experts) topk)
    training pick [n; d; h; w] [n; d; h; w] = Ok [n; d; h; w].
Proof.
  intros Hd Hh Hw Hes Hlen Hk Hmode. unfold MoELayer.forward.
  cbn [MoELayer.gate MoELayer.num_expert MoELayer.experts].
  rewrite Router_forward_4d by lia. cbn [bind softmax_dim1].
  rewrite topk_shape_2d by lia. cbn [bind].
  destruct training.
  - apply (enumerate_loop_ok d); auto; lia.
  - destruct Hmode as [Hf|[-> Hpick]]; [discriminate|].
    unfold MoELayer.selected_experts. cbn [squeeze0 Z.eqb Pos.eqb bind].
    destruct (mapM_Forall
                (fun j => MoELayer.get_expert
                            (MoELayer.mk es (Router.init d num_experts) topk)
                            (pick 0 j))
                (Expert_ok d) (range topk)) as (sel & E & Hsl & Hsel).
    { intros j _. apply get_expert_ok; cbn [MoELayer.experts]; auto.
      rewrite Hlen. apply Hpick. }
    rewrite E. cbn [bind]. rewrite range_length in Hsl.
    apply (enumerate_loop_ok d); auto; lia.
Qed.

(** *** Calibration: [recursive] strided 4x4 convolutions need an image of
    at least [4 ^ recursive] pixels on each side. *)

Lemma agg_conv_forward d n h w :
  4 <= h -> 4 <= w ->
  Conv2d.forward (Conv2d.mk d d (4, 4) (4, 4) (0, 0) d) [n; d; h; w]
  = Ok [n; d; h / 4; w / 4].
Proof.
  intros Hh Hw. rewrite Conv2d_forward_4d by lia.
  assert (E : forall x, Conv2d.out_size x 4 4 0 = x / 4).
  { intros x. unfold Conv2d.out_size.
    replace (x + 2 * 0 - 4) with (x + (-1) * 4) by lia.
    rewrite Z.div_add by lia. lia. }
  now rewrite !E.
Qed.

Lemma agg_conv_too_small d n h w :
  h < 4 \/ w < 4 ->
  Conv2d.forward (Conv2d.mk d d (4, 4) (4, 4) (0, 0) d) [n; d; h; w]
  = Err (RuntimeError KernelTooLarge).
Proof.
  intros Hsmall. unfold Conv2d.forward, Conv2d.forward_chw.
  cbn [fst snd Conv2d.padding Conv2d.kernel_size Conv2d.stride
       Conv2d.in_channels Conv2d.out_channels].
  rewrite Z.eqb_refl. cbn [negb].
  destruct (Z.ltb_spec (h + 2 * 0) 4); [reflexivity|].
  destruct (Z.ltb_spec (w + 2 * 0) 4); [reflexivity|lia].
Qed.

Lemma agg_loop_ok d n (r : nat) : forall (s : nat) h w,
  4 ^ Z.of_nat r <= h -> 4 ^ Z.of_nat r <= w ->
  exists h' w', 1 <= h' /\ 1 <= w' /\
    for_loop (map Z.of_nat (seq s r))
      (fun _ x => x <- Conv2d.forward (Conv2d.mk d d (4, 4) (4, 4) (0, 0) d) x ;;
                  GELU x)
      [n; d; h; w] = Ok [n; d; h'; w'].
Proof.
  induction r as [|r IH]; intros s h w Hh Hw.
  - exists h, w. simpl in Hh, Hw. repeat split; lia.
  - rewrite Nat2Z.inj_succ, Z.pow_succ_r in Hh, Hw by lia.
    assert (0 < 4 ^ Z.of_nat r) by (apply Z.pow_pos_nonneg; lia).
    cbn [seq map for_loop].
    rewrite agg_conv_forward by lia. cbn [bind GELU].
    apply IH; apply Z.div_le_lower_bound; lia.
Qed.

Lemma calibrate_ok (m : MoEBlock.t) d n h w :
  1 <= d ->
  MoEBlock.agg_conv m = Conv2d.mk d d (4, 4) (4, 4) (0, 0) d ->
  MoEBlock.conv m = (Conv2d.mk d d (3, 3) (1, 1) (1, 1) d,
                     Conv2d.mk d d (1, 1) (1, 1) (0, 0) 1) ->
  0 <= MoEBlock.recursive m ->
  4 ^ MoEBlock.recursive m <= h -> 4 ^ MoEBlock.recursive m <= w ->
  MoEBlock.calibrate m [n; d; h; w] = Ok [n; d; h; w].
Proof.
  intros Hd Eagg Econv Hr Hh Hw. unfold MoEBlock.calibrate.
  rewrite Eagg, Econv. cbn [fst snd]. unfold range.
  rewrite <- (Z2Nat.id (MoEBlock.recursive m)) in Hh, Hw by lia.
  destruct (agg_loop_ok d n (Z.to_nat (MoEBlock.recursive m)) 0 h w Hh Hw)
    as (h' & w' & Hh' & Hw' & ->).
  assert (0 < 4 ^ Z.of_nat (Z.to_nat (MoEBlock.recursive m)))
    by (apply Z.pow_pos_nonneg; lia).
  cbn [bind]. rewrite Conv2d_forward_3x3 by lia. cbn [bind].
  rewrite Conv2d_forward_1x1 by lia. cbn [bind].
  unfold interpolate.
  destruct (Z.leb_spec h' 0); [lia|]. destruct (Z.leb_spec w' 0); [lia|].
  destruct (Z.leb_spec h 0); [lia|]. destruct (Z.leb_spec w 0); [lia|].
  cbn [orb bind]. apply broadcast_same.
Qed.

(** *** Blocks *)

Lemma grow_func_ok lr : valid_lr_space lr -> exists g, grow_func lr = Ok g.
Proof. intros [ -> | [ -> | -> ] ]; eexists; reflexivity. Qed.

Lemma MoEBlock_init_ok d num_experts topk use_shuffle lr recursive :
  1 <= d -> 1 <= num_experts -> valid_lr_space lr ->
  exists es c2,
    MoEBlock.init d num_experts topk use_shuffle lr recursive =
      Ok (MoEBlock.mk use_shuffle recursive
            (Conv2d.mk d d (3, 3) (1, 1) (1, 1) 1,
             Conv2d.mk d (2 * d) (1, 1) (1, 1) (0, 0) 1)
            (Conv2d.mk d d (4, 4) (4, 4) (0, 0) d)
            (Conv2d.mk d d (3, 3) (1, 1) (1, 1) d,
             Conv2d.mk d d (1, 1) (1, 1) (0, 0) 1)
            c2
            (MoELayer.mk es (Router.init d num_experts) topk)
            (Conv2d.mk d d (1, 1) (1, 1) (0, 0) 1)) /\
    Z.of_nat (List.length es) = num_experts /\
    Forall (Expert_ok d) es /\
    (forall n h w, 1 <= h -> 1 <= w ->
       StripedConv2d.forward c2 [n; d; h; w] = Ok [n; d; h; w]).
Proof.
  intros Hd HN Hlr. unfold MoEBlock.init.
  rewrite !Conv2d_init_g1, !Conv2d_init_depthwise by lia. cbn [bind].
  destruct (StripedConv2d_ok d 3 Hd ltac:(lia) eq_refl) as (c2 & -> & Hc2).
  destruct (grow_func_ok lr Hlr) as (g & ->). cbn [bind].
  destruct (experts_init_ok d g num_experts) as (es & -> & Hlen & Hes).
  cbn [bind]. unfold MoELayer.init.
  destruct (Z.ltb_spec 0 (Z.of_nat (List.length es))); [|lia]. cbn [bind].
  exists es, c2. repeat split; auto. lia.
Qed.

Lemma runnable_size training num_experts topk recursive pick n h w :
  runnable training num_experts topk recursive pick n h w -> 1 <= h /\ 1 <= w.
Proof.
  intros (_ & Hr & Hh & Hw & _).
  assert (0 < 4 ^ recursive) by (apply Z.pow_pos_nonneg; lia). lia.
Qed.

(** Up to the MoE layer the block keeps the shape: its forward pass comes
    down to the forward pass of its [MoELayer] on two [d]-channel maps. *)
Lemma MoEBlock_forward_to_moe d num_experts topk use_shuffle lr recursive :
  1 <= d -> 1 <= num_experts -> valid_lr_space lr ->
  exists m es,
    MoEBlock.init d num_experts topk use_shuffle lr recursive = Ok m /\
    MoEBlock.moe_layer m = MoELayer.mk es (Router.init d num_experts) topk /\
    Z.of_nat (List.length es) = num_experts /\
    Forall (Expert_ok d) es /\
    forall training pick n h w,
      1 <= n -> 0 <= recursive -> 4 ^ recursive <= h -> 4 ^ recursive <= w ->
      MoEBlock.forward m training pick [n; d; h; w] =
        (x <- MoELayer.forward (MoEBlock.moe_layer m) training pick
                [n; d; h; w] [n; d; h; w] ;;
         Conv2d.forward (Conv2d.mk d d (1, 1) (1, 1) (0, 0) 1) x).
Proof.
  intros Hd HN Hlr.
  destruct (MoEBlock_init_ok d num_experts topk use_shuffle lr recursive
              Hd HN Hlr) as (es & c2 & -> & Hlen & Hes & Hc2).
  eexists. exists es. split; [reflexivity|].
  split; [reflexivity|]. split; [exact Hlen|]. split; [exact Hes|].
  intros training pick n h w Hn Hr Hh4 Hw4.
  assert (0 < 4 ^ recursive) by (apply Z.pow_pos_nonneg; lia).
  unfold MoEBlock.forward, GELU.
  cbn [MoEBlock.conv_1 MoEBlock.use_shuffle MoEBlock.conv_2 MoEBlock.moe_layer
       MoEBlock.proj fst snd].
  rewrite Conv2d_forward_3x3 by lia. cbn [bind].
  rewrite Conv2d_forward_1x1 by lia. cbn [bind].
  assert (Esh : forall T (f : Shape -> result T),
             (x <- (if use_shuffle then channel_shuffle [n; 2 * d; h; w]
                    else Ok [n; 2 * d; h; w]) ;; f x) = f [n; 2 * d; h; w]).
  { intros T f. destruct use_shuffle; [|reflexivity].
    now rewrite channel_shuffle_even by lia. }
  rewrite Esh. cbn [bind]. rewrite chunk2_even by lia. cbn [bind].
  rewrite Hc2 by lia. cbn [bind].
  rewrite (calibrate_ok _ d) by (cbn; auto). reflexivity.
Qed.

Lemma MoEBlock_ok d num_experts topk use_shuffle lr recursive :
  1 <= d -> 1 <= num_experts -> valid_lr_space lr ->
  exists m, MoEBlock.init d num_experts topk use_shuffle lr recursive = Ok m /\
    forall training pick n h w,
      runnable training num_experts topk recursive pick n h w ->
      MoEBlock.forward m training pick [n; d; h; w] = Ok [n; d; h; w].
Proof.
  intros Hd HN Hlr.
  destruct (MoEBlock_forward_to_moe d num_experts topk use_shuffle lr recursive
              Hd HN Hlr) as (m & es & E & Emoe & Hlen & Hes & Hfwd).
  exists m. split; [exact E|].
  intros training pick n h w Hrun.
  destruct (runnable_size _ _ _ _ _ _ _ _ Hrun) as [Hh Hw].
  destruct Hrun as (Hn & Hr & Hh4 & Hw4 & Hk & Hmode).
  rewrite Hfwd, Emoe by assumption.
  rewrite (MoELayer_forward_ok d num_experts) by auto. cbn [bind].
  apply Conv2d_forward_1x1; lia.
Qed.

Lemma RME_ok d num_experts topk lr recursive use_shuffle :
  1 <= d -> 1 <= num_experts -> valid_lr_space lr ->
  exists m, RME.init d num_experts topk lr recursive use_shuffle = Ok m /\
    forall training pick n h w,
      runnable training num_experts topk recursive pick n h w ->
      RME.forward m training pick [n; d; h; w] = Ok [n; d; h; w].
Proof.
  intros Hd HN Hlr. unfold RME.init, LayerNorm.init. cbn [bind].
  destruct (MoEBlock_ok d num_experts topk use_shuffle lr recursive Hd HN Hlr)
    as (b & -> & Hb).
  destruct (GatedFFN_ok d Hd) as (f & -> & Hf). cbn [bind].
  eexists. split; [reflexivity|].
  intros training pick n h w Hrun.
  destruct (runnable_size _ _ _ _ _ _ _ _ Hrun) as [Hh Hw].
  unfold RME.forward. cbn [RME.norm_1 RME.norm_2 RME.block RME.ffn].
  rewrite LayerNorm_forward_4d. cbn [bind].
  rewrite Hb by assumption. cbn [bind].
  rewrite broadcast_same. cbn [bind].
  rewrite LayerNorm_forward_4d. cbn [bind].
  rewrite Hf by lia. cbn [bind]. apply broadcast_same.
Qed.

Lemma StripedConvFormer_ok d k :
  1 <= d -> 1 <= k -> k mod 2 = 1 ->
  exists m, StripedConvFormer.init d k = Ok m /\
    forall n h w, 1 <= h -> 1 <= w ->
      StripedConvFormer.forward m [n; d; h; w] = Ok [n; d; h; w].
Proof.
  intros Hd Hk Hodd. unfold StripedConvFormer.init.
  rewrite !Conv2d_init_g1. cbn [bind].
  destruct (StripedConv2d_ok d k Hd Hk Hodd) as (a & -> & Ha). cbn [bind].
  eexists. split; [reflexivity|]. intros n h w Hh Hw.
  unfold StripedConvFormer.forward, GELU.
  cbn [StripedConvFormer.to_qv StripedConvFormer.attn StripedConvFormer.proj].
  rewrite Conv2d_forward_1x1 by lia. cbn [bind].
  rewrite (Z.mul_comm d 2), chunk2_even by lia. cbn [bind].
  rewrite Ha by lia. cbn [bind].
  rewrite broadcast_same. cbn [bind]. apply Conv2d_forward_1x1; lia.
Qed.

Lemma SME_ok d k :
  1 <= d -> 1 <= k -> k mod 2 = 1 ->
  exists m, SME.init d k = Ok m /\
    forall n h w, 1 <= h -> 1 <= w ->
      SME.forward m [n; d; h; w] = Ok [n; d; h; w].
Proof.
  intros Hd Hk Hodd. unfold SME.init, LayerNorm.init. cbn [bind].
  destruct (StripedConvFormer_ok d k Hd Hk Hodd) as (b & -> & Hb).
  destruct (GatedFFN_ok d Hd) as (f & -> & Hf). cbn [bind].
  eexists. split; [reflexivity|]. intros n h w Hh Hw.
  unfold SME.forward. cbn [SME.norm_1 SME.norm_2 SME.block SME.ffn].
  rewrite LayerNorm_forward_4d. cbn [bind].
  rewrite Hb by lia. cbn [bind].
  rewrite broadcast_same. cbn [bind].
  rewrite LayerNorm_forward_4d. cbn [bind].
  rewrite Hf by lia. cbn [bind]. apply broadcast_same.
Qed.

Lemma ResGroup_init_ok d num_experts k lr topk recursive use_shuffle :
  1 <= d -> 1 <= num_experts -> valid_lr_space lr -> 1 <= k -> k mod 2 = 1 ->
  exists m, ResGroup.init d num_experts k lr topk recursive use_shuffle = Ok m /\
    ResGroup_ok d num_experts topk recursive m.
Proof.
  intros Hd HN Hlr Hk Hodd. unfold ResGroup.init.
  destruct (RME_ok d num_experts topk lr recursive use_shuffle Hd HN Hlr)
    as (l & -> & Hl).
  destruct (SME_ok d k Hd Hk Hodd) as (g & -> & Hg). cbn [bind].
  eexists. split; [reflexivity|].
  intros training pick n h w Hrun.
  destruct (runnable_size _ _ _ _ _ _ _ _ Hrun) as [Hh Hw].
  unfold ResGroup.forward. cbn [ResGroup.local_block ResGroup.global_block].
  rewrite Hl by assumption. cbn [bind]. apply Hg; lia.
Qed.

(** ** The whole network *)

Lemma body_init_ok (cfg : SeemoRe.Config) :
  valid_config cfg ->
  exists body,
    mapM (fun _ : Z =>
            ResGroup.init (SeemoRe.cfg_embedding_dim cfg)
              (SeemoRe.cfg_num_experts cfg) (SeemoRe.cfg_global_kernel_size cfg)
              (SeemoRe.cfg_lr_space cfg) (SeemoRe.cfg_topk cfg)
              (SeemoRe.cfg_recursive cfg) (SeemoRe.cfg_use_shuffle cfg))
         (range (SeemoRe.cfg_num_layers cfg)) = Ok body /\
    Forall (ResGroup_ok (SeemoRe.cfg_embedding_dim cfg)
              (SeemoRe.cfg_num_experts cfg) (SeemoRe.cfg_topk cfg)
              (SeemoRe.cfg_recursive cfg)) body.
Proof.
  intros (_ & _ & Hd & HN & _ & Hlr & Hk & Hodd & _).
  edestruct (mapM_Forall
               (fun _ : Z =>
                  ResGroup.init (SeemoRe.cfg_embedding_dim cfg)
                    (SeemoRe.cfg_num_experts cfg)
                    (SeemoRe.cfg_global_kernel_size cfg)
                    (SeemoRe.cfg_lr_space cfg) (SeemoRe.cfg_topk cfg)
                    (SeemoRe.cfg_recursive cfg) (SeemoRe.cfg_use_shuffle cfg)))
    as (body & E & _ & HP).
  - intros i _. apply ResGroup_init_ok; eassumption.
  - exists body. split; [exact E|exact HP].
Qed.

Lemma body_loop_ok d num_experts topk recursive training route n h w layers :
  forall idx,
  Forall (ResGroup_ok d num_experts topk recursive) layers ->
  (forall i, runnable training num_experts topk recursive (route i) n h w) ->
  SeemoRe.body_loop training route idx layers [n; d; h; w] = Ok [n; d; h; w].
Proof.
  induction layers as [|l ls IH]; intros idx Hls Hrun; [reflexivity|].
  inversion Hls as [|? ? Hl Hls']; subst.
  cbn [SeemoRe.body_loop]. rewrite (Hl _ _ _ _ _ (Hrun idx)). cbn [bind].
  now apply IH.
Qed.

Lemma TensorType_eqb_refl t : TensorType_eqb t t = true.
Proof. destruct t as [[] []]; reflexivity. Qed.

Lemma pixel_shuffle_ok r c n h w :
  1 <= r -> pixel_shuffle r [n; r ^ 2 * c; h; w] = Ok [n; c; h * r; w * r].
Proof.
  intros Hr. unfold pixel_shuffle. destruct (Z.leb_spec r 0); [lia|].
  rewrite Z.pow_2_r, (Z.mul_comm (r * r) c).
  rewrite Z.mod_mul, Z.div_mul by nia. reflexivity.
Qed.

(** What the constructor stores, for any arguments it accepts. *)
Lemma SeemoRe_init_fields {P : Type} (cfg : SeemoRe.Config) (weights : P) m :
  SeemoRe.init cfg weights = Ok m ->
  SeemoRe.scale m = SeemoRe.cfg_scale cfg /\
  SeemoRe.num_in_channels m = SeemoRe.cfg_in_chans cfg /\
  SeemoRe.num_out_channels m = SeemoRe.cfg_in_chans cfg /\
  SeemoRe.mean m = {| m_shape := [1; 3; 1; 1]; m_type := FloatTensor |} /\
  SeemoRe.training m = true /\
  SeemoRe.param_type m = FloatTensor /\
  SeemoRe.params m = weights.
Proof.
  unfold SeemoRe.init.
  destruct (Conv2d.init _ _ _ _ _ _); cbn [bind]; [|discriminate].
  destruct (mapM _ _); cbn [bind]; [|discriminate].
  destruct (LayerNorm.init _); cbn [bind]; [|discriminate].
  destruct (Conv2d.init _ _ _ _ _ _); cbn [bind]; [|discriminate].
  destruct (Conv2d.init _ _ _ _ _ _); cbn [bind]; [|discriminate].
  intros E. inversion E; subst. cbn. repeat split.
Qed.

(** C8.  A model built from a valid configuration maps every input of shape
    [(batch, in_channels, h, w)] with [batch >= 1] and [h, w >= 4^recursive],
    of the tensor type of its parameters, to a tensor of shape
    [(batch, out_channels, h * scale, w * scale)]; in inference mode
    ([training = false]) the batch must hold one item. *)
Theorem forward_output_shape {P : Type} (cfg : SeemoRe.Config) (weights : P)
        (training : bool) (dev : Device) (route : Z -> Routing) (n h w : Z) :
  valid_config cfg ->
  1 <= n ->
  4 ^ SeemoRe.cfg_recursive cfg <= h -> 4 ^ SeemoRe.cfg_recursive cfg <= w ->
  training = true \/ (n = 1 /\ valid_route (SeemoRe.cfg_num_experts cfg) route) ->
  exists m,
    SeemoRe.init cfg weights = Ok m /\
    SeemoRe.scale m = SeemoRe.cfg_scale cfg /\
    SeemoRe.num_in_channels m = SeemoRe.cfg_in_chans cfg /\
    SeemoRe.num_out_channels m = SeemoRe.cfg_in_chans cfg /\
    run_model (SeemoRe.to (SeemoRe.train m training) dev) route
      {| m_shape := [n; SeemoRe.num_in_channels m; h; w];
         m_type := {| device := dev; dtype := Float32 |} |}
    = Ok {| m_shape := [n; SeemoRe.num_out_channels m;
                        h * SeemoRe.scale m; w * SeemoRe.scale m];
            m_type := {| device := dev; dtype := Float32 |} |}.
Proof.
  intros Hcfg Hn Hh Hw Hmode.
  destruct (body_init_ok cfg Hcfg) as (body & Ebody & Hbody).
  destruct Hcfg as (Hin & Hs & Hd & HN & Hk & Hlr & Hgk & Hodd & Hr).
  assert (0 < 4 ^ SeemoRe.cfg_recursive cfg) by (apply Z.pow_pos_nonneg; lia).
  unfold SeemoRe.init. rewrite Ebody, !Conv2d_init_g1.
  unfold LayerNorm.init. cbn [bind].
  eexists. split; [reflexivity|]. cbn [SeemoRe.scale SeemoRe.num_in_channels
                                       SeemoRe.num_out_channels].
  repeat (split; [reflexivity|]).
  unfold run_model, SeemoRe.forward, SeemoRe.forward_shape.
  cbn [snd SeemoRe.to SeemoRe.train SeemoRe.set_mean SeemoRe.mean SeemoRe.conv_1
       SeemoRe.body SeemoRe.norm SeemoRe.conv_2 SeemoRe.upsampler
       SeemoRe.training SeemoRe.param_type SeemoRe.scale type_as m_shape m_type
       device dtype FloatTensor fst].
  rewrite Hin, broadcast_mean. cbn [bind].
  rewrite TensorType_eqb_refl.
  rewrite Conv2d_forward_3x3 by lia. cbn [bind].
  rewrite (body_loop_ok _ (SeemoRe.cfg_num_experts cfg) (SeemoRe.cfg_topk cfg)
             (SeemoRe.cfg_recursive cfg)); [|assumption|].
  2:{ intros i. repeat split; try lia.
      destruct Hmode as [Ht|[Hn1 Hroute]]; [now left|right; split; auto]. }
  cbn [bind]. rewrite LayerNorm_forward_4d. cbn [bind].
  rewrite Conv2d_forward_3x3 by lia. cbn [bind].
  rewrite broadcast_same. cbn [bind].
  rewrite Conv2d_forward_3x3 by lia. cbn [bind].
  rewrite pixel_shuffle_ok by lia. cbn [bind].
  rewrite broadcast_mean. reflexivity.
Qed.

Lemma seemore_t_valid scale : 1 <= scale -> valid_config (seemore_t_base_cfg scale).
Proof.
  intros Hs. unfold valid_config, valid_lr_space. cbn.
  repeat split; try lia; auto.
Qed.

(** C8 on [seemore_t_x2] in inference mode: a 16x16 image becomes 32x32. *)
Lemma forward_output_shape_witness :
  exists m,
    SeemoRe.init (seemore_t_base_cfg 2) tt = Ok m /\
    run_model (SeemoRe.to (SeemoRe.train m false) Cpu) route0
      (image FloatTensor 16 16)
    = Ok {| m_shape := [1; 3; 32; 32]; m_type := FloatTensor |}.
Proof.
  destruct (forward_output_shape (seemore_t_base_cfg 2) tt false Cpu route0
              1 16 16 (seemore_t_valid 2 ltac:(lia)) ltac:(lia)
              ltac:(cbn; lia) ltac:(cbn; lia)
              (or_intror (conj eq_refl (fun _ _ _ => conj (Z.le_refl 0) eq_refl))))
    as (m & E & Es & Ei & Eo & Hrun).
  exists m. split; [exact E|].
  rewrite Ei, Eo, Es in Hrun. exact Hrun.
Defined.

(** ** The hard-coded RGB mean *)

(** C10.  A model constructed with an input channel count other than 3 and 1
    holds the mean of shape (1, 3, 1, 1) all the same, and its forward pass
    fails for every input of the configured channel count, at the mean
    subtraction: the shapes cannot be broadcast. *)
Theorem mean_subtraction_fails {P : Type} (cfg : SeemoRe.Config) (weights : P)
        (m : SeemoRe.t P) (route : Z -> Routing) (x_type : TensorType)
        (n h w : Z) :
  SeemoRe.init cfg weights = Ok m ->
  SeemoRe.cfg_in_chans cfg <> 3 -> SeemoRe.cfg_in_chans cfg <> 1 ->
  m_shape (SeemoRe.mean m) = [1; 3; 1; 1] /\
  broadcast_shapes [n; SeemoRe.num_in_channels m; h; w] (m_shape (SeemoRe.mean m))
    = Err (RuntimeError BroadcastMismatch) /\
  run_model m route
    {| m_shape := [n; SeemoRe.num_in_channels m; h; w]; m_type := x_type |}
    = Err (RuntimeError BroadcastMismatch).
Proof.
  intros Einit H3 H1.
  destruct (SeemoRe_init_fields cfg weights m Einit)
    as (_ & Ein & _ & Emean & _).
  rewrite Emean, Ein. cbn [m_shape]. split; [reflexivity|].
  pose proof (broadcast_mean_mismatch n _ h w H3 H1) as Hb.
  split; [exact Hb|].
  unfold run_model, SeemoRe.forward, SeemoRe.forward_shape.
  cbn [snd SeemoRe.set_mean SeemoRe.mean type_as m_shape m_type].
  rewrite ?Emean, ?Ein. cbn [m_shape]. rewrite Hb. reflexivity.
Qed.

Lemma mean_subtraction_fails_witness :
  exists m,
    SeemoRe.init rgba_cfg tt = Ok m /\
    run_model m route0 {| m_shape := [1; 4; 64; 64]; m_type := FloatTensor |}
    = Err (RuntimeError BroadcastMismatch).
Proof.
  destruct (SeemoRe.init rgba_cfg tt) as [m|e] eqn:E; [|vm_compute in E; discriminate].
  exists m. split; [reflexivity|].
  destruct (mean_subtraction_fails rgba_cfg tt m route0 FloatTensor 1 64 64 E
              ltac:(cbn; lia) ltac:(cbn; lia)) as (_ & _ & Hrun).
  destruct (SeemoRe_init_fields rgba_cfg tt m E) as (_ & Ein & _).
  rewrite Ein in Hrun. exact Hrun.
Defined.

(** ** The model state *)

(** C7, as the code has it.  [forward] assigns one attribute, [self.mean]:
    its shape is kept and its tensor type becomes the input's.  Every other
    field (parameters, layers, flags) is left as it was, and a call whose
    input already has the type of the mean leaves the whole state unchanged. *)
Theorem forward_reassigns_mean_only {P : Type} (m : SeemoRe.t P)
        (route : Z -> Routing) (x : MetaTensor) :
  SeemoRe.params (fst (SeemoRe.forward m route x)) = SeemoRe.params m /\
  SeemoRe.param_type (fst (SeemoRe.forward m route x)) = SeemoRe.param_type m /\
  SeemoRe.training (fst (SeemoRe.forward m route x)) = SeemoRe.training m /\
  SeemoRe.scale (fst (SeemoRe.forward m route x)) = SeemoRe.scale m /\
  SeemoRe.num_in_channels (fst (SeemoRe.forward m route x))
    = SeemoRe.num_in_channels m /\
  SeemoRe.num_out_channels (fst (SeemoRe.forward m route x))
    = SeemoRe.num_out_channels m /\
  SeemoRe.conv_1 (fst (SeemoRe.forward m route x)) = SeemoRe.conv_1 m /\
  SeemoRe.body (fst (SeemoRe.forward m route x)) = SeemoRe.body m /\
  SeemoRe.norm (fst (SeemoRe.forward m route x)) = SeemoRe.norm m /\
  SeemoRe.conv_2 (fst (SeemoRe.forward m route x)) = SeemoRe.conv_2 m /\
  SeemoRe.upsampler (fst (SeemoRe.forward m route x)) = SeemoRe.upsampler m /\
  m_shape (SeemoRe.mean (fst (SeemoRe.forward m route x)))
    = m_shape (SeemoRe.mean m) /\
  m_type (SeemoRe.mean (fst (SeemoRe.forward m route x))) = m_type x /\
  (m_type x = m_type (SeemoRe.mean m) -> fst (SeemoRe.forward m route x) = m).
Proof.
  unfold SeemoRe.forward. cbn [fst]. repeat (split; [reflexivity|]).
  intros E. destruct m as [s i o [ms mt] c1 b nm c2 u tr pt ps].
  destruct x as [xs xt]. cbn in E. subst mt. reflexivity.
Qed.

(** C7 fails as stated: [SeemoReUpscaler.__init__] moves the parameters to
    the device but [self.mean] stays a CPU tensor, and the first successful
    inference call on a CUDA input replaces it by a CUDA tensor. *)
Lemma forward_changes_mean :
  exists m,
    SeemoRe.init (seemore_t_base_cfg 2) tt = Ok m /\
    m_type (SeemoRe.mean (SeemoRe.to m Cuda)) = FloatTensor /\
    snd (SeemoRe.forward (SeemoRe.to m Cuda) route0 (image CudaFloatTensor 16 16))
      = Ok {| m_shape := [1; 3; 32; 32]; m_type := CudaFloatTensor |} /\
    m_type (SeemoRe.mean
              (fst (SeemoRe.forward (SeemoRe.to m Cuda) route0
                      (image CudaFloatTensor 16 16)))) = CudaFloatTensor /\
    fst (SeemoRe.forward (SeemoRe.to m Cuda) route0 (image CudaFloatTensor 16 16))
      <> SeemoRe.to m Cuda.
Proof.
  destruct (SeemoRe.init (seemore_t_base_cfg 2) tt) as [m|e] eqn:E;
    [|vm_compute in E; discriminate].
  exists m. split; [reflexivity|].
  vm_compute in E. inversion E; subst m. clear E.
  split; [reflexivity|]. split; [vm_compute; reflexivity|].
  split; [reflexivity|].
  intros Heq. apply (f_equal (fun s => m_type (SeemoRe.mean s))) in Heq.
  cbn in Heq. discriminate.
Qed.

(** ** Construction-time checks of the MoE layer *)

Lemma MoELayer_forward_topk_out_of_range d num_experts topk es training pick
      n h w :
  1 <= d -> 1 <= h -> 1 <= w -> num_experts < topk ->
  MoELayer.forward (MoELayer.mk es (Router.init d num_experts) topk)
    training pick [n; d; h; w] [n; d; h; w] = Err (RuntimeError TopkOutOfRange).
Proof.
  intros Hd Hh Hw Hk. unfold MoELayer.forward.
  cbn [MoELayer.gate MoELayer.num_expert].
  rewrite Router_forward_4d by lia. cbn [bind softmax_dim1].
  now rewrite topk_shape_out_of_range by lia.
Qed.

(** Zero experts never make a block, whatever the other arguments. *)
Lemma zero_experts_never_constructed d topk use_shuffle lr recursive :
  is_ok (MoEBlock.init d 0 topk use_shuffle lr recursive) = false.
Proof.
  unfold MoEBlock.init. change (range 0) with (@nil Z).
  cbn [mapM bind]. change (MoELayer.init [] _ _) with (@Err MoELayer.t AssertionError).
  repeat match goal with
         | |- context [bind ?c _] => destruct c; cbn [bind is_ok]; [|reflexivity]
         end.
  reflexivity.
Qed.

(** C4, as the code has it.  A layer without experts is rejected when it is
    constructed ([assert len(experts) > 0]).  The top-k value is not checked
    at construction: with at least one expert the block is built for any
    [topk], and a [topk] above the number of experts makes [torch.topk] raise
    in the first forward pass. *)
Theorem moe_construction_checks (d topk recursive : Z) (use_shuffle : bool)
        (lr : LrSpace) :
  1 <= d -> valid_lr_space lr ->
  (forall gate k, MoELayer.init [] gate k = Err AssertionError) /\
  MoEBlock.init d 0 topk use_shuffle lr recursive = Err AssertionError /\
  (forall num_experts, 1 <= num_experts ->
     exists m,
       MoEBlock.init d num_experts topk use_shuffle lr recursive = Ok m /\
       MoELayer.num_expert (MoEBlock.moe_layer m) = topk /\
       Z.of_nat (List.length (MoELayer.experts (MoEBlock.moe_layer m)))
         = num_experts /\
       (num_experts < topk ->
        forall training pick n h w,
          1 <= n -> 0 <= recursive -> 4 ^ recursive <= h -> 4 ^ recursive <= w ->
          MoEBlock.forward m training pick [n; d; h; w]
          = Err (RuntimeError TopkOutOfRange))).
Proof.
  intros Hd Hlr. split; [reflexivity|]. split.
  - unfold MoEBlock.init.
    rewrite !Conv2d_init_g1, !Conv2d_init_depthwise by lia. cbn [bind].
    destruct (StripedConv2d_ok d 3 Hd ltac:(lia) eq_refl) as (c2 & -> & _).
    destruct (grow_func_ok lr Hlr) as (g & ->). reflexivity.
  - intros num_experts HN.
    destruct (MoEBlock_forward_to_moe d num_experts topk use_shuffle lr
                recursive Hd HN Hlr) as (m & es & E & Emoe & Hlen & _ & Hfwd).
    exists m. rewrite Emoe. cbn [MoELayer.num_expert MoELayer.experts].
    repeat split; auto.
    intros Hk training pick n h w Hn Hr Hh Hw.
    assert (0 < 4 ^ recursive) by (apply Z.pow_pos_nonneg; lia).
    rewrite Hfwd, Emoe by assumption.
    now rewrite MoELayer_forward_topk_out_of_range by lia.
Qed.

Lemma moe_construction_checks_witness :
  MoEBlock.init 36 0 1 true (LrStr "exp") 2 = Err AssertionError /\
  exists m, MoEBlock.init 36 3 1 true (LrStr "exp") 2 = Ok m /\
            MoELayer.num_expert (MoEBlock.moe_layer m) = 1.
Proof.
  destruct (moe_construction_checks 36 1 2 true (LrStr "exp") ltac:(lia)
              (or_intror (or_introl eq_refl))) as (_ & H0 & Hn).
  split; [exact H0|].
  destruct (Hn 3 ltac:(lia)) as (m & E & Ek & _).
  exists m. split; [exact E|exact Ek].
Defined.

(** C4 fails as stated: three experts with [topk = 4] are accepted by the
    constructor; the error only shows in the forward pass. *)
Lemma topk_above_experts_is_constructed :
  exists m,
    MoEBlock.init 36 3 4 true (LrStr "exp") 2 = Ok m /\
    MoELayer.num_expert (MoEBlock.moe_layer m) = 4 /\
    List.length (MoELayer.experts (MoEBlock.moe_layer m)) = 3%nat /\
    MoEBlock.forward m true (fun _ _ => 0) [1; 36; 16; 16]
    = Err (RuntimeError TopkOutOfRange).
Proof.
  eexists. split; [vm_compute; reflexivity|].
  split; [reflexivity|]. split; [reflexivity|]. vm_compute. reflexivity.
Qed.

(** ** Tiling against whole-image inference *)

(** C1, where the tiled path breaks it: on a 100x100 image [seemore_t_x2]
    runs as a whole, but with [tile_size = 3] the first padded tile is 15x15
    pixels, smaller than the 16 pixels the two strided 4x4 convolutions of
    the calibration need, and tiled inference raises where whole-image
    inference returns. *)
Lemma small_tiles_raise :
  exists m,
    SeemoRe.init (seemore_t_base_cfg 2) tt = Ok m /\
    run_model m route0 image_100
      = Ok {| m_shape := [1; 3; 200; 200]; m_type := FloatTensor |} /\
    (exists tiles, tile_schedule 2 100 100 3 = Ok tiles /\
       map (fun tb => (y_end_pad tb - y_start_pad tb, x_end_pad tb - x_start_pad tb))
           (firstn 1 tiles) = [(15, 15)]) /\
    tile_inference (run_model m route0) (SeemoRe.scale m) image_100 3
      = Err (RuntimeError KernelTooLarge).
Proof.
  eexists. split; [vm_compute; reflexivity|].
  split; [vm_compute; reflexivity|]. split.
  - eexists. split; [vm_compute; reflexivity|]. reflexivity.
  - vm_compute. reflexivity.
Qed.

(** ** The default constructor arguments *)

(** [SeemoRe()] with its defaults cannot be built: the default [lr_space] is
    the integer 1, which is none of the three policy names [MoEBlock] knows. *)
Lemma default_constructor_raises :
  SeemoRe.init SeemoRe.default_config tt = Err NotImplementedError.
Proof. reflexivity. Qed.

(** The six named configurations are valid and can be built. *)
Lemma named_configurations_build :
  forallb (fun nc => is_ok (SeemoRe.init (snd nc) tt)) seemore_model_cfgs = true.
Proof. vm_compute. reflexivity. Qed.

(** ** Slicing and assignment of tensors with values *)

Lemma bidx_in size i : 0 <= i < size -> bidx size i = i.
Proof.
  intros Hi. unfold bidx. destruct (Z.eqb_spec size 1); [lia|reflexivity].
Qed.

Lemma expandable_rev_refl s : expandable_rev s s = true.
Proof.
  induction s as [|x s IH]; [reflexivity|]. simpl. now rewrite Z.eqb_refl, IH.
Qed.

Lemma expandable_refl s : expandable s s = true.
Proof. apply expandable_rev_refl. Qed.

Lemma norm_index_0 len : 0 <= len -> norm_index 0 len = 0.
Proof. intros H. unfold norm_index. cbn. lia. Qed.

Lemma slice_len_full len : 0 <= len -> slice_len 0 len len = len.
Proof.
  intros H. unfold slice_len. rewrite norm_index_0 by assumption.
  unfold norm_index. destruct (Z.ltb_spec len 0); lia.
Qed.

(** [t[:, :, 0:h, 0:w]] of a tensor of height [h] and width [w] is [t]. *)
Lemma v_getitem_full {A : Type} (t : VTensor A) n c h w :
  dims t = (n, c, h, w) -> 0 <= h -> 0 <= w ->
  v_getitem_hw t (0, h) (0, w) = Ok t.
Proof.
  intros Hd Hh Hw. unfold v_getitem_hw. rewrite Hd. cbn [fst snd].
  rewrite !slice_len_full, !norm_index_0 by assumption.
  destruct t as [d f]. cbn in Hd. subst d. reflexivity.
Qed.

(** Assigning a whole tensor of the same shape replaces every element. *)
Lemma v_setitem_full {A : Type} (t src : VTensor A) n c h w :
  dims t = (n, c, h, w) -> dims src = (n, c, h, w) -> 0 <= h -> 0 <= w ->
  exists r, v_setitem_hw t (0, h) (0, w) src = Ok r /\ teq r src.
Proof.
  intros Hd Hs Hh Hw. unfold v_setitem_hw. rewrite Hd, Hs. cbn [fst snd].
  rewrite !slice_len_full, !norm_index_0 by assumption.
  rewrite expandable_refl. eexists. split; [reflexivity|].
  split; [now rewrite Hs|].
  cbn [dims at4]. intros b ch i j (Hb & Hc & Hi & Hj).
  destruct (Z.leb_spec 0 i); [|lia]. destruct (Z.ltb_spec i (0 + h)); [|lia].
  destruct (Z.leb_spec 0 j); [|lia]. destruct (Z.ltb_spec j (0 + w)); [|lia].
  cbn [andb]. rewrite !Z.sub_0_r. now rewrite !bidx_in by lia.
Qed.

Lemma ceil_div_one a b : 1 <= a <= b -> ceil_div a b = Ok 1.
Proof.
  intros H. destruct (ceil_div_pos a b ltac:(lia) ltac:(lia)) as (n & E & Hn & Hc).
  rewrite E. f_equal. nia.
Qed.

(** ** Tiling against whole-image inference *)

(** A single tile.  When [tile_size] is at least both spatial
    dimensions of a non-empty image, the schedule holds a single tile whose
    padded window is the whole image, the model is run once on the image
    itself, and the tiled output is exactly the model's output on the whole
    image. *)
Theorem single_tile_is_whole_image {A : Type} (zero : A)
        (model : VTensor A -> result (VTensor A)) (scale : Z) (y : VTensor A)
        (tile_size n c h w : Z) (out : VTensor A) :
  dims y = (n, c, h, w) -> 0 <= n -> 0 <= c ->
  1 <= h <= tile_size -> 1 <= w <= tile_size -> 0 <= scale ->
  model y = Ok out -> dims out = (n, c, h * scale, w * scale) ->
  tile_schedule scale h w tile_size = Ok [tile_bounds scale h w tile_size 0 0] /\
  (y_start_pad (tile_bounds scale h w tile_size 0 0),
   y_end_pad (tile_bounds scale h w tile_size 0 0),
   x_start_pad (tile_bounds scale h w tile_size 0 0),
   x_end_pad (tile_bounds scale h w tile_size 0 0)) = (0, h, 0, w) /\
  exists r,
    tile_inference (H := VTensor_TensorLike zero) model scale y tile_size = Ok r /\
    teq r out.
Proof.
  intros Hd Hn Hc Hh Hw Hs Hm Ho.
  assert (Esched : tile_schedule scale h w tile_size
                   = Ok [tile_bounds scale h w tile_size 0 0]).
  { unfold tile_schedule. rewrite !ceil_div_one by lia. reflexivity. }
  assert (E1 : y_start_pad (tile_bounds scale h w tile_size 0 0) = 0)
    by (unfold tile_bounds, tile_pad; cbn; lia).
  assert (E2 : y_end_pad (tile_bounds scale h w tile_size 0 0) = h)
    by (unfold tile_bounds, tile_pad; cbn; lia).
  assert (E3 : x_start_pad (tile_bounds scale h w tile_size 0 0) = 0)
    by (unfold tile_bounds, tile_pad; cbn; lia).
  assert (E4 : x_end_pad (tile_bounds scale h w tile_size 0 0) = w)
    by (unfold tile_bounds, tile_pad; cbn; lia).
  assert (V1 : out_y_start_valid (tile_bounds scale h w tile_size 0 0) = 0)
    by (unfold tile_bounds, tile_pad; cbn; lia).
  assert (V2 : out_y_end_valid (tile_bounds scale h w tile_size 0 0) = h * scale)
    by (unfold tile_bounds, tile_pad; cbn; nia).
  assert (V3 : out_x_start_valid (tile_bounds scale h w tile_size 0 0) = 0)
    by (unfold tile_bounds, tile_pad; cbn; lia).
  assert (V4 : out_x_end_valid (tile_bounds scale h w tile_size 0 0) = w * scale)
    by (unfold tile_bounds, tile_pad; cbn; nia).
  assert (O1 : out_y_start (tile_bounds scale h w tile_size 0 0) = 0)
    by (unfold tile_bounds, tile_pad; cbn; lia).
  assert (O2 : out_y_end (tile_bounds scale h w tile_size 0 0) = h * scale)
    by (unfold tile_bounds, tile_pad; cbn; nia).
  assert (O3 : out_x_start (tile_bounds scale h w tile_size 0 0) = 0)
    by (unfold tile_bounds, tile_pad; cbn; lia).
  assert (O4 : out_x_end (tile_bounds scale h w tile_size 0 0) = w * scale)
    by (unfold tile_bounds, tile_pad; cbn; nia).
  split; [exact Esched|]. split; [now rewrite E1, E2, E3, E4|].
  rewrite (tile_inference_schedule model scale y tile_size n c h w)
    by (cbn; now rewrite Hd).
  rewrite Esched. cbn [new_zeros VTensor_TensorLike].
  unfold v_new_zeros. cbn [existsb].
  destruct (Z.ltb_spec n 0); [lia|]. destruct (Z.ltb_spec c 0); [lia|].
  destruct (Z.ltb_spec (h * scale) 0); [nia|].
  destruct (Z.ltb_spec (w * scale) 0); [nia|].
  cbn [orb bind for_each]. unfold process_tile.
  rewrite E1, E2, E3, E4, V1, V2, V3, V4, O1, O2, O3, O4.
  cbn [getitem_hw setitem_hw VTensor_TensorLike].
  rewrite (v_getitem_full y n c h w) by (auto; lia). cbn [bind].
  rewrite Hm. cbn [bind].
  rewrite (v_getitem_full out n c (h * scale) (w * scale)) by (auto; nia).
  cbn [bind].
  destruct (v_setitem_full
              {| dims := (n, c, h * scale, w * scale);
                 at4 := fun _ _ _ _ => zero |} out n c (h * scale) (w * scale)
              eq_refl Ho ltac:(nia) ltac:(nia)) as (r & Er & Hr).
  exists r. split; [now rewrite Er|exact Hr].
Qed.

(** A 2x3 image enlarged twice by nearest neighbour, [tile_size = 4]. *)
Lemma single_tile_is_whole_image_witness :
  exists r out,
    nearest_upscale 2 tiny_image = Ok out /\
    tile_inference (H := VTensor_TensorLike 0) (nearest_upscale 2) 2
      tiny_image 4 = Ok r /\
    teq r out.
Proof.
  destruct (single_tile_is_whole_image 0 (nearest_upscale 2) 2 tiny_image 4
              1 1 2 3
              {| dims := (1, 1, 4, 6);
                 at4 := fun _ _ i j => 10 * (i / 2) + j / 2 |}
              eq_refl ltac:(lia) ltac:(lia) ltac:(lia) ltac:(lia) ltac:(lia)
              eq_refl eq_refl) as (_ & _ & r & Er & Hr).
  exists r. eexists. split; [reflexivity|]. split; [exact Er|exact Hr].
Defined.

(** ** Sums, the exact softmax and top-k over the reals *)

Section RealLemmas.
Local Open Scope R_scope.

Lemma rsum_app a b : rsum (a ++ b) = rsum a + rsum b.
Proof. induction a as [|x a IH]; simpl; [lra|]. rewrite IH. lra. Qed.

Lemma rsum_perm a b : Permutation a b -> rsum a = rsum b.
Proof. induction 1; simpl; lra. Qed.

Lemma rsum_nonneg l : Forall (fun v => 0 <= v) l -> 0 <= rsum l.
Proof. induction 1; simpl; lra. Qed.

Lemma rsum_ge_member l v : Forall (fun v => 0 <= v) l -> In v l -> v <= rsum l.
Proof.
  induction 1 as [|x l Hx Hl IH]; intros Hin; [contradiction|].
  pose proof (rsum_nonneg l Hl). simpl. destruct Hin as [->|Hin]; [lra|].
  specialize (IH Hin). lra.
Qed.

Lemma rsum_exp_pos row : row <> [] -> 0 < rsum (map exp row).
Proof.
  intros Hne. destruct row as [|x row]; [contradiction|]. simpl.
  pose proof (exp_pos x).
  assert (0 <= rsum (map exp row)).
  { apply rsum_nonneg. apply Forall_forall. intros v Hv.
    apply in_map_iff in Hv as (y & <- & _). left. apply exp_pos. }
  lra.
Qed.

Lemma softmax_length row : List.length (softmax row) = List.length row.
Proof. unfold softmax. apply length_map. Qed.

Lemma softmax_pos row v : In v (softmax row) -> 0 < v.
Proof.
  unfold softmax. intros Hin. apply in_map_iff in Hin as (x & <- & Hx).
  assert (row <> []) by (intros ->; contradiction).
  apply Rdiv_lt_0_compat; [apply exp_pos|now apply rsum_exp_pos].
Qed.

(** *** Selection of the largest entries *)

Lemma argmax_In l : forall best, In (argmax best l) (best :: l).
Proof.
  induction l as [|x l IH]; intros best; simpl; [now left|].
  destruct (Rlt_dec (fst best) (fst x)).
  - destruct (IH x) as [E|H]; [right; left; exact E|right; right; exact H].
  - destruct (IH best) as [E|H]; [left; exact E|right; right; exact H].
Qed.

Lemma remove_idx_notin i l :
  ~ In i (map snd l) -> remove_idx i l = l.
Proof.
  induction l as [|p l IH]; intros Hn; [reflexivity|]. simpl in *.
  destruct (Z.eqb_spec (snd p) i) as [E|_]; [tauto|]. simpl.
  f_equal. apply IH. tauto.
Qed.

Lemma remove_idx_perm l : forall b,
  NoDup (map snd l) -> In b l -> Permutation l (b :: remove_idx (snd b) l).
Proof.
  induction l as [|p l IH]; intros b Hnd Hin; [contradiction|].
  simpl in Hnd. inversion Hnd as [|? ? Hnotin Hnd']; subst.
  destruct Hin as [->|Hin].
  - simpl. rewrite Z.eqb_refl. simpl. now rewrite remove_idx_notin.
  - simpl. destruct (Z.eqb_spec (snd p) (snd b)) as [E|_].
    + exfalso. apply Hnotin. rewrite E. now apply in_map.
    + simpl. etransitivity; [apply perm_skip, (IH b Hnd' Hin)|apply perm_swap].
Qed.

Lemma NoDup_map_filter {T U : Type} (f : T -> U) (p : T -> bool) l :
  NoDup (map f l) -> NoDup (map f (filter p l)).
Proof.
  induction l as [|x l IH]; intros Hnd; [constructor|].
  simpl in Hnd. inversion Hnd as [|? ? Hnotin Hnd']; subst. simpl.
  destruct (p x); [|now apply IH]. simpl. constructor; [|now apply IH].
  intros Hin. apply Hnotin. apply in_map_iff in Hin as (y & E & Hy).
  apply filter_In in Hy as [Hy _]. rewrite <- E. now apply in_map.
Qed.

(** The selection is a part of the row: the row is the selection followed by
    the entries left, up to order. *)
Lemma topk_sel_perm k : forall l,
  NoDup (map snd l) ->
  exists rest, Permutation l (topk_sel k l ++ rest).
Proof.
  induction k as [|k IH]; intros l Hnd; [exists l; reflexivity|].
  destruct l as [|x l]; [exists []; reflexivity|].
  cbn [topk_sel].
  set (b := argmax x l).
  assert (Hb : In b (x :: l)) by apply argmax_In.
  destruct (IH (remove_idx (snd b) (x :: l))) as (rest & Hrest).
  { now apply NoDup_map_filter. }
  exists rest. etransitivity; [apply (remove_idx_perm _ b Hnd Hb)|].
  simpl. now apply perm_skip.
Qed.

Lemma topk_sel_length k : forall l,
  NoDup (map snd l) -> (k <= List.length l)%nat ->
  List.length (topk_sel k l) = k.
Proof.
  induction k as [|k IH]; intros l Hnd Hk; [reflexivity|].
  destruct l as [|x l]; [simpl in Hk; lia|].
  cbn [topk_sel List.length]. f_equal. apply IH.
  - now apply NoDup_map_filter.
  - pose proof (remove_idx_perm (x :: l) (argmax x l) Hnd (argmax_In l x)) as Hp.
    apply Permutation_length in Hp. cbn [List.length] in Hp, Hk. lia.
Qed.

Lemma combine_fst_snd {T U : Type} (a : list T) : forall (b : list U),
  List.length a = List.length b ->
  map fst (combine a b) = a /\ map snd (combine a b) = b.
Proof.
  induction a as [|x a IH]; intros [|y b] Hlen; try discriminate; simpl.
  - split; reflexivity.
  - injection Hlen as Hlen. destruct (IH b Hlen) as [-> ->]. split; reflexivity.
Qed.

Lemma indexed_fst row : map fst (indexed row) = row.
Proof.
  unfold indexed. apply combine_fst_snd. rewrite range_length. lia.
Qed.

Lemma indexed_snd row :
  map snd (indexed row) = range (Z.of_nat (List.length row)).
Proof.
  unfold indexed. apply combine_fst_snd. rewrite range_length. lia.
Qed.

Lemma indexed_NoDup row : NoDup (map snd (indexed row)).
Proof. rewrite indexed_snd. apply range_NoDup. Qed.

Lemma indexed_length row : List.length (indexed row) = List.length row.
Proof. rewrite <- (indexed_fst row) at 2. now rewrite length_map. Qed.

(** The values [torch.topk] returns are entries of the row, and their sum is
    at most the sum of the row when no entry is negative. *)
Lemma topk_row_values row k :
  Forall (fun v => 0 <= v) row ->
  (forall v, In v (fst (topk_row row k)) -> In v row) /\
  rsum (fst (topk_row row k)) <= rsum row.
Proof.
  intros Hpos. unfold topk_row. cbn [fst].
  destruct (topk_sel_perm (Z.to_nat k) (indexed row) (indexed_NoDup row))
    as (rest & Hp).
  assert (Hrow : Permutation row
                   (map fst (topk_sel (Z.to_nat k) (indexed row)) ++ map fst rest)).
  { rewrite <- (indexed_fst row) at 1. rewrite <- map_app.
    now apply Permutation_map. }
  split.
  - intros v Hv. apply (Permutation_in v (Permutation_sym Hrow)).
    apply in_or_app. now left.
  - rewrite (rsum_perm _ _ Hrow), rsum_app.
    assert (0 <= rsum (map fst rest)); [|lra].
    apply rsum_nonneg. apply Forall_forall. intros v Hv.
    rewrite Forall_forall in Hpos. apply Hpos.
    apply (Permutation_in v (Permutation_sym Hrow)). apply in_or_app. now right.
Qed.

Lemma topk_row_length row k :
  (0 <= k <= Z.of_nat (List.length row))%Z ->
  List.length (fst (topk_row row k)) = Z.to_nat k /\
  List.length (snd (topk_row row k)) = Z.to_nat k.
Proof.
  intros Hk. unfold topk_row. cbn [fst snd]. rewrite !length_map.
  split; apply topk_sel_length; try apply indexed_NoDup;
    rewrite indexed_length; lia.
Qed.

End RealLemmas.

(** ** Gate weights of the MoE layer *)

Lemma VRouter_forward_ok (g : VRouter.t) (inputs : VTensor R) n c h w :
  dims inputs = (n, c, h, w) -> c = VRouter.in_ch g ->
  1 <= c -> 1 <= h -> 1 <= w ->
  VRouter.forward g inputs = Ok (map (VRouter.logits g inputs) (range n)).
Proof.
  intros Hd Hc H1 Hh Hw. unfold VRouter.forward. rewrite Hd.
  destruct (Z.eqb_spec c 0); [lia|]. destruct (Z.eqb_spec h 0); [lia|].
  destruct (Z.eqb_spec w 0); [lia|]. cbn [orb].
  destruct (Z.eqb_spec c (VRouter.in_ch g)); [reflexivity|contradiction].
Qed.

Lemma logits_length g inputs b :
  List.length (VRouter.logits g inputs b) = Z.to_nat (VRouter.num_experts g).
Proof. unfold VRouter.logits. now rewrite length_map, range_length. Qed.

(** ** Scatter and gather on one row *)

Section ScatterLemmas.
Local Open Scope R_scope.

Lemma getcol_cons v l i : (0 <= i)%Z -> getcol (v :: l) (i + 1) = getcol l i.
Proof.
  intros Hi. unfold getcol.
  replace (Z.to_nat (i + 1)) with (S (Z.to_nat i)) by lia. reflexivity.
Qed.

(** The entries of [indexed row], with an offset for the induction. *)
Lemma combine_seq_In (row : list R) : forall (s : nat) v idx,
  In (v, idx) (combine row (map Z.of_nat (seq s (List.length row)))) ->
  exists p, idx = Z.of_nat (s + p) /\ (p < List.length row)%nat /\ nth p row 0 = v.
Proof.
  induction row as [|x row IH]; intros s v idx Hin; [contradiction|].
  cbn [List.length seq map combine] in Hin. destruct Hin as [E|Hin].
  - injection E as <- <-. exists 0%nat. cbn. repeat split; [f_equal; lia|lia].
  - destruct (IH (S s) v idx Hin) as (p & -> & Hp & Hv).
    exists (S p). cbn. repeat split; [f_equal; lia|lia|exact Hv].
Qed.

Lemma indexed_In row v idx :
  In (v, idx) (indexed row) ->
  (0 <= idx < Z.of_nat (List.length row))%Z /\ getcol row idx = v.
Proof.
  unfold indexed, range. rewrite Nat2Z.id. intros Hin.
  destruct (combine_seq_In row 0 v idx Hin) as (p & -> & Hp & Hv).
  split; [lia|]. unfold getcol. now rewrite Nat2Z.id.
Qed.

Lemma map_combine_seq {T : Type} (f : R -> Z -> T) (row : list R) : forall s,
  map (fun p => f (fst p) (snd p))
      (combine row (map Z.of_nat (seq s (List.length row))))
  = map (fun q => f (nth (q - s) row 0) (Z.of_nat q)) (seq s (List.length row)).
Proof.
  induction row as [|x row IH]; intros s; [reflexivity|].
  cbn [List.length seq map combine fst snd]. rewrite Nat.sub_diag. cbn [nth].
  f_equal. rewrite IH. apply map_ext_in. intros q Hq. apply in_seq in Hq.
  replace (q - s)%nat with (S (q - S s)) by lia. reflexivity.
Qed.

Lemma setcol_length row i v : List.length (setcol row i v) = List.length row.
Proof. unfold setcol. now rewrite length_map, indexed_length. Qed.

Lemma nth_map_seq {T : Type} (f : nat -> T) (n j : nat) (d : T) :
  (j < n)%nat -> nth j (map f (seq 0 n)) d = f j.
Proof.
  intros Hj. rewrite (nth_indep _ d (f 0%nat))
    by (rewrite length_map, length_seq; lia).
  rewrite map_nth, seq_nth by lia. reflexivity.
Qed.

Lemma getcol_setcol row i v j :
  (0 <= j < Z.of_nat (List.length row))%Z ->
  getcol (setcol row i v) j = if (j =? i)%Z then v else getcol row j.
Proof.
  intros Hj. unfold setcol, indexed, range. rewrite Nat2Z.id.
  rewrite (map_combine_seq (fun x idx => if (idx =? i)%Z then v else x) row 0).
  unfold getcol. rewrite nth_map_seq by lia.
  rewrite Z2Nat.id by lia. now rewrite Nat.sub_0_r.
Qed.

Lemma NoDup_app_disj {T : Type} (l1 l2 : list T) a :
  NoDup (l1 ++ l2) -> In a l1 -> In a l2 -> False.
Proof.
  intros Hnd H1 H2. apply in_split in H2 as (x & y & ->).
  rewrite app_assoc in Hnd. apply NoDup_remove_2 in Hnd.
  apply Hnd. apply in_or_app. left. apply in_or_app. now left.
Qed.

Lemma getcol_zeros {T : Type} (l : list T) j :
  getcol (map (fun _ => 0) l) j = 0.
Proof.
  unfold getcol. generalize (Z.to_nat j).
  induction l as [|x l IH]; intros [|q]; cbn; auto.
Qed.

Lemma scatter_row_length ps : forall row,
  List.length (fold_left (fun r p => setcol r (fst p) (snd p)) ps row)
  = List.length row.
Proof.
  induction ps as [|p ps IH]; intros row; [reflexivity|].
  cbn [fold_left]. now rewrite IH, setcol_length.
Qed.

(** A column no index names keeps its value. *)
Lemma scatter_untouched (ps : list (Z * R)) j : forall row,
  (0 <= j < Z.of_nat (List.length row))%Z -> ~ In j (map fst ps) ->
  getcol (fold_left (fun r p => setcol r (fst p) (snd p)) ps row) j
  = getcol row j.
Proof.
  induction ps as [|p ps IH]; intros row Hj Hn; [reflexivity|].
  cbn [fold_left]. cbn [map] in Hn.
  rewrite IH; [|now rewrite setcol_length|intros Hin; apply Hn; now right].
  rewrite getcol_setcol by assumption.
  destruct (Z.eqb_spec j (fst p)) as [E|_]; [|reflexivity].
  exfalso. apply Hn. left. now symmetry.
Qed.

(** A column named once receives the value scattered to it. *)
Lemma scatter_written (ps : list (Z * R)) j v : forall row,
  (0 <= j < Z.of_nat (List.length row))%Z -> NoDup (map fst ps) ->
  In (j, v) ps ->
  getcol (fold_left (fun r p => setcol r (fst p) (snd p)) ps row) j = v.
Proof.
  induction ps as [|p ps IH]; intros row Hj Hnd Hin; [contradiction|].
  cbn [fold_left]. cbn [map] in Hnd.
  inversion Hnd as [|? ? Hnotin Hnd']; subst.
  destruct Hin as [->|Hin].
  - cbn [fst snd] in *.
    rewrite scatter_untouched by (rewrite ?setcol_length; assumption).
    rewrite getcol_setcol by assumption. now rewrite Z.eqb_refl.
  - apply IH; [now rewrite setcol_length|assumption|assumption].
Qed.

Lemma combine_map_snd_fst (sel : list (R * Z)) :
  combine (map snd sel) (map fst sel) = map (fun p => (snd p, fst p)) sel.
Proof. induction sel as [|p sel IH]; [reflexivity|]. cbn. now rewrite IH. Qed.

(** [weights.gather(1, topk_experts)] returns [topk_weights] again. *)
Lemma gather_topk row k :
  gather_row row (snd (topk_row row k)) = fst (topk_row row k).
Proof.
  unfold gather_row, topk_row. cbn [fst snd]. rewrite map_map.
  destruct (topk_sel_perm (Z.to_nat k) (indexed row) (indexed_NoDup row))
    as (rest & Hp).
  apply map_ext_in. intros [v idx] Hin. cbn [fst snd].
  apply (indexed_In row v idx).
  apply (Permutation_in _ (Permutation_sym Hp)). apply in_or_app. now left.
Qed.

(** The dense weights of the training path against the selected weights of
    the inference path: for any per-expert term [F], the sum over all experts
    weighted by [exp_weights] is the sum over the selected experts weighted
    by [topk_weights]. *)
Lemma dense_sum_is_sparse_sum (F : Z -> R) (row : list R) (k : Z) :
  rsum (map (fun idx =>
               F idx * getcol (scatter_row (map (fun _ => 0) row)
                                 (snd (topk_row row k))
                                 (gather_row row (snd (topk_row row k)))) idx)
            (range (Z.of_nat (List.length row))))
  = rsum (map (fun p => F (snd p) * fst p)
              (topk_sel (Z.to_nat k) (indexed row))).
Proof.
  rewrite gather_topk. unfold topk_row, scatter_row. cbn [fst snd].
  set (sel := topk_sel (Z.to_nat k) (indexed row)).
  rewrite combine_map_snd_fst.
  destruct (topk_sel_perm (Z.to_nat k) (indexed row) (indexed_NoDup row))
    as (rest & Hp). fold sel in Hp.
  set (ew := fold_left _ _ _).
  assert (Hnd : NoDup (map snd (sel ++ rest))).
  { eapply Permutation_NoDup; [apply Permutation_map, Hp|apply indexed_NoDup]. }
  rewrite map_app in Hnd.
  assert (Hrange : forall p, In p (sel ++ rest) ->
                     (0 <= snd p < Z.of_nat (List.length row))%Z).
  { intros [v idx] Hin. apply (indexed_In row v idx).
    now apply (Permutation_in _ (Permutation_sym Hp)). }
  rewrite <- indexed_snd, map_map.
  rewrite (rsum_perm _ _ (Permutation_map _ Hp)), map_app, rsum_app.
  assert (Hsel : map (fun x => F (snd x) * getcol ew (snd x)) sel
                 = map (fun p => F (snd p) * fst p) sel).
  { apply map_ext_in. intros [v idx] Hin. cbn [fst snd]. f_equal.
    apply scatter_written.
    - rewrite length_map. apply (Hrange (v, idx)). apply in_or_app. now left.
    - rewrite map_map. cbn [fst]. now apply NoDup_app_remove_r in Hnd.
    - apply in_map_iff. exists (v, idx). split; [reflexivity|assumption]. }
  assert (Hrest : rsum (map (fun x => F (snd x) * getcol ew (snd x)) rest) = 0).
  { assert (E : map (fun x => F (snd x) * getcol ew (snd x)) rest
                = map (fun _ => 0) rest).
    { apply map_ext_in. intros [v idx] Hin. cbn [snd].
      unfold ew. rewrite scatter_untouched.
      - rewrite getcol_zeros. lra.
      - rewrite length_map. apply (Hrange (v, idx)). apply in_or_app. now right.
      - rewrite map_map. cbn [fst]. intros Hin'.
        apply (NoDup_app_disj (map snd sel) (map snd rest) idx Hnd Hin').
        apply in_map_iff. exists (v, idx). split; [reflexivity|assumption]. }
    rewrite E. clear. induction rest; simpl; lra. }
  rewrite Hsel, Hrest. lra.
Qed.
End ScatterLemmas.

(** ** One pass of the expert loop *)

Section ExpertLoop.
Local Open Scope R_scope.

Lemma broadcast_dims_same d : broadcast_dims d d = Ok d.
Proof.
  destruct d as [[[n c] h] w]. unfold broadcast_dims.
  now rewrite !broadcast_dim_refl.
Qed.

Lemma broadcast_dims_gate n d h w :
  broadcast_dims (n, d, h, w) (n, 1, 1, 1)%Z = Ok (n, d, h, w).
Proof.
  unfold broadcast_dims. now rewrite !broadcast_dim_1_r, broadcast_dim_refl.
Qed.

Lemma dims_eqb_refl d : dims_eqb d d = true.
Proof. apply shape_eqb_refl. Qed.

Lemma VConv_forward_ok (m : VConv.t) (x : VTensor R) n h w :
  dims x = (n, VConv.in_channels m, h, w) -> (1 <= h)%Z -> (1 <= w)%Z ->
  VConv.forward m x =
    Ok {| dims := (n, VConv.out_channels m, h, w);
          at4 := fun b o i j =>
                   VConv.bias m o +
                   sum_range (VConv.in_channels m)
                     (fun ci => VConv.weight m o ci * at4 x b ci i j) |}.
Proof.
  intros Hd Hh Hw. unfold VConv.forward. rewrite Hd, Z.eqb_refl. cbn [negb].
  destruct (Z.ltb_spec h 1); [lia|]. destruct (Z.ltb_spec w 1); [lia|].
  reflexivity.
Qed.

Lemma VExpert_forward_ok d (e : VExpert.t) (x k : VTensor R) n h w :
  VExpert_shaped d e ->
  dims x = (n, d, h, w) -> dims k = (n, d, h, w) -> (1 <= h)%Z -> (1 <= w)%Z ->
  exists y, VExpert.forward e x k = Ok y /\ dims y = (n, d, h, w).
Proof.
  intros (E1 & E2 & E3 & E4 & E5) Hx Hk Hh Hw. unfold VExpert.forward.
  rewrite (VConv_forward_ok _ x n h w) by (rewrite ?E1; assumption).
  cbn [bind].
  rewrite (VConv_forward_ok _ k n h w) by (rewrite ?E2; assumption).
  cbn [bind]. unfold vmul, vbinop. cbn [dims]. rewrite E3.
  rewrite broadcast_dims_same. cbn [bind].
  rewrite (VConv_forward_ok _ _ n h w) by (cbn [dims]; rewrite ?E4; auto).
  eexists. split; [reflexivity|]. cbn [dims]. now rewrite E5.
Qed.

Lemma norm_index_in i cols : (0 <= i < cols)%Z -> norm_index i cols = i.
Proof. intros H. unfold norm_index. destruct (Z.ltb_spec i 0); lia. Qed.

(** [out += expert(inputs, k) * w[:, i : i + 1, None, None]] for a column
    [i] of the weight matrix: every element of [out] grows by the expert's
    element times the weight of its batch item. *)
Lemma accumulate_spec d (e : VExpert.t) (inputs k out : VTensor R)
      (wm : list (list R)) n h w cols i :
  VExpert_shaped d e ->
  dims inputs = (n, d, h, w) -> dims k = (n, d, h, w) ->
  dims out = (n, d, h, w) -> (1 <= h)%Z -> (1 <= w)%Z ->
  Z.of_nat (List.length wm) = n -> (0 <= i < cols)%Z ->
  exists out',
    VMoELayer.accumulate inputs k wm cols i e out = Ok out' /\
    dims out' = (n, d, h, w) /\
    forall b c y x, in_dims (n, d, h, w) b c y x ->
      at4 out' b c y x
      = at4 out b c y x
        + expert_val e inputs k b c y x * getcol (nth (Z.to_nat b) wm []) i.
Proof.
  intros He Hi Hk Ho Hh Hw Hlen Hcol.
  destruct (VExpert_forward_ok d e inputs k n h w He Hi Hk Hh Hw)
    as (y & Ey & Hy).
  unfold VMoELayer.accumulate, expert_val. rewrite Ey. cbn [bind].
  unfold vmul, vbinop, wslice. cbn [dims]. rewrite Hy, Hlen.
  rewrite slice_len_one, broadcast_dims_gate by assumption. cbn [bind].
  unfold viadd, vadd, vbinop. cbn [dims]. rewrite Ho.
  rewrite broadcast_dims_same. cbn [bind dims]. rewrite dims_eqb_refl.
  eexists. split; [reflexivity|]. split; [reflexivity|].
  intros b c yy xx (Hb & Hc & Hyy & Hxx). cbn [at4].
  rewrite !bidx_in by lia. rewrite norm_index_in by assumption.
  unfold bidx. cbn [Z.eqb Pos.eqb]. now rewrite Z.add_0_r.
Qed.

Lemma accumulate_dims (e : VExpert.t) (inputs k out out' : VTensor R) wm cols i :
  VMoELayer.accumulate inputs k wm cols i e out = Ok out' -> dims out' = dims out.
Proof.
  unfold VMoELayer.accumulate.
  destruct (VExpert.forward e inputs k); cbn [bind]; [|discriminate].
  destruct (vmul _ _); cbn [bind]; [|discriminate].
  unfold viadd. destruct (vadd out _); cbn [bind]; [|discriminate].
  destruct (dims_eqb _ _); [|discriminate]. now intros [= <-].
Qed.

(** The whole loop over a list of experts starting at column [i]. *)
Lemma enumerate_loop_spec d (inputs k : VTensor R) (wm : list (list R))
      n h w cols (es : list VExpert.t) : forall i out,
  Forall (VExpert_shaped d) es ->
  dims inputs = (n, d, h, w) -> dims k = (n, d, h, w) ->
  dims out = (n, d, h, w) -> (1 <= h)%Z -> (1 <= w)%Z ->
  Z.of_nat (List.length wm) = n ->
  (0 <= i)%Z -> (i + Z.of_nat (List.length es) <= cols)%Z ->
  exists out',
    VMoELayer.enumerate_loop inputs k wm cols i es out = Ok out' /\
    dims out' = (n, d, h, w) /\
    forall b c y x, in_dims (n, d, h, w) b c y x ->
      at4 out' b c y x
      = at4 out b c y x
        + wsum (fun e => expert_val e inputs k b c y x)
               (getcol (nth (Z.to_nat b) wm [])) i es.
Proof.
  induction es as [|e es IH]; intros i out Hes Hi Hk Ho Hh Hw Hlen Hi0 Hcols.
  - exists out. split; [reflexivity|]. split; [assumption|].
    intros. cbn [wsum]. lra.
  - inversion Hes as [|? ? He Hes']; subst.
    cbn [List.length] in Hcols.
    destruct (accumulate_spec d e inputs k out wm _ h w cols i He Hi Hk Ho Hh Hw
                eq_refl ltac:(lia)) as (out1 & E1 & Hd1 & Hv1).
    cbn [VMoELayer.enumerate_loop]. rewrite E1. cbn [bind].
    destruct (IH (i + 1)%Z out1 Hes' Hi Hk Hd1 Hh Hw eq_refl ltac:(lia)
                ltac:(lia)) as (out2 & E2 & Hd2 & Hv2).
    exists out2. split; [exact E2|]. split; [exact Hd2|].
    intros b c y x Hin. rewrite (Hv2 b c y x Hin), (Hv1 b c y x Hin).
    cbn [wsum]. lra.
Qed.
End ExpertLoop.

(** ** The two paths of [MoELayer.forward] *)

Section MoEPaths.
Local Open Scope R_scope.

Lemma nth_map_range {T : Type} (F : Z -> T) n b d :
  (0 <= b < n)%Z -> nth (Z.to_nat b) (map F (range n)) d = F b.
Proof.
  intros Hb. unfold range. rewrite map_map.
  rewrite nth_map_seq by lia. now rewrite Z2Nat.id by lia.
Qed.

Lemma gate_weights_ok (m : VMoELayer.t) (inputs : VTensor R) n d h w :
  dims inputs = (n, d, h, w) -> VRouter.in_ch (VMoELayer.gate m) = d ->
  (1 <= d)%Z -> (1 <= h)%Z -> (1 <= w)%Z ->
  VMoELayer.gate_weights m inputs = Ok (map (gate_row m inputs) (range n)).
Proof.
  intros Hd Hc H1 Hh Hw. unfold VMoELayer.gate_weights.
  rewrite (VRouter_forward_ok _ inputs n d h w) by auto.
  cbn [bind]. now rewrite map_map.
Qed.

Lemma topk_ok (m : VMoELayer.t) (weights : list (list R)) :
  (0 <= VMoELayer.num_expert m <= VRouter.num_experts (VMoELayer.gate m))%Z ->
  VMoELayer.topk m weights =
    Ok (map (fun row => fst (topk_row row (VMoELayer.num_expert m))) weights,
        map (fun row => snd (topk_row row (VMoELayer.num_expert m))) weights).
Proof.
  intros Hk. unfold VMoELayer.topk.
  destruct (Z.ltb_spec (VMoELayer.num_expert m) 0); [lia|].
  destruct (Z.ltb_spec (VRouter.num_experts (VMoELayer.gate m))
              (VMoELayer.num_expert m)); [lia|reflexivity].
Qed.

Lemma exp_weights_rows {T : Type} (f : T -> list R) (k : Z) (l : list T) :
  VMoELayer.exp_weights (map f l)
    (map (fun row => snd (topk_row row k)) (map f l))
  = map (fun x => dense_row (f x) k) l.
Proof.
  unfold VMoELayer.exp_weights. induction l as [|x l IH]; [reflexivity|].
  cbn [map combine fst snd]. now rewrite IH.
Qed.

Lemma gate_row_length (m : VMoELayer.t) inputs b :
  List.length (gate_row m inputs b)
  = Z.to_nat (VRouter.num_experts (VMoELayer.gate m)).
Proof. unfold gate_row. now rewrite softmax_length, logits_length. Qed.

(** The training path: every expert, weighted by its dense gate weight. *)
Lemma forward_training_spec d (m : VMoELayer.t) (inputs k : VTensor R) n h w :
  VMoELayer_ok d m ->
  dims inputs = (n, d, h, w) -> dims k = (n, d, h, w) ->
  (0 <= n)%Z -> (1 <= d)%Z -> (1 <= h)%Z -> (1 <= w)%Z ->
  (0 <= VMoELayer.num_expert m <= VRouter.num_experts (VMoELayer.gate m))%Z ->
  exists out,
    VMoELayer.forward m true inputs k = Ok out /\
    dims out = (n, d, h, w) /\
    forall b c y x, in_dims (n, d, h, w) b c y x ->
      at4 out b c y x
      = at4 inputs b c y x
        + wsum (fun e => expert_val e inputs k b c y x)
               (getcol (dense_row (gate_row m inputs b) (VMoELayer.num_expert m)))
               0 (VMoELayer.experts m).
Proof.
  intros (Hes & Hin & HN) Hi Hk Hn Hd Hh Hw Hkk.
  unfold VMoELayer.forward.
  rewrite (gate_weights_ok m inputs n d h w) by auto. cbn [bind].
  rewrite topk_ok by assumption. cbn [bind].
  rewrite exp_weights_rows.
  destruct (enumerate_loop_spec d inputs k
              (map (fun b => dense_row (gate_row m inputs b)
                               (VMoELayer.num_expert m)) (range n))
              n h w (VRouter.num_experts (VMoELayer.gate m))
              (VMoELayer.experts m) 0%Z inputs Hes Hi Hk Hi Hh Hw)
    as (out & E & Hdo & Hv).
  { rewrite length_map, range_length. lia. }
  { lia. }
  { lia. }
  exists out. split; [exact E|]. split; [exact Hdo|].
  intros b c y x Hpos. rewrite (Hv b c y x Hpos).
  destruct Hpos as (Hb & _). now rewrite nth_map_range by assumption.
Qed.

Lemma wsum_shift ev v l es : forall i,
  (0 <= i)%Z -> wsum ev (getcol (v :: l)) (i + 1) es = wsum ev (getcol l) i es.
Proof.
  induction es as [|e es IH]; intros i Hi; [reflexivity|].
  cbn [wsum]. rewrite getcol_cons by assumption.
  now rewrite IH by lia.
Qed.

(** The experts picked for the selected indices, and what the loop over them
    adds. *)
Lemma selected_sum d (m : VMoELayer.t) (pairs : list (R * Z)) :
  Forall (VExpert_shaped d) (VMoELayer.experts m) ->
  (forall p, In p pairs ->
     (0 <= snd p < Z.of_nat (List.length (VMoELayer.experts m)))%Z) ->
  exists sel,
    mapM (VMoELayer.get_expert m) (map snd pairs) = Ok sel /\
    List.length sel = List.length pairs /\
    Forall (VExpert_shaped d) sel /\
    forall ev,
      wsum ev (getcol (map fst pairs)) 0 sel
      = rsum (map (fun p => at_index (VMoELayer.experts m) ev (snd p) * fst p)
                  pairs).
Proof.
  intros Hes. induction pairs as [|[v idx] pairs IH]; intros Hr.
  - exists []. repeat split. constructor.
  - destruct IH as (sel & E & Hlen & Hsh & Hsum).
    { intros p Hp. apply Hr. now right. }
    pose proof (Hr (v, idx) (or_introl eq_refl)) as Hidx. cbn [snd] in Hidx.
    cbn [map mapM snd fst]. unfold VMoELayer.get_expert at 1.
    destruct (Z.ltb_spec idx 0); [lia|].
    destruct (Z.leb_spec (Z.of_nat (List.length (VMoELayer.experts m))) idx);
      [lia|]. cbn [orb].
    destruct (nth_error (VMoELayer.experts m) (Z.to_nat idx)) as [e|] eqn:En.
    2:{ apply nth_error_None in En. lia. }
    cbn [bind]. rewrite E. cbn [bind].
    exists (e :: sel). split; [reflexivity|]. split; [cbn; now rewrite Hlen|].
    split.
    + constructor; [|assumption]. rewrite Forall_forall in Hes.
      apply Hes. eapply nth_error_In; eauto.
    + intros ev. cbn [wsum rsum map fold_right fst snd].
      rewrite (wsum_shift ev v (map fst pairs) sel 0) by lia.
      rewrite Hsum. unfold at_index at 2. rewrite En.
      unfold getcol. cbn. reflexivity.
Qed.

Lemma wsum_range_from ev wv (es : list VExpert.t) : forall pre,
  wsum ev wv (Z.of_nat (List.length pre)) es
  = rsum (map (fun q => at_index (pre ++ es) ev (Z.of_nat q) * wv (Z.of_nat q))
              (seq (List.length pre) (List.length es))).
Proof.
  induction es as [|e es IH]; intros pre; [reflexivity|].
  cbn [wsum List.length seq map rsum fold_right].
  replace (Z.of_nat (List.length pre) + 1)%Z
    with (Z.of_nat (List.length (pre ++ [e])))
    by (rewrite length_app; cbn; lia).
  rewrite IH. rewrite <- app_assoc. cbn [app].
  replace (List.length (pre ++ [e])) with (S (List.length pre))
    by (rewrite length_app; cbn; lia).
  f_equal. unfold at_index. rewrite Nat2Z.id.
  rewrite nth_error_app2 by lia. now rewrite Nat.sub_diag.
Qed.

Lemma wsum_range ev wv (es : list VExpert.t) :
  wsum ev wv 0 es
  = rsum (map (fun idx => at_index es ev idx * wv idx)
              (range (Z.of_nat (List.length es)))).
Proof.
  pose proof (wsum_range_from ev wv es []) as E.
  cbn [app List.length Z.of_nat] in E. rewrite E.
  unfold range. now rewrite map_map, Nat2Z.id.
Qed.

(** The inference path on a batch of one: the selected experts only, each
    weighted by its top-k weight. *)
Lemma forward_inference_spec d (m : VMoELayer.t) (inputs k : VTensor R) h w :
  VMoELayer_ok d m ->
  dims inputs = (1, d, h, w)%Z -> dims k = (1, d, h, w)%Z ->
  (1 <= d)%Z -> (1 <= h)%Z -> (1 <= w)%Z ->
  (0 <= VMoELayer.num_expert m <= VRouter.num_experts (VMoELayer.gate m))%Z ->
  exists out,
    VMoELayer.forward m false inputs k = Ok out /\
    dims out = (1, d, h, w)%Z /\
    forall b c y x, in_dims (1, d, h, w)%Z b c y x ->
      at4 out b c y x
      = at4 inputs b c y x
        + rsum (map (fun p =>
                       at_index (VMoELayer.experts m)
                         (fun e => expert_val e inputs k b c y x) (snd p) * fst p)
                    (topk_sel (Z.to_nat (VMoELayer.num_expert m))
                              (indexed (gate_row m inputs 0)))).
Proof.
  intros (Hes & Hin & HN) Hi Hk Hd Hh Hw Hkk.
  unfold VMoELayer.forward.
  rewrite (gate_weights_ok m inputs 1 d h w) by auto. cbn [bind].
  rewrite topk_ok by assumption. cbn [bind].
  change (range 1) with [0%Z]. cbn [map].
  unfold VMoELayer.selected_experts, topk_row. cbn [fst snd].
  set (pairs := topk_sel (Z.to_nat (VMoELayer.num_expert m))
                         (indexed (gate_row m inputs 0))).
  assert (Hlen : List.length pairs = Z.to_nat (VMoELayer.num_expert m)).
  { apply topk_sel_length; [apply indexed_NoDup|].
    rewrite indexed_length, gate_row_length. lia. }
  destruct (selected_sum d m pairs Hes) as (sel & Esel & Hsl & Hsh & Hsum).
  { intros [v idx] Hp. cbn [snd].
    destruct (topk_sel_perm (Z.to_nat (VMoELayer.num_expert m))
                (indexed (gate_row m inputs 0)) (indexed_NoDup _))
      as (rest & Hperm).
    assert (Hin' : In (v, idx) (indexed (gate_row m inputs 0))).
    { apply (Permutation_in _ (Permutation_sym Hperm)).
      apply in_or_app. now left. }
    apply indexed_In in Hin' as [Hr _].
    rewrite gate_row_length in Hr. lia. }
  rewrite Esel. cbn [bind].
  destruct (enumerate_loop_spec d inputs k [map fst pairs] 1 h w
              (VMoELayer.num_expert m) sel 0%Z inputs Hsh Hi Hk Hi Hh Hw
              eq_refl ltac:(lia) ltac:(lia)) as (out & E & Hdo & Hv).
  exists out. split; [exact E|]. split; [exact Hdo|].
  intros b c y x Hpos. rewrite (Hv b c y x Hpos).
  destruct Hpos as (Hb & _). replace b with 0%Z by lia.
  cbn [Z.to_nat nth]. now rewrite Hsum.
Qed.
End MoEPaths.

Section PathEquivalence.
Local Open Scope R_scope.

(** C5.  On a batch of one, for a layer as the block constructs it and a
    top-k within the number of experts, the inference path (the selected
    experts only) and the training path (every expert, the others weighted
    by zero) both return, and return the same tensor. *)
Theorem inference_path_equals_training_path d (m : VMoELayer.t)
        (inputs k : VTensor R) h w :
  VMoELayer_ok d m ->
  dims inputs = (1, d, h, w)%Z -> dims k = (1, d, h, w)%Z ->
  (1 <= d)%Z -> (1 <= h)%Z -> (1 <= w)%Z ->
  (0 <= VMoELayer.num_expert m <= VRouter.num_experts (VMoELayer.gate m))%Z ->
  exists y_inference y_training,
    VMoELayer.forward m false inputs k = Ok y_inference /\
    VMoELayer.forward m true inputs k = Ok y_training /\
    teq y_inference y_training.
Proof.
  intros Hok Hi Hk Hd Hh Hw Hkk.
  destruct (forward_inference_spec d m inputs k h w Hok Hi Hk Hd Hh Hw Hkk)
    as (yi & Ei & Hdi & Hvi).
  destruct (forward_training_spec d m inputs k 1 h w Hok Hi Hk ltac:(lia)
              Hd Hh Hw Hkk) as (yt & Et & Hdt & Hvt).
  exists yi, yt. split; [exact Ei|]. split; [exact Et|].
  split; [now rewrite Hdi, Hdt|].
  rewrite Hdi. intros b c y x Hpos.
  rewrite (Hvi b c y x Hpos), (Hvt b c y x Hpos). f_equal.
  destruct Hpos as (Hb & _). replace b with 0%Z by lia.
  rewrite wsum_range.
  destruct Hok as (_ & _ & HN).
  replace (Z.of_nat (List.length (VMoELayer.experts m)))
    with (Z.of_nat (List.length (gate_row m inputs 0)))
    by (rewrite gate_row_length, HN; lia).
  symmetry. apply (dense_sum_is_sparse_sum
                     (at_index (VMoELayer.experts m)
                        (fun e => expert_val e inputs k 0 c y x))).
Qed.

Lemma demo_layer_ok k : VMoELayer_ok 2 (demo_layer k).
Proof.
  split; [|split; reflexivity].
  repeat constructor.
Qed.

Lemma inference_path_equals_training_path_witness :
  exists y_inference y_training,
    VMoELayer.forward (demo_layer 2) false demo_input demo_input
      = Ok y_inference /\
    VMoELayer.forward (demo_layer 2) true demo_input demo_input
      = Ok y_training /\
    teq y_inference y_training.
Proof.
  exact (inference_path_equals_training_path 2 (demo_layer 2) demo_input
           demo_input 1 2 (demo_layer_ok 2) eq_refl eq_refl
           ltac:(lia) ltac:(lia) ltac:(lia) ltac:(cbn; lia)).
Defined.
End PathEquivalence.

(** ** Batches in the inference path *)

Section BatchOfOne.
Local Open Scope R_scope.

Lemma range_two n : (2 <= n)%Z -> exists l, range n = 0%Z :: 1%Z :: l.
Proof.
  intros Hn. unfold range.
  destruct (Z.to_nat n) as [|[|p]] eqn:E; [lia|lia|].
  cbn [seq map]. eexists. reflexivity.
Qed.

Lemma broadcast_dim_zero x c : broadcast_dim x 0 = Ok c -> c = 0%Z.
Proof.
  unfold broadcast_dim.
  destruct (Z.eqb_spec x 0) as [->|_]; [now intros [= <-]|].
  destruct (Z.eqb_spec x 1) as [->|_]; [now intros [= <-]|].
  cbn. discriminate.
Qed.

Lemma broadcast_dims_zero_channel a bn bh bw n c h w :
  broadcast_dims a (bn, 0%Z, bh, bw) = Ok (n, c, h, w) -> c = 0%Z.
Proof.
  destruct a as [[[an ac] ah] aw]. unfold broadcast_dims.
  destruct (broadcast_dim aw bw); cbn [bind]; [|discriminate].
  destruct (broadcast_dim ah bh); cbn [bind]; [|discriminate].
  destruct (broadcast_dim ac 0) eqn:E; cbn [bind]; [|discriminate].
  destruct (broadcast_dim an bn); cbn [bind]; [|discriminate].
  intros [= <- <- <- <-]. now apply broadcast_dim_zero in E.
Qed.

Lemma broadcast_dims_zero_channel_l n d h w bn bh bw r :
  (1 <= d)%Z ->
  broadcast_dims (n, d, h, w) (bn, 0%Z, bh, bw) = Ok r ->
  dims_eqb r (n, d, h, w) = false.
Proof.
  intros Hd E. destruct r as [[[rn rc] rh] rw].
  apply broadcast_dims_zero_channel in E. subst rc.
  unfold dims_eqb. cbn [dims_shape shape_eqb].
  destruct (Z.eqb_spec 0 d); [lia|]. cbn [andb]. now rewrite andb_false_r.
Qed.

(** A step of the loop whose column lies past the weight matrix raises: the
    slice [w[:, i : i + 1]] is empty and cannot be added into [out]. *)
Lemma accumulate_past_columns (e : VExpert.t) (inputs k out : VTensor R)
      wm cols i n d h w :
  dims out = (n, d, h, w) -> (1 <= d)%Z -> (0 <= cols <= i)%Z ->
  is_ok (VMoELayer.accumulate inputs k wm cols i e out) = false.
Proof.
  intros Ho Hd Hc. unfold VMoELayer.accumulate.
  destruct (VExpert.forward e inputs k) as [y|]; cbn [bind]; [|reflexivity].
  unfold vmul, vbinop, wslice. cbn [dims].
  rewrite slice_len_past by assumption.
  destruct (broadcast_dims (dims y) _) as [[[[pn pc] ph] pw]|] eqn:Ep;
    cbn [bind]; [|reflexivity].
  apply broadcast_dims_zero_channel in Ep. subst pc.
  destruct (dims y) as [[[yn yc] yh] yw].
  cbn [bind]. unfold viadd, vadd, vbinop. cbn [dims]. rewrite Ho.
  destruct (broadcast_dims (n, d, h, w) (pn, 0%Z, ph, pw)) as [r|] eqn:Er;
    cbn [bind]; [|reflexivity].
  cbn [dims]. now rewrite (broadcast_dims_zero_channel_l _ _ _ _ _ _ _ _ Hd Er).
Qed.

(** The inference path raises on every batch of two or more items. *)
Lemma inference_rejects_batches (m : VMoELayer.t) (inputs k : VTensor R)
      n d h w :
  dims inputs = (n, d, h, w) -> (2 <= n)%Z -> (1 <= d)%Z ->
  is_ok (VMoELayer.forward m false inputs k) = false.
Proof.
  intros Hi Hn Hd. unfold VMoELayer.forward, VMoELayer.gate_weights.
  unfold VRouter.forward. rewrite Hi.
  destruct ((d =? 0) || (h =? 0) || (w =? 0))%Z; [reflexivity|].
  destruct (negb (d =? VRouter.in_ch (VMoELayer.gate m))%Z); [reflexivity|].
  cbn [bind]. unfold VMoELayer.topk.
  destruct (Z.ltb_spec (VMoELayer.num_expert m) 0); [reflexivity|].
  destruct (Z.ltb_spec (VRouter.num_experts (VMoELayer.gate m))
              (VMoELayer.num_expert m)); [reflexivity|].
  cbn [orb bind].
  destruct (range_two n Hn) as (l & ->). cbn [map].
  unfold VMoELayer.selected_experts. cbn [mapM].
  set (row0 := softmax (VRouter.logits (VMoELayer.gate m) inputs 0)).
  set (row1 := softmax (VRouter.logits (VMoELayer.gate m) inputs 1)).
  destruct (snd (topk_row row0 (VMoELayer.num_expert m)))
    as [|i0 [|? ?]] eqn:E0; cbn [bind]; try reflexivity.
  assert (Hk1 : VMoELayer.num_expert m = 1%Z).
  { pose proof (topk_row_length row0 (VMoELayer.num_expert m)) as Hlen.
    unfold row0 in Hlen at 1. rewrite softmax_length, logits_length in Hlen.
    destruct Hlen as [_ Hlen]; [lia|]. rewrite E0 in Hlen. cbn in Hlen. lia. }
  destruct (VMoELayer.get_expert m i0) as [e0|]; cbn [bind]; [|reflexivity].
  destruct (snd (topk_row row1 (VMoELayer.num_expert m)))
    as [|i1 [|? ?]]; cbn [bind]; try reflexivity.
  destruct (VMoELayer.get_expert m i1) as [e1|]; cbn [bind]; [|reflexivity].
  destruct (mapM _ _) as [sel|]; cbn [bind]; [|reflexivity].
  cbn [VMoELayer.enumerate_loop].
  destruct (VMoELayer.accumulate inputs k _ _ 0 e0 inputs) as [out1|] eqn:E1;
    cbn [bind]; [|reflexivity].
  apply accumulate_dims in E1. rewrite Hi in E1.
  pose proof (accumulate_past_columns e1 inputs k out1
                (fst (topk_row row0 (VMoELayer.num_expert m))
                 :: fst (topk_row row1 (VMoELayer.num_expert m))
                 :: map (fun row => fst (topk_row row (VMoELayer.num_expert m)))
                      (map softmax
                         (map (VRouter.logits (VMoELayer.gate m) inputs) l)))
                (VMoELayer.num_expert m) (0 + 1)%Z n d h w E1 Hd ltac:(lia))
    as Hacc.
  destruct (VMoELayer.accumulate inputs k _ _ (0 + 1) e1 out1);
    [discriminate|reflexivity].
Qed.
End BatchOfOne.

(** ** Batch items in the training path *)

Section BatchItems.
Local Open Scope R_scope.

Lemma item_dims {A : Type} (t : VTensor A) b n c h w :
  dims t = (n, c, h, w) ->
  item t b = {| dims := (1%Z, c, h, w);
                at4 := fun _ ch i j => at4 t b ch i j |}.
Proof. intros Hd. unfold item. now rewrite Hd. Qed.

Lemma pooled_item (x : VTensor R) b n d h w c :
  dims x = (n, d, h, w) -> VRouter.pooled (item x b) 0 c = VRouter.pooled x b c.
Proof.
  intros Hd. rewrite (item_dims x b n d h w Hd).
  unfold VRouter.pooled. cbn [dims at4]. now rewrite Hd.
Qed.

(** The gate weights of an item do not depend on the rest of the batch. *)
Lemma gate_row_item (m : VMoELayer.t) (x : VTensor R) b n d h w :
  dims x = (n, d, h, w) -> gate_row m (item x b) 0 = gate_row m x b.
Proof.
  intros Hd. unfold gate_row, VRouter.logits. f_equal.
  apply map_ext. intros e. unfold sum_range. f_equal.
  apply map_ext. intros c. now rewrite (pooled_item x b n d h w c Hd).
Qed.

(** Nor does the output of an expert. *)
Lemma expert_val_item d (e : VExpert.t) (x k : VTensor R) b n h w c i j :
  VExpert_shaped d e ->
  dims x = (n, d, h, w) -> dims k = (n, d, h, w) ->
  (0 <= b < n)%Z -> (1 <= h)%Z -> (1 <= w)%Z ->
  expert_val e (item x b) (item k b) 0 c i j = expert_val e x k b c i j.
Proof.
  intros (E1 & E2 & E3 & E4 & E5) Hx Hk Hb Hh Hw.
  rewrite (item_dims x b n d h w Hx), (item_dims k b n d h w Hk).
  unfold expert_val, VExpert.forward.
  rewrite (VConv_forward_ok _ x n h w) by (rewrite ?E1; assumption).
  rewrite (VConv_forward_ok _ k n h w) by (rewrite ?E2; assumption).
  rewrite (VConv_forward_ok _ _ 1%Z h w) by (cbn [dims]; rewrite ?E1; auto).
  rewrite (VConv_forward_ok _ _ 1%Z h w) by (cbn [dims]; rewrite ?E2; auto).
  cbn [bind]. unfold vmul, vbinop. cbn [dims]. rewrite E3.
  rewrite !broadcast_dims_same. cbn [bind].
  rewrite (VConv_forward_ok _ _ 1%Z h w) by (cbn [dims]; rewrite ?E4; auto).
  rewrite (VConv_forward_ok _ _ n h w) by (cbn [dims]; rewrite ?E4; auto).
  cbn [at4]. rewrite (bidx_in n b) by assumption.
  unfold bidx at 1 5. cbn [Z.eqb Pos.eqb]. reflexivity.
Qed.

Lemma wsum_ext ev1 ev2 wv (es : list VExpert.t) : forall i,
  (forall e, In e es -> ev1 e = ev2 e) ->
  wsum ev1 wv i es = wsum ev2 wv i es.
Proof.
  induction es as [|e es IH]; intros i H; [reflexivity|].
  cbn [wsum]. rewrite (H e (or_introl eq_refl)).
  rewrite IH; [reflexivity|]. intros e' He'. apply H. now right.
Qed.

(** In the training path every batch item gets the output it gets alone. *)
Lemma training_batch_independent d (m : VMoELayer.t) (inputs k : VTensor R)
      n h w b :
  VMoELayer_ok d m ->
  dims inputs = (n, d, h, w) -> dims k = (n, d, h, w) ->
  (0 <= b < n)%Z -> (1 <= d)%Z -> (1 <= h)%Z -> (1 <= w)%Z ->
  (0 <= VMoELayer.num_expert m <= VRouter.num_experts (VMoELayer.gate m))%Z ->
  exists out out_b,
    VMoELayer.forward m true inputs k = Ok out /\
    VMoELayer.forward m true (item inputs b) (item k b) = Ok out_b /\
    teq (item out b) out_b.
Proof.
  intros Hok Hi Hk Hb Hd Hh Hw Hkk.
  destruct (forward_training_spec d m inputs k n h w Hok Hi Hk ltac:(lia)
              Hd Hh Hw Hkk) as (out & E & Hdo & Hv).
  assert (Hi1 : dims (item inputs b) = (1%Z, d, h, w))
    by now rewrite (item_dims inputs b n d h w Hi).
  assert (Hk1 : dims (item k b) = (1%Z, d, h, w))
    by now rewrite (item_dims k b n d h w Hk).
  destruct (forward_training_spec d m (item inputs b) (item k b) 1 h w Hok
              Hi1 Hk1 ltac:(lia) Hd Hh Hw Hkk) as (out1 & E1 & Hdo1 & Hv1).
  exists out, out1. split; [exact E|]. split; [exact E1|].
  rewrite (item_dims out b n d h w Hdo). split; [now rewrite Hdo1|].
  cbn [dims at4]. intros b0 c y x (Hb0 & Hc & Hy & Hx).
  rewrite (Hv b c y x) by (cbn; lia).
  rewrite (Hv1 b0 c y x) by (cbn; lia).
  replace b0 with 0%Z by lia.
  rewrite (gate_row_item m inputs b n d h w Hi).
  rewrite (item_dims inputs b n d h w Hi) at 1. cbn [at4]. f_equal.
  apply wsum_ext. intros e He. destruct Hok as (Hes & _).
  rewrite Forall_forall in Hes. symmetry.
  apply (expert_val_item d e inputs k b n h w c y x); auto.
Qed.
End BatchItems.

Section BatchClaim.
Local Open Scope R_scope.

(** C9, as the code has it.  The inference path serves a batch of one only:
    every item of a batch runs through the layer alone, but a batch of two
    or more items raises ([topk_experts.squeeze(dim=0)] presumes one row).
    In the training path there is no interaction between batch items: the
    output of the batch holds, for each item, the output of that item run
    alone. *)
Theorem batch_items_alone d (m : VMoELayer.t) (inputs k : VTensor R) n h w :
  VMoELayer_ok d m ->
  dims inputs = (n, d, h, w) -> dims k = (n, d, h, w) ->
  (1 <= d)%Z -> (1 <= h)%Z -> (1 <= w)%Z ->
  (0 <= VMoELayer.num_expert m <= VRouter.num_experts (VMoELayer.gate m))%Z ->
  ((2 <= n)%Z -> is_ok (VMoELayer.forward m false inputs k) = false) /\
  (forall b, (0 <= b < n)%Z ->
     exists y, VMoELayer.forward m false (item inputs b) (item k b) = Ok y) /\
  (forall b, (0 <= b < n)%Z ->
     exists out out_b,
       VMoELayer.forward m true inputs k = Ok out /\
       VMoELayer.forward m true (item inputs b) (item k b) = Ok out_b /\
       teq (item out b) out_b).
Proof.
  intros Hok Hi Hk Hd Hh Hw Hkk. split; [|split].
  - intros Hn. now apply (inference_rejects_batches m inputs k n d h w).
  - intros b Hb.
    destruct (forward_inference_spec d m (item inputs b) (item k b) h w Hok)
      as (y & E & _); auto.
    + now rewrite (item_dims inputs b n d h w Hi).
    + now rewrite (item_dims k b n d h w Hk).
    + exists y. exact E.
  - intros b Hb.
    now apply (training_batch_independent d m inputs k n h w b).
Qed.

Lemma batch_items_alone_witness :
  is_ok (VMoELayer.forward (demo_layer 1) false demo_batch demo_batch) = false /\
  exists out out_1,
    VMoELayer.forward (demo_layer 1) true demo_batch demo_batch = Ok out /\
    VMoELayer.forward (demo_layer 1) true (item demo_batch 1) (item demo_batch 1)
      = Ok out_1 /\
    teq (item out 1) out_1.
Proof.
  destruct (batch_items_alone 2 (demo_layer 1) demo_batch demo_batch 2 1 2
              (demo_layer_ok 1) eq_refl eq_refl ltac:(lia) ltac:(lia)
              ltac:(lia) ltac:(cbn; lia)) as (Hinf & _ & Htrain).
  split; [apply Hinf; lia|]. apply Htrain. lia.
Defined.

(** C9 fails as stated: in inference mode with top-1 routing each of the two
    items of [demo_batch] runs through the layer alone, but the batch of both
    raises instead of returning the two outputs. *)
Lemma inference_raises_on_pair :
  is_ok (VMoELayer.forward (demo_layer 1) false demo_batch demo_batch) = false /\
  (exists y0, VMoELayer.forward (demo_layer 1) false
                (item demo_batch 0) (item demo_batch 0) = Ok y0) /\
  (exists y1, VMoELayer.forward (demo_layer 1) false
                (item demo_batch 1) (item demo_batch 1) = Ok y1).
Proof.
  split.
  - apply (inference_rejects_batches (demo_layer 1) demo_batch demo_batch
             2 2 1 2 eq_refl); lia.
  - split.
    + destruct (forward_inference_spec 2 (demo_layer 1) (item demo_batch 0)
                  (item demo_batch 0) 1 2 (demo_layer_ok 1) eq_refl eq_refl
                  ltac:(lia) ltac:(lia) ltac:(lia) ltac:(cbn; lia))
        as (y & E & _). now exists y.
    + destruct (forward_inference_spec 2 (demo_layer 1) (item demo_batch 1)
                  (item demo_batch 1) 1 2 (demo_layer_ok 1) eq_refl eq_refl
                  ltac:(lia) ltac:(lia) ltac:(lia) ltac:(cbn; lia))
        as (y & E & _). now exists y.
Qed.
End BatchClaim.

(** ** Powers of two and binades *)

Section Float32.
Local Open Scope R_scope.

Lemma bpow_pos e : 0 < bpow e.
Proof. apply powerRZ_lt. lra. Qed.

Lemma bpow_add a b : bpow (a + b) = bpow a * bpow b.
Proof. apply powerRZ_add. lra. Qed.

Lemma bpow_0 : bpow 0 = 1.
Proof. reflexivity. Qed.

Lemma bpow_lt a b : (a < b)%Z -> bpow a < bpow b.
Proof.
  intros H. unfold bpow. rewrite !powerRZ_Rpower by lra.
  apply Rpower_lt; [lra|]. now apply IZR_lt.
Qed.

Lemma bpow_le a b : (a <= b)%Z -> bpow a <= bpow b.
Proof.
  intros H. destruct (Z.eq_dec a b) as [->|Hne]; [lra|].
  left. apply bpow_lt. lia.
Qed.

Lemma bpow_IZR z : (0 <= z)%Z -> bpow z = IZR (2 ^ z).
Proof.
  intros Hz. unfold bpow.
  rewrite <- (Z2Nat.id z Hz) at 1. rewrite <- pow_powerRZ.
  rewrite <- (Z2Nat.id z Hz) at 2. rewrite <- Zpower_nat_Z.
  now rewrite pow_IZR, Zpower_nat_Z, <- Zpower_nat_Z.
Qed.

Lemma ln2_pos : 0 < ln 2.
Proof. rewrite <- ln_1. apply ln_increasing; lra. Qed.

Lemma mag_spec x : x <> 0 -> bpow (mag x) <= Rabs x < bpow (mag x + 1).
Proof.
  intros Hx. pose proof (Rabs_pos_lt x Hx) as Hp.
  pose proof ln2_pos as H2.
  destruct (base_Int_part (ln (Rabs x) / ln 2)) as [Hlo Hhi].
  fold (mag x) in Hlo, Hhi.
  assert (E : forall t, bpow t = exp (IZR t * ln 2)).
  { intros t. unfold bpow. rewrite powerRZ_Rpower by lra. reflexivity. }
  rewrite !E, plus_IZR.
  assert (Hq : ln (Rabs x) = ln (Rabs x) / ln 2 * ln 2) by (field; lra).
  set (t := ln (Rabs x) / ln 2) in *.
  assert (Ha : Rabs x = exp (t * ln 2)) by (now rewrite <- Hq, exp_ln).
  rewrite Ha. split.
  - destruct (Req_dec (IZR (mag x) * ln 2) (t * ln 2)) as [->|Hne]; [lra|].
    left. apply exp_increasing. nra.
  - apply exp_increasing. nra.
Qed.

Lemma mag_unique x e : bpow e <= Rabs x < bpow (e + 1) -> mag x = e.
Proof.
  intros [Hlo Hhi].
  assert (Hx : x <> 0).
  { intros ->. rewrite Rabs_R0 in Hlo. pose proof (bpow_pos e). lra. }
  destruct (mag_spec x Hx) as [Mlo Mhi].
  destruct (Z.lt_trichotomy (mag x) e) as [Hlt|[Heq|Hgt]]; [|exact Heq|].
  - pose proof (bpow_le (mag x + 1) e ltac:(lia)). lra.
  - pose proof (bpow_le (e + 1) (mag x) ltac:(lia)). lra.
Qed.

(** ** Rounding to the nearest integer *)

Lemma Int_part_bounds r : IZR (Int_part r) <= r < IZR (Int_part r) + 1.
Proof. destruct (base_Int_part r). lra. Qed.

Lemma Int_part_IZR n : Int_part (IZR n) = n.
Proof. symmetry. apply Int_part_spec. lra. Qed.

Lemma Int_part_le r r' : r <= r' -> (Int_part r <= Int_part r')%Z.
Proof.
  intros H. pose proof (Int_part_bounds r). pose proof (Int_part_bounds r').
  apply Z.lt_succ_r. apply lt_IZR. rewrite succ_IZR. lra.
Qed.

Lemma round_half_even_cases r :
  round_half_even r = Int_part r \/ round_half_even r = (Int_part r + 1)%Z.
Proof.
  unfold round_half_even.
  destruct (total_order_T _ _) as [[_|_]|_]; auto.
  destruct (Z.even _); auto.
Qed.

Lemma round_half_even_IZR n : round_half_even (IZR n) = n.
Proof.
  unfold round_half_even. rewrite Int_part_IZR.
  destruct (total_order_T _ _) as [[_|E]|E]; [reflexivity|lra|lra].
Qed.

Lemma round_half_even_error r :
  IZR (round_half_even r) - / 2 <= r <= IZR (round_half_even r) + / 2.
Proof.
  pose proof (Int_part_bounds r) as Hb. unfold round_half_even.
  destruct (total_order_T _ _) as [[E|E]|E]; rewrite ?plus_IZR; try lra.
  destruct (Z.even _); rewrite ?plus_IZR; lra.
Qed.

Lemma round_half_even_monotone r r' :
  r <= r' -> (round_half_even r <= round_half_even r')%Z.
Proof.
  intros H. pose proof (Int_part_le r r' H) as Hf.
  destruct (Z.eq_dec (Int_part r) (Int_part r')) as [E|Hne].
  - unfold round_half_even. rewrite <- E.
    destruct (total_order_T (r - _) _) as [[A|A]|A];
      destruct (total_order_T (r' - _) _) as [[B|B]|B];
      try destruct (Z.even _); try lia; exfalso; lra.
  - assert (Hlt : (Int_part r + 1 <= Int_part r')%Z) by lia.
    assert (H1 : (round_half_even r <= Int_part r + 1)%Z)
      by (destruct (round_half_even_cases r); lia).
    assert (H2 : (Int_part r' <= round_half_even r')%Z)
      by (destruct (round_half_even_cases r'); lia).
    lia.
Qed.

Lemma round_half_even_le r n : r <= IZR n -> (round_half_even r <= n)%Z.
Proof.
  intros H. rewrite <- (round_half_even_IZR n).
  now apply round_half_even_monotone.
Qed.

Lemma round_half_even_ge r n : IZR n <= r -> (n <= round_half_even r)%Z.
Proof.
  intros H. rewrite <- (round_half_even_IZR n) at 1.
  now apply round_half_even_monotone.
Qed.

(** ** Rounding to float32 *)

Lemma ulp32_pos x : 0 < ulp32 x.
Proof. apply bpow_pos. Qed.

Lemma f32_exponent_ge x : (-126 <= f32_exponent x)%Z.
Proof. unfold f32_exponent. lia. Qed.

(** [|x|] lies below the end of its binade. *)
Lemma below_binade x : Rabs x < bpow (f32_exponent x + 1).
Proof.
  destruct (Req_dec x 0) as [->|Hx].
  - rewrite Rabs_R0. apply bpow_pos.
  - destruct (mag_spec x Hx) as [_ H].
    pose proof (bpow_le (mag x + 1) (f32_exponent x + 1)
                  ltac:(unfold f32_exponent; lia)). lra.
Qed.

(** A normal number lies above the start of its binade. *)
Lemma above_binade x :
  x <> 0 -> (-126 < f32_exponent x)%Z -> bpow (f32_exponent x) <= Rabs x.
Proof.
  intros Hx He. destruct (mag_spec x Hx) as [H _].
  replace (f32_exponent x) with (mag x) by (unfold f32_exponent in *; lia).
  exact H.
Qed.

Lemma bpow_ratio a b : bpow a / bpow b = bpow (a - b).
Proof.
  replace a with ((a - b) + b)%Z at 1 by lia. rewrite bpow_add.
  field. pose proof (bpow_pos b). lra.
Qed.

(** The significand of the rounded number: at most [2^24], and at least
    [2^23] for a normal number. *)
Lemma significand_le x :
  0 <= x -> (0 <= round_half_even (x / ulp32 x) <= 2 ^ 24)%Z.
Proof.
  intros Hx. pose proof (ulp32_pos x) as Hu. split.
  - apply round_half_even_ge. apply Rmult_le_pos; [lra|].
    left. now apply Rinv_0_lt_compat.
  - apply round_half_even_le. pose proof (below_binade x) as Hb.
    rewrite Rabs_right in Hb by lra.
    rewrite <- bpow_IZR by lia.
    replace 24%Z with ((f32_exponent x + 1) - (f32_exponent x - 23))%Z by lia.
    rewrite <- bpow_ratio. fold (ulp32 x).
    apply Rmult_le_compat_r; [left; now apply Rinv_0_lt_compat|lra].
Qed.

Lemma significand_ge x :
  0 < x -> (-126 < f32_exponent x)%Z ->
  (2 ^ 23 <= round_half_even (x / ulp32 x))%Z.
Proof.
  intros Hx He. pose proof (ulp32_pos x) as Hu.
  apply round_half_even_ge. pose proof (above_binade x ltac:(lra) He) as Hb.
  rewrite Rabs_right in Hb by lra.
  rewrite <- bpow_IZR by lia.
  replace 23%Z with (f32_exponent x - (f32_exponent x - 23))%Z at 1 by lia.
  rewrite <- bpow_ratio. fold (ulp32 x).
  apply Rmult_le_compat_r; [left; now apply Rinv_0_lt_compat|lra].
Qed.

Lemma round32_pos_0 : round32_pos 0 = 0.
Proof.
  unfold round32_pos. unfold Rdiv. rewrite Rmult_0_l.
  change 0 with (IZR 0) at 1. rewrite round_half_even_IZR. lra.
Qed.

Lemma round32_pos_nonneg x : 0 <= x -> 0 <= round32_pos x.
Proof.
  intros Hx. unfold round32_pos. apply Rmult_le_pos.
  - apply IZR_le. apply (significand_le x Hx).
  - left. apply ulp32_pos.
Qed.

Lemma mag_le x y : 0 < x -> x <= y -> (mag x <= mag y)%Z.
Proof.
  intros Hx Hxy.
  destruct (mag_spec x ltac:(lra)) as [H1 _].
  destruct (mag_spec y ltac:(lra)) as [_ H2].
  rewrite Rabs_right in H1, H2 by lra.
  destruct (Z_lt_le_dec (mag y) (mag x)) as [Hlt|]; [|assumption].
  pose proof (bpow_le (mag y + 1) (mag x) ltac:(lia)). lra.
Qed.

Lemma round32_pos_monotone x y :
  0 <= x -> x <= y -> round32_pos x <= round32_pos y.
Proof.
  intros Hx Hxy.
  destruct (Req_dec x 0) as [->|Hx0].
  { rewrite round32_pos_0. apply round32_pos_nonneg. lra. }
  assert (He : (f32_exponent x <= f32_exponent y)%Z).
  { pose proof (mag_le x y ltac:(lra) Hxy). unfold f32_exponent. lia. }
  destruct (Z.eq_dec (f32_exponent x) (f32_exponent y)) as [E|Hne].
  - unfold round32_pos, ulp32. rewrite E. fold (ulp32 y).
    pose proof (ulp32_pos y).
    apply Rmult_le_compat_r; [lra|]. apply IZR_le.
    apply round_half_even_monotone.
    apply Rmult_le_compat_r; [left; now apply Rinv_0_lt_compat|lra].
  - assert (H1 : round32_pos x <= bpow (f32_exponent x + 1)).
    { unfold round32_pos.
      replace (f32_exponent x + 1)%Z with (24 + (f32_exponent x - 23))%Z by lia.
      rewrite bpow_add. fold (ulp32 x). pose proof (ulp32_pos x).
      apply Rmult_le_compat_r; [lra|].
      rewrite bpow_IZR by lia. apply IZR_le. apply (significand_le x Hx). }
    assert (H2 : bpow (f32_exponent y) <= round32_pos y).
    { unfold round32_pos.
      replace (f32_exponent y) with (23 + (f32_exponent y - 23))%Z at 1 by lia.
      rewrite bpow_add. fold (ulp32 y). pose proof (ulp32_pos y).
      apply Rmult_le_compat_r; [lra|].
      rewrite bpow_IZR by lia. apply IZR_le.
      apply significand_ge; [lra|]. pose proof (f32_exponent_ge x). lia. }
    pose proof (bpow_le (f32_exponent x + 1) (f32_exponent y) ltac:(lia)). lra.
Qed.

Lemma round32_0 : round32 0 = 0.
Proof.
  unfold round32. destruct (Rle_dec 0 0); [apply round32_pos_0|lra].
Qed.

Lemma round32_nonneg x : 0 <= x -> 0 <= round32 x.
Proof.
  intros Hx. unfold round32. destruct (Rle_dec 0 x); [|lra].
  now apply round32_pos_nonneg.
Qed.

Lemma round32_nonpos x : x <= 0 -> round32 x <= 0.
Proof.
  intros Hx. unfold round32. destruct (Rle_dec 0 x) as [H|H].
  - replace x with 0 by lra. rewrite round32_pos_0. lra.
  - pose proof (round32_pos_nonneg (- x) ltac:(lra)). lra.
Qed.

(** Rounding keeps the order. *)
Lemma round32_monotone x y : x <= y -> round32 x <= round32 y.
Proof.
  intros Hxy. unfold round32.
  destruct (Rle_dec 0 x) as [Hx|Hx]; destruct (Rle_dec 0 y) as [Hy|Hy].
  - now apply round32_pos_monotone.
  - lra.
  - pose proof (round32_pos_nonneg (- x) ltac:(lra)).
    pose proof (round32_pos_nonneg y Hy). lra.
  - pose proof (round32_pos_monotone (- y) (- x) ltac:(lra) ltac:(lra)). lra.
Qed.

(** ** The numbers of float32 *)

(** A number [m * 2^(e - 23)] with a significand [m] of at most 24 bits, at
    an exponent of the format (a significand of fewer bits only at the
    smallest one), is rounded to itself. *)
Lemma round32_pos_fixed m e :
  (-126 <= e)%Z -> (0 <= m <= 2 ^ 24)%Z ->
  ((0 < m < 2 ^ 23)%Z -> e = (-126)%Z) ->
  round32_pos (IZR m * bpow (e - 23)) = IZR m * bpow (e - 23).
Proof.
  intros He Hm Hsub.
  destruct (Z.eq_dec m 0) as [->|Hm0].
  { rewrite Rmult_0_l. apply round32_pos_0. }
  remember (IZR m * bpow (e - 23)) as v eqn:Ev.
  pose proof (bpow_pos (e - 23)) as Hp.
  assert (Hm1 : 1 <= IZR m) by (apply IZR_le; lia).
  assert (Hv : 0 < v) by (rewrite Ev; nra).
  assert (E23 : bpow e = IZR (2 ^ 23) * bpow (e - 23)).
  { rewrite <- bpow_IZR, <- bpow_add by lia. f_equal. lia. }
  assert (E24 : bpow (e + 1) = IZR (2 ^ 24) * bpow (e - 23)).
  { rewrite <- bpow_IZR, <- bpow_add by lia. f_equal. lia. }
  assert (Hfix : forall e', f32_exponent v = e' ->
            forall m', v = IZR m' * bpow (e' - 23) -> round32_pos v = v).
  { intros e' Ee m' Ev'. unfold round32_pos, ulp32. rewrite Ee.
    pose proof (bpow_pos (e' - 23)).
    replace (v / bpow (e' - 23)) with (IZR m') by (rewrite Ev'; field; lra).
    now rewrite round_half_even_IZR. }
  destruct (Z.eq_dec m (2 ^ 24)) as [E|Hne].
  - (* the start of the next binade *)
    apply (Hfix (e + 1)%Z) with (m' := (2 ^ 23)%Z).
    + unfold f32_exponent. rewrite (mag_unique v (e + 1)); [lia|].
      rewrite Rabs_right by lra. rewrite Ev, E, <- E24. split; [lra|].
      apply bpow_lt. lia.
    + rewrite Ev, E, <- E24.
      rewrite <- bpow_IZR, <- bpow_add by lia. f_equal. lia.
  - destruct (Z_lt_le_dec m (2 ^ 23)) as [Hlt|Hge].
    + (* a subnormal number *)
      pose proof (Hsub ltac:(lia)) as Ee. subst e.
      apply (Hfix (-126)%Z) with (m' := m); [|exact Ev].
      unfold f32_exponent.
      destruct (mag_spec v ltac:(lra)) as [Mlo _].
      rewrite Rabs_right in Mlo by lra.
      assert (Hvlt : v < bpow (-126)).
      { rewrite E23, Ev. apply Rmult_lt_compat_r; [lra|].
        apply IZR_lt. lia. }
      destruct (Z_lt_le_dec (mag v) (-126)); [lia|].
      pose proof (bpow_le (-126) (mag v) ltac:(lia)). lra.
    + (* a normal number *)
      apply (Hfix e) with (m' := m); [|exact Ev].
      unfold f32_exponent. rewrite (mag_unique v e); [lia|].
      rewrite Rabs_right by lra. rewrite E23, E24, Ev. split.
      * apply Rmult_le_compat_r; [lra|]. apply IZR_le. lia.
      * apply Rmult_lt_compat_r; [lra|]. apply IZR_lt. lia.
Qed.

(** The whole numbers up to [2^24] are numbers of float32. *)
Lemma round32_integer k : (0 <= k <= 2 ^ 24)%Z -> round32 (IZR k) = IZR k.
Proof.
  intros Hk. unfold round32.
  destruct (Rle_dec 0 (IZR k)) as [_|H]; [|exfalso; apply H; apply IZR_le; lia].
  destruct (Z.eq_dec k 0) as [->|Hk0]; [apply round32_pos_0|].
  destruct (Z.eq_dec k (2 ^ 24)) as [->|Hk24].
  { replace (IZR (2 ^ 24)) with (IZR (2 ^ 23) * bpow (24 - 23)).
    - apply round32_pos_fixed; lia.
    - rewrite <- bpow_IZR, <- bpow_add, bpow_IZR by lia. reflexivity. }
  pose proof (Z.log2_spec k ltac:(lia)) as [Hlo Hhi].
  pose proof (Z.log2_nonneg k) as Hl0.
  set (e := Z.log2 k) in *.
  assert (He : (e < 24)%Z).
  { apply (Z.pow_lt_mono_r_iff 2); lia. }
  replace (IZR k) with (IZR (k * 2 ^ (23 - e)) * bpow (e - 23)).
  - assert (Hp : (2 ^ 23 = 2 ^ e * 2 ^ (23 - e))%Z).
    { rewrite <- Z.pow_add_r by lia. f_equal. lia. }
    assert (Hq : (2 ^ 24 = 2 ^ Z.succ e * 2 ^ (23 - e))%Z).
    { rewrite <- Z.pow_add_r by lia. f_equal. lia. }
    assert (H0 : (0 < 2 ^ (23 - e))%Z) by (apply Z.pow_pos_nonneg; lia).
    apply round32_pos_fixed; [lia|nia|nia].
  - rewrite mult_IZR, <- bpow_IZR by lia.
    rewrite Rmult_assoc, <- bpow_add.
    replace (23 - e + (e - 23))%Z with 0%Z by lia. rewrite bpow_0. lra.
Qed.

Lemma round32_1 : round32 1 = 1.
Proof. apply (round32_integer 1). lia. Qed.

(** Rounding twice is rounding once. *)
Lemma round32_pos_idempotent x :
  0 <= x -> round32_pos (round32_pos x) = round32_pos x.
Proof.
  intros Hx. unfold round32_pos at 2 3. unfold ulp32.
  apply round32_pos_fixed.
  - apply f32_exponent_ge.
  - apply (significand_le x Hx).
  - intros Hlt. pose proof (f32_exponent_ge x).
    destruct (Z.eq_dec (f32_exponent x) (-126)); [assumption|].
    destruct (Req_dec x 0) as [->|Hx0].
    + exfalso. unfold Rdiv in Hlt. rewrite Rmult_0_l in Hlt.
      change 0 with (IZR 0) in Hlt. rewrite round_half_even_IZR in Hlt. lia.
    + assert (Hpos : 0 < x) by (destruct Hx as [Hx|Hx]; [exact Hx|congruence]).
      assert (Hn : (-126 < f32_exponent x)%Z) by lia.
      pose proof (significand_ge x Hpos Hn) as Hge. unfold ulp32 in Hge. lia.
Qed.

Lemma round32_of_nonneg x : 0 <= x -> round32 x = round32_pos x.
Proof.
  intros Hx. unfold round32. destruct (Rle_dec 0 x); [reflexivity|lra].
Qed.

Lemma round32_of_neg x : x < 0 -> round32 x = - round32_pos (- x).
Proof.
  intros Hx. unfold round32. destruct (Rle_dec 0 x); [lra|reflexivity].
Qed.

Lemma round32_idempotent x : round32 (round32 x) = round32 x.
Proof.
  destruct (Rle_dec 0 x) as [Hx|Hx].
  - rewrite (round32_of_nonneg x Hx).
    rewrite round32_of_nonneg by now apply round32_pos_nonneg.
    now apply round32_pos_idempotent.
  - rewrite (round32_of_neg x) by lra.
    pose proof (round32_pos_nonneg (- x) ltac:(lra)) as Hn.
    destruct (Req_dec (round32_pos (- x)) 0) as [E|E].
    + rewrite E. replace (- 0) with 0 by lra. apply round32_0.
    + rewrite round32_of_neg by lra. rewrite Ropp_involutive. f_equal.
      apply round32_pos_idempotent. lra.
Qed.

(** ** The rounding error *)

(** Half a unit in the last place. *)
Lemma round32_pos_error x :
  0 <= x -> Rabs (round32_pos x - x) <= ulp32 x / 2.
Proof.
  intros Hx. pose proof (ulp32_pos x) as Hu.
  pose proof (round_half_even_error (x / ulp32 x)) as [H1 H2].
  unfold round32_pos. set (n := IZR (round_half_even (x / ulp32 x))) in *.
  assert (E : x = x / ulp32 x * ulp32 x) by (field; lra).
  apply Rabs_le. split; nra.
Qed.

(** Rounding a number of [0, 1]: the error is at most [2^-25]. *)
Lemma round32_unit_error x :
  0 <= x <= 1 -> Rabs (round32 x - x) <= bpow (-25).
Proof.
  intros [H0 H1]. rewrite round32_of_nonneg by assumption.
  destruct (Req_dec x 1) as [->|Hne].
  { rewrite <- (round32_of_nonneg 1), round32_1 by lra.
    replace (1 - 1) with 0 by lra. rewrite Rabs_R0. left. apply bpow_pos. }
  destruct (Req_dec x 0) as [->|Hx0].
  { rewrite round32_pos_0. replace (0 - 0) with 0 by lra. rewrite Rabs_R0.
    left. apply bpow_pos. }
  pose proof (round32_pos_error x H0) as He.
  assert (Hu : ulp32 x <= bpow (-24)).
  { apply bpow_le. unfold f32_exponent.
    destruct (mag_spec x Hx0) as [Mlo _]. rewrite Rabs_right in Mlo by lra.
    destruct (Z_lt_le_dec (mag x) 0); [lia|].
    pose proof (bpow_le 0 (mag x) ltac:(lia)). rewrite bpow_0 in *. lra. }
  replace (bpow (-25)) with (bpow (-24) / 2).
  - lra.
  - replace (-24)%Z with (-25 + 1)%Z by lia. rewrite bpow_add.
    replace (bpow 1) with 2 by (unfold bpow; simpl; lra). field.
Qed.

(** Rounding a non-negative number loses at most the relative error
    [2^-24] and, among the subnormal numbers, [2^-150]. *)
Lemma Rabs_le_bounds a b : Rabs a <= b -> - b <= a <= b.
Proof.
  intros H. unfold Rabs in H. destruct (Rcase_abs a); lra.
Qed.

Lemma round32_lower a :
  0 <= a -> a * (1 - bpow (-24)) - bpow (-150) <= round32 a.
Proof.
  intros Ha. rewrite round32_of_nonneg by assumption.
  destruct (Req_dec a 0) as [->|Ha0].
  { rewrite round32_pos_0. pose proof (bpow_pos (-150)). lra. }
  pose proof (round32_pos_error a Ha) as He. apply Rabs_le_bounds in He.
  pose proof (bpow_pos (-24)) as H24. pose proof (bpow_pos (-150)) as H150.
  assert (Hhalf : forall e, bpow (e - 23) / 2 = bpow e * bpow (-24)).
  { intros e. rewrite <- bpow_add.
    replace (e - 23)%Z with ((e + -24) + 1)%Z by lia. rewrite bpow_add.
    replace (bpow 1) with 2 by (unfold bpow; simpl; lra). field. }
  destruct (Z.eq_dec (f32_exponent a) (-126)) as [E|Hne].
  - unfold ulp32 in He. rewrite E, Hhalf, <- bpow_add in He.
    change (-126 + -24)%Z with (-150)%Z in He. nra.
  - pose proof (f32_exponent_ge a).
    pose proof (above_binade a Ha0 ltac:(lia)) as Hb.
    rewrite Rabs_right in Hb by lra.
    unfold ulp32 in He. rewrite Hhalf in He. nra.
Qed.
End Float32.

(** ** The softmax in float32 *)

Section Softmax32.
Local Open Scope R_scope.
Variable fexp : R -> R.
Hypothesis fexp_ok : exp_like fexp.

(** The largest score of a row bounds the row and is one of its entries. *)
Lemma fold_Rmax_spec rest : forall x,
  (forall v, In v (x :: rest) -> v <= fold_left Rmax rest x) /\
  In (fold_left Rmax rest x) (x :: rest).
Proof.
  induction rest as [|y rest IH]; intros x; cbn [fold_left].
  - split; [intros v [<-|[]]; lra|now left].
  - destruct (IH (Rmax x y)) as [Hle Hin]. split.
    + intros v [<-|[<-|Hv]].
      * pose proof (Hle (Rmax x y) (or_introl eq_refl)).
        pose proof (Rmax_l x y). lra.
      * pose proof (Hle (Rmax x y) (or_introl eq_refl)).
        pose proof (Rmax_r x y). lra.
      * apply Hle. now right.
    + destruct Hin as [E|Hin]; [|right; now right].
      rewrite <- E. unfold Rmax. destruct (Rle_dec x y); [right|]; now left.
Qed.

(** The numerators lie in [0, 1], and that of the largest score is 1. *)
Lemma exps32_spec row :
  row <> [] ->
  List.length (exps32 fexp row) = List.length row /\
  Forall (fun e => 0 <= e <= 1) (exps32 fexp row) /\
  In 1 (exps32 fexp row).
Proof.
  destruct fexp_ok as [Hrange H0].
  destruct row as [|x rest]; [congruence|]. intros _.
  unfold exps32. destruct (fold_Rmax_spec rest x) as [Hle Hin].
  set (m := fold_left Rmax rest x) in *.
  split; [apply length_map|]. split.
  - apply Forall_forall. intros e He.
    apply in_map_iff in He as (v & <- & Hv). apply Hrange.
    apply round32_nonpos. specialize (Hle v Hv). lra.
  - apply in_map_iff. exists m. split; [|exact Hin].
    replace (m - m) with 0 by lra. now rewrite round32_0.
Qed.

(** The rounded sum of numbers of [0, 1], one of them 1, lies between 1 and
    their count: it is positive and far from overflow. *)
Lemma fsum32_from_ge l : forall acc,
  0 <= acc -> Forall (fun e => 0 <= e) l -> 1 <= acc \/ In 1 l ->
  1 <= fold_left (fun a e => round32 (a + e)) l acc.
Proof.
  induction l as [|e l IH]; intros acc Hacc Hl Hone; cbn [fold_left].
  - destruct Hone as [H|[]]. exact H.
  - inversion Hl as [|? ? He Hl']; subst.
    apply IH; [apply round32_nonneg; lra|exact Hl'|].
    destruct Hone as [H|[->|H]]; [left|left|now right];
      (apply Rle_trans with (round32 1);
       [rewrite round32_1; lra|apply round32_monotone; lra]).
Qed.

Lemma fsum32_from_le l : forall acc k,
  (0 <= k)%Z -> acc <= IZR k ->
  (k + Z.of_nat (List.length l) <= 2 ^ 24)%Z ->
  Forall (fun e => e <= 1) l ->
  fold_left (fun a e => round32 (a + e)) l acc
  <= IZR (k + Z.of_nat (List.length l)).
Proof.
  induction l as [|e l IH]; intros acc k Hk Hacc Hn Hl; cbn [fold_left].
  - cbn [List.length]. now rewrite Z.add_0_r.
  - inversion Hl as [|? ? He Hl']; subst. cbn [List.length] in Hn |- *.
    replace (k + Z.of_nat (S (List.length l)))%Z
      with ((k + 1) + Z.of_nat (List.length l))%Z by lia.
    apply IH; [lia| |lia|exact Hl'].
    rewrite <- (round32_integer (k + 1)) by lia.
    apply round32_monotone. rewrite plus_IZR. lra.
Qed.

Lemma bernoulli u n : 0 <= u <= 1 -> 1 - INR n * u <= (1 - u) ^ n.
Proof.
  intros Hu. induction n as [|n IH]; [cbn; lra|].
  rewrite S_INR. cbn [pow].
  assert (0 <= (1 - u) ^ n) by (apply pow_le; lra).
  pose proof (pos_INR n). nra.
Qed.

(** The rounded sum is not far below the exact one. *)
Lemma fsum32_from_lower l : forall acc,
  0 <= acc -> Forall (fun e => 0 <= e) l ->
  (acc + rsum l) * (1 - bpow (-24)) ^ List.length l
    - INR (List.length l) * bpow (-150)
  <= fold_left (fun a e => round32 (a + e)) l acc.
Proof.
  pose proof (bpow_pos (-150)) as H150.
  assert (Hu : 0 < bpow (-24) < 1).
  { split; [apply bpow_pos|]. rewrite <- bpow_0. apply bpow_lt. lia. }
  induction l as [|e l IH]; intros acc Hacc Hl.
  - cbn [fold_left List.length rsum fold_right pow INR]. lra.
  - inversion Hl as [|? ? He Hl']; subst.
    cbn [fold_left List.length]. rewrite S_INR. cbn [pow].
    change (rsum (e :: l)) with (e + rsum l).
    pose proof (round32_lower (acc + e) ltac:(lra)) as Hr.
    pose proof (round32_nonneg (acc + e) ltac:(lra)) as Hr0.
    specialize (IH (round32 (acc + e)) Hr0 Hl').
    pose proof (rsum_nonneg l Hl') as Hs.
    set (q := (1 - bpow (-24)) ^ List.length l) in *.
    assert (Hq : 0 <= q <= 1).
    { split; [apply pow_le; lra|].
      unfold q. pose proof (pow_incr (1 - bpow (-24)) 1 (List.length l)) as Hp.
      rewrite pow1 in Hp. apply Hp. lra. }
    pose proof (pos_INR (List.length l)).
    set (r := round32 (acc + e)) in *. set (S' := rsum l) in *.
    set (u := bpow (-24)) in *. set (eta := bpow (-150)) in *.
    assert (H1 : ((acc + e) * (1 - u) - eta + S') * q <= (r + S') * q) by nra.
    assert (A : 0 <= eta * (1 - q)) by (apply Rmult_le_pos; lra).
    assert (B : 0 <= S' * u * q) by (repeat apply Rmult_le_pos; lra).
    assert (H2 : (acc + e + S') * ((1 - u) * q) - eta
                 <= ((acc + e) * (1 - u) - eta + S') * q) by nra.
    lra.
Qed.
End Softmax32.

(** ** The gate weights in float32 *)

Section GateWeights32.
Local Open Scope R_scope.
Variable fexp : R -> R.
Hypothesis fexp_ok : exp_like fexp.

Lemma rsum_map_le {T : Type} (f g : T -> R) (l : list T) :
  (forall x, In x l -> f x <= g x) -> rsum (map f l) <= rsum (map g l).
Proof.
  induction l as [|x l IH]; intros H; cbn [map rsum fold_right]; [lra|].
  pose proof (H x (or_introl eq_refl)).
  assert (rsum (map f l) <= rsum (map g l)) by (apply IH; intros; apply H; now right).
  unfold rsum in *. lra.
Qed.

Lemma rsum_map_affine (a c : R) (l : list R) :
  rsum (map (fun e => e * a + c) l) = rsum l * a + INR (List.length l) * c.
Proof.
  induction l as [|x l IH].
  - cbn [map rsum fold_right List.length INR]. lra.
  - cbn [map List.length]. rewrite S_INR.
    change (rsum (x * a + c :: map (fun e => e * a + c) l))
      with (x * a + c + rsum (map (fun e => e * a + c) l)).
    change (rsum (x :: l)) with (x + rsum l). rewrite IH. lra.
Qed.

Lemma bpow_m25 : bpow (-25) = / 33554432.
Proof. unfold bpow. simpl. lra. Qed.

Lemma bpow_m24 : bpow (-24) = 2 * bpow (-25).
Proof. rewrite bpow_m25. unfold bpow. simpl. lra. Qed.

Lemma bpow_m22 : bpow (-22) = 8 * bpow (-25).
Proof. rewrite bpow_m25. unfold bpow. simpl. lra. Qed.

(** The exact sum of the numerators is not far above their rounded sum. *)
Lemma exps32_sum row :
  row <> [] -> (Z.of_nat (List.length row) <= 2 ^ 20)%Z ->
  let es := exps32 fexp row in
  let n := INR (List.length row) in
  1 <= fsum32 es <= n /\
  rsum es <= fsum32 es * (1 + 6 * n * bpow (-25)).
Proof.
  intros Hrow Hn es n.
  destruct (exps32_spec fexp fexp_ok row Hrow) as (Hlen & Hrange & Hone).
  fold es in Hlen, Hrange, Hone.
  assert (Hpos : Forall (fun e => 0 <= e) es).
  { eapply Forall_impl; [|exact Hrange]. cbn. intros; lra. }
  assert (Hle1 : Forall (fun e => e <= 1) es).
  { eapply Forall_impl; [|exact Hrange]. cbn. intros; lra. }
  assert (Hs1 : 1 <= fsum32 es).
  { apply fsum32_from_ge; [lra|exact Hpos|now right]. }
  assert (Hsn : fsum32 es <= n).
  { pose proof (fsum32_from_le es 0 0 ltac:(lia) ltac:(lra)
                  ltac:(rewrite Hlen; lia) Hle1) as H.
    rewrite Hlen, Z.add_0_l, <- INR_IZR_INZ in H. exact H. }
  split; [split; assumption|].
  pose proof (fsum32_from_lower es 0 ltac:(lra) Hpos) as Hlow.
  fold (fsum32 es) in Hlow. rewrite Hlen in Hlow. fold n in Hlow.
  rewrite Rplus_0_l in Hlow.
  assert (Hu : 0 <= bpow (-24) <= 1).
  { pose proof (bpow_pos (-24)). pose proof (bpow_le (-24) 0 ltac:(lia)).
    rewrite bpow_0 in *. lra. }
  pose proof (bernoulli (bpow (-24)) (List.length row) Hu) as Hb.
  fold n in Hb.
  assert (Hsum : 1 <= rsum es) by (apply rsum_ge_member; assumption).
  pose proof (bpow_le (-150) (-25) ltac:(lia)) as H150.
  pose proof (bpow_pos (-150)) as H150p.
  assert (Hn0 : 0 <= n) by apply pos_INR.
  assert (Hn20 : n <= 1048576).
  { unfold n. rewrite INR_IZR_INZ. apply IZR_le. lia. }
  rewrite bpow_m24 in *. set (b := bpow (-25)) in *.
  assert (Hbv : b = / 33554432) by apply bpow_m25.
  set (x := 3 * n * b).
  assert (Hx : 0 <= x <= / 2) by (unfold x; nra).
  set (q := (1 - 2 * b) ^ List.length row) in *.
  assert (H1 : rsum es * (1 - x) <= fsum32 es).
  { assert (rsum es * (1 - n * (2 * b)) <= rsum es * q) by nra.
    assert (n * bpow (-150) <= rsum es * (n * b)) by nra.
    unfold x. nra. }
  replace (6 * n * b) with (2 * x) by (unfold x; ring).
  clearbody x. set (S := rsum es) in *. set (s := fsum32 es) in *.
  assert (A : 0 <= S * (x * (1 - 2 * x))).
  { apply Rmult_le_pos; [lra|]. apply Rmult_le_pos; lra. }
  assert (B : S * (1 - x) * (1 + 2 * x) <= s * (1 + 2 * x)).
  { apply Rmult_le_compat_r; lra. }
  lra.
Qed.

(** The softmax of one row in float32: as many weights as scores, each in
    [0, 1], with a sum of at most 1 up to the rounding of the scores. *)
Lemma softmax32_spec recip row :
  row <> [] -> (Z.of_nat (List.length row) <= 2 ^ 20)%Z ->
  List.length (softmax32 fexp recip row) = List.length row /\
  Forall (fun v => 0 <= v <= 1) (softmax32 fexp recip row) /\
  rsum (softmax32 fexp recip row)
  <= 1 + INR (List.length row) * bpow (-22).
Proof.
  intros Hrow Hn.
  destruct (exps32_spec fexp fexp_ok row Hrow) as (Hlen & Hrange & Hone).
  destruct (exps32_sum row Hrow Hn) as ((Hs1 & Hsn) & Hsum).
  cbv zeta in Hs1, Hsn, Hsum.
  unfold softmax32.
  set (es := exps32 fexp row) in *. set (s := fsum32 es) in *.
  set (n := INR (List.length row)) in *.
  assert (Hn0 : 0 <= n) by apply pos_INR.
  pose proof (bpow_pos (-25)) as Hb. rewrite bpow_m22.
  set (b := bpow (-25)) in *.
  assert (Hinv : 0 < / s <= 1).
  { split; [apply Rinv_0_lt_compat; lra|].
    rewrite <- Rinv_1. apply Rinv_le_contravar; lra. }
  assert (Hquot : forall e, In e es -> 0 <= e / s <= 1).
  { intros e He. rewrite Forall_forall in Hrange. specialize (Hrange e He).
    unfold Rdiv. split; nra. }
  assert (Hdiv : rsum es / s <= 1 + 6 * n * b).
  { unfold Rdiv. apply Rmult_le_reg_r with s; [lra|].
    rewrite Rmult_assoc, Rinv_l by lra. lra. }
  destruct recip.
  - (* multiplication by the rounded reciprocal *)
    set (r := round32 (1 / s)).
    assert (Hr : 0 <= r <= 1 /\ r <= / s + b).
    { pose proof (round32_unit_error (1 / s) ltac:(unfold Rdiv; lra)) as He.
      apply Rabs_le_bounds in He.
      pose proof (round32_nonneg (1 / s) ltac:(unfold Rdiv; lra)) as H0.
      pose proof (round32_monotone (1 / s) 1 ltac:(unfold Rdiv; lra)) as Hm.
      rewrite round32_1 in Hm.
      change (round32 (1 / s)) with r in He, H0, Hm. fold b in He.
      unfold Rdiv in He. lra. }
    destruct Hr as (Hr01 & Hrs).
    assert (Hprod : forall e, In e es -> 0 <= e * r <= 1).
    { intros e He. rewrite Forall_forall in Hrange. specialize (Hrange e He).
      split; nra. }
    split; [now rewrite length_map|]. split.
    + apply Forall_forall. intros v Hv.
      apply in_map_iff in Hv as (e & <- & He). specialize (Hprod e He). split.
      * apply round32_nonneg. lra.
      * rewrite <- round32_1. apply round32_monotone. lra.
    + apply Rle_trans with (rsum (map (fun e => e * / s + 2 * b) es)).
      * apply rsum_map_le. intros e He.
        pose proof (round32_unit_error (e * r) (Hprod e He)) as Herr.
        apply Rabs_le_bounds in Herr. fold b in Herr.
        rewrite Forall_forall in Hrange. specialize (Hrange e He). nra.
      * rewrite rsum_map_affine, Hlen. fold n. unfold Rdiv in Hdiv. lra.
  - (* division *)
    split; [now rewrite length_map|]. split.
    + apply Forall_forall. intros v Hv.
      apply in_map_iff in Hv as (e & <- & He). specialize (Hquot e He). split.
      * apply round32_nonneg. lra.
      * rewrite <- round32_1. apply round32_monotone. lra.
    + apply Rle_trans with (rsum (map (fun e => e * / s + b) es)).
      * apply rsum_map_le. intros e He.
        pose proof (round32_unit_error (e / s) (Hquot e He)) as Herr.
        apply Rabs_le_bounds in Herr. fold b in Herr. unfold Rdiv in *. lra.
      * rewrite rsum_map_affine, Hlen. fold n. unfold Rdiv in Hdiv.
        assert (0 <= n * b) by (apply Rmult_le_pos; lra). lra.
Qed.
End GateWeights32.

(** ** The selected gate weights *)

Section TopkWeights32.
Local Open Scope R_scope.

(** The rounded exponential is an exponential in the sense of [exp_like]. *)
Lemma exp32_exp_like : exp_like exp32.
Proof.
  split.
  - intros d Hd. unfold exp32. pose proof (exp_pos d) as Hp.
    assert (Hle : exp d <= 1).
    { rewrite <- exp_0. destruct Hd as [Hd| ->]; [|lra].
      left. now apply exp_increasing. }
    split; [apply round32_nonneg; lra|].
    rewrite <- round32_1. now apply round32_monotone.
  - unfold exp32. rewrite exp_0. apply round32_1.
Qed.



(** A positive number in the binade of exponent [e]. *)
Lemma round32_normal x e :
  (-126 <= e)%Z -> bpow e <= x < bpow (e + 1) ->
  round32 x = IZR (round_half_even (x / bpow (e - 23))) * bpow (e - 23).
Proof.
  intros He Hx. pose proof (bpow_pos e).
  rewrite round32_of_nonneg by lra. unfold round32_pos, ulp32, f32_exponent.
  rewrite (mag_unique x e) by (rewrite Rabs_right by lra; exact Hx).
  now rewrite Z.max_r by lia.
Qed.

(** One third in float32. *)
Lemma round32_third : round32 (1 / 3) = IZR 11184811 * bpow (-25).
Proof.
  rewrite (round32_normal (1 / 3) (-2)); [|lia|unfold bpow; simpl; lra].
  change (-2 - 23)%Z with (-25)%Z. rewrite bpow_m25.
  replace (1 / 3 / / 33554432) with (33554432 / 3) by field.
  f_equal. f_equal. unfold round_half_even.
  assert (Ef : Int_part (33554432 / 3) = 11184810%Z).
  { symmetry. apply Int_part_spec. lra. }
  rewrite Ef.
  destruct (total_order_T _ _) as [[H|H]|H]; [lra|lra|reflexivity].
Qed.

(** One tenth in float32 is [0x3DCCCCCD]. *)
Example round32_tenth : round32 (1 / 10) = IZR 13421773 * bpow (-27).
Proof.
  rewrite (round32_normal (1 / 10) (-4)); [|lia|unfold bpow; simpl; lra].
  change (-4 - 23)%Z with (-27)%Z.
  assert (Eb : bpow (-27) = / 134217728) by (unfold bpow; simpl; lra).
  rewrite Eb.
  replace (1 / 10 / / 134217728) with (134217728 / 10) by field.
  f_equal. f_equal. unfold round_half_even.
  assert (Ef : Int_part (134217728 / 10) = 13421772%Z).
  { symmetry. apply Int_part_spec. lra. }
  rewrite Ef.
  destruct (total_order_T _ _) as [[H|H]|H]; [lra|lra|reflexivity].
Qed.

(** A tie goes to the even neighbour: [1 + 2^-24] is rounded down to 1 and
    [1 + 3 * 2^-24] up to [1 + 2^-22]. *)
Example round32_ties :
  round32 (1 + bpow (-24)) = 1 /\
  round32 (1 + 3 * bpow (-24)) = 1 + bpow (-22).
Proof.
  assert (E24 : bpow (-24) = / 16777216) by (unfold bpow; simpl; lra).
  assert (E23 : bpow (-23) = / 8388608) by (unfold bpow; simpl; lra).
  assert (E22 : bpow (-22) = / 4194304) by (unfold bpow; simpl; lra).
  assert (E1 : bpow (0 + 1) = 2) by (unfold bpow; simpl; lra).
  split.
  - rewrite (round32_normal _ 0); [|lia|rewrite bpow_0, E1, E24; lra].
    change (0 - 23)%Z with (-23)%Z. rewrite E24, E23.
    replace ((1 + / 16777216) / / 8388608) with (8388608 + / 2) by field.
    unfold round_half_even.
    assert (Ef : Int_part (8388608 + / 2) = 8388608%Z).
    { symmetry. apply Int_part_spec. lra. }
    rewrite Ef.
    destruct (total_order_T _ _) as [[H|H]|H]; [lra| |lra].
    change (Z.even 8388608) with true. cbv iota. field.
  - rewrite (round32_normal _ 0); [|lia|rewrite bpow_0, E1, E24; lra].
    change (0 - 23)%Z with (-23)%Z. rewrite E24, E23, E22.
    replace ((1 + 3 * / 16777216) / / 8388608) with (8388609 + / 2) by field.
    unfold round_half_even.
    assert (Ef : Int_part (8388609 + / 2) = 8388609%Z).
    { symmetry. apply Int_part_spec. lra. }
    rewrite Ef.
    destruct (total_order_T _ _) as [[H|H]|H]; [lra| |lra].
    change (Z.even 8388609) with false. cbv iota.
    change (8388609 + 1)%Z with 8388610%Z. field.
Qed.

(** A list of [n] copies of [w]. *)
Lemma all_equal (w : R) (l : list R) :
  (forall v, In v l -> v = w) -> l = repeat w (List.length l).
Proof.
  induction l as [|x l IH]; intros H; [reflexivity|].
  cbn [List.length repeat]. f_equal; [apply H; now left|].
  apply IH. intros v Hv. apply H. now right.
Qed.

(** The softmax of three equal scores in float32: three times the float32
    nearest to one third, which lies above one third. *)
Lemma softmax32_equal_scores recip :
  softmax32 exp32 recip [0; 0; 0]
  = repeat (IZR 11184811 * bpow (-25)) 3.
Proof.
  assert (E0 : exp32 (round32 (0 - 0)) = 1).
  { replace (0 - 0) with 0 by lra. rewrite round32_0.
    apply exp32_exp_like. }
  assert (Es : fsum32 [1; 1; 1] = 3).
  { unfold fsum32. cbn [fold_left].
    replace (0 + 1) with 1 by lra. rewrite round32_1.
    replace (1 + 1) with (IZR 2) by lra. rewrite round32_integer by lia.
    replace (IZR 2 + 1) with (IZR 3) by lra. apply round32_integer. lia. }
  unfold softmax32, exps32. cbn [fold_left map].
  assert (Em : Rmax (Rmax 0 0) 0 = 0).
  { unfold Rmax. repeat destruct (Rle_dec _ _); lra. }
  rewrite Em, E0, Es. destruct recip; cbn [map repeat].
  - rewrite round32_third, Rmult_1_l, <- round32_third.
    now rewrite round32_idempotent.
  - now rewrite round32_third.
Qed.

End TopkWeights32.

(** ** The scheduler on values *)

Lemma slice_len_in a b len :
  0 <= a -> a <= b -> b <= len -> slice_len a b len = b - a.
Proof.
  intros Ha Hab Hb. unfold slice_len, norm_index.
  destruct (Z.ltb_spec b 0); destruct (Z.ltb_spec a 0); lia.
Qed.

Lemma norm_index_le a len : 0 <= a <= len -> norm_index a len = a.
Proof.
  intros Ha. unfold norm_index. destruct (Z.ltb_spec a 0); lia.
Qed.

Section TileValues.
Context {A : Type}.
Variable zero : A.
Variable model : VTensor A -> result (VTensor A).

(** What one tile does to the output tensor: the written region receives the
    valid region of the tile's output, everything else is kept. *)
Lemma process_tile_value (scale : Z) (y whole output : VTensor A)
      (tb : TileBounds) n c h w :
  dims y = (n, c, h, w) ->
  dims output = (n, c, h * scale, w * scale) ->
  0 <= scale ->
  padding_ok scale h w tb ->
  out_y_start tb = y_start tb * scale -> out_y_end tb = y_end tb * scale ->
  out_x_start tb = x_start tb * scale -> out_x_end tb = x_end tb * scale ->
  tile_exact model scale y whole tb ->
  exists out',
    process_tile (H := VTensor_TensorLike zero) model y tb output = Ok out' /\
    dims out' = (n, c, h * scale, w * scale) /\
    forall b ch oy ox, in_dims (n, c, h * scale, w * scale) b ch oy ox ->
      (writes tb oy ox -> at4 out' b ch oy ox = at4 whole b ch oy ox) /\
      (~ writes tb oy ox -> at4 out' b ch oy ox = at4 output b ch oy ox).
Proof.
  intros Hy Hout Hs Hpad Eys Eye Exs Exe Hex.
  unfold tile_exact in Hex. rewrite Hy in Hex.
  destruct Hex as (tile & out_tile & Etile & Emodel & Hdims & Hval).
  destruct Hpad as ((Hx1 & Hx2 & Hx3) & (Hy1 & Hy2 & Hy3) & _ & _ & _ & _
                    & Exv & Eyv & Hxv0 & Hxv1 & Hyv0 & Hyv1).
  unfold padded_height, padded_width in Hdims.
  assert (Hyl : 0 <= (y_end tb - y_start tb) * scale) by nia.
  assert (Hxl : 0 <= (x_end tb - x_start tb) * scale) by nia.
  unfold process_tile. cbn [getitem_hw setitem_hw VTensor_TensorLike].
  rewrite Etile. cbn [bind]. rewrite Emodel. cbn [bind].
  unfold v_getitem_hw at 1. rewrite Hdims. cbn [bind fst snd].
  unfold v_setitem_hw. rewrite Hout. cbn [dims fst snd].
  rewrite (slice_len_in (out_y_start_valid tb)) by lia.
  rewrite (slice_len_in (out_x_start_valid tb)) by lia.
  rewrite (slice_len_in (out_y_start tb)) by nia.
  rewrite (slice_len_in (out_x_start tb)) by nia.
  rewrite (norm_index_le (out_y_start_valid tb)) by lia.
  rewrite (norm_index_le (out_x_start_valid tb)) by lia.
  rewrite (norm_index_le (out_y_start tb)) by nia.
  rewrite (norm_index_le (out_x_start tb)) by nia.
  rewrite Exv, Eyv, expandable_refl.
  eexists. split; [reflexivity|]. split; [reflexivity|].
  intros b ch oy ox (Hb & Hch & Hoy & Hox). cbn [at4]. split.
  - intros [Hwy Hwx].
    destruct (Z.leb_spec (out_y_start tb) oy); [|lia].
    destruct (Z.ltb_spec oy (out_y_start tb + (out_y_end tb - out_y_start tb)));
      [|lia].
    destruct (Z.leb_spec (out_x_start tb) ox); [|lia].
    destruct (Z.ltb_spec ox (out_x_start tb + (out_x_end tb - out_x_start tb)));
      [|lia].
    cbn [andb]. rewrite !bidx_in by lia. now apply Hval.
  - intros Hnw. unfold writes in Hnw.
    destruct (Z.leb_spec (out_y_start tb) oy); [|reflexivity].
    destruct (Z.ltb_spec oy (out_y_start tb + (out_y_end tb - out_y_start tb)));
      [|reflexivity].
    destruct (Z.leb_spec (out_x_start tb) ox); [|reflexivity].
    destruct (Z.ltb_spec ox (out_x_start tb + (out_x_end tb - out_x_start tb)));
      [|reflexivity].
    exfalso. apply Hnw. lia.
Qed.

(** The loop over the tiles: where the output agreed with [whole] it still
    does, and it agrees on every region written on the way. *)
Lemma for_each_tiles_value (scale : Z) (y whole : VTensor A) n c h w
      (tiles : list TileBounds) : forall (output : VTensor A) (done : Z -> Z -> Prop),
  dims y = (n, c, h, w) -> 0 <= scale ->
  (forall tb, In tb tiles ->
     padding_ok scale h w tb /\
     out_y_start tb = y_start tb * scale /\ out_y_end tb = y_end tb * scale /\
     out_x_start tb = x_start tb * scale /\ out_x_end tb = x_end tb * scale /\
     tile_exact model scale y whole tb) ->
  dims output = (n, c, h * scale, w * scale) ->
  (forall b ch oy ox, in_dims (n, c, h * scale, w * scale) b ch oy ox ->
     done oy ox -> at4 output b ch oy ox = at4 whole b ch oy ox) ->
  exists r,
    for_each tiles (process_tile (H := VTensor_TensorLike zero) model y) output
      = Ok r /\
    dims r = (n, c, h * scale, w * scale) /\
    forall b ch oy ox, in_dims (n, c, h * scale, w * scale) b ch oy ox ->
      done oy ox \/ (exists tb, In tb tiles /\ writes tb oy ox) ->
      at4 r b ch oy ox = at4 whole b ch oy ox.
Proof.
  induction tiles as [|tb tiles IH]; intros output done Hy Hs Htiles Hout Hdone.
  - exists output. split; [reflexivity|]. split; [exact Hout|].
    intros b ch oy ox Hin [Hd|(tb & [] & _)]. now apply Hdone.
  - destruct (Htiles tb (or_introl eq_refl))
      as (Hpad & Eys & Eye & Exs & Exe & Hex).
    destruct (process_tile_value scale y whole output tb n c h w
                Hy Hout Hs Hpad Eys Eye Exs Exe Hex)
      as (out' & Eout' & Hdims' & Hval').
    destruct (IH out' (fun oy ox => done oy ox \/ writes tb oy ox) Hy Hs)
      as (r & Er & Hdr & Hr).
    + intros tb' Htb'. apply Htiles. now right.
    + exact Hdims'.
    + intros b ch oy ox Hin Hd.
      destruct (Hval' b ch oy ox Hin) as [Hw Hnw].
      assert (Hdec : writes tb oy ox \/ ~ writes tb oy ox)
        by (unfold writes; lia).
      destruct Hdec as [Hyes|Hno]; [now apply Hw|].
      rewrite (Hnw Hno). destruct Hd as [Hd|Hd]; [now apply Hdone|contradiction].
    + exists r. cbn [for_each]. rewrite Eout'. cbn [bind].
      split; [exact Er|]. split; [exact Hdr|].
      intros b ch oy ox Hin Hcase. apply Hr; [exact Hin|].
      destruct Hcase as [Hd|(tb' & [<-|Htb'] & Hw')].
      * left. now left.
      * left. now right.
      * right. exists tb'. auto.
Qed.

(** The tile that owns an output pixel, from the pixel's coordinate. *)
Lemma owner_index scale ts len i o :
  0 <= scale -> 1 <= ts -> 0 <= i ->
  i * ts * scale <= o < Z.min (i * ts + ts) len * scale ->
  o / scale / ts = i.
Proof.
  intros Hs0 Hts Hi Ho.
  assert (Hs : 1 <= scale) by nia.
  assert (H1 : i * ts <= o / scale).
  { apply Z.div_le_lower_bound; lia. }
  assert (H2 : o / scale < i * ts + ts).
  { apply Z.div_lt_upper_bound; [lia|]. nia. }
  symmetry. apply Z.div_unique with (r := o / scale - i * ts); lia.
Qed.

(** C2.  For an input of height [h] and width [w] and a tile size of at least
    one, [tile_inference] runs the loop body [process_tile] once for each of
    the [ceil(w/t) * ceil(h/t)] grid cells; every pixel of the scaled output
    lies in the written region of exactly one cell, no cell writes outside
    the output, and every cell reads its bounds extended by 12 pixels on
    each side, clipped to the image.  When the model enlarges every padded
    tile [scale] times, [tile_inference] returns, and over the written
    region of each tile the result holds what the model returned for that
    tile, taken from the valid region of the tile's output: every pixel is
    written, by the one tile that owns it. *)
Theorem tile_regions_partition_output (scale : Z) (y : VTensor A)
        (tile_size n c h w : Z) :
  dims y = (n, c, h, w) ->
  0 <= n -> 0 <= c -> 0 <= h -> 0 <= w -> 0 <= scale -> 1 <= tile_size ->
  exists tiles_x tiles_y,
    ceil_div w tile_size = Ok tiles_x /\
    ceil_div h tile_size = Ok tiles_y /\
    (tiles_x - 1) * tile_size < w <= tiles_x * tile_size /\
    (tiles_y - 1) * tile_size < h <= tiles_y * tile_size /\
    tile_inference (H := VTensor_TensorLike zero) model scale y tile_size
    = for_each
        (map (fun p => tile_bounds scale h w tile_size (fst p) (snd p))
             (grid tiles_y tiles_x))
        (process_tile (H := VTensor_TensorLike zero) model y)
        {| dims := (n, c, h * scale, w * scale); at4 := fun _ _ _ _ => zero |} /\
    Z.of_nat (List.length (grid tiles_y tiles_x)) = tiles_x * tiles_y /\
    NoDup (grid tiles_y tiles_x) /\
    (forall oy ox, 0 <= oy < h * scale -> 0 <= ox < w * scale ->
       exists p, In p (grid tiles_y tiles_x) /\
         writes (tile_bounds scale h w tile_size (fst p) (snd p)) oy ox /\
         forall q, In q (grid tiles_y tiles_x) ->
           writes (tile_bounds scale h w tile_size (fst q) (snd q)) oy ox ->
           q = p) /\
    (forall p oy ox, In p (grid tiles_y tiles_x) ->
       writes (tile_bounds scale h w tile_size (fst p) (snd p)) oy ox ->
       0 <= oy < h * scale /\ 0 <= ox < w * scale) /\
    (forall p, In p (grid tiles_y tiles_x) ->
       padding_ok scale h w
         (tile_bounds scale h w tile_size (fst p) (snd p))) /\
    ((forall p, In p (grid tiles_y tiles_x) ->
        tile_scaled model scale y
          (tile_bounds scale h w tile_size (fst p) (snd p))) ->
     exists r,
       tile_inference (H := VTensor_TensorLike zero) model scale y tile_size
       = Ok r /\
       dims r = (n, c, h * scale, w * scale) /\
       forall p out_tile, In p (grid tiles_y tiles_x) ->
         let tb := tile_bounds scale h w tile_size (fst p) (snd p) in
         tile_output model y tb = Ok out_tile ->
         forall b ch oy ox, 0 <= b < n -> 0 <= ch < c -> writes tb oy ox ->
           at4 r b ch oy ox
           = at4 out_tile b ch
               (out_y_start_valid tb + (oy - out_y_start tb))
               (out_x_start_valid tb + (ox - out_x_start tb))).
Proof.
  intros Hy Hn Hc Hh Hw Hs Hts.
  destruct (tile_schedule_partition scale h w tile_size Hs Hts Hh Hw)
    as (tx & ty & Etx & Ety & Htx & Hty & Esched & Hlen & Hnd & Hpart & Hin
        & Hpad).
  exists tx, ty.
  assert (Erun : tile_inference (H := VTensor_TensorLike zero) model scale y
                   tile_size
                 = for_each
                     (map (fun p => tile_bounds scale h w tile_size (fst p) (snd p))
                          (grid ty tx))
                     (process_tile (H := VTensor_TensorLike zero) model y)
                     {| dims := (n, c, h * scale, w * scale);
                        at4 := fun _ _ _ _ => zero |}).
  { rewrite (@tile_inference_schedule (VTensor A) (VTensor_TensorLike zero)
               model scale y tile_size n c h w) by (cbn; now rewrite Hy).
    cbn [new_zeros VTensor_TensorLike]. unfold v_new_zeros. cbn [existsb].
    destruct (Z.ltb_spec n 0); [lia|]. destruct (Z.ltb_spec c 0); [lia|].
    destruct (Z.ltb_spec (h * scale) 0); [nia|].
    destruct (Z.ltb_spec (w * scale) 0); [nia|].
    cbn [orb bind]. rewrite Esched. reflexivity. }
  repeat (split; [assumption|]).
  intros Hmodel.
  set (tbs := fun oy ox =>
         tile_bounds scale h w tile_size (oy / scale / tile_size)
           (ox / scale / tile_size)).
  set (whole := {| dims := (n, c, h * scale, w * scale);
                   at4 := fun b ch oy ox =>
                     match tile_output model y (tbs oy ox) with
                     | Ok out_tile =>
                         at4 out_tile b ch
                           (out_y_start_valid (tbs oy ox)
                            + (oy - out_y_start (tbs oy ox)))
                           (out_x_start_valid (tbs oy ox)
                            + (ox - out_x_start (tbs oy ox)))
                     | Err _ => zero
                     end |}).
  assert (Hown : forall p oy ox, In p (grid ty tx) ->
            writes (tile_bounds scale h w tile_size (fst p) (snd p)) oy ox ->
            tbs oy ox = tile_bounds scale h w tile_size (fst p) (snd p)).
  { intros [yi xi] oy ox Hp [Hwy Hwx]. apply in_grid in Hp.
    cbn [fst snd] in Hp, Hwy, Hwx |- *.
    unfold tile_bounds in Hwy, Hwx.
    cbn [out_y_start out_y_end out_x_start out_x_end] in Hwy, Hwx.
    unfold tbs.
    rewrite (owner_index scale tile_size h yi oy) by lia.
    rewrite (owner_index scale tile_size w xi ox) by lia.
    reflexivity. }
  destruct (for_each_tiles_value scale y whole n c h w
              (map (fun p => tile_bounds scale h w tile_size (fst p) (snd p))
                   (grid ty tx))
              {| dims := (n, c, h * scale, w * scale);
                 at4 := fun _ _ _ _ => zero |}
              (fun _ _ => False) Hy Hs) as (r & Er & Hdr & Hr).
  - intros tb Htb. apply in_map_iff in Htb as (p & <- & Hp).
    split; [now apply Hpad|]. repeat (split; [reflexivity|]).
    specialize (Hmodel p Hp). unfold tile_scaled in Hmodel. unfold tile_exact.
    rewrite Hy in *. destruct Hmodel as (out_tile & Eout & Hdims).
    unfold tile_output in Eout.
    destruct (v_getitem_hw y _ _) as [tile|e] eqn:Etile; [|discriminate].
    cbn [bind] in Eout.
    exists tile, out_tile. split; [reflexivity|]. split; [exact Eout|].
    split; [exact Hdims|].
    intros b ch oy ox Hb Hch Hwr. cbn [whole at4].
    rewrite (Hown p oy ox Hp Hwr). unfold tile_output.
    rewrite Etile. cbn [bind]. now rewrite Eout.
  - reflexivity.
  - intros b ch oy ox _ [].
  - exists r. split; [now rewrite Erun|]. split; [exact Hdr|].
    intros p out_tile Hp tb Eout b ch oy ox Hb Hch Hwr.
    destruct (Hin p oy ox Hp Hwr) as [Hoy Hox].
    rewrite (Hr b ch oy ox).
    + cbn [whole at4]. rewrite (Hown p oy ox Hp Hwr). fold tb. now rewrite Eout.
    + unfold in_dims. lia.
    + right. exists tb. split; [|exact Hwr].
      apply in_map_iff. exists p. split; [reflexivity|exact Hp].
Qed.
End TileValues.

(** C2 at the scenario of the specification: a 100x100 input with
    [tile_size = 37] is cut into 3 x 3 = 9 tiles; enlarged twice by nearest
    neighbour, tile by tile, it gives a 200x200 output, and the output pixel
    (100, 90), written by the centre tile, holds the input pixel (50, 45). *)
Lemma tile_regions_partition_output_witness :
  exists tiles_x tiles_y r,
    ceil_div 100 37 = Ok tiles_x /\ ceil_div 100 37 = Ok tiles_y /\
    tiles_x = 3 /\ tiles_y = 3 /\
    Z.of_nat (List.length (grid tiles_y tiles_x)) = 9 /\
    NoDup (grid tiles_y tiles_x) /\
    tile_inference (H := VTensor_TensorLike 0) (nearest_upscale 2) 2
      numbered_image 37 = Ok r /\
    dims r = (1, 1, 200, 200) /\
    at4 r 0 0 100 90 = 5045.
Proof.
  destruct (tile_regions_partition_output 0 (nearest_upscale 2) 2
              numbered_image 37 1 1 100 100 eq_refl
              ltac:(lia) ltac:(lia) ltac:(lia) ltac:(lia) ltac:(lia) ltac:(lia))
    as (tx & ty & Ex & Ey & Hx & Hy & _ & Hlen & Hnd & _ & _ & _ & Hrun).
  assert (tx = 3) by lia. assert (ty = 3) by lia. subst tx ty.
  destruct Hrun as (r & Er & Hdr & Hr).
  { intros p Hp. change (grid 3 3) with
      [(0, 0); (0, 1); (0, 2); (1, 0); (1, 1); (1, 2); (2, 0); (2, 1); (2, 2)]
      in Hp.
    cbn [In] in Hp.
    repeat (destruct Hp as [<-|Hp];
            [eexists; split; reflexivity|]).
    contradiction. }
  exists 3, 3, r.
  split; [exact Ex|]. split; [exact Ey|].
  split; [reflexivity|]. split; [reflexivity|].
  split; [exact Hlen|]. split; [exact Hnd|].
  split; [exact Er|]. split; [exact Hdr|].
  assert (Hc : In (1, 1) (grid 3 3)) by (apply in_grid; cbn [fst snd]; lia).
  rewrite (Hr (1, 1) _ Hc eq_refl 0 0 100 90);
    [reflexivity|lia|lia|unfold writes; cbn; lia].
Defined.

(* ===================================================================== *)
(** * Part III: further properties of the code                            *)
(* ===================================================================== *)

(** ** Construction of the network *)

Lemma range_cons n : 1 <= n -> exists l, range n = 0 :: l.
Proof.
  intros Hn. unfold range.
  destruct (Z.to_nat n) as [|k] eqn:E; [lia|].
  cbn [seq map]. eexists. reflexivity.
Qed.

Lemma mapM_const {A B : Type} (f : A -> result B) (y : B) (xs : list A) :
  (forall x, f x = Ok y) -> mapM f xs = Ok (map (fun _ => y) xs).
Proof.
  intros Hf. induction xs as [|x xs IH]; [reflexivity|].
  cbn [mapM map]. now rewrite Hf, IH.
Qed.

Lemma mapM_first_err {A B : Type} (f : A -> result B) (e : PyError) x xs :
  f x = Err e -> mapM f (x :: xs) = Err e.
Proof. intros Hf. cbn [mapM]. now rewrite Hf. Qed.

Lemma grow_func_unknown lr :
  ~ valid_lr_space lr -> grow_func lr = Err NotImplementedError.
Proof.
  intros Hlr. destruct lr as [s|k]; [|reflexivity]. unfold grow_func.
  destruct (String.eqb_spec s "linear") as [->|_].
  { exfalso. apply Hlr. now left. }
  destruct (String.eqb_spec s "exp") as [->|_].
  { exfalso. apply Hlr. right. now left. }
  destruct (String.eqb_spec s "double") as [->|_].
  { exfalso. apply Hlr. right. now right. }
  reflexivity.
Qed.

Lemma MoEBlock_init_unknown_policy d num_experts topk use_shuffle lr recursive :
  1 <= d -> ~ valid_lr_space lr ->
  MoEBlock.init d num_experts topk use_shuffle lr recursive
  = Err NotImplementedError.
Proof.
  intros Hd Hlr. unfold MoEBlock.init.
  rewrite !Conv2d_init_g1, !Conv2d_init_depthwise by lia. cbn [bind].
  destruct (StripedConv2d_ok d 3 Hd ltac:(lia) eq_refl) as (c2 & -> & _).
  cbn [bind]. now rewrite grow_func_unknown.
Qed.

(** The growth policy [lr_space] is only looked at by [MoEBlock.__init__].  A
    value that is none of "linear", "exp" and "double" (the integer default of
    [SeemoRe.__init__] among them) makes the construction of a network with at
    least one layer raise [NotImplementedError]; a network without layers
    never builds a block and is constructed whatever the policy. *)
Theorem unknown_growth_policy_rejected {P : Type} (cfg : SeemoRe.Config)
        (weights : P) :
  ~ valid_lr_space (SeemoRe.cfg_lr_space cfg) ->
  1 <= SeemoRe.cfg_embedding_dim cfg ->
  (1 <= SeemoRe.cfg_num_layers cfg ->
   SeemoRe.init cfg weights = Err NotImplementedError) /\
  (SeemoRe.cfg_num_layers cfg <= 0 ->
   exists m, SeemoRe.init cfg weights = Ok m /\ SeemoRe.body m = []).
Proof.
  intros Hlr Hd. split.
  - intros HL. unfold SeemoRe.init. rewrite Conv2d_init_g1. cbn [bind].
    destruct (range_cons _ HL) as (l & ->).
    rewrite (mapM_first_err _ NotImplementedError); [reflexivity|].
    unfold ResGroup.init, RME.init, LayerNorm.init. cbn [bind].
    now rewrite MoEBlock_init_unknown_policy.
  - intros HL. unfold SeemoRe.init. rewrite !Conv2d_init_g1.
    rewrite range_nonpos by assumption. unfold LayerNorm.init. cbn [bind mapM].
    eexists. split; reflexivity.
Qed.

Lemma unknown_growth_policy_rejected_witness :
  SeemoRe.init SeemoRe.default_config tt = Err NotImplementedError.
Proof.
  apply (unknown_growth_policy_rejected SeemoRe.default_config tt).
  - intros [H|[H|H]]; discriminate H.
  - cbn. lia.
  - cbn. lia.
Defined.

(** ** The smallest input the network accepts *)

Lemma agg_loop_small d n (r : nat) : forall (s : nat) h w,
  1 <= h -> 1 <= w -> h < 4 ^ Z.of_nat r \/ w < 4 ^ Z.of_nat r ->
  for_loop (map Z.of_nat (seq s r))
    (fun _ x => x <- Conv2d.forward (Conv2d.mk d d (4, 4) (4, 4) (0, 0) d) x ;;
                GELU x)
    [n; d; h; w] = Err (RuntimeError KernelTooLarge).
Proof.
  induction r as [|r IH]; intros s h w Hh Hw Hsmall.
  - simpl in Hsmall. lia.
  - rewrite Nat2Z.inj_succ, Z.pow_succ_r in Hsmall by lia.
    cbn [seq map for_loop].
    destruct (Z.lt_ge_cases h 4) as [Hh4|Hh4].
    { now rewrite agg_conv_too_small by lia. }
    destruct (Z.lt_ge_cases w 4) as [Hw4|Hw4].
    { now rewrite agg_conv_too_small by lia. }
    rewrite agg_conv_forward by lia. cbn [bind GELU].
    apply IH.
    + apply Z.div_le_lower_bound; lia.
    + apply Z.div_le_lower_bound; lia.
    + destruct Hsmall as [Hs|Hs]; [left|right];
        apply Z.div_lt_upper_bound; lia.
Qed.

Lemma calibrate_small (m : MoEBlock.t) d n h w :
  MoEBlock.agg_conv m = Conv2d.mk d d (4, 4) (4, 4) (0, 0) d ->
  0 <= MoEBlock.recursive m -> 1 <= h -> 1 <= w ->
  h < 4 ^ MoEBlock.recursive m \/ w < 4 ^ MoEBlock.recursive m ->
  MoEBlock.calibrate m [n; d; h; w] = Err (RuntimeError KernelTooLarge).
Proof.
  intros Eagg Hr Hh Hw Hsmall. unfold MoEBlock.calibrate.
  rewrite Eagg. unfold range.
  rewrite <- (Z2Nat.id (MoEBlock.recursive m)) in Hsmall by lia.
  now rewrite (agg_loop_small d n _ 0 h w Hh Hw Hsmall).
Qed.

Lemma MoEBlock_small d num_experts topk use_shuffle lr recursive :
  1 <= d -> 1 <= num_experts -> valid_lr_space lr ->
  exists m, MoEBlock.init d num_experts topk use_shuffle lr recursive = Ok m /\
    forall training pick n h w,
      1 <= n -> 0 <= recursive -> 1 <= h -> 1 <= w ->
      h < 4 ^ recursive \/ w < 4 ^ recursive ->
      MoEBlock.forward m training pick [n; d; h; w]
      = Err (RuntimeError KernelTooLarge).
Proof.
  intros Hd HN Hlr.
  destruct (MoEBlock_init_ok d num_experts topk use_shuffle lr recursive
              Hd HN Hlr) as (es & c2 & -> & Hlen & Hes & Hc2).
  eexists. split; [reflexivity|].
  intros training pick n h w Hn Hr Hh Hw Hsmall.
  unfold MoEBlock.forward, GELU.
  cbn [MoEBlock.conv_1 MoEBlock.use_shuffle MoEBlock.conv_2 MoEBlock.moe_layer
       MoEBlock.proj fst snd].
  rewrite Conv2d_forward_3x3 by lia. cbn [bind].
  rewrite Conv2d_forward_1x1 by lia. cbn [bind].
  assert (Esh : forall T (f : Shape -> result T),
             (x <- (if use_shuffle then channel_shuffle [n; 2 * d; h; w]
                    else Ok [n; 2 * d; h; w]) ;; f x) = f [n; 2 * d; h; w]).
  { intros T f. destruct use_shuffle; [|reflexivity].
    now rewrite channel_shuffle_even by lia. }
  rewrite Esh. cbn [bind]. rewrite chunk2_even by lia. cbn [bind].
  rewrite Hc2 by lia. cbn [bind].
  now rewrite (calibrate_small _ d) by (cbn; auto).
Qed.

Lemma ResGroup_small d num_experts k lr topk recursive use_shuffle :
  1 <= d -> 1 <= num_experts -> valid_lr_space lr -> 1 <= k -> k mod 2 = 1 ->
  exists m, ResGroup.init d num_experts k lr topk recursive use_shuffle = Ok m /\
    forall training pick n h w,
      1 <= n -> 0 <= recursive -> 1 <= h -> 1 <= w ->
      h < 4 ^ recursive \/ w < 4 ^ recursive ->
      ResGroup.forward m training pick [n; d; h; w]
      = Err (RuntimeError KernelTooLarge).
Proof.
  intros Hd HN Hlr Hk Hodd. unfold ResGroup.init, RME.init, LayerNorm.init.
  cbn [bind].
  destruct (MoEBlock_small d num_experts topk use_shuffle lr recursive Hd HN Hlr)
    as (b & -> & Hb).
  destruct (GatedFFN_ok d Hd) as (f & -> & _). cbn [bind].
  destruct (SME_ok d k Hd Hk Hodd) as (g & -> & _). cbn [bind].
  eexists. split; [reflexivity|].
  intros training pick n h w Hn Hr Hh Hw Hsmall.
  unfold ResGroup.forward, RME.forward.
  cbn [ResGroup.local_block RME.norm_1 RME.block].
  rewrite LayerNorm_forward_4d. cbn [bind].
  now rewrite Hb by assumption.
Qed.

(** The layers of the body, when the first one is known. *)
Lemma body_init_first (cfg : SeemoRe.Config) g :
  1 <= SeemoRe.cfg_num_layers cfg ->
  ResGroup.init (SeemoRe.cfg_embedding_dim cfg) (SeemoRe.cfg_num_experts cfg)
    (SeemoRe.cfg_global_kernel_size cfg) (SeemoRe.cfg_lr_space cfg)
    (SeemoRe.cfg_topk cfg) (SeemoRe.cfg_recursive cfg)
    (SeemoRe.cfg_use_shuffle cfg) = Ok g ->
  exists rest,
    mapM (fun _ : Z =>
            ResGroup.init (SeemoRe.cfg_embedding_dim cfg)
              (SeemoRe.cfg_num_experts cfg) (SeemoRe.cfg_global_kernel_size cfg)
              (SeemoRe.cfg_lr_space cfg) (SeemoRe.cfg_topk cfg)
              (SeemoRe.cfg_recursive cfg) (SeemoRe.cfg_use_shuffle cfg))
         (range (SeemoRe.cfg_num_layers cfg)) = Ok (g :: rest).
Proof.
  intros HL Eg. destruct (range_cons _ HL) as (l & ->).
  rewrite (mapM_const _ g) by (intros; exact Eg).
  cbn [map]. eexists. reflexivity.
Qed.

(** A model built from a valid configuration, and its forward pass on
    images that are large enough and on images that are not. *)
Lemma SeemoRe_forward_runs {P : Type} (cfg : SeemoRe.Config) (weights : P) :
  valid_config cfg ->
  exists m,
    SeemoRe.init cfg weights = Ok m /\
    SeemoRe.scale m = SeemoRe.cfg_scale cfg /\
    forall training dev route n h w,
      1 <= n ->
      4 ^ SeemoRe.cfg_recursive cfg <= h -> 4 ^ SeemoRe.cfg_recursive cfg <= w ->
      training = true
      \/ (n = 1 /\ valid_route (SeemoRe.cfg_num_experts cfg) route) ->
      run_model (SeemoRe.to (SeemoRe.train m training) dev) route
        {| m_shape := [n; 3; h; w];
           m_type := {| device := dev; dtype := Float32 |} |}
      = Ok {| m_shape := [n; 3; h * SeemoRe.cfg_scale cfg;
                          w * SeemoRe.cfg_scale cfg];
              m_type := {| device := dev; dtype := Float32 |} |}.
Proof.
  intros Hcfg.
  destruct (body_init_ok cfg Hcfg) as (body & Ebody & Hbody).
  destruct Hcfg as (Hin & Hs & Hd & HN & Hk & Hlr & Hgk & Hodd & Hr).
  assert (0 < 4 ^ SeemoRe.cfg_recursive cfg) by (apply Z.pow_pos_nonneg; lia).
  unfold SeemoRe.init. rewrite Ebody, !Conv2d_init_g1.
  unfold LayerNorm.init. cbn [bind].
  eexists. split; [reflexivity|]. split; [reflexivity|].
  intros training dev route n h w Hn Hh Hw Hmode.
  unfold run_model, SeemoRe.forward, SeemoRe.forward_shape.
  cbn [snd SeemoRe.to SeemoRe.train SeemoRe.set_mean SeemoRe.mean SeemoRe.conv_1
       SeemoRe.body SeemoRe.norm SeemoRe.conv_2 SeemoRe.upsampler
       SeemoRe.training SeemoRe.param_type SeemoRe.scale type_as m_shape m_type
       device dtype FloatTensor fst].
  rewrite broadcast_mean. cbn [bind].
  rewrite TensorType_eqb_refl, Hin.
  rewrite Conv2d_forward_3x3 by lia. cbn [bind].
  rewrite (body_loop_ok _ (SeemoRe.cfg_num_experts cfg) (SeemoRe.cfg_topk cfg)
             (SeemoRe.cfg_recursive cfg)); [|assumption|].
  2:{ intros i. repeat split; try lia.
      destruct Hmode as [Ht|[Hn1 Hroute]]; [now left|right; split; auto]. }
  cbn [bind]. rewrite LayerNorm_forward_4d. cbn [bind].
  rewrite Conv2d_forward_3x3 by lia. cbn [bind].
  rewrite broadcast_same. cbn [bind].
  rewrite Conv2d_forward_3x3 by lia. cbn [bind].
  rewrite pixel_shuffle_ok by lia. cbn [bind].
  rewrite broadcast_mean. reflexivity.
Qed.

Lemma SeemoRe_forward_small {P : Type} (cfg : SeemoRe.Config) (weights : P) :
  valid_config cfg -> 1 <= SeemoRe.cfg_num_layers cfg ->
  exists m,
    SeemoRe.init cfg weights = Ok m /\
    forall training dev route n h w,
      1 <= n -> 0 <= h -> 0 <= w ->
      h < 4 ^ SeemoRe.cfg_recursive cfg \/ w < 4 ^ SeemoRe.cfg_recursive cfg ->
      run_model (SeemoRe.to (SeemoRe.train m training) dev) route
        {| m_shape := [n; 3; h; w];
           m_type := {| device := dev; dtype := Float32 |} |}
      = Err (RuntimeError KernelTooLarge).
Proof.
  intros Hcfg HL.
  destruct Hcfg as (Hin & Hs & Hd & HN & Hk & Hlr & Hgk & Hodd & Hr).
  destruct (ResGroup_small (SeemoRe.cfg_embedding_dim cfg)
              (SeemoRe.cfg_num_experts cfg) (SeemoRe.cfg_global_kernel_size cfg)
              (SeemoRe.cfg_lr_space cfg) (SeemoRe.cfg_topk cfg)
              (SeemoRe.cfg_recursive cfg) (SeemoRe.cfg_use_shuffle cfg)
              Hd HN Hlr Hgk Hodd) as (g & Eg & Hg).
  destruct (body_init_first cfg g HL Eg) as (rest & Ebody).
  unfold SeemoRe.init. rewrite Ebody, !Conv2d_init_g1.
  unfold LayerNorm.init. cbn [bind].
  eexists. split; [reflexivity|].
  intros training dev route n h w Hn Hh Hw Hsmall.
  unfold run_model, SeemoRe.forward, SeemoRe.forward_shape.
  cbn [snd SeemoRe.to SeemoRe.train SeemoRe.set_mean SeemoRe.mean SeemoRe.conv_1
       SeemoRe.body SeemoRe.norm SeemoRe.conv_2 SeemoRe.upsampler
       SeemoRe.training SeemoRe.param_type SeemoRe.scale type_as m_shape m_type
       device dtype FloatTensor fst].
  rewrite broadcast_mean. cbn [bind].
  rewrite TensorType_eqb_refl, Hin.
  destruct (Z.lt_ge_cases h 1) as [Hh0|Hh1].
  { unfold Conv2d.forward, Conv2d.forward_chw.
    cbn [fst snd Conv2d.padding Conv2d.kernel_size Conv2d.in_channels].
    rewrite Z.eqb_refl. cbn [negb].
    destruct (Z.ltb_spec (h + 2 * 1) 3); [reflexivity|lia]. }
  destruct (Z.lt_ge_cases w 1) as [Hw0|Hw1].
  { unfold Conv2d.forward, Conv2d.forward_chw.
    cbn [fst snd Conv2d.padding Conv2d.kernel_size Conv2d.in_channels].
    rewrite Z.eqb_refl. cbn [negb].
    destruct (Z.ltb_spec (w + 2 * 1) 3); [now rewrite orb_true_r|lia]. }
  rewrite Conv2d_forward_3x3 by lia. cbn [bind SeemoRe.body_loop].
  now rewrite Hg by assumption.
Qed.

(** The converse of the shape theorem: an image with a side shorter than
    [4 ^ recursive] pixels makes the forward pass raise, in either mode.  An
    empty side is refused by the first convolution; otherwise the first
    block's [calibrate] runs out of pixels in one of its [recursive] strided
    4x4 convolutions. *)
Theorem forward_rejects_small_inputs {P : Type} (cfg : SeemoRe.Config)
        (weights : P) (training : bool) (dev : Device) (route : Z -> Routing)
        (n h w : Z) :
  valid_config cfg -> 1 <= SeemoRe.cfg_num_layers cfg ->
  1 <= n -> 0 <= h -> 0 <= w ->
  h < 4 ^ SeemoRe.cfg_recursive cfg \/ w < 4 ^ SeemoRe.cfg_recursive cfg ->
  exists m,
    SeemoRe.init cfg weights = Ok m /\
    run_model (SeemoRe.to (SeemoRe.train m training) dev) route
      {| m_shape := [n; SeemoRe.cfg_in_chans cfg; h; w];
         m_type := {| device := dev; dtype := Float32 |} |}
    = Err (RuntimeError KernelTooLarge).
Proof.
  intros Hcfg HL Hn Hh Hw Hsmall.
  destruct (SeemoRe_forward_small cfg weights Hcfg HL) as (m & E & Hm).
  exists m. split; [exact E|].
  destruct Hcfg as (-> & _). now apply Hm.
Qed.

Lemma forward_rejects_small_inputs_witness :
  exists m,
    SeemoRe.init (seemore_t_base_cfg 2) tt = Ok m /\
    run_model (SeemoRe.to (SeemoRe.train m false) Cpu) route0
      (image FloatTensor 15 64)
    = Err (RuntimeError KernelTooLarge).
Proof.
  apply (forward_rejects_small_inputs (seemore_t_base_cfg 2) tt false Cpu route0
           1 15 64 (seemore_t_valid 2 ltac:(lia))).
  - cbn. lia.
  - lia.
  - lia.
  - lia.
  - left. cbn. lia.
Defined.

(** ** Batches in evaluation mode *)

Lemma is_ok_bind_false {A B : Type} (r : result A) (f : A -> result B) :
  is_ok r = false -> is_ok (x <- r ;; f x) = false.
Proof. destruct r; [discriminate|reflexivity]. Qed.

Lemma mapM_length {A B : Type} (f : A -> result B) xs : forall ys,
  mapM f xs = Ok ys -> List.length ys = List.length xs.
Proof.
  induction xs as [|x xs IH]; intros ys E; cbn [mapM] in E.
  - now inversion E.
  - destruct (f x) as [y|]; cbn [bind] in E; [|discriminate].
    destruct (mapM f xs) as [ys'|]; cbn [bind] in E; [|discriminate].
    inversion E; subst. cbn [List.length]. now rewrite (IH ys').
Qed.

Lemma mapM_In {A B : Type} (f : A -> result B) xs : forall ys y,
  mapM f xs = Ok ys -> In y ys -> exists x, In x xs /\ f x = Ok y.
Proof.
  induction xs as [|x xs IH]; intros ys y E Hy; cbn [mapM] in E.
  - inversion E; subst. destruct Hy.
  - destruct (f x) as [y0|] eqn:Ex; cbn [bind] in E; [|discriminate].
    destruct (mapM f xs) as [ys'|]; cbn [bind] in E; [|discriminate].
    inversion E; subst. destruct Hy as [<-|Hy].
    + exists x. split; [now left|assumption].
    + destruct (IH ys' y eq_refl Hy) as (x' & Hx' & Ex').
      exists x'. split; [now right|assumption].
Qed.

Lemma get_expert_In (m : MoELayer.t) i e :
  MoELayer.get_expert m i = Ok e -> In e (MoELayer.experts m).
Proof.
  unfold MoELayer.get_expert.
  destruct ((i <? 0) || _); [discriminate|].
  destruct (nth_error (MoELayer.experts m) (Z.to_nat i)) eqn:E; [|discriminate].
  intros H. inversion H; subst. eapply nth_error_In; eauto.
Qed.

(** The second step of the inference loop on a batch: the weight column
    [topk_weights[:, 1:2]] of a one-column matrix is empty. *)
Lemma accumulate_empty_column d e n h w :
  1 <= d -> 1 <= h -> 1 <= w -> Expert_ok d e ->
  is_ok (MoELayer.accumulate [n; d; h; w] [n; d; h; w] [n; 1] 1 e [n; d; h; w])
  = false.
Proof.
  intros Hd Hh Hw He. unfold MoELayer.accumulate.
  rewrite (He n h w Hh Hw). cbn [bind].
  rewrite slice_len_past by lia.
  unfold broadcast_shapes. cbn [rev app broadcast_rev].
  rewrite !broadcast_dim_1_r. cbn [bind].
  unfold broadcast_dim at 1.
  destruct (Z.eqb_spec d 0); [lia|].
  destruct (Z.eqb_spec d 1) as [->|Hd1]; [|reflexivity].
  cbn [bind]. rewrite broadcast_dim_refl. cbn [bind rev app].
  unfold iadd, broadcast_shapes. cbn [rev app broadcast_rev].
  rewrite !broadcast_dim_refl. cbn [bind].
  unfold broadcast_dim. cbn [Z.eqb Pos.eqb bind rev app shape_eqb].
  rewrite Z.eqb_refl. reflexivity.
Qed.

Lemma MoELayer_inference_rejects_batches d num_experts topk es pick n h w :
  1 <= d -> 1 <= h -> 1 <= w -> 2 <= n ->
  Forall (Expert_ok d) es ->
  is_ok (MoELayer.forward (MoELayer.mk es (Router.init d num_experts) topk)
           false pick [n; d; h; w] [n; d; h; w]) = false.
Proof.
  intros Hd Hh Hw Hn Hes. unfold MoELayer.forward.
  cbn [MoELayer.gate MoELayer.num_expert MoELayer.experts].
  rewrite Router_forward_4d by lia. cbn [bind softmax_dim1].
  destruct (topk_shape [n; num_experts] topk) as [s|] eqn:Etk; [|reflexivity].
  unfold topk_shape in Etk. cbn [rev app] in Etk.
  destruct ((topk <? 0) || (num_experts <? topk)); [discriminate|].
  inversion Etk; subst s. clear Etk. cbn [bind].
  unfold MoELayer.selected_experts. cbn [squeeze0].
  destruct (Z.eqb_spec n 1); [lia|]. cbn [bind].
  destruct (range_two n Hn) as (l & El). rewrite El.
  unfold numel. cbn [fold_right]. rewrite Z.mul_1_r.
  destruct (Z.eqb_spec topk 1) as [->|Hk1]; [|reflexivity].
  match goal with
  | |- context [mapM ?f ?xs] => destruct (mapM f xs) as [sel|] eqn:Esel
  end; [|reflexivity].
  cbn [bind].
  assert (Hsel : forall e, In e sel -> Expert_ok d e).
  { intros e He. destruct (mapM_In _ _ _ _ Esel He) as (b & _ & Eb).
    apply get_expert_In in Eb. cbn [MoELayer.experts] in Eb.
    rewrite Forall_forall in Hes. now apply Hes. }
  apply mapM_length in Esel. cbn [List.length] in Esel.
  destruct sel as [|e0 [|e1 sel]]; [discriminate|discriminate|].
  cbn [MoELayer.enumerate_loop].
  assert (E0 : MoELayer.accumulate [n; d; h; w] [n; d; h; w] [n; 1] 0 e0
                 [n; d; h; w] = Ok [n; d; h; w]).
  { unfold MoELayer.accumulate.
    rewrite (Hsel e0 (or_introl eq_refl) n h w Hh Hw). cbn [bind].
    rewrite slice_len_one by lia. apply iadd_gate. }
  rewrite E0. cbn [bind]. change (0 + 1) with 1.
  apply is_ok_bind_false. apply (accumulate_empty_column d); auto.
  apply Hsel. right. now left.
Qed.

Lemma ResGroup_eval_batches d num_experts k lr topk recursive use_shuffle :
  1 <= d -> 1 <= num_experts -> valid_lr_space lr -> 1 <= k -> k mod 2 = 1 ->
  0 <= recursive ->
  exists m, ResGroup.init d num_experts k lr topk recursive use_shuffle = Ok m /\
    forall pick n h w, 2 <= n -> 1 <= h -> 1 <= w ->
      is_ok (ResGroup.forward m false pick [n; d; h; w]) = false.
Proof.
  intros Hd HN Hlr Hk Hodd Hr.
  destruct (MoEBlock_small d num_experts topk use_shuffle lr recursive Hd HN Hlr)
    as (b & Eb & Hsmall).
  destruct (MoEBlock_forward_to_moe d num_experts topk use_shuffle lr recursive
              Hd HN Hlr) as (b' & es & Eb' & Emoe & Hlen & Hes & Hfwd).
  rewrite Eb in Eb'. inversion Eb'; subst b'. clear Eb'.
  unfold ResGroup.init, RME.init, LayerNorm.init. cbn [bind]. rewrite Eb.
  destruct (GatedFFN_ok d Hd) as (f & -> & _). cbn [bind].
  destruct (SME_ok d k Hd Hk Hodd) as (g & -> & _). cbn [bind].
  eexists. split; [reflexivity|].
  intros pick n h w Hn Hh Hw.
  unfold ResGroup.forward, RME.forward.
  cbn [ResGroup.local_block RME.norm_1 RME.block].
  rewrite LayerNorm_forward_4d. cbn [bind].
  apply is_ok_bind_false. apply is_ok_bind_false.
  destruct (Z.lt_ge_cases h (4 ^ recursive)) as [Hhs|Hhs].
  { now rewrite Hsmall by (auto; lia). }
  destruct (Z.lt_ge_cases w (4 ^ recursive)) as [Hws|Hws].
  { now rewrite Hsmall by (auto; lia). }
  rewrite Hfwd, Emoe by lia.
  apply is_ok_bind_false.
  apply MoELayer_inference_rejects_batches; auto.
Qed.

(** In evaluation mode ([training = False]) the network serves one image at
    a time: for a batch of two or more images of any size the forward pass
    raises, since the first MoE layer builds one expert list for the whole
    batch. *)
Theorem forward_eval_rejects_batches {P : Type} (cfg : SeemoRe.Config)
        (weights : P) (dev : Device) (route : Z -> Routing) (n h w : Z) :
  valid_config cfg -> 1 <= SeemoRe.cfg_num_layers cfg ->
  2 <= n -> 0 <= h -> 0 <= w ->
  exists m,
    SeemoRe.init cfg weights = Ok m /\
    is_ok (run_model (SeemoRe.to (SeemoRe.train m false) dev) route
             {| m_shape := [n; SeemoRe.cfg_in_chans cfg; h; w];
                m_type := {| device := dev; dtype := Float32 |} |}) = false.
Proof.
  intros Hcfg HL Hn Hh Hw.
  destruct Hcfg as (Hin & Hs & Hd & HN & Hk & Hlr & Hgk & Hodd & Hr).
  destruct (ResGroup_eval_batches (SeemoRe.cfg_embedding_dim cfg)
              (SeemoRe.cfg_num_experts cfg) (SeemoRe.cfg_global_kernel_size cfg)
              (SeemoRe.cfg_lr_space cfg) (SeemoRe.cfg_topk cfg)
              (SeemoRe.cfg_recursive cfg) (SeemoRe.cfg_use_shuffle cfg)
              Hd HN Hlr Hgk Hodd Hr) as (g & Eg & Hg).
  destruct (body_init_first cfg g HL Eg) as (rest & Ebody).
  unfold SeemoRe.init. rewrite Ebody, !Conv2d_init_g1.
  unfold LayerNorm.init. cbn [bind].
  eexists. split; [reflexivity|].
  unfold run_model, SeemoRe.forward, SeemoRe.forward_shape.
  cbn [snd SeemoRe.to SeemoRe.train SeemoRe.set_mean SeemoRe.mean SeemoRe.conv_1
       SeemoRe.body SeemoRe.norm SeemoRe.conv_2 SeemoRe.upsampler
       SeemoRe.training SeemoRe.param_type SeemoRe.scale type_as m_shape m_type
       device dtype FloatTensor fst].
  rewrite Hin, broadcast_mean. cbn [bind].
  rewrite TensorType_eqb_refl.
  apply is_ok_bind_false.
  destruct (Conv2d.forward _ [n; 3; h; w]) as [s|] eqn:Ec; [|reflexivity].
  cbn [bind].
  assert (Hhw : 1 <= h /\ 1 <= w).
  { unfold Conv2d.forward, Conv2d.forward_chw in Ec.
    cbn [fst snd Conv2d.padding Conv2d.kernel_size Conv2d.in_channels] in Ec.
    rewrite Z.eqb_refl in Ec. cbn [negb] in Ec.
    destruct (Z.ltb_spec (h + 2 * 1) 3); [discriminate|].
    destruct (Z.ltb_spec (w + 2 * 1) 3); [discriminate|]. lia. }
  rewrite Conv2d_forward_3x3 in Ec by lia. inversion Ec; subst s.
  apply is_ok_bind_false. cbn [SeemoRe.body_loop].
  apply is_ok_bind_false. apply Hg; lia.
Qed.

Lemma forward_eval_rejects_batches_witness :
  exists m,
    SeemoRe.init (seemore_b_base_cfg 4) tt = Ok m /\
    is_ok (run_model (SeemoRe.to (SeemoRe.train m false) Cpu) route0
             {| m_shape := [2; 3; 32; 32]; m_type := FloatTensor |}) = false.
Proof.
  apply (forward_eval_rejects_batches (seemore_b_base_cfg 4) tt Cpu route0
           2 32 32).
  - unfold valid_config, valid_lr_space. cbn. repeat split; try lia; auto.
  - cbn. lia.
  - lia.
  - lia.
  - lia.
Defined.

(** ** Even kernel sizes of the global block *)

(** With padding [kernel_size // 2] an even kernel makes each of the two
    striped convolutions return one pixel more than it was given. *)
Lemma StripedConv2d_even d k :
  1 <= d -> 2 <= k -> k mod 2 = 0 ->
  exists m, StripedConv2d.init d k true = Ok m /\
    forall n h w, 1 <= h -> 1 <= w ->
      StripedConv2d.forward m [n; d; h; w] = Ok [n; d; h + 1; w + 1].
Proof.
  intros Hd Hk Heven. unfold StripedConv2d.init.
  rewrite !Conv2d_init_depthwise by lia. cbn [bind].
  eexists. split; [reflexivity|]. intros n h w Hh Hw.
  pose proof (Z.div_mod k 2 ltac:(lia)) as E.
  unfold StripedConv2d.forward.
  cbn [StripedConv2d.conv_h StripedConv2d.conv_v].
  assert (E1 : forall x, Conv2d.out_size x 1 1 0 = x).
  { intros x. unfold Conv2d.out_size. rewrite Z.div_1_r. lia. }
  assert (E2 : forall x, Conv2d.out_size x k 1 (k / 2) = x + 1).
  { intros x. unfold Conv2d.out_size. rewrite Z.div_1_r. lia. }
  rewrite Conv2d_forward_4d by lia. cbn [bind].
  rewrite E1, E2.
  rewrite Conv2d_forward_4d by lia.
  now rewrite E1, E2.
Qed.

Lemma broadcast_grown n d h w :
  1 <= h -> 1 <= w -> 2 <= h \/ 2 <= w ->
  broadcast_shapes [n; d; h + 1; w + 1] [n; d; h; w]
  = Err (RuntimeError BroadcastMismatch).
Proof.
  intros Hh Hw Hbig. unfold broadcast_shapes. cbn [rev app broadcast_rev].
  destruct (Z.eq_dec w 1) as [->|Hw1].
  - change (1 + 1) with 2. unfold broadcast_dim at 1.
    cbn [Z.eqb Pos.eqb bind].
    rewrite broadcast_dim_mismatch by lia. reflexivity.
  - rewrite broadcast_dim_mismatch by lia. reflexivity.
Qed.

Lemma broadcast_pixel n d :
  broadcast_shapes [n; d; 2; 2] [n; d; 1; 1] = Ok [n; d; 2; 2].
Proof. broadcast. Qed.

(** The global block with an even kernel: the grown map does not broadcast
    against an input of more than one pixel; an input of one pixel
    broadcasts, and the block returns a 2x2 map. *)
Lemma SME_even d k :
  1 <= d -> 2 <= k -> k mod 2 = 0 ->
  exists m, SME.init d k = Ok m /\
    (forall n h w, 1 <= h -> 1 <= w -> 2 <= h \/ 2 <= w ->
       SME.forward m [n; d; h; w] = Err (RuntimeError BroadcastMismatch)) /\
    (forall n, SME.forward m [n; d; 1; 1] = Ok [n; d; 2; 2]).
Proof.
  intros Hd Hk Heven. unfold SME.init, LayerNorm.init, StripedConvFormer.init.
  cbn [bind]. rewrite !Conv2d_init_g1. cbn [bind].
  destruct (StripedConv2d_even d k Hd Hk Heven) as (a & -> & Ha). cbn [bind].
  destruct (GatedFFN_ok d Hd) as (f & -> & Hf). cbn [bind].
  eexists. split; [reflexivity|]. split.
  - intros n h w Hh Hw Hbig.
    unfold SME.forward, StripedConvFormer.forward, GELU.
    cbn [SME.norm_1 SME.block StripedConvFormer.to_qv StripedConvFormer.attn
         StripedConvFormer.proj].
    rewrite LayerNorm_forward_4d. cbn [bind].
    rewrite Conv2d_forward_1x1 by lia. cbn [bind].
    rewrite (Z.mul_comm d 2), chunk2_even by lia. cbn [bind].
    rewrite Ha by lia. cbn [bind].
    now rewrite broadcast_grown by assumption.
  - intros n.
    unfold SME.forward, StripedConvFormer.forward, GELU.
    cbn [SME.norm_1 SME.block SME.norm_2 SME.ffn StripedConvFormer.to_qv
         StripedConvFormer.attn StripedConvFormer.proj].
    rewrite LayerNorm_forward_4d. cbn [bind].
    rewrite Conv2d_forward_1x1 by lia. cbn [bind].
    rewrite (Z.mul_comm d 2), chunk2_even by lia. cbn [bind].
    rewrite Ha by lia. cbn [bind]. change (1 + 1) with 2.
    rewrite broadcast_pixel. cbn [bind].
    rewrite Conv2d_forward_1x1 by lia. cbn [bind].
    rewrite broadcast_pixel. cbn [bind].
    rewrite LayerNorm_forward_4d. cbn [bind].
    rewrite Hf by lia. cbn [bind].
    apply broadcast_same.
Qed.

(** [global_kernel_size] must be odd.  The constructor accepts an even
    value, but then the striped attention of the first global block returns a
    feature map one pixel larger on each side than its input, and the
    product [q * v] raises: the forward pass fails for every image of more
    than one pixel that the network otherwise accepts.  An image of a single
    pixel (accepted only with [recursive = 0]) broadcasts against the grown
    map instead: a network of one layer then returns an output of
    [2 * scale] pixels on each side, and a deeper one raises in its second
    layer. *)
Theorem even_global_kernel_raises {P : Type} (cfg : SeemoRe.Config) (k : Z)
        (weights : P) (training : bool) (dev : Device) (route : Z -> Routing)
        (n h w : Z) :
  valid_config cfg -> 1 <= SeemoRe.cfg_num_layers cfg ->
  2 <= k -> k mod 2 = 0 ->
  1 <= n ->
  4 ^ SeemoRe.cfg_recursive cfg <= h -> 4 ^ SeemoRe.cfg_recursive cfg <= w ->
  training = true \/ (n = 1 /\ valid_route (SeemoRe.cfg_num_experts cfg) route) ->
  exists m,
    SeemoRe.init (with_global_kernel_size cfg k) weights = Ok m /\
    run_model (SeemoRe.to (SeemoRe.train m training) dev) route
      {| m_shape := [n; SeemoRe.cfg_in_chans cfg; h; w];
         m_type := {| device := dev; dtype := Float32 |} |}
    = if (h =? 1) && (w =? 1) && (SeemoRe.cfg_num_layers cfg =? 1)
      then Ok {| m_shape := [n; 3; 2 * SeemoRe.cfg_scale cfg;
                             2 * SeemoRe.cfg_scale cfg];
                 m_type := {| device := dev; dtype := Float32 |} |}
      else Err (RuntimeError BroadcastMismatch).
Proof.
  intros Hcfg HL Hk Heven Hn Hh Hw Hmode.
  destruct Hcfg as (Hin & Hs & Hd & HN & Htk & Hlr & _ & _ & Hr).
  assert (H4 : 0 < 4 ^ SeemoRe.cfg_recursive cfg) by (apply Z.pow_pos_nonneg; lia).
  destruct (RME_ok (SeemoRe.cfg_embedding_dim cfg) (SeemoRe.cfg_num_experts cfg)
              (SeemoRe.cfg_topk cfg) (SeemoRe.cfg_lr_space cfg)
              (SeemoRe.cfg_recursive cfg) (SeemoRe.cfg_use_shuffle cfg)
              Hd HN Hlr) as (l & El & Hl).
  destruct (SME_even (SeemoRe.cfg_embedding_dim cfg) k Hd Hk Heven)
    as (g & Eg & Hg & Hg1).
  assert (Einit : forall i : Z,
            ResGroup.init (SeemoRe.cfg_embedding_dim cfg)
              (SeemoRe.cfg_num_experts cfg) k (SeemoRe.cfg_lr_space cfg)
              (SeemoRe.cfg_topk cfg) (SeemoRe.cfg_recursive cfg)
              (SeemoRe.cfg_use_shuffle cfg)
            = Ok (ResGroup.mk l g)).
  { intros _. unfold ResGroup.init. rewrite El, Eg. reflexivity. }
  assert (Hrun : forall i h' w', 4 ^ SeemoRe.cfg_recursive cfg <= h' ->
            4 ^ SeemoRe.cfg_recursive cfg <= w' ->
            RME.forward l training (route i)
              [n; SeemoRe.cfg_embedding_dim cfg; h'; w']
            = Ok [n; SeemoRe.cfg_embedding_dim cfg; h'; w']).
  { intros i h' w' Hh' Hw'. apply Hl. repeat split; try lia.
    destruct Hmode as [Ht|[Hn1 Hroute]]; [now left|right; split; auto]. }
  unfold SeemoRe.init.
  cbn [with_global_kernel_size SeemoRe.cfg_embedding_dim SeemoRe.cfg_num_experts
       SeemoRe.cfg_global_kernel_size SeemoRe.cfg_lr_space SeemoRe.cfg_topk
       SeemoRe.cfg_recursive SeemoRe.cfg_use_shuffle SeemoRe.cfg_num_layers
       SeemoRe.cfg_in_chans SeemoRe.cfg_scale].
  rewrite (mapM_const _ (ResGroup.mk l g)) by exact Einit.
  rewrite !Conv2d_init_g1. unfold LayerNorm.init. cbn [bind].
  eexists. split; [reflexivity|].
  unfold run_model, SeemoRe.forward, SeemoRe.forward_shape.
  cbn [snd SeemoRe.to SeemoRe.train SeemoRe.set_mean SeemoRe.mean SeemoRe.conv_1
       SeemoRe.body SeemoRe.norm SeemoRe.conv_2 SeemoRe.upsampler
       SeemoRe.training SeemoRe.param_type SeemoRe.scale type_as m_shape m_type
       device dtype FloatTensor fst].
  rewrite Hin, broadcast_mean. cbn [bind].
  rewrite TensorType_eqb_refl.
  rewrite Conv2d_forward_3x3 by lia. cbn [bind].
  destruct (Z.eqb_spec h 1) as [->|Hh1];
    [destruct (Z.eqb_spec w 1) as [->|Hw1]|]; cbn [andb].
  - (* a single pixel *)
    assert (Hr0 : 4 ^ SeemoRe.cfg_recursive cfg <= 2) by lia.
    destruct (Z.eqb_spec (SeemoRe.cfg_num_layers cfg) 1) as [E1|Hne].
    + rewrite E1. change (range 1) with [0]. cbn [map SeemoRe.body_loop].
      unfold ResGroup.forward. cbn [ResGroup.local_block ResGroup.global_block].
      rewrite Hrun by lia. cbn [bind]. rewrite Hg1. cbn [bind].
      rewrite LayerNorm_forward_4d. cbn [bind].
      rewrite Conv2d_forward_3x3 by lia. cbn [bind].
      rewrite broadcast_pixel. cbn [bind].
      rewrite Conv2d_forward_3x3 by lia. cbn [bind].
      rewrite pixel_shuffle_ok by lia. cbn [bind].
      now rewrite broadcast_mean.
    + destruct (range_two (SeemoRe.cfg_num_layers cfg) ltac:(lia)) as (rest & ->).
      cbn [map SeemoRe.body_loop].
      unfold ResGroup.forward. cbn [ResGroup.local_block ResGroup.global_block].
      rewrite Hrun by lia. cbn [bind]. rewrite Hg1. cbn [bind].
      rewrite Hrun by lia. cbn [bind]. now rewrite Hg by lia.
  - destruct (range_cons (SeemoRe.cfg_num_layers cfg) HL) as (rest & ->).
    cbn [map SeemoRe.body_loop].
    unfold ResGroup.forward. cbn [ResGroup.local_block ResGroup.global_block].
    rewrite Hrun by lia. cbn [bind]. now rewrite Hg by lia.
  - destruct (range_cons (SeemoRe.cfg_num_layers cfg) HL) as (rest & ->).
    cbn [map SeemoRe.body_loop].
    unfold ResGroup.forward. cbn [ResGroup.local_block ResGroup.global_block].
    rewrite Hrun by lia. cbn [bind]. now rewrite Hg by lia.
Qed.

(** A [seemore_t] configuration with stripes of ten pixels raises on a
    64x64 image. *)
Lemma even_global_kernel_raises_witness :
  exists m,
    SeemoRe.init (with_global_kernel_size (seemore_t_base_cfg 2) 10) tt = Ok m /\
    run_model (SeemoRe.to (SeemoRe.train m true) Cpu) route0
      (image FloatTensor 64 64)
    = Err (RuntimeError BroadcastMismatch).
Proof.
  apply (even_global_kernel_raises (seemore_t_base_cfg 2) 10 tt true Cpu route0
           1 64 64 (seemore_t_valid 2 ltac:(lia))).
  - cbn. lia.
  - lia.
  - reflexivity.
  - lia.
  - cbn. lia.
  - cbn. lia.
  - now left.
Defined.

(** ** The scheduler on shapes *)

Lemma for_each_const {I S : Type} (xs : list I) (body : I -> S -> result S) s :
  (forall x, In x xs -> body x s = Ok s) -> for_each xs body s = Ok s.
Proof.
  induction xs as [|x xs IH]; intros H; [reflexivity|].
  cbn [for_each]. rewrite (H x (or_introl eq_refl)). cbn [bind].
  apply IH. intros x' Hx'. apply H. now right.
Qed.

Lemma for_each_err {I S : Type} (xs : list I) (body : I -> S -> result S) s e :
  (forall x, In x xs -> body x s = Ok s \/ body x s = Err e) ->
  (exists x, In x xs /\ body x s = Err e) ->
  for_each xs body s = Err e.
Proof.
  induction xs as [|x xs IH]; intros Hall (x0 & Hin & Hx0); [destruct Hin|].
  cbn [for_each].
  destruct (Hall x (or_introl eq_refl)) as [E|E]; rewrite E; [|reflexivity].
  cbn [bind]. apply IH.
  - intros x' Hx'. apply Hall. now right.
  - destruct Hin as [->|Hin]; [congruence|]. exists x0. auto.
Qed.

(** The grid cells are the indices whose tile starts inside the image. *)
Lemma in_grid_starts ts len n i :
  1 <= ts -> (n - 1) * ts < len <= n * ts ->
  (0 <= i < n <-> 0 <= i /\ i * ts < len).
Proof. intros Hts Hn. split; intros H; nia. Qed.

(** What one tile does to the output tensor, on shapes: nothing, provided
    the model maps the padded window to its [scale]-fold enlargement. *)
Lemma process_tile_meta (model : MetaTensor -> result MetaTensor)
      (scale : Z) (y output r : MetaTensor) (tb : TileBounds) n c h w :
  m_shape y = [n; c; h; w] ->
  m_shape output = [n; c; h * scale; w * scale] ->
  0 <= scale ->
  padding_ok scale h w tb ->
  out_y_start tb = y_start tb * scale -> out_y_end tb = y_end tb * scale ->
  out_x_start tb = x_start tb * scale -> out_x_end tb = x_end tb * scale ->
  model {| m_shape := [n; c; padded_height tb; padded_width tb];
           m_type := m_type y |} = Ok r ->
  m_shape r = [n; c; padded_height tb * scale; padded_width tb * scale] ->
  process_tile model y tb output = Ok output.
Proof.
  intros Hy Hout Hs Hpad Eys Eye Exs Exe Hm Hr.
  destruct Hpad as ((Hx1 & Hx2 & Hx3) & (Hy1 & Hy2 & Hy3) & _ & _ & _ & _
                    & Exv & Eyv & Hxv0 & Hxv1 & Hyv0 & Hyv1).
  unfold process_tile. cbn [getitem_hw MetaTensor_TensorLike fst snd].
  rewrite Hy. cbn [bind].
  rewrite !slice_len_in by lia.
  change (y_end_pad tb - y_start_pad tb) with (padded_height tb).
  change (x_end_pad tb - x_start_pad tb) with (padded_width tb).
  rewrite Hm. cbn [bind]. rewrite Hr. cbn [bind setitem_hw MetaTensor_TensorLike
                                             m_shape fst snd].
  rewrite Hout.
  unfold padded_height, padded_width in *.
  assert (0 <= (y_end tb - y_start tb) * scale) by nia.
  assert (0 <= (x_end tb - x_start tb) * scale) by nia.
  rewrite (slice_len_in (out_y_start_valid tb)) by lia.
  rewrite (slice_len_in (out_x_start_valid tb)) by lia.
  rewrite (slice_len_in (out_y_start tb)) by nia.
  rewrite (slice_len_in (out_x_start tb)) by nia.
  rewrite Exv, Eyv. now rewrite expandable_refl.
Qed.

(** [tile_inference] on shapes, for a model that enlarges the padded window
    of every tile of the schedule. *)
Lemma tile_inference_meta (model : MetaTensor -> result MetaTensor)
      (scale : Z) (y : MetaTensor) (tile_size n c h w : Z) :
  m_shape y = [n; c; h; w] ->
  0 <= n -> 0 <= c -> 0 <= h -> 0 <= w -> 0 <= scale -> 1 <= tile_size ->
  (forall yi xi, 0 <= yi -> yi * tile_size < h -> 0 <= xi -> xi * tile_size < w ->
     exists r,
       model {| m_shape :=
                  [n; c; padded_height (tile_bounds scale h w tile_size yi xi);
                   padded_width (tile_bounds scale h w tile_size yi xi)];
                m_type := m_type y |} = Ok r /\
       m_shape r =
         [n; c; padded_height (tile_bounds scale h w tile_size yi xi) * scale;
          padded_width (tile_bounds scale h w tile_size yi xi) * scale]) ->
  tile_inference model scale y tile_size
  = Ok {| m_shape := [n; c; h * scale; w * scale]; m_type := m_type y |}.
Proof.
  intros Hy Hn Hc Hh Hw Hs Hts Hmodel.
  rewrite (@tile_inference_schedule MetaTensor MetaTensor_TensorLike model scale
             y tile_size n c h w Hy).
  cbn [new_zeros MetaTensor_TensorLike existsb].
  destruct (Z.ltb_spec n 0); [lia|]. destruct (Z.ltb_spec c 0); [lia|].
  destruct (Z.ltb_spec (h * scale) 0); [nia|].
  destruct (Z.ltb_spec (w * scale) 0); [nia|].
  cbn [orb bind].
  destruct (ceil_div_pos w tile_size Hts Hw) as (tx & Etx & Htx0 & Htx).
  destruct (ceil_div_pos h tile_size Hts Hh) as (ty & Ety & Hty0 & Hty).
  unfold tile_schedule. rewrite Etx, Ety. cbn [bind].
  apply for_each_const. intros tb Htb.
  apply in_map_iff in Htb as (p & <- & Hp). apply in_grid in Hp.
  destruct (Hmodel (fst p) (snd p)) as (r & Er & Hr); try nia.
  eapply (process_tile_meta model scale y _ r _ n c h w); eauto.
  apply (tile_bounds_padding scale h w tile_size ty tx); lia.
Qed.

(** The scheduler is shape-safe for every model that enlarges its input
    [scale] times: whatever the tile size, each slice read from a tile's
    output has exactly the size of the region it is assigned to, and the
    result has the enlarged shape of the whole image. *)
Theorem tile_inference_shape_safe (model : MetaTensor -> result MetaTensor)
        (scale : Z) (y : MetaTensor) (tile_size n c h w : Z) :
  m_shape y = [n; c; h; w] ->
  0 <= n -> 0 <= c -> 0 <= h -> 0 <= w -> 0 <= scale -> 1 <= tile_size ->
  (forall t ph pw, m_shape t = [n; c; ph; pw] -> 1 <= ph <= h -> 1 <= pw <= w ->
     exists r, model t = Ok r /\ m_shape r = [n; c; ph * scale; pw * scale]) ->
  tile_inference model scale y tile_size
  = Ok {| m_shape := [n; c; h * scale; w * scale]; m_type := m_type y |}.
Proof.
  intros Hy Hn Hc Hh Hw Hs Hts Hmodel.
  apply tile_inference_meta; auto.
  intros yi xi Hyi Hyh Hxi Hxw.
  apply Hmodel; [reflexivity| |];
    unfold padded_height, padded_width, tile_bounds, tile_pad; cbn; nia.
Qed.

Lemma tile_inference_shape_safe_witness :
  tile_inference
    (fun t => match m_shape t with
              | [n; c; h; w] => Ok {| m_shape := [n; c; h * 3; w * 3];
                                      m_type := m_type t |}
              | _ => Err ValueError
              end) 3 image_100 7
  = Ok {| m_shape := [1; 3; 300; 300]; m_type := FloatTensor |}.
Proof.
  apply (tile_inference_shape_safe _ 3 image_100 7 1 3 100 100);
    [reflexivity|lia|lia|lia|lia|lia|lia|].
  intros t ph pw Ht _ _. rewrite Ht. eexists. split; reflexivity.
Defined.

(** ** The scheduler on the network *)

Lemma forallb_false {T : Type} (f : T -> bool) l :
  forallb f l = false -> exists x, In x l /\ f x = false.
Proof.
  induction l as [|x l IH]; [discriminate|]. cbn [forallb].
  destruct (f x) eqn:E.
  - intros H. destruct (IH H) as (x' & Hin & Hx'). exists x'. split; [now right|auto].
  - intros _. exists x. split; [now left|exact E].
Qed.

Lemma forallb_map_comp {T U : Type} (f : U -> bool) (g : T -> U) l :
  forallb f (map g l) = forallb (fun x => f (g x)) l.
Proof. induction l as [|x l IH]; [reflexivity|]. cbn. now rewrite IH. Qed.

Lemma process_tile_meta_err (model : MetaTensor -> result MetaTensor)
      (y output : MetaTensor) (tb : TileBounds) (scale n c h w : Z) e :
  m_shape y = [n; c; h; w] ->
  padding_ok scale h w tb ->
  model {| m_shape := [n; c; padded_height tb; padded_width tb];
           m_type := m_type y |} = Err e ->
  process_tile model y tb output = Err e.
Proof.
  intros Hy Hpad Hm.
  destruct Hpad as ((Hx1 & Hx2 & Hx3) & (Hy1 & Hy2 & Hy3) & _).
  unfold process_tile. cbn [getitem_hw MetaTensor_TensorLike fst snd].
  rewrite Hy. cbn [bind].
  rewrite !slice_len_in by lia.
  change (y_end_pad tb - y_start_pad tb) with (padded_height tb).
  change (x_end_pad tb - x_start_pad tb) with (padded_width tb).
  now rewrite Hm.
Qed.

(** The scheduler around a model with a minimum input size [lim]: windows of
    at least that size are enlarged, smaller ones raise [e]. *)
Lemma tile_inference_min_side (model : MetaTensor -> result MetaTensor)
      (s lim : Z) (e : PyError) (y : MetaTensor) (n c h w tile_size : Z) :
  m_shape y = [n; c; h; w] ->
  0 <= n -> 0 <= c -> 0 <= h -> 0 <= w -> 0 <= s -> 1 <= tile_size ->
  (forall ph pw, lim <= ph -> lim <= pw ->
     model {| m_shape := [n; c; ph; pw]; m_type := m_type y |}
     = Ok {| m_shape := [n; c; ph * s; pw * s]; m_type := m_type y |}) ->
  (forall ph pw, 1 <= ph -> 1 <= pw -> ph < lim \/ pw < lim ->
     model {| m_shape := [n; c; ph; pw]; m_type := m_type y |} = Err e) ->
  tile_inference model s y tile_size
  = if all_tiles_fit lim s h w tile_size
    then Ok {| m_shape := [n; c; h * s; w * s]; m_type := m_type y |}
    else Err e.
Proof.
  intros Hy Hn Hc Hh Hw Hs Hts Hrun Hsmall.
  destruct (ceil_div_pos w tile_size Hts Hw) as (tx & Etx & Htx0 & Htx).
  destruct (ceil_div_pos h tile_size Hts Hh) as (ty & Ety & Hty0 & Hty).
  assert (Hfit : forall p, In p (grid ty tx) ->
            tile_fits lim (tile_bounds s h w tile_size (fst p) (snd p)) = true ->
            forall output, m_shape output = [n; c; h * s; w * s] ->
              process_tile model y
                (tile_bounds s h w tile_size (fst p) (snd p)) output = Ok output).
  { intros p Hp Hf output Hout. apply in_grid in Hp.
    unfold tile_fits in Hf. apply andb_prop in Hf as [Hfh Hfw].
    apply Z.leb_le in Hfh, Hfw.
    eapply (process_tile_meta model s y output _ _ n c h w);
      try reflexivity; try lia; auto.
    apply (tile_bounds_padding s h w tile_size ty tx); lia. }
  assert (Hnofit : forall p, In p (grid ty tx) ->
            tile_fits lim (tile_bounds s h w tile_size (fst p) (snd p)) = false ->
            forall output,
              process_tile model y
                (tile_bounds s h w tile_size (fst p) (snd p)) output = Err e).
  { intros p Hp Hf output. apply in_grid in Hp.
    pose proof (tile_bounds_padding s h w tile_size ty tx (fst p) (snd p)
                  ltac:(lia) Hts Htx Hty ltac:(lia) ltac:(lia)) as Hpad.
    apply (process_tile_meta_err model y output _ s n c h w);
      [exact Hy|exact Hpad|].
    destruct Hpad as ((Hx1 & Hx2 & Hx3) & (Hy1 & Hy2 & Hy3) & _).
    unfold tile_fits in Hf. apply andb_false_iff in Hf.
    apply Hsmall.
    - unfold padded_height. lia.
    - unfold padded_width. lia.
    - destruct Hf as [Hf|Hf]; apply Z.leb_gt in Hf; [left|right]; exact Hf. }
  unfold all_tiles_fit, tile_schedule. rewrite Etx, Ety. cbn [bind].
  rewrite forallb_map_comp.
  destruct (forallb _ (grid ty tx)) eqn:Eall.
  - apply tile_inference_meta; try assumption.
    intros yi xi Hyi Hyh Hxi Hxw.
    rewrite forallb_forall in Eall.
    assert (Hp : In (yi, xi) (grid ty tx)) by (apply in_grid; cbn; nia).
    specialize (Eall _ Hp). cbn [fst snd] in Eall.
    unfold tile_fits in Eall. apply andb_prop in Eall as [Hfh Hfw].
    apply Z.leb_le in Hfh, Hfw.
    eexists. split; [apply Hrun; auto|reflexivity].
  - rewrite (@tile_inference_schedule MetaTensor MetaTensor_TensorLike model s
               y tile_size n c h w Hy).
    cbn [new_zeros MetaTensor_TensorLike existsb].
    destruct (Z.ltb_spec n 0); [lia|]. destruct (Z.ltb_spec c 0); [lia|].
    destruct (Z.ltb_spec (h * s) 0); [nia|].
    destruct (Z.ltb_spec (w * s) 0); [nia|].
    cbn [orb bind].
    unfold tile_schedule. rewrite Etx, Ety. cbn [bind].
    apply for_each_err.
    + intros tb Htb. apply in_map_iff in Htb as (p & <- & Hp).
      destruct (tile_fits lim (tile_bounds s h w tile_size (fst p) (snd p))) eqn:Ef.
      * left. now apply Hfit.
      * right. now apply Hnofit.
    + apply forallb_false in Eall as (p & Hp & Ef).
      exists (tile_bounds s h w tile_size (fst p) (snd p)).
      split; [|now apply Hnofit].
      apply in_map_iff. exists p. split; [reflexivity|exact Hp].
Qed.

(** Tiled inference with the network itself.  Every padded tile must be an
    image the network accepts, at least [4 ^ recursive] pixels high and wide:
    then the result has the shape of whole-image inference; if a single tile
    of the schedule is smaller, tiled inference raises. *)
Theorem tiled_model_outcome {P : Type} (cfg : SeemoRe.Config) (weights : P)
        (training : bool) (dev : Device) (route : Z -> Routing)
        (n h w tile_size : Z) :
  valid_config cfg -> 1 <= SeemoRe.cfg_num_layers cfg ->
  1 <= n -> 0 <= h -> 0 <= w -> 1 <= tile_size ->
  training = true \/ (n = 1 /\ valid_route (SeemoRe.cfg_num_experts cfg) route) ->
  exists m,
    SeemoRe.init cfg weights = Ok m /\
    tile_inference (run_model (SeemoRe.to (SeemoRe.train m training) dev) route)
      (SeemoRe.scale m)
      {| m_shape := [n; 3; h; w];
         m_type := {| device := dev; dtype := Float32 |} |} tile_size
    = if all_tiles_fit (4 ^ SeemoRe.cfg_recursive cfg) (SeemoRe.cfg_scale cfg)
           h w tile_size
      then Ok {| m_shape := [n; 3; h * SeemoRe.cfg_scale cfg;
                             w * SeemoRe.cfg_scale cfg];
                 m_type := {| device := dev; dtype := Float32 |} |}
      else Err (RuntimeError KernelTooLarge).
Proof.
  intros Hcfg HL Hn Hh Hw Hts Hmode.
  destruct (SeemoRe_forward_runs cfg weights Hcfg) as (m & E & Escale & Hrun).
  destruct (SeemoRe_forward_small cfg weights Hcfg HL) as (m' & E' & Hsmall).
  rewrite E in E'. inversion E'; subst m'. clear E'.
  exists m. split; [exact E|]. rewrite Escale.
  destruct Hcfg as (_ & Hs & _).
  apply tile_inference_min_side; try reflexivity; try lia.
  - intros ph pw Hph Hpw. now apply Hrun.
  - intros ph pw Hph Hpw Hlt. apply Hsmall; auto; lia.
Qed.

(** A 100x100 image through [seemore_t_x2]: tiles of 32 pixels leave a last
    column of 4 pixels, padded to 16, and the image is processed; tiles of 33
    pixels leave a last column of one pixel, padded to 13, and inference
    raises. *)
Lemma tiled_model_outcome_witness :
  exists m,
    SeemoRe.init (seemore_t_base_cfg 2) tt = Ok m /\
    tile_inference (run_model (SeemoRe.to (SeemoRe.train m true) Cpu) route0)
      (SeemoRe.scale m) image_100 32
    = Ok {| m_shape := [1; 3; 200; 200]; m_type := FloatTensor |} /\
    tile_inference (run_model (SeemoRe.to (SeemoRe.train m true) Cpu) route0)
      (SeemoRe.scale m) image_100 33
    = Err (RuntimeError KernelTooLarge).
Proof.
  destruct (tiled_model_outcome (seemore_t_base_cfg 2) tt true Cpu route0
              1 100 100 32 (seemore_t_valid 2 ltac:(lia)) ltac:(cbn; lia)
              ltac:(lia) ltac:(lia) ltac:(lia) ltac:(lia) (or_introl eq_refl))
    as (m & E & H32).
  destruct (tiled_model_outcome (seemore_t_base_cfg 2) tt true Cpu route0
              1 100 100 33 (seemore_t_valid 2 ltac:(lia)) ltac:(cbn; lia)
              ltac:(lia) ltac:(lia) ltac:(lia) ltac:(lia) (or_introl eq_refl))
    as (m' & E' & H33).
  rewrite E in E'. inversion E'; subst m'.
  exists m. split; [exact E|]. split; [exact H32|exact H33].
Defined.

(** ** Which tile sizes the network accepts *)

Lemma padded_height_inner scale h w ts yi xi :
  1 <= ts -> 0 <= yi -> (yi + 1) * ts <= h ->
  ts <= padded_height (tile_bounds scale h w ts yi xi).
Proof.
  intros Hts Hyi Hin. unfold padded_height, tile_bounds, tile_pad.
  cbn [y_end_pad y_start_pad]. nia.
Qed.

Lemma padded_width_inner scale h w ts yi xi :
  1 <= ts -> 0 <= xi -> (xi + 1) * ts <= w ->
  ts <= padded_width (tile_bounds scale h w ts yi xi).
Proof.
  intros Hts Hxi Hin. unfold padded_width, tile_bounds, tile_pad.
  cbn [x_end_pad x_start_pad]. nia.
Qed.

(** With tiles of at least the network's minimum side, on an image of at
    least that size, a tile can be too small only in the last row or the last
    column of the grid (every tile off both is large enough), and the
    bottom-right tile is the smallest of them: all padded tiles reach the
    minimum side if and only if that one tile does. *)
Theorem last_tile_decides (lim scale h w tile_size tiles_x tiles_y : Z) :
  1 <= lim <= tile_size -> lim <= h -> lim <= w ->
  ceil_div w tile_size = Ok tiles_x -> ceil_div h tile_size = Ok tiles_y ->
  (forall yi xi, 0 <= yi < tiles_y - 1 -> 0 <= xi < tiles_x - 1 ->
     tile_fits lim (tile_bounds scale h w tile_size yi xi) = true) /\
  all_tiles_fit lim scale h w tile_size
  = tile_fits lim
      (tile_bounds scale h w tile_size (tiles_y - 1) (tiles_x - 1)).
Proof.
  intros Hlim Hh Hw Etx Ety.
  destruct (ceil_div_pos w tile_size ltac:(lia) ltac:(lia))
    as (tx & Etx' & Htx0 & Htx).
  destruct (ceil_div_pos h tile_size ltac:(lia) ltac:(lia))
    as (ty & Ety' & Hty0 & Hty).
  rewrite Etx in Etx'. rewrite Ety in Ety'.
  inversion Etx'; inversion Ety'; subst tx ty. clear Etx' Ety'.
  assert (Htx1 : 1 <= tiles_x) by nia.
  assert (Hty1 : 1 <= tiles_y) by nia.
  split.
  { intros yi xi Hyi Hxi. unfold tile_fits.
    pose proof (padded_height_inner scale h w tile_size yi xi
                  ltac:(lia) ltac:(lia) ltac:(nia)).
    pose proof (padded_width_inner scale h w tile_size yi xi
                  ltac:(lia) ltac:(lia) ltac:(nia)).
    apply andb_true_intro. split; apply Z.leb_le; lia. }
  unfold all_tiles_fit, tile_schedule. rewrite Etx, Ety. cbn [bind].
  rewrite forallb_map_comp.
  apply eq_true_iff_eq. rewrite forallb_forall. split.
  - intros Hall. apply (Hall (tiles_y - 1, tiles_x - 1)).
    apply in_grid. cbn [fst snd]. lia.
  - intros Hcorner [yi xi] Hp. apply in_grid in Hp. cbn [fst snd] in Hp |- *.
    unfold tile_fits in *. apply andb_prop in Hcorner as [Hch Hcw].
    apply Z.leb_le in Hch, Hcw. apply andb_true_intro. split; apply Z.leb_le.
    + destruct (Z.eq_dec yi (tiles_y - 1)) as [->|Hne].
      * exact Hch.
      * pose proof (padded_height_inner scale h w tile_size yi xi
                      ltac:(lia) ltac:(lia) ltac:(nia)). lia.
    + destruct (Z.eq_dec xi (tiles_x - 1)) as [->|Hne].
      * exact Hcw.
      * pose proof (padded_width_inner scale h w tile_size yi xi
                      ltac:(lia) ltac:(lia) ltac:(nia)). lia.
Qed.

(** A 100x100 image in tiles of 33: the nine tiles off the last row and
    column fit, the bottom-right tile is 13 pixels wide and does not, and
    neither do the other tiles of the last row and column, such as the one
    at row 0, column 3. *)
Lemma last_tile_decides_witness :
  (forall yi xi, 0 <= yi < 3 -> 0 <= xi < 3 ->
     tile_fits 16 (tile_bounds 2 100 100 33 yi xi) = true) /\
  all_tiles_fit 16 2 100 100 33 = false /\
  padded_width (tile_bounds 2 100 100 33 3 3) = 13 /\
  tile_fits 16 (tile_bounds 2 100 100 33 0 3) = false.
Proof.
  destruct (last_tile_decides 16 2 100 100 33 4 4) as [Hin Hall];
    try lia; try reflexivity.
  split; [exact Hin|]. split; [rewrite Hall; reflexivity|].
  split; reflexivity.
Defined.

(** ** The scheduler on values *)

Section TileAssembly.
Context {A : Type}.
Variable zero : A.
Variable model : VTensor A -> result (VTensor A).

(** Tiled inference assembles the tiles correctly: if on every tile of the
    schedule the model returns, over the tile's valid region, what it returns
    there on the whole image, then tiled inference returns the whole-image
    result, for every tile size; each output pixel is taken from the tile
    that owns it, at the right offset inside that tile's output. *)
Theorem tiling_exact_when_tiles_agree (scale : Z) (y whole : VTensor A)
        (tile_size n c h w : Z) :
  dims y = (n, c, h, w) ->
  0 <= n -> 0 <= c -> 0 <= h -> 0 <= w -> 0 <= scale -> 1 <= tile_size ->
  model y = Ok whole -> dims whole = (n, c, h * scale, w * scale) ->
  (forall yi xi, 0 <= yi -> yi * tile_size < h -> 0 <= xi -> xi * tile_size < w ->
     tile_exact model scale y whole (tile_bounds scale h w tile_size yi xi)) ->
  exists r,
    tile_inference (H := VTensor_TensorLike zero) model scale y tile_size = Ok r /\
    teq r whole.
Proof.
  intros Hy Hn Hc Hh Hw Hs Hts Hm Hwhole Hex.
  rewrite (@tile_inference_schedule (VTensor A) (VTensor_TensorLike zero) model
             scale y tile_size n c h w) by (cbn; now rewrite Hy).
  cbn [new_zeros VTensor_TensorLike]. unfold v_new_zeros. cbn [existsb].
  destruct (Z.ltb_spec n 0); [lia|]. destruct (Z.ltb_spec c 0); [lia|].
  destruct (Z.ltb_spec (h * scale) 0); [nia|].
  destruct (Z.ltb_spec (w * scale) 0); [nia|].
  cbn [orb bind].
  destruct (ceil_div_pos w tile_size Hts Hw) as (tx & Etx & Htx0 & Htx).
  destruct (ceil_div_pos h tile_size Hts Hh) as (ty & Ety & Hty0 & Hty).
  unfold tile_schedule. rewrite Etx, Ety. cbn [bind].
  destruct (for_each_tiles_value zero model scale y whole n c h w
              (map (fun p => tile_bounds scale h w tile_size (fst p) (snd p))
                   (grid ty tx))
              {| dims := (n, c, h * scale, w * scale);
                 at4 := fun _ _ _ _ => zero |}
              (fun _ _ => False) Hy Hs) as (r & Er & Hdr & Hr).
  - intros tb Htb. apply in_map_iff in Htb as (p & <- & Hp). apply in_grid in Hp.
    split; [apply (tile_bounds_padding scale h w tile_size ty tx); lia|].
    repeat (split; [reflexivity|]). apply Hex; nia.
  - reflexivity.
  - intros b ch oy ox _ [].
  - exists r. split; [exact Er|]. split; [now rewrite Hdr, Hwhole|].
    intros b ch oy ox Hin. rewrite Hdr in Hin. apply Hr; [exact Hin|].
    right. destruct Hin as (_ & _ & Hoy & Hox).
    destruct (axis_partition scale h tile_size ty oy Hts Hh Hty Hoy)
      as (yi & Hyi & Hyw & _).
    destruct (axis_partition scale w tile_size tx ox Hts Hw Htx Hox)
      as (xi & Hxi & Hxw & _).
    exists (tile_bounds scale h w tile_size yi xi). split.
    + apply in_map_iff. exists (yi, xi). split; [reflexivity|].
      apply in_grid. cbn [fst snd]. lia.
    + unfold writes, tile_bounds. cbn. lia.
Qed.
End TileAssembly.

(** Nearest-neighbour enlargement looks at one source pixel per output
    pixel, so each of its tiles agrees with the whole image. *)
Lemma nearest_upscale_tile_exact (scale : Z) (y whole : VTensor Z)
      (tile_size n c h w yi xi : Z) :
  dims y = (n, c, h, w) -> 1 <= scale -> 1 <= tile_size ->
  0 <= yi -> yi * tile_size < h -> 0 <= xi -> xi * tile_size < w ->
  nearest_upscale scale y = Ok whole ->
  tile_exact (nearest_upscale scale) scale y whole
    (tile_bounds scale h w tile_size yi xi).
Proof.
  intros Hy Hs Hts Hyi Hyh Hxi Hxw Hwhole.
  unfold nearest_upscale in Hwhole. rewrite Hy in Hwhole.
  inversion Hwhole; subst whole. clear Hwhole.
  unfold tile_exact. rewrite Hy.
  set (tb := tile_bounds scale h w tile_size yi xi).
  assert (Hpy : 0 <= y_start_pad tb <= y_end_pad tb /\ y_end_pad tb <= h)
    by (subst tb; unfold tile_bounds, tile_pad; cbn; nia).
  assert (Hpx : 0 <= x_start_pad tb <= x_end_pad tb /\ x_end_pad tb <= w)
    by (subst tb; unfold tile_bounds, tile_pad; cbn; nia).
  assert (Evy : out_y_start_valid tb - out_y_start tb = - y_start_pad tb * scale)
    by (subst tb; unfold tile_bounds, tile_pad; cbn; nia).
  assert (Evx : out_x_start_valid tb - out_x_start tb = - x_start_pad tb * scale)
    by (subst tb; unfold tile_bounds, tile_pad; cbn; nia).
  eexists. eexists. split.
  { unfold v_getitem_hw. rewrite Hy. reflexivity. }
  split.
  { unfold nearest_upscale. cbn [dims]. reflexivity. }
  cbn [dims at4 fst snd]. split.
  { unfold padded_height, padded_width. now rewrite !slice_len_in by lia. }
  intros b ch oy ox _ _ _.
  rewrite !norm_index_le by lia.
  replace (out_y_start_valid tb + (oy - out_y_start tb))
    with (oy + - y_start_pad tb * scale) by lia.
  replace (out_x_start_valid tb + (ox - out_x_start tb))
    with (ox + - x_start_pad tb * scale) by lia.
  rewrite !Z.div_add by lia. f_equal; lia.
Qed.

(** A 2x3 image enlarged twice, in six tiles of one pixel. *)
Lemma tiling_exact_when_tiles_agree_witness :
  exists r out,
    nearest_upscale 2 tiny_image = Ok out /\
    tile_inference (H := VTensor_TensorLike 0) (nearest_upscale 2) 2
      tiny_image 1 = Ok r /\
    teq r out.
Proof.
  destruct (tiling_exact_when_tiles_agree 0 (nearest_upscale 2) 2 tiny_image
              {| dims := (1, 1, 4, 6);
                 at4 := fun b ch i j => at4 tiny_image b ch (i / 2) (j / 2) |}
              1 1 1 2 3 eq_refl ltac:(lia) ltac:(lia) ltac:(lia) ltac:(lia)
              ltac:(lia) ltac:(lia) eq_refl eq_refl)
    as (r & Er & Hr).
  - intros yi xi Hyi Hyh Hxi Hxw.
    apply (nearest_upscale_tile_exact 2 tiny_image _ 1 1 1 2 3 yi xi);
      try lia; reflexivity.
  - eexists. eexists. split; [reflexivity|]. split; [exact Er|exact Hr].
Defined.

(** ** The upscaler *)

Lemma seemore_b_valid scale : 1 <= scale -> valid_config (seemore_b_base_cfg scale).
Proof.
  intros Hs. unfold valid_config, valid_lr_space. cbn.
  repeat split; try lia; auto.
Qed.

Lemma seemore_model_cfgs_table :
  seemore_model_cfgs
  = [("seemore_b_x2"%string, seemore_b_base_cfg 2);
     ("seemore_b_x3"%string, seemore_b_base_cfg 3);
     ("seemore_b_x4"%string, seemore_b_base_cfg 4);
     ("seemore_t_x2"%string, seemore_t_base_cfg 2);
     ("seemore_t_x3"%string, seemore_t_base_cfg 3);
     ("seemore_t_x4"%string, seemore_t_base_cfg 4)].
Proof. reflexivity. Qed.

Lemma lookup_cfg_None name cfgs :
  lookup_cfg name cfgs = None <-> ~ In name (map fst cfgs).
Proof.
  induction cfgs as [|[n c] cfgs IH]; cbn [lookup_cfg map fst In].
  - split; [intros _ []|reflexivity].
  - destruct (String.eqb_spec n name) as [->|Hne].
    + split; [discriminate|]. intros H. exfalso. apply H. now left.
    + rewrite IH. split.
      * intros H [E|Hin]; [contradiction|]. now apply H.
      * intros H Hin. apply H. now right.
Qed.

Lemma lookup_cfg_In name cfgs cfg :
  lookup_cfg name cfgs = Some cfg -> In (name, cfg) cfgs.
Proof.
  induction cfgs as [|[n c] cfgs IH]; cbn [lookup_cfg]; [discriminate|].
  destruct (String.eqb_spec n name) as [->|Hne].
  - intros E. inversion E; subst. now left.
  - intros E. right. now apply IH.
Qed.

(** Every configuration of the table is valid, has layers, calibrates twice
    and enlarges two, three or four times. *)
Lemma lookup_named name cfg :
  lookup_cfg name seemore_model_cfgs = Some cfg ->
  valid_config cfg /\ 1 <= SeemoRe.cfg_num_layers cfg /\
  SeemoRe.cfg_recursive cfg = 2 /\ 2 <= SeemoRe.cfg_scale cfg <= 4.
Proof.
  intros E. apply lookup_cfg_In in E. rewrite seemore_model_cfgs_table in E.
  cbn [In] in E.
  repeat (destruct E as [E|E];
          [inversion E; subst;
           (split; [first [apply seemore_b_valid|apply seemore_t_valid]; lia|]);
           cbn; lia|]).
  destruct E.
Qed.

Lemma init_weights_irrelevant {P : Type} (cfg : SeemoRe.Config) (a b : P) m :
  SeemoRe.init cfg a = Ok m -> SeemoRe.init cfg b = Ok (load_state_dict m b).
Proof.
  unfold SeemoRe.init.
  destruct (Conv2d.init _ _ _ _ _ _); cbn [bind]; [|discriminate].
  destruct (mapM _ _); cbn [bind]; [|discriminate].
  destruct (LayerNorm.init _); cbn [bind]; [|discriminate].
  destruct (Conv2d.init _ _ _ _ _ _); cbn [bind]; [|discriminate].
  destruct (Conv2d.init _ _ _ _ _ _); cbn [bind]; [|discriminate].
  intros E. inversion E; subst. reflexivity.
Qed.

Lemma to_train_true {P : Type} (m : SeemoRe.t P) dev :
  SeemoRe.training m = true ->
  SeemoRe.to (SeemoRe.train m true) dev = SeemoRe.to m dev.
Proof. destruct m. cbn. intros ->. reflexivity. Qed.

Section UpscalerLemmas.
Context {P : Type}.
Variable fresh : P.
Variable load_params : string -> result P.

Lemma upscaler_init_inv name dev u :
  SeemoReUpscaler.init fresh load_params name dev = Ok u ->
  exists cfg m p,
    lookup_cfg name seemore_model_cfgs = Some cfg /\
    SeemoRe.init cfg fresh = Ok m /\ load_params ""%string = Ok p /\
    u = SeemoReUpscaler.mk (SeemoRe.to (load_state_dict m p) dev) dev.
Proof.
  unfold SeemoReUpscaler.init.
  destruct (lookup_cfg name seemore_model_cfgs) as [cfg|]; [|discriminate].
  destruct (SeemoRe.init cfg fresh) as [m|] eqn:Em; cbn [bind]; [|discriminate].
  destruct (load_params ""%string) as [p|] eqn:Ep; cbn [bind]; [|discriminate].
  intros E. inversion E. exists cfg, m, p. auto.
Qed.

(** The model an upscaler holds: it enlarges images of 16 pixels and more on
    each side and raises on smaller ones. *)
Lemma upscaler_model name dev u :
  SeemoReUpscaler.init fresh load_params name dev = Ok u ->
  SeemoReUpscaler.device u = dev /\
  2 <= SeemoRe.scale (SeemoReUpscaler.model u) <= 4 /\
  (forall route h w, 16 <= h -> 16 <= w ->
     run_model (SeemoReUpscaler.model u) route
       {| m_shape := [1; 3; h; w]; m_type := float_on dev |}
     = Ok {| m_shape := [1; 3; h * SeemoRe.scale (SeemoReUpscaler.model u);
                         w * SeemoRe.scale (SeemoReUpscaler.model u)];
             m_type := float_on dev |}) /\
  (forall route h w, 0 <= h -> 0 <= w -> h < 16 \/ w < 16 ->
     run_model (SeemoReUpscaler.model u) route
       {| m_shape := [1; 3; h; w]; m_type := float_on dev |}
     = Err (RuntimeError KernelTooLarge)).
Proof.
  intros Einit.
  destruct (upscaler_init_inv name dev u Einit) as (cfg & m & p & El & Em & Ep & ->).
  destruct (lookup_named name cfg El) as (Hcfg & HL & Hrec & Hscale).
  pose proof (init_weights_irrelevant cfg fresh p m Em) as Em2.
  destruct (SeemoRe_init_fields cfg p _ Em2) as (Es & _ & _ & _ & Etr & _).
  destruct (SeemoRe_forward_runs cfg p Hcfg) as (m1 & E1 & _ & Hrun).
  destruct (SeemoRe_forward_small cfg p Hcfg HL) as (m2 & E2 & Hsmall).
  rewrite Em2 in E1, E2. inversion E1; subst m1. inversion E2; subst m2.
  clear E1 E2. cbn [SeemoReUpscaler.model SeemoReUpscaler.device].
  change (SeemoRe.scale (SeemoRe.to (load_state_dict m p) dev))
    with (SeemoRe.scale (load_state_dict m p)).
  rewrite Es. rewrite Hrec in Hrun, Hsmall. change (4 ^ 2) with 16 in Hrun, Hsmall.
  split; [reflexivity|]. split; [exact Hscale|]. split.
  - intros route h w Hh Hw.
    rewrite <- (to_train_true (load_state_dict m p) dev Etr).
    apply Hrun; auto; lia.
  - intros route h w Hh Hw Hlt.
    rewrite <- (to_train_true (load_state_dict m p) dev Etr).
    apply Hsmall; auto; lia.
Qed.
End UpscalerLemmas.

(** The constructor accepts the six names [seemore_{b,t}_x{2,3,4}] and no
    other: an unknown name raises [ValueError] before anything is built or
    read.  For a known name the network is built, the checkpoint is read from
    the path given in the source (the empty string) and its failure is the
    constructor's; on success the parameters are the loaded ones, moved to
    the device, the scale is the configured one, the mean stays a CPU tensor,
    and the model is left in training mode: no call of [eval()] follows. *)
Theorem upscaler_construction {P : Type} (fresh : P)
        (load_params : string -> result P) (name : string) (dev : Device) :
  (~ In name model_names ->
   SeemoReUpscaler.init fresh load_params name dev = Err ValueError) /\
  (In name model_names ->
   exists cfg,
     lookup_cfg name seemore_model_cfgs = Some cfg /\
     (forall e, load_params ""%string = Err e ->
        SeemoReUpscaler.init fresh load_params name dev = Err e) /\
     (forall p, load_params ""%string = Ok p ->
        exists u,
          SeemoReUpscaler.init fresh load_params name dev = Ok u /\
          SeemoReUpscaler.device u = dev /\
          SeemoRe.scale (SeemoReUpscaler.model u) = SeemoRe.cfg_scale cfg /\
          SeemoRe.params (SeemoReUpscaler.model u) = p /\
          SeemoRe.param_type (SeemoReUpscaler.model u) = float_on dev /\
          SeemoRe.mean (SeemoReUpscaler.model u)
            = {| m_shape := [1; 3; 1; 1]; m_type := FloatTensor |} /\
          SeemoRe.training (SeemoReUpscaler.model u) = true)).
Proof.
  split.
  - intros Hname. unfold SeemoReUpscaler.init.
    assert (E : lookup_cfg name seemore_model_cfgs = None).
    { apply lookup_cfg_None. rewrite seemore_model_cfgs_table. exact Hname. }
    now rewrite E.
  - intros Hname.
    destruct (lookup_cfg name seemore_model_cfgs) as [cfg|] eqn:El.
    2:{ apply lookup_cfg_None in El. rewrite seemore_model_cfgs_table in El.
        contradiction. }
    exists cfg. split; [reflexivity|].
    destruct (lookup_named name cfg El) as (Hcfg & _).
    destruct (SeemoRe_forward_runs cfg fresh Hcfg) as (m & Em & _).
    destruct (SeemoRe_init_fields cfg fresh m Em)
      as (Es & _ & _ & Emean & Etr & Ept & _).
    unfold SeemoReUpscaler.init. rewrite El, Em. cbn [bind]. split.
    + intros e ->. reflexivity.
    + intros p ->. cbn [bind]. eexists. split; [reflexivity|].
      cbn [SeemoReUpscaler.model SeemoReUpscaler.device SeemoRe.to
           load_state_dict SeemoRe.scale SeemoRe.params SeemoRe.param_type
           SeemoRe.mean SeemoRe.training dtype].
      rewrite Ept. repeat split; auto.
Qed.

Section UpscalerCall.
Context {P : Type}.
Variable fresh : P.
Variable load_params : string -> result P.
Variable route : Z -> Routing.

(** The tensor handed to the model, whole or in tiles, comes back enlarged. *)
Lemma upscaler_dispatch name dev u h w tile_size :
  SeemoReUpscaler.init fresh load_params name dev = Ok u ->
  16 <= h -> 16 <= w ->
  tile_size <= 0
  \/ all_tiles_fit 16 (SeemoRe.scale (SeemoReUpscaler.model u)) h w tile_size
     = true ->
  call_dispatch (run_model (SeemoReUpscaler.model u) route)
    (SeemoRe.scale (SeemoReUpscaler.model u))
    {| m_shape := [1; 3; h; w]; m_type := float_on (SeemoReUpscaler.device u) |}
    tile_size
  = Ok {| m_shape := [1; 3; h * SeemoRe.scale (SeemoReUpscaler.model u);
                      w * SeemoRe.scale (SeemoReUpscaler.model u)];
          m_type := float_on (SeemoReUpscaler.device u) |}.
Proof.
  intros Einit Hh Hw Htile.
  destruct (upscaler_model fresh load_params name dev u Einit)
    as (-> & Hs & Hrun & Hsmall).
  unfold call_dispatch. destruct (Z.ltb_spec 0 tile_size) as [Hpos|Hnp].
  - destruct Htile as [Hle|Hfit]; [lia|].
    rewrite (tile_inference_min_side
               (run_model (SeemoReUpscaler.model u) route)
               (SeemoRe.scale (SeemoReUpscaler.model u)) 16
               (RuntimeError KernelTooLarge)
               {| m_shape := [1; 3; h; w]; m_type := float_on dev |}
               1 3 h w tile_size eq_refl); try lia.
    + cbn [m_type]. now rewrite Hfit.
    + intros ph pw Hph Hpw. cbn [m_type]. now apply Hrun.
    + intros ph pw Hph Hpw Hlt. cbn [m_type]. apply Hsmall; auto; lia.
  - now apply Hrun.
Qed.

End UpscalerCall.


Lemma forallb_false_intro {T : Type} (f : T -> bool) l x :
  In x l -> f x = false -> forallb f l = false.
Proof.
  intros Hin Hf. destruct (forallb f l) eqn:E; [|reflexivity].
  rewrite forallb_forall in E. rewrite (E x Hin) in Hf. discriminate.
Qed.

(** An image with a side below the minimum has no tile that reaches it. *)
Lemma small_image_no_fit lim scale h w tile_size :
  1 <= h -> 1 <= w -> 1 <= tile_size -> h < lim \/ w < lim ->
  all_tiles_fit lim scale h w tile_size = false.
Proof.
  intros Hh Hw Hts Hlt.
  destruct (ceil_div_pos w tile_size Hts ltac:(lia)) as (tx & Etx & Htx0 & Htx).
  destruct (ceil_div_pos h tile_size Hts ltac:(lia)) as (ty & Ety & Hty0 & Hty).
  unfold all_tiles_fit, tile_schedule. rewrite Etx, Ety. cbn [bind].
  rewrite forallb_map_comp.
  apply (forallb_false_intro _ _ (0, 0)).
  - apply in_grid. cbn [fst snd]. nia.
  - cbn [fst snd]. unfold tile_fits. apply andb_false_iff.
    unfold padded_height, padded_width, tile_bounds, tile_pad.
    cbn [y_end_pad y_start_pad x_end_pad x_start_pad].
    destruct Hlt; [left|right]; apply Z.leb_gt; lia.
Qed.

Section UpscalerRejects.
Context {P : Type}.
Variable fresh : P.
Variable load_params : string -> result P.
Variable route : Z -> Routing.

(** What [__call__] refuses.  An array of fewer than two dimensions fails
    at the unpacking of its shape; three-dimensional arrays with a channel
    count other than 1, 3 and 4 and empty images are refused by the first
    colour conversion, before the model is run; and an image of a supported
    layout with a side of fewer than 16 pixels makes the model raise,
    whatever the tile size. *)
Theorem call_rejections (name : string) (dev : Device)
        (u : SeemoReUpscaler.t P) (tile_size scale : Z) :
  SeemoReUpscaler.init fresh load_params name dev = Ok u ->
  (forall np_img, (List.length np_img < 2)%nat ->
     SeemoReUpscaler.call route u np_img tile_size scale = Raised ValueError) /\
  (forall h w c, c <> 1 -> c <> 3 -> c <> 4 ->
     SeemoReUpscaler.call route u [h; w; c] tile_size scale = Cv2Error) /\
  (forall np_img h w, supported_image np_img h w -> h <= 0 \/ w <= 0 ->
     SeemoReUpscaler.call route u np_img tile_size scale = Cv2Error) /\
  (forall np_img h w, supported_image np_img h w ->
     1 <= h -> 1 <= w -> h < 16 \/ w < 16 ->
     SeemoReUpscaler.call route u np_img tile_size scale
     = Raised (RuntimeError KernelTooLarge)).
Proof.
  intros Einit.
  destruct (upscaler_model fresh load_params name dev u Einit)
    as (Edev & Hs & Hrun & Hsmall).
  split; [|split; [|split]].
  - intros [|a [|b l]] Hlen; cbn [List.length] in Hlen; try lia; reflexivity.
  - intros h w c H1 H3 H4. unfold SeemoReUpscaler.call.
    cbn [SeemoReUpscaler.image_mode].
    destruct (Z.eqb_spec c 1); [contradiction|].
    destruct (Z.eqb_spec c 4); [contradiction|].
    unfold cvtColor. cbn [cv_channels cv_accepts].
    destruct (Z.eqb_spec c 3); [contradiction|].
    destruct (Z.eqb_spec c 4); [contradiction|].
    cbn [orb]. destruct (cv_empty [h; w; c]); reflexivity.
  - intros np_img h w Himg Hempty.
    assert (E0 : (h <=? 0) || (w <=? 0) = true).
    { apply orb_true_iff. destruct Hempty; [left|right]; now apply Z.leb_le. }
    unfold SeemoReUpscaler.call.
    destruct Himg as [->|[->|[->| ->]]];
      cbn [SeemoReUpscaler.image_mode Z.eqb Pos.eqb];
      unfold cvtColor; cbn [cv_channels cv_empty]; rewrite E0; reflexivity.
  - intros np_img h w Himg Hh Hw Hlt.
    assert (Eh0 : (h <=? 0) = false) by (apply Z.leb_gt; lia).
    assert (Ew0 : (w <=? 0) = false) by (apply Z.leb_gt; lia).
    assert (Hd : call_dispatch (run_model (SeemoReUpscaler.model u) route)
                   (SeemoRe.scale (SeemoReUpscaler.model u))
                   {| m_shape := [1; 3; h; w];
                      m_type := float_on (SeemoReUpscaler.device u) |} tile_size
                 = Err (RuntimeError KernelTooLarge)).
    { rewrite Edev. unfold call_dispatch.
      destruct (Z.ltb_spec 0 tile_size) as [Hpos|Hnp].
      - rewrite (tile_inference_min_side
                   (run_model (SeemoReUpscaler.model u) route)
                   (SeemoRe.scale (SeemoReUpscaler.model u)) 16
                   (RuntimeError KernelTooLarge)
                   {| m_shape := [1; 3; h; w]; m_type := float_on dev |}
                   1 3 h w tile_size eq_refl); try lia.
        + now rewrite small_image_no_fit by (auto; lia).
        + intros ph pw Hph Hpw. cbn [m_type]. now apply Hrun.
        + intros ph pw Hph Hpw Hlt'. cbn [m_type]. apply Hsmall; auto; lia.
      - apply Hsmall; auto; lia. }
    unfold SeemoReUpscaler.call.
    destruct Himg as [->|[->|[->| ->]]];
      cbn [SeemoReUpscaler.image_mode Z.eqb Pos.eqb];
      unfold cvtColor at 1; cbn [cv_channels cv_empty cv_accepts cv_dst_channels
                                 Z.eqb Pos.eqb orb];
      rewrite Eh0, Ew0; cbn [orb obind permute_201_unsqueeze of_result];
      rewrite Hd; reflexivity.
Qed.
End UpscalerRejects.

Lemma call_rejections_witness :
  exists u,
    SeemoReUpscaler.init tt (fun _ => Ok tt) "seemore_b_x4" Cuda = Ok u /\
    SeemoReUpscaler.call route0 u [100] 0 0 = Raised ValueError /\
    SeemoReUpscaler.call route0 u [100; 100; 2] 0 0 = Cv2Error /\
    SeemoReUpscaler.call route0 u [0; 100; 3] 0 0 = Cv2Error /\
    SeemoReUpscaler.call route0 u [15; 100; 3] 0 0
    = Raised (RuntimeError KernelTooLarge).
Proof.
  destruct (SeemoReUpscaler.init tt (fun _ => Ok tt) "seemore_b_x4" Cuda)
    as [u|] eqn:E; [|vm_compute in E; discriminate].
  exists u. split; [reflexivity|].
  destruct (call_rejections tt (fun _ => Ok tt) route0 "seemore_b_x4" Cuda u
              0 0 E) as (H1 & H2 & H3 & H4).
  split; [apply H1; cbn; lia|].
  split; [apply H2; lia|].
  split; [apply (H3 _ 0 100); [right; right; left; reflexivity|lia]|].
  apply (H4 _ 15 100); [right; right; left; reflexivity|lia|lia|lia].
Defined.

(** ** The MoE layer as a mixture of experts *)

Section Mixture.
Local Open Scope R_scope.

Lemma selected_pairs_facts (m : VMoELayer.t) (inputs : VTensor R) (b : Z) :
  (0 <= VMoELayer.num_expert m <= VRouter.num_experts (VMoELayer.gate m))%Z ->
  List.length (selected_pairs m inputs b) = Z.to_nat (VMoELayer.num_expert m) /\
  NoDup (map snd (selected_pairs m inputs b)) /\
  forall p, In p (selected_pairs m inputs b) ->
    (0 <= snd p < VRouter.num_experts (VMoELayer.gate m))%Z /\
    fst p = getcol (gate_row m inputs b) (snd p) /\ 0 < fst p.
Proof.
  intros Hk. unfold selected_pairs.
  set (row := gate_row m inputs b).
  set (kk := Z.to_nat (VMoELayer.num_expert m)).
  assert (Hlen : List.length row = Z.to_nat (VRouter.num_experts (VMoELayer.gate m)))
    by apply gate_row_length.
  destruct (topk_sel_perm kk (indexed row) (indexed_NoDup row)) as (rest & Hp).
  split; [|split].
  - apply topk_sel_length; [apply indexed_NoDup|].
    rewrite indexed_length, Hlen. subst kk. lia.
  - pose proof (indexed_NoDup row) as Hnd.
    apply (Permutation_map snd) in Hp. rewrite map_app in Hp.
    apply (Permutation_NoDup Hp) in Hnd. now apply NoDup_app_remove_r in Hnd.
  - intros [v idx] Hin.
    assert (Hin' : In (v, idx) (indexed row)).
    { apply (Permutation_in _ (Permutation_sym Hp)). apply in_or_app. now left. }
    apply indexed_In in Hin' as [Hidx Hv]. cbn [fst snd].
    split; [lia|]. split; [now symmetry|].
    rewrite <- Hv. apply (softmax_pos (VRouter.logits (VMoELayer.gate m) inputs b)).
    fold (gate_row m inputs b). fold row. unfold getcol.
    apply nth_In. lia.
Qed.

Lemma training_mixture d (m : VMoELayer.t) (inputs k : VTensor R) n h w :
  VMoELayer_ok d m ->
  dims inputs = (n, d, h, w) -> dims k = (n, d, h, w) ->
  (0 <= n)%Z -> (1 <= d)%Z -> (1 <= h)%Z -> (1 <= w)%Z ->
  (0 <= VMoELayer.num_expert m <= VRouter.num_experts (VMoELayer.gate m))%Z ->
  exists out,
    VMoELayer.forward m true inputs k = Ok out /\
    dims out = (n, d, h, w) /\
    forall b c y x, in_dims (n, d, h, w) b c y x ->
      at4 out b c y x = at4 inputs b c y x + mixture m inputs k b c y x.
Proof.
  intros Hok Hi Hk Hn Hd Hh Hw Hkk.
  destruct (forward_training_spec d m inputs k n h w Hok Hi Hk Hn Hd Hh Hw Hkk)
    as (out & E & Hdo & Hv).
  exists out. split; [exact E|]. split; [exact Hdo|].
  intros b c y x Hpos. rewrite (Hv b c y x Hpos). f_equal.
  rewrite wsum_range.
  destruct Hok as (_ & _ & HN).
  replace (Z.of_nat (List.length (VMoELayer.experts m)))
    with (Z.of_nat (List.length (gate_row m inputs b)))
    by (rewrite gate_row_length, HN; lia).
  apply (dense_sum_is_sparse_sum
           (at_index (VMoELayer.experts m)
              (fun e => expert_val e inputs k b c y x))).
Qed.



(** With [num_expert = 0] nothing is selected and the layer returns its
    input: in training mode for any batch, in evaluation mode for the batch
    of one it accepts. *)
Theorem moe_topk_zero_is_identity d (m : VMoELayer.t)
        (inputs k : VTensor R) n h w :
  VMoELayer_ok d m ->
  dims inputs = (n, d, h, w) -> dims k = (n, d, h, w) ->
  (0 <= n)%Z -> (1 <= d)%Z -> (1 <= h)%Z -> (1 <= w)%Z ->
  VMoELayer.num_expert m = 0%Z ->
  (exists out, VMoELayer.forward m true inputs k = Ok out /\ teq out inputs) /\
  (n = 1%Z ->
   exists out, VMoELayer.forward m false inputs k = Ok out /\ teq out inputs).
Proof.
  intros Hok Hi Hk Hn Hd Hh Hw Hk0.
  assert (Hkk : (0 <= VMoELayer.num_expert m
                 <= VRouter.num_experts (VMoELayer.gate m))%Z).
  { destruct Hok as (_ & _ & ->). lia. }
  assert (Hmix : forall b c y x, mixture m inputs k b c y x = 0).
  { intros. unfold mixture, selected_pairs. rewrite Hk0. reflexivity. }
  split.
  - destruct (training_mixture d m inputs k n h w Hok Hi Hk Hn Hd Hh Hw Hkk)
      as (out & E & Hdo & Hv).
    exists out. split; [exact E|]. split; [now rewrite Hdo, Hi|].
    rewrite Hdo. intros b c y x Hpos. rewrite (Hv b c y x Hpos), Hmix. lra.
  - intros ->.
    destruct (forward_inference_spec d m inputs k h w Hok Hi Hk Hd Hh Hw Hkk)
      as (out & E & Hdo & Hv).
    exists out. split; [exact E|]. split; [now rewrite Hdo, Hi|].
    rewrite Hdo. intros b c y x Hpos. rewrite (Hv b c y x Hpos).
    rewrite Hk0. cbn [Z.to_nat topk_sel map rsum fold_right]. lra.
Qed.

Lemma moe_topk_zero_is_identity_witness :
  (exists out, VMoELayer.forward (demo_layer 0) true demo_batch demo_batch = Ok out
               /\ teq out demo_batch) /\
  (exists out, VMoELayer.forward (demo_layer 0) false demo_input demo_input = Ok out
               /\ teq out demo_input).
Proof.
  split.
  - exact (proj1 (moe_topk_zero_is_identity 2 (demo_layer 0) demo_batch
                    demo_batch 2 1 2 (demo_layer_ok 0) eq_refl eq_refl
                    ltac:(lia) ltac:(lia) ltac:(lia) ltac:(lia) eq_refl)).
  - exact (proj2 (moe_topk_zero_is_identity 2 (demo_layer 0) demo_input
                    demo_input 1 1 2 (demo_layer_ok 0) eq_refl eq_refl
                    ltac:(lia) ltac:(lia) ltac:(lia) ltac:(lia) eq_refl)
                 eq_refl).
Defined.
End Mixture.

(** ** Experts work pixel by pixel *)

Section ExpertPixels.
Local Open Scope R_scope.

Lemma sum_range_ext n (f g : Z -> R) :
  (forall i, (0 <= i < n)%Z -> f i = g i) -> sum_range n f = sum_range n g.
Proof.
  intros H. unfold sum_range. f_equal. apply map_ext_in.
  intros i Hi. apply in_range in Hi. now apply H.
Qed.

(** The output of an expert at a pixel is a function of the two inputs at
    that pixel. *)
Lemma expert_pixelwise d (e : VExpert.t) (x k : VTensor R) n h w :
  VExpert_shaped d e ->
  dims x = (n, d, h, w) -> dims k = (n, d, h, w) -> (1 <= h)%Z -> (1 <= w)%Z ->
  exists y,
    VExpert.forward e x k = Ok y /\ dims y = (n, d, h, w) /\
    forall b c i j, in_dims (n, d, h, w) b c i j ->
      at4 y b c i j
      = expert_pixel e (fun ci => at4 x b ci i j) (fun ci => at4 k b ci i j) c.
Proof.
  intros (E1 & E2 & E3 & E4 & E5) Hx Hk Hh Hw. unfold VExpert.forward.
  rewrite (VConv_forward_ok _ x n h w) by (rewrite ?E1; assumption).
  cbn [bind].
  rewrite (VConv_forward_ok _ k n h w) by (rewrite ?E2; assumption).
  cbn [bind]. unfold vmul, vbinop. cbn [dims]. rewrite E3.
  rewrite broadcast_dims_same. cbn [bind].
  rewrite (VConv_forward_ok _ _ n h w) by (cbn [dims]; rewrite ?E4; auto).
  eexists. split; [reflexivity|]. cbn [dims at4]. split; [now rewrite E5|].
  intros b c i j (Hb & Hc & Hi & Hj). unfold expert_pixel. f_equal.
  apply sum_range_ext. intros q Hq. rewrite E4 in Hq.
  now rewrite !(bidx_in n b), !(bidx_in _ q), !(bidx_in h i), !(bidx_in w j)
    by assumption.
Qed.

(** Experts commute with cropping: running an expert on a window of its two
    inputs gives the same window of its output on the whole inputs.  An
    expert alone would therefore be exact under tiling. *)
Theorem expert_commutes_with_crop d (e : VExpert.t) (x k : VTensor R)
        n h w (ys xs : slice) :
  VExpert_shaped d e ->
  dims x = (n, d, h, w) -> dims k = (n, d, h, w) ->
  (0 <= fst ys < snd ys)%Z -> (snd ys <= h)%Z ->
  (0 <= fst xs < snd xs)%Z -> (snd xs <= w)%Z ->
  exists y x_crop k_crop y_of_crop crop_of_y,
    VExpert.forward e x k = Ok y /\
    v_getitem_hw x ys xs = Ok x_crop /\ v_getitem_hw k ys xs = Ok k_crop /\
    VExpert.forward e x_crop k_crop = Ok y_of_crop /\
    v_getitem_hw y ys xs = Ok crop_of_y /\
    teq y_of_crop crop_of_y.
Proof.
  intros He Hx Hk Hys Hyh Hxs Hxw.
  destruct (expert_pixelwise d e x k n h w He Hx Hk ltac:(lia) ltac:(lia))
    as (y & Ey & Hdy & Hy).
  set (lh := (snd ys - fst ys)%Z). set (lw := (snd xs - fst xs)%Z).
  assert (Elh : slice_len (fst ys) (snd ys) h = lh)
    by (apply slice_len_in; lia).
  assert (Elw : slice_len (fst xs) (snd xs) w = lw)
    by (apply slice_len_in; lia).
  assert (Eny : norm_index (fst ys) h = fst ys) by (apply norm_index_le; lia).
  assert (Enx : norm_index (fst xs) w = fst xs) by (apply norm_index_le; lia).
  set (xc := {| dims := (n, d, lh, lw);
                at4 := fun b ch i j => at4 x b ch (fst ys + i)%Z (fst xs + j)%Z |}).
  set (kc := {| dims := (n, d, lh, lw);
                at4 := fun b ch i j => at4 k b ch (fst ys + i)%Z (fst xs + j)%Z |}).
  destruct (expert_pixelwise d e xc kc n lh lw He eq_refl eq_refl
              ltac:(subst lh; lia) ltac:(subst lw; lia))
    as (yc & Eyc & Hdyc & Hyc).
  exists y, xc, kc, yc.
  exists {| dims := (n, d, lh, lw);
            at4 := fun b ch i j => at4 y b ch (fst ys + i)%Z (fst xs + j)%Z |}.
  split; [exact Ey|].
  split; [unfold v_getitem_hw; now rewrite Hx, Elh, Elw, Eny, Enx|].
  split; [unfold v_getitem_hw; now rewrite Hk, Elh, Elw, Eny, Enx|].
  split; [exact Eyc|].
  split; [unfold v_getitem_hw; now rewrite Hdy, Elh, Elw, Eny, Enx|].
  split; [cbn [dims]; exact Hdyc|].
  rewrite Hdyc. intros b c i j Hpos. rewrite (Hyc b c i j Hpos).
  cbn [at4]. destruct Hpos as (Hb & Hc & Hi & Hj).
  rewrite Hy by (repeat split; subst lh lw; lia). reflexivity.
Qed.

Lemma expert_commutes_with_crop_witness :
  exists y x_crop y_of_crop crop_of_y,
    VExpert.forward (demo_expert 4) demo_input demo_input = Ok y /\
    v_getitem_hw demo_input (0, 1)%Z (1, 2)%Z = Ok x_crop /\
    VExpert.forward (demo_expert 4) x_crop x_crop = Ok y_of_crop /\
    v_getitem_hw y (0, 1)%Z (1, 2)%Z = Ok crop_of_y /\
    teq y_of_crop crop_of_y.
Proof.
  destruct (expert_commutes_with_crop 2 (demo_expert 4) demo_input demo_input
              1 1 2 (0, 1)%Z (1, 2)%Z)
    as (y & xc & kc & yc & cy & Ey & Exc & Ekc & Eyc & Ecy & Hteq);
    try (cbn; lia); try reflexivity.
  { repeat split. }
  rewrite Exc in Ekc. inversion Ekc; subst kc.
  exists y, xc, yc, cy. auto.
Defined.
End ExpertPixels.

(** ** Every expert selected *)

Section DenseMixture.
Local Open Scope R_scope.

Lemma mixture_all (m : VMoELayer.t) (inputs k : VTensor R) b c y x :
  VRouter.num_experts (VMoELayer.gate m)
    = Z.of_nat (List.length (VMoELayer.experts m)) ->
  VMoELayer.num_expert m = VRouter.num_experts (VMoELayer.gate m) ->
  mixture m inputs k b c y x
  = rsum (map (fun i =>
                 at_index (VMoELayer.experts m)
                   (fun e => expert_val e inputs k b c y x) i
                 * getcol (gate_row m inputs b) i)
              (range (VRouter.num_experts (VMoELayer.gate m)))).
Proof.
  intros HN Hk. unfold mixture, selected_pairs.
  set (row := gate_row m inputs b).
  set (F := at_index (VMoELayer.experts m)
              (fun e => expert_val e inputs k b c y x)).
  assert (Hlen : List.length row
                 = Z.to_nat (VRouter.num_experts (VMoELayer.gate m)))
    by apply gate_row_length.
  destruct (topk_sel_perm (Z.to_nat (VMoELayer.num_expert m)) (indexed row)
              (indexed_NoDup row)) as (rest & Hp).
  assert (Hrest : rest = []).
  { pose proof (Permutation_length Hp) as Hl.
    rewrite length_app, indexed_length, topk_sel_length in Hl;
      [|apply indexed_NoDup|rewrite indexed_length, Hlen, Hk; lia].
    rewrite Hlen, Hk in Hl. destruct rest; [reflexivity|].
    cbn [List.length] in Hl. lia. }
  subst rest. rewrite app_nil_r in Hp.
  rewrite <- (rsum_perm _ _ (Permutation_map _ Hp)).
  replace (VRouter.num_experts (VMoELayer.gate m))
    with (Z.of_nat (List.length row)) by (rewrite Hlen; lia).
  rewrite <- indexed_snd, map_map. f_equal.
  apply map_ext_in. intros [v idx] Hin. cbn [fst snd].
  apply indexed_In in Hin as [_ Hv]. now rewrite Hv.
Qed.

(** With [num_expert] equal to the number of experts the layer is a dense
    mixture: the input plus the sum over all experts of the expert's output
    times its softmax score. *)
Theorem moe_all_experts_is_dense_mixture d (m : VMoELayer.t)
        (inputs k : VTensor R) n h w :
  VMoELayer_ok d m ->
  dims inputs = (n, d, h, w) -> dims k = (n, d, h, w) ->
  (0 <= n)%Z -> (1 <= d)%Z -> (1 <= h)%Z -> (1 <= w)%Z ->
  VMoELayer.num_expert m = VRouter.num_experts (VMoELayer.gate m) ->
  exists out,
    VMoELayer.forward m true inputs k = Ok out /\
    dims out = (n, d, h, w) /\
    forall b c y x, in_dims (n, d, h, w) b c y x ->
      at4 out b c y x
      = at4 inputs b c y x
        + rsum (map (fun i =>
                       at_index (VMoELayer.experts m)
                         (fun e => expert_val e inputs k b c y x) i
                       * getcol (gate_row m inputs b) i)
                    (range (VRouter.num_experts (VMoELayer.gate m)))).
Proof.
  intros Hok Hi Hk Hn Hd Hh Hw Hall.
  assert (HN : VRouter.num_experts (VMoELayer.gate m)
               = Z.of_nat (List.length (VMoELayer.experts m)))
    by (destruct Hok as (_ & _ & E); exact E).
  destruct (training_mixture d m inputs k n h w Hok Hi Hk Hn Hd Hh Hw)
    as (out & E & Hdo & Hv); [rewrite Hall, HN; lia|].
  exists out. split; [exact E|]. split; [exact Hdo|].
  intros b c y x Hpos. rewrite (Hv b c y x Hpos). f_equal.
  now apply mixture_all.
Qed.

Lemma moe_all_experts_is_dense_mixture_witness :
  exists out,
    VMoELayer.forward (demo_layer 3) true demo_batch demo_batch = Ok out /\
    dims out = (2, 2, 1, 2)%Z.
Proof.
  destruct (moe_all_experts_is_dense_mixture 2 (demo_layer 3) demo_batch
              demo_batch 2 1 2 (demo_layer_ok 3) eq_refl eq_refl
              ltac:(lia) ltac:(lia) ltac:(lia) ltac:(lia) eq_refl)
    as (out & E & Hd & _).
  exists out. split; [exact E|exact Hd].
Defined.
End DenseMixture.

(** ** The layer and the window it is run on *)

Section WindowDependence.
Local Open Scope R_scope.

Lemma range_1 : range 1 = [0%Z].
Proof. reflexivity. Qed.

Lemma range_2 : range 2 = [0%Z; 1%Z].
Proof. reflexivity. Qed.

Lemma gap_layer_ok : VMoELayer_ok 1 gap_layer.
Proof.
  split; [|split; reflexivity].
  repeat constructor.
Qed.

Lemma const_expert_val v (x : VTensor R) n h w b i j :
  dims x = (n, 1%Z, h, w) -> (1 <= h)%Z -> (1 <= w)%Z ->
  in_dims (n, 1%Z, h, w) b 0%Z i j ->
  expert_val (const_expert v) x x b 0 i j = v.
Proof.
  intros Hx Hh Hw Hpos. unfold expert_val.
  destruct (expert_pixelwise 1 (const_expert v) x x n h w) as (y & -> & _ & Hy);
    auto.
  { repeat split. }
  rewrite (Hy b 0%Z i j Hpos). unfold expert_pixel.
  cbn [VExpert.conv_1 VExpert.conv_2 VExpert.conv_3 const_expert VConv.bias
       VConv.weight VConv.in_channels].
  unfold sum_range at 1. rewrite range_1. cbn [map rsum fold_right].
  lra.
Qed.

(** The output of [gap_layer] on a one-channel image: the input plus the
    softmax score of the first expert, which depends on the mean of the
    whole image. *)
Lemma gap_layer_output (x : VTensor R) h w :
  dims x = (1%Z, 1%Z, h, w) -> (1 <= h)%Z -> (1 <= w)%Z ->
  exists y,
    VMoELayer.forward gap_layer true x x = Ok y /\
    dims y = (1%Z, 1%Z, h, w) /\
    forall i j, (0 <= i < h)%Z -> (0 <= j < w)%Z ->
      at4 y 0 0 i j
      = at4 x 0 0 i j
        + exp (VRouter.pooled x 0 0) / (exp (VRouter.pooled x 0 0) + 1).
Proof.
  intros Hx Hh Hw.
  destruct (training_mixture 1 gap_layer x x 1 h w gap_layer_ok Hx Hx
              ltac:(lia) ltac:(lia) Hh Hw ltac:(cbn; lia))
    as (y & Ey & Hd & Hy).
  exists y. split; [exact Ey|]. split; [exact Hd|]. intros i j Hi Hj.
  rewrite Hy by (unfold in_dims; lia). f_equal.
  rewrite mixture_all by reflexivity.
  cbn [gap_layer VMoELayer.gate VMoELayer.experts VRouter.num_experts].
  rewrite range_2. cbn [map rsum fold_right].
  unfold at_index.
  change (Z.to_nat 0) with 0%nat. change (Z.to_nat 1) with 1%nat.
  cbn [nth_error].
  rewrite !(const_expert_val _ x 1 h w) by (auto; unfold in_dims; lia).
  unfold gate_row, VRouter.logits.
  cbn [gap_layer VMoELayer.gate VRouter.num_experts VRouter.in_ch VRouter.weight].
  rewrite range_2. unfold sum_range. rewrite range_1.
  cbn [map rsum fold_right].
  change (IZR (1 - 0)) with 1. change (IZR (1 - 1)) with 0.
  unfold softmax, getcol. cbn [map rsum fold_right].
  change (Z.to_nat 0) with 0%nat. change (Z.to_nat 1) with 1%nat. cbn [nth].
  replace (1 * VRouter.pooled x 0 0 + 0) with (VRouter.pooled x 0 0) by lra.
  replace (0 * VRouter.pooled x 0 0 + 0) with 0 by lra.
  rewrite exp_0.
  pose proof (exp_pos (VRouter.pooled x 0 0)). field. lra.
Qed.

(** The layer does not commute with cropping.  The gate weights come from
    the average over the whole window the layer is run on, so the same pixel
    can come out differently when the layer sees a tile instead of the image:
    there are a well-formed layer and an image on which the layer and the
    crop to the first pixel both succeed in either order, with results of the
    same shape that differ at that pixel ([1 / 2] against [e / (e + 1)] for
    [gap_layer] on [ramp], with exact arithmetic). *)
Theorem moe_layer_depends_on_window :
  exists (m : VMoELayer.t) (x y y_crop x_crop y_of_crop : VTensor R),
    VMoELayer_ok 1 m /\
    VMoELayer.forward m true x x = Ok y /\
    v_getitem_hw y (0, 1)%Z (0, 1)%Z = Ok y_crop /\
    v_getitem_hw x (0, 1)%Z (0, 1)%Z = Ok x_crop /\
    VMoELayer.forward m true x_crop x_crop = Ok y_of_crop /\
    dims y_of_crop = dims y_crop /\
    at4 y_of_crop 0 0 0 0 <> at4 y_crop 0 0 0 0.
Proof.
  destruct (gap_layer_output ramp 1 2 eq_refl ltac:(lia) ltac:(lia))
    as (y & Ey & Hdy & Hy).
  set (xc := {| dims := (1, 1, 1, 1)%Z;
                at4 := fun b ch i j => at4 ramp b ch (0 + i)%Z (0 + j)%Z |}).
  destruct (gap_layer_output xc 1 1 eq_refl ltac:(lia) ltac:(lia))
    as (yc & Eyc & Hdyc & Hyc).
  set (ycrop := {| dims := (1, 1, 1, 1)%Z;
                   at4 := fun b ch i j => at4 y b ch (0 + i)%Z (0 + j)%Z |}).
  exists gap_layer, ramp, y, ycrop, xc, yc.
  split; [exact gap_layer_ok|]. split; [exact Ey|].
  split; [unfold v_getitem_hw; rewrite Hdy; reflexivity|].
  split; [reflexivity|]. split; [exact Eyc|].
  split; [exact Hdyc|].
  assert (Ep : VRouter.pooled ramp 0 0 = 1).
  { unfold VRouter.pooled, ramp. cbn [dims at4]. unfold sum_range.
    rewrite range_1, range_2. cbn [map rsum fold_right].
    change (IZR (2 * 0)) with 0. change (IZR (2 * 1)) with 2.
    change (IZR (1 * 2)) with 2. lra. }
  assert (Epc : VRouter.pooled xc 0 0 = 0).
  { unfold VRouter.pooled, xc, ramp. cbn [dims at4]. unfold sum_range.
    rewrite range_1. cbn [map rsum fold_right].
    change (IZR (2 * (0 + 0))) with 0. change (IZR (1 * 1)) with 1. lra. }
  assert (E1 : at4 ycrop 0 0 0 0 = exp 1 / (exp 1 + 1)).
  { unfold ycrop. cbn [at4]. change (0 + 0)%Z with 0%Z.
    rewrite (Hy 0%Z 0%Z) by lia. rewrite Ep. cbn [ramp at4].
    change (IZR (2 * 0)) with 0. lra. }
  assert (E2 : at4 yc 0 0 0 0 = 1 / 2).
  { rewrite (Hyc 0%Z 0%Z) by lia. rewrite Epc, exp_0.
    unfold xc. cbn [ramp at4]. change (IZR (2 * (0 + 0))) with 0. lra. }
  rewrite E1, E2. intros Heq.
  pose proof (exp_ineq1 1 ltac:(lra)) as He.
  assert (Hne : exp 1 + 1 <> 0) by lra.
  apply (f_equal (fun z => z * (2 * (exp 1 + 1)))) in Heq.
  field_simplify in Heq; lra.
Qed.
End WindowDependence.

(** ** Channel shuffle *)

Lemma div_mod_flat a m r :
  0 <= r < m -> (a * m + r) / m = a /\ (a * m + r) mod m = r.
Proof.
  intros Hr. split.
  - symmetry. apply (Z.div_unique_pos (a * m + r) m a r); lia.
  - symmetry. apply (Z.mod_unique_pos (a * m + r) m a r); lia.
Qed.

Lemma shuffle_source_range g c :
  1 <= g -> 0 <= c < 2 * g -> 0 <= shuffle_source g c < 2 * g.
Proof.
  intros Hg Hc. unfold shuffle_source.
  pose proof (Z.mod_pos_bound c 2 ltac:(lia)).
  pose proof (Z.div_mod c 2 ltac:(lia)). nia.
Qed.

(** [shuffle_source] puts the two halves of the channels in turn: output
    channels [2 q] and [2 q + 1] come from input channels [q] and [g + q]. *)
Lemma shuffle_source_interleaves g q :
  shuffle_source g (2 * q) = q /\ shuffle_source g (2 * q + 1) = g + q.
Proof.
  unfold shuffle_source. split.
  - rewrite (Z.mul_comm 2 q), Z.mod_mul, Z.div_mul by lia. lia.
  - destruct (div_mod_flat q 2 1 ltac:(lia)) as [Ed Em].
    rewrite (Z.mul_comm 2 q), Ed, Em. lia.
Qed.

Lemma shuffle_source_injective g c c' :
  1 <= g -> 0 <= c < 2 * g -> 0 <= c' < 2 * g ->
  shuffle_source g c = shuffle_source g c' -> c = c'.
Proof.
  intros Hg Hc Hc' E. unfold shuffle_source in E.
  pose proof (Z.mod_pos_bound c 2 ltac:(lia)).
  pose proof (Z.mod_pos_bound c' 2 ltac:(lia)).
  pose proof (Z.div_mod c 2 ltac:(lia)).
  pose proof (Z.div_mod c' 2 ltac:(lia)).
  assert (0 <= c / 2 < g) by lia.
  assert (0 <= c' / 2 < g) by lia.
  assert (Hr : c mod 2 = 0 \/ c mod 2 = 1) by lia.
  assert (Hr' : c' mod 2 = 0 \/ c' mod 2 = 1) by lia.
  destruct Hr as [Er|Er]; destruct Hr' as [Er'|Er']; rewrite Er, Er' in *; lia.
Qed.

(** [channel_shuffle] with an even number of channels keeps the shape and
    permutes the channels of every pixel: it interleaves the two halves, so
    that output channels [2 q] and [2 q + 1] are input channels [q] and
    [g + q], and no two output channels come from the same input channel.
    With an odd number of channels the first [view] raises. *)
Theorem channel_shuffle_interleaves {A : Type} (x : FlatTensor A) (n g w h : Z) :
  1 <= n -> 1 <= g -> 1 <= w -> 1 <= h ->
  (fshape x = [n; 2 * g; w; h] ->
   exists y,
     channel_shuffle_values x = Ok y /\
     fshape y = [n; 2 * g; w; h] /\
     channel_shuffle (fshape x) = Ok (fshape y) /\
     (forall b c i j, 0 <= b < n -> 0 <= c < 2 * g -> 0 <= i < w -> 0 <= j < h ->
        fdata y (idx4 (2 * g) w h b c i j)
        = fdata x (idx4 (2 * g) w h b (shuffle_source g c) i j)) /\
     (forall q, 0 <= q < g ->
        shuffle_source g (2 * q) = q /\ shuffle_source g (2 * q + 1) = g + q) /\
     (forall c c', 0 <= c < 2 * g -> 0 <= c' < 2 * g ->
        shuffle_source g c = shuffle_source g c' -> c = c')) /\
  (fshape x = [n; 2 * g + 1; w; h] ->
   channel_shuffle_values x = Err (RuntimeError BadView) /\
   channel_shuffle (fshape x) = Err (RuntimeError BadView)).
Proof.
  intros Hn Hg Hw Hh. split.
  - intros Hx.
    assert (Eg : 2 * g / 2 = g) by (rewrite Z.mul_comm; apply Z.div_mul; lia).
    assert (Hnz : n * w * h <> 0) by nia.
    unfold channel_shuffle_values. rewrite Hx, Eg.
    unfold view. rewrite Hx. unfold numel at 1 2. cbn [fold_right].
    replace (n * (2 * (g * (w * (h * 1))))) with (n * (2 * g * (w * (h * 1))))
      by ring.
    rewrite Z.eqb_refl. cbn [bind transpose12 fshape].
    unfold view_infer1. cbn [fshape]. unfold numel. cbn [fold_right].
    destruct (Z.eqb_spec (n * w * h) 0); [contradiction|].
    replace (n * (g * (2 * (w * (h * 1))))) with (2 * g * (n * w * h)) by ring.
    rewrite Z.mod_mul, Z.div_mul by assumption.
    rewrite Z.eqb_refl. cbn [negb].
    eexists. split; [reflexivity|]. cbn [fshape fdata].
    split; [reflexivity|].
    split; [apply channel_shuffle_even; lia|].
    split; [|split].
    + intros b c i j Hb Hc Hi Hj. f_equal.
      unfold idx4, shuffle_source.
      assert (Hr : 0 <= i * h + j < w * (h * 1)) by nia.
      replace (((b * (2 * g) + c) * w + i) * h + j)
        with ((b * (2 * g) + c) * (w * (h * 1)) + (i * h + j)) by ring.
      destruct (div_mod_flat (b * (2 * g) + c) (w * (h * 1)) (i * h + j) Hr)
        as [-> ->].
      pose proof (Z.mod_pos_bound c 2 ltac:(lia)) as Hm.
      pose proof (Z.div_mod c 2 ltac:(lia)) as Hdm.
      assert (E2 : (b * (2 * g) + c) mod 2 = c mod 2).
      { replace (b * (2 * g) + c) with (c + (b * g) * 2) by ring.
        apply Z.mod_add. lia. }
      assert (E3 : (b * (2 * g) + c) / 2 = b * g + c / 2).
      { replace (b * (2 * g) + c) with (c + (b * g) * 2) by ring.
        rewrite Z.div_add by lia. ring. }
      rewrite E2, E3.
      assert (Hq : 0 <= c / 2 < g) by nia.
      destruct (div_mod_flat b g (c / 2) Hq) as [-> ->]. ring.
    + intros q _. apply shuffle_source_interleaves.
    + intros c c'. now apply shuffle_source_injective.
  - intros Hx.
    assert (Eg : (2 * g + 1) / 2 = g).
    { symmetry. apply (Z.div_unique_pos (2 * g + 1) 2 g 1); lia. }
    assert (Hne : n * (2 * (g * (w * (h * 1))))
                  <> n * ((2 * g + 1) * (w * (h * 1)))) by nia.
    split.
    + unfold channel_shuffle_values. rewrite Hx, Eg.
      unfold view. rewrite Hx. unfold numel. cbn [fold_right].
      destruct (Z.eqb_spec (n * (2 * (g * (w * (h * 1)))))
                  (n * ((2 * g + 1) * (w * (h * 1))))); [contradiction|].
      reflexivity.
    + rewrite Hx. unfold channel_shuffle, numel. cbn [fold_right]. rewrite Eg.
      destruct (Z.eqb_spec (n * (2 * (g * (w * (h * 1)))))
                  (n * ((2 * g + 1) * (w * (h * 1))))); [contradiction|].
      reflexivity.
Qed.

(** A tensor of shape (1, 4, 1, 2) whose elements are their flat indices:
    the channels 0, 1, 2, 3 come out in the order 0, 2, 1, 3. *)
Lemma channel_shuffle_interleaves_witness :
  exists y,
    channel_shuffle_values {| fshape := [1; 4; 1; 2]; fdata := fun f => f |}
      = Ok y /\
    fshape y = [1; 4; 1; 2] /\
    map (fdata y) [0; 1; 2; 3; 4; 5; 6; 7] = [0; 1; 4; 5; 2; 3; 6; 7].
Proof.
  destruct (channel_shuffle_interleaves
              {| fshape := [1; 4; 1; 2]; fdata := fun f => f |} 1 2 1 2
              ltac:(lia) ltac:(lia) ltac:(lia) ltac:(lia)) as [Heven _].
  destruct (Heven eq_refl) as (y & Ey & Hs & _ & Hv & _).
  exists y. split; [exact Ey|]. split; [exact Hs|].
  assert (E : forall c j, 0 <= c < 4 -> 0 <= j < 2 ->
                fdata y (2 * c + j) = 2 * shuffle_source 2 c + j).
  { intros c j Hc Hj.
    replace (2 * c + j) with (idx4 (2 * 2) 1 2 0 c 0 j) by (unfold idx4; lia).
    rewrite Hv by lia. cbn [fdata]. unfold idx4. lia. }
  cbn [map].
  rewrite (E 0 0 ltac:(lia) ltac:(lia) : fdata y 0 = 0),
          (E 0 1 ltac:(lia) ltac:(lia) : fdata y 1 = 1),
          (E 1 0 ltac:(lia) ltac:(lia) : fdata y 2 = 4),
          (E 1 1 ltac:(lia) ltac:(lia) : fdata y 3 = 5),
          (E 2 0 ltac:(lia) ltac:(lia) : fdata y 4 = 2),
          (E 2 1 ltac:(lia) ltac:(lia) : fdata y 5 = 3),
          (E 3 0 ltac:(lia) ltac:(lia) : fdata y 6 = 6),
          (E 3 1 ltac:(lia) ltac:(lia) : fdata y 7 = 7).
  reflexivity.
Defined.

(** ** Layer normalisation over the channels *)

Section LayerNormValues.
Local Open Scope R_scope.

Lemma broadcast_dims_keepdim n c h w :
  broadcast_dims (n, c, h, w) (n, 1%Z, h, w) = Ok (n, c, h, w).
Proof.
  unfold broadcast_dims.
  now rewrite !broadcast_dim_refl, broadcast_dim_1_r.
Qed.

Lemma broadcast_dims_channel_l n c h w :
  broadcast_dims (1%Z, c, 1%Z, 1%Z) (n, c, h, w) = Ok (n, c, h, w).
Proof.
  unfold broadcast_dims.
  now rewrite !broadcast_dim_1_l, broadcast_dim_refl.
Qed.

Lemma broadcast_dims_channel_r n c h w :
  broadcast_dims (n, c, h, w) (1%Z, c, 1%Z, 1%Z) = Ok (n, c, h, w).
Proof.
  unfold broadcast_dims.
  now rewrite !broadcast_dim_1_r, broadcast_dim_refl.
Qed.

Lemma bidx_one i : bidx 1 i = 0%Z.
Proof. reflexivity. Qed.

Lemma vbinop_eq f (a b : VTensor R) an ac ah aw bn bc bh bw d :
  dims a = (an, ac, ah, aw) -> dims b = (bn, bc, bh, bw) ->
  broadcast_dims (an, ac, ah, aw) (bn, bc, bh, bw) = Ok d ->
  vbinop f a b =
    Ok {| dims := d;
          at4 := fun n c i j =>
                   f (at4 a (bidx an n) (bidx ac c) (bidx ah i) (bidx aw j))
                     (at4 b (bidx bn n) (bidx bc c) (bidx bh i) (bidx bw j)) |}.
Proof.
  intros Ha Hb Hd. unfold vbinop. rewrite Ha, Hb, Hd. reflexivity.
Qed.

Lemma vmean1_eq (x : VTensor R) n c h w :
  dims x = (n, c, h, w) ->
  vmean1 x = {| dims := (n, 1%Z, h, w);
                at4 := fun b _ i j => channel_mean x c b i j |}.
Proof. intros Hx. unfold vmean1. rewrite Hx. reflexivity. Qed.

(** The forward pass at one element: the input minus the mean of its pixel's
    channels, over the square root of their variance plus [eps], times the
    weight of the channel, plus its bias. *)
Lemma VLayerNorm_pixel (m : VLayerNorm.t) (x : VTensor R) n c h w :
  VLayerNorm.data_format m = channels_first ->
  VLayerNorm.normalized_shape m = c ->
  dims x = (n, c, h, w) ->
  exists y,
    VLayerNorm.forward m x = Ok y /\ dims y = (n, c, h, w) /\
    forall b ch i j, in_dims (n, c, h, w) b ch i j ->
      at4 y b ch i j
      = VLayerNorm.weight m ch *
        ((at4 x b ch i j - channel_mean x c b i j)
         / sqrt (channel_var x c b i j + VLayerNorm.eps m))
        + VLayerNorm.bias m ch.
Proof.
  intros Hfmt Hc Hx. unfold VLayerNorm.forward. rewrite Hfmt, Hc.
  rewrite (vmean1_eq x n c h w Hx).
  unfold vsub, vdiv, vmul, vadd.
  match goal with
  | |- context [vbinop Rminus x ?u] =>
      rewrite (vbinop_eq Rminus x u n c h w n 1%Z h w (n, c, h, w) Hx eq_refl
                 (broadcast_dims_keepdim n c h w))
  end.
  cbn [bind].
  match goal with
  | |- context [vmean1 ?t] => rewrite (vmean1_eq t n c h w eq_refl)
  end.
  match goal with
  | |- context [vbinop Rdiv ?a ?b] =>
      rewrite (vbinop_eq Rdiv a b n c h w n 1%Z h w (n, c, h, w) eq_refl eq_refl
                 (broadcast_dims_keepdim n c h w))
  end.
  cbn [bind].
  match goal with
  | |- context [vbinop Rmult ?a ?b] =>
      rewrite (vbinop_eq Rmult a b 1%Z c 1%Z 1%Z n c h w (n, c, h, w)
                 eq_refl eq_refl (broadcast_dims_channel_l n c h w))
  end.
  cbn [bind].
  match goal with
  | |- context [vbinop Rplus ?a ?b] =>
      rewrite (vbinop_eq Rplus a b n c h w 1%Z c 1%Z 1%Z (n, c, h, w)
                 eq_refl eq_refl (broadcast_dims_channel_r n c h w))
  end.
  eexists. split; [reflexivity|]. split; [reflexivity|].
  intros b ch i j (Hb & Hch & Hi & Hj). cbn [at4 per_channel vmap dims].
  rewrite ?bidx_one.
  rewrite !(bidx_in n b), !(bidx_in c ch), !(bidx_in h i), !(bidx_in w j)
    by assumption.
  f_equal. f_equal. f_equal. f_equal. f_equal.
  unfold channel_var, channel_mean at 1. cbn [at4 vmap]. f_equal.
  apply sum_range_ext. intros q Hq.
  now rewrite !(bidx_in n b), !(bidx_in c q), !(bidx_in h i), !(bidx_in w j)
    by assumption.
Qed.

Lemma rsum_map_plus {T : Type} (f g : T -> R) l :
  rsum (map (fun x => f x + g x) l) = rsum (map f l) + rsum (map g l).
Proof.
  unfold rsum. induction l as [|a l IH]; cbn [map fold_right] in *; lra.
Qed.

Lemma rsum_map_mult_r {T : Type} (f : T -> R) (k : R) l :
  rsum (map (fun x => f x * k) l) = rsum (map f l) * k.
Proof.
  unfold rsum. induction l as [|a l IH]; cbn [map fold_right] in *; lra.
Qed.

Lemma rsum_map_const {T : Type} (a : R) (l : list T) :
  rsum (map (fun _ => a) l) = INR (List.length l) * a.
Proof.
  unfold rsum. induction l as [|x l IH]; [cbn; lra|].
  cbn [map List.length]. rewrite S_INR. cbn [fold_right] in *. lra.
Qed.

Lemma sum_range_const c a : (0 <= c)%Z -> sum_range c (fun _ => a) = IZR c * a.
Proof.
  intros Hc. unfold sum_range. rewrite rsum_map_const, range_length.
  now rewrite INR_IZR_INZ, Z2Nat.id.
Qed.

Lemma sum_range_plus c f g :
  sum_range c (fun i => f i + g i) = sum_range c f + sum_range c g.
Proof. apply rsum_map_plus. Qed.

Lemma sum_range_mult_r c f k :
  sum_range c (fun i => f i * k) = sum_range c f * k.
Proof. apply rsum_map_mult_r. Qed.

Lemma sum_range_sq_nonneg c f : 0 <= sum_range c (fun i => f i ^ 2).
Proof.
  unfold sum_range. apply rsum_nonneg. apply Forall_forall.
  intros v Hv. apply in_map_iff in Hv as (i & <- & _). apply pow2_ge_0.
Qed.

(** The deviations from the channel mean sum to zero. *)
Lemma deviations_sum_zero (x : VTensor R) c b i j :
  (1 <= c)%Z ->
  sum_range c (fun ch => at4 x b ch i j - channel_mean x c b i j) = 0.
Proof.
  intros Hc.
  replace (fun ch => at4 x b ch i j - channel_mean x c b i j)
    with (fun ch => at4 x b ch i j + - channel_mean x c b i j) by reflexivity.
  rewrite sum_range_plus, sum_range_const by lia.
  unfold channel_mean. field. apply not_0_IZR. lia.
Qed.

Lemma channel_var_nonneg (x : VTensor R) c b i j :
  (1 <= c)%Z -> 0 <= channel_var x c b i j.
Proof.
  intros Hc. unfold channel_var. apply Rmult_le_pos.
  - apply sum_range_sq_nonneg.
  - apply Rlt_le, Rinv_0_lt_compat, IZR_lt. lia.
Qed.

(** A freshly constructed [LayerNorm] (weight one, bias zero) standardises
    the channels of every pixel: the output has mean zero over the channels
    and variance [v / (v + eps)], below one, where [v] is the variance of the
    input's channels; the division is by at least [sqrt eps], never by
    zero. *)
Theorem layer_norm_normalises (c : Z) (eps : R) (x : VTensor R) (n h w : Z) :
  0 < eps -> (1 <= c)%Z -> dims x = (n, c, h, w) ->
  exists m y,
    VLayerNorm.init c eps "channels_first" = Ok m /\
    VLayerNorm.forward m x = Ok y /\
    dims y = (n, c, h, w) /\
    forall b i j, (0 <= b < n)%Z -> (0 <= i < h)%Z -> (0 <= j < w)%Z ->
      sqrt eps <= sqrt (channel_var x c b i j + eps) /\
      channel_mean y c b i j = 0 /\
      channel_var y c b i j
      = channel_var x c b i j / (channel_var x c b i j + eps) /\
      0 <= channel_var y c b i j < 1.
Proof.
  intros Heps Hc Hx.
  eexists. 
  destruct (VLayerNorm_pixel
              (VLayerNorm.mk (fun _ => 1) (fun _ => 0) eps channels_first c)
              x n c h w eq_refl eq_refl Hx) as (y & Ey & Hdy & Hy).
  exists y. split; [reflexivity|]. split; [exact Ey|]. split; [exact Hdy|].
  intros b i j Hb Hi Hj.
  cbn [VLayerNorm.weight VLayerNorm.bias VLayerNorm.eps] in Hy.
  pose proof (channel_var_nonneg x c b i j Hc) as Hv.
  set (v := channel_var x c b i j) in *.
  set (u := channel_mean x c b i j) in *.
  assert (Hs : 0 < sqrt (v + eps)) by (apply sqrt_lt_R0; lra).
  assert (Hss : sqrt (v + eps) * sqrt (v + eps) = v + eps)
    by (apply sqrt_sqrt; lra).
  assert (Hyv : forall ch, (0 <= ch < c)%Z ->
            at4 y b ch i j = (at4 x b ch i j - u) * / sqrt (v + eps)).
  { intros ch Hch. rewrite Hy by (unfold in_dims; lia).
    fold u. fold v. unfold Rdiv. ring. }
  assert (Hmean : channel_mean y c b i j = 0).
  { unfold channel_mean.
    rewrite (sum_range_ext c _ (fun ch => (at4 x b ch i j - u) * / sqrt (v + eps)))
      by exact Hyv.
    rewrite sum_range_mult_r. unfold u.
    rewrite deviations_sum_zero by assumption. unfold Rdiv. lra. }
  assert (Hvar : channel_var y c b i j = v / (v + eps)).
  { unfold channel_var at 1. rewrite Hmean.
    rewrite (sum_range_ext c _
               (fun ch => (at4 x b ch i j - u) ^ 2 * / (v + eps))).
    - rewrite sum_range_mult_r.
      assert (Ev : sum_range c (fun ch => (at4 x b ch i j - u) ^ 2) = v * IZR c).
      { unfold v, channel_var. fold u. field. apply not_0_IZR. lia. }
      rewrite Ev. field. split; [lra|apply not_0_IZR; lia].
    - intros ch Hch. rewrite Hyv by assumption.
      set (s := sqrt (v + eps)) in *. rewrite <- Hss. field. lra. }
  split; [apply sqrt_le_1; lra|]. split; [exact Hmean|]. split; [exact Hvar|].
  rewrite Hvar. split.
  - apply Rmult_le_pos; [lra|]. apply Rlt_le, Rinv_0_lt_compat. lra.
  - apply (Rmult_lt_reg_r (v + eps)); [lra|]. unfold Rdiv.
    rewrite Rmult_assoc, Rinv_l by lra. lra.
Qed.

Lemma layer_norm_normalises_witness :
  exists m y,
    VLayerNorm.init 2 (1 / 1000000) "channels_first" = Ok m /\
    VLayerNorm.forward m demo_input = Ok y /\
    channel_mean y 2 0 0 1 = 0 /\
    0 <= channel_var y 2 0 0 1 < 1.
Proof.
  destruct (layer_norm_normalises 2 (1 / 1000000) demo_input 1 1 2
              ltac:(lra) ltac:(lia) eq_refl)
    as (m & y & Em & Ey & _ & Hy).
  exists m, y. split; [exact Em|]. split; [exact Ey|].
  destruct (Hy 0%Z 0%Z 1%Z ltac:(lia) ltac:(lia) ltac:(lia))
    as (_ & Hmean & _ & Hvar).
  split; [exact Hmean|exact Hvar].
Defined.

Lemma channel_mean_shift (x x' : VTensor R) (t : R) c b i j :
  (1 <= c)%Z ->
  (forall ch, (0 <= ch < c)%Z -> at4 x' b ch i j = at4 x b ch i j + t) ->
  channel_mean x' c b i j = channel_mean x c b i j + t.
Proof.
  intros Hc Hx. unfold channel_mean.
  rewrite (sum_range_ext c _ (fun ch => at4 x b ch i j + t)) by exact Hx.
  rewrite sum_range_plus, sum_range_const by lia.
  field. apply not_0_IZR. lia.
Qed.

(** Layer normalisation over the channels does not see a constant added to
    all channels of a pixel: the two inputs give the same output, whatever
    weight and bias; in particular a pixel whose channels are all equal
    comes out as the bias. *)
Theorem layer_norm_shift_invariant (m : VLayerNorm.t) (x x' : VTensor R)
        (t : Z -> Z -> Z -> R) (n c h w : Z) :
  VLayerNorm.data_format m = channels_first ->
  VLayerNorm.normalized_shape m = c -> (1 <= c)%Z ->
  dims x = (n, c, h, w) -> dims x' = (n, c, h, w) ->
  (forall b ch i j, in_dims (n, c, h, w) b ch i j ->
     at4 x' b ch i j = at4 x b ch i j + t b i j) ->
  exists y y',
    VLayerNorm.forward m x = Ok y /\ VLayerNorm.forward m x' = Ok y' /\
    teq y y' /\
    forall b i j, (0 <= b < n)%Z -> (0 <= i < h)%Z -> (0 <= j < w)%Z ->
      (forall ch, (0 <= ch < c)%Z -> at4 x b ch i j = at4 x b 0%Z i j) ->
      forall ch, (0 <= ch < c)%Z -> at4 y b ch i j = VLayerNorm.bias m ch.
Proof.
  intros Hfmt Hn Hc Hx Hx' Hshift.
  destruct (VLayerNorm_pixel m x n c h w Hfmt Hn Hx) as (y & Ey & Hdy & Hy).
  destruct (VLayerNorm_pixel m x' n c h w Hfmt Hn Hx') as (y' & Ey' & Hdy' & Hy').
  exists y, y'. split; [exact Ey|]. split; [exact Ey'|]. split; [split|].
  - now rewrite Hdy, Hdy'.
  - rewrite Hdy. intros b ch i j Hpos.
    rewrite (Hy b ch i j Hpos), (Hy' b ch i j Hpos).
    destruct Hpos as (Hb & Hch & Hi & Hj).
    assert (Hm : channel_mean x' c b i j = channel_mean x c b i j + t b i j).
    { apply channel_mean_shift; [exact Hc|].
      intros q Hq. apply Hshift. unfold in_dims. lia. }
    assert (Hd : forall q, (0 <= q < c)%Z ->
              at4 x' b q i j - channel_mean x' c b i j
              = at4 x b q i j - channel_mean x c b i j).
    { intros q Hq. rewrite Hm, Hshift by (unfold in_dims; lia). ring. }
    assert (Hv : channel_var x' c b i j = channel_var x c b i j).
    { unfold channel_var. f_equal. apply sum_range_ext.
      intros q Hq. now rewrite Hd. }
    now rewrite Hv, Hd.
  - intros b i j Hb Hi Hj Hconst ch Hch.
    rewrite Hy by (unfold in_dims; lia).
    assert (Hm : channel_mean x c b i j = at4 x b 0%Z i j).
    { unfold channel_mean.
      rewrite (sum_range_ext c _ (fun _ => at4 x b 0%Z i j)) by exact Hconst.
      rewrite sum_range_const by lia. field. apply not_0_IZR. lia. }
    rewrite Hm, (Hconst ch Hch). unfold Rdiv. ring.
Qed.

Lemma layer_norm_shift_invariant_witness :
  exists y y',
    VLayerNorm.forward
      (VLayerNorm.mk (fun ch => IZR (ch + 1)) (fun ch => IZR ch) (1 / 1000000)
         channels_first 2) demo_input = Ok y /\
    VLayerNorm.forward
      (VLayerNorm.mk (fun ch => IZR (ch + 1)) (fun ch => IZR ch) (1 / 1000000)
         channels_first 2)
      {| dims := (1, 2, 1, 2)%Z;
         at4 := fun b c i j => at4 demo_input b c i j + IZR (7 + j) |} = Ok y' /\
    teq y y'.
Proof.
  destruct (layer_norm_shift_invariant
              (VLayerNorm.mk (fun ch => IZR (ch + 1)) (fun ch => IZR ch)
                 (1 / 1000000) channels_first 2)
              demo_input
              {| dims := (1, 2, 1, 2)%Z;
                 at4 := fun b c i j => at4 demo_input b c i j + IZR (7 + j) |}
              (fun _ _ j => IZR (7 + j)) 1 2 1 2
              eq_refl eq_refl ltac:(lia) eq_refl eq_refl
              ltac:(intros; reflexivity))
    as (y & y' & Ey & Ey' & Hteq & _).
  exists y, y'. auto.
Defined.
End LayerNormValues.

(** ** Pixel values *)

From Stdlib Require Import QArith Qround Lqa.

Section PixelValues.
Local Open Scope Q_scope.

Lemma clamp_range lo hi v : lo <= hi -> lo <= clamp lo hi v <= hi.
Proof.
  intros Hlh. unfold clamp.
  destruct (Qlt_le_dec v lo); [lra|]. destruct (Qlt_le_dec hi v); lra.
Qed.

Lemma clamp_inside lo hi v : lo <= v <= hi -> clamp lo hi v = v.
Proof.
  intros Hv. unfold clamp.
  destruct (Qlt_le_dec v lo); [lra|]. destruct (Qlt_le_dec hi v); [lra|].
  reflexivity.
Qed.

(** The second clipping changes nothing. *)
Lemma clamp_idempotent lo hi v :
  lo <= hi -> clamp lo hi (clamp lo hi v) = clamp lo hi v.
Proof. intros Hlh. apply clamp_inside. now apply clamp_range. Qed.

Lemma clamp_le lo hi v v' : lo <= hi -> v <= v' -> clamp lo hi v <= clamp lo hi v'.
Proof.
  intros Hlh Hv. unfold clamp.
  destruct (Qlt_le_dec v lo); destruct (Qlt_le_dec v' lo);
    destruct (Qlt_le_dec hi v); destruct (Qlt_le_dec hi v'); lra.
Qed.

Lemma floor_bounds v : inject_Z (Qfloor v) <= v < inject_Z (Qfloor v) + 1.
Proof.
  split; [apply Qfloor_le|].
  pose proof (Qlt_floor v) as H. rewrite inject_Z_plus in H. exact H.
Qed.

Lemma np_round_cases v :
  (np_round v = Qfloor v /\ v - inject_Z (Qfloor v) <= 1 # 2) \/
  (np_round v = (Qfloor v + 1)%Z /\ 1 # 2 <= v - inject_Z (Qfloor v)).
Proof.
  unfold np_round.
  destruct (v - inject_Z (Qfloor v) ?= 1 # 2) eqn:E.
  - apply <- Qeq_alt in E. destruct (Z.even (Qfloor v)); [left|right]; split;
      try reflexivity; lra.
  - apply <- Qlt_alt in E. left. split; [reflexivity|lra].
  - apply <- Qgt_alt in E. right. split; [reflexivity|lra].
Qed.

Lemma np_round_integer v z : v == inject_Z z -> np_round v = z.
Proof.
  intros Hv.
  assert (Ef : Qfloor v = z) by (rewrite Hv; apply Qfloor_Z).
  destruct (np_round_cases v) as [[E _]|[E Hd]]; rewrite E, Ef; [reflexivity|].
  rewrite Ef, Hv in Hd. lra.
Qed.

Lemma np_round_between v a b :
  inject_Z a <= v <= inject_Z b -> (a <= np_round v <= b)%Z.
Proof.
  intros [Ha Hb]. pose proof (floor_bounds v) as [Hf1 Hf2].
  assert (Hfa : (a <= Qfloor v)%Z).
  { rewrite <- (Qfloor_Z a). now apply Qfloor_resp_le. }
  assert (Hfb : (Qfloor v <= b)%Z).
  { rewrite <- (Qfloor_Z b). now apply Qfloor_resp_le. }
  destruct (np_round_cases v) as [[E _]|[E Hd]]; rewrite E; [lia|].
  assert (Hlt : inject_Z (Qfloor v) < inject_Z b) by lra.
  rewrite <- Zlt_Qlt in Hlt. lia.
Qed.

Lemma np_round_monotone v v' : v <= v' -> (np_round v <= np_round v')%Z.
Proof.
  intros Hv.
  pose proof (Qfloor_resp_le v v' Hv) as Hf.
  pose proof (floor_bounds v) as [Hf1 Hf2].
  pose proof (floor_bounds v') as [Hf1' Hf2'].
  destruct (Z.eq_dec (Qfloor v) (Qfloor v')) as [Ef|Hne].
  - unfold np_round. rewrite <- Ef.
    destruct (v - inject_Z (Qfloor v) ?= 1 # 2) eqn:E;
      destruct (v' - inject_Z (Qfloor v) ?= 1 # 2) eqn:E';
      repeat match goal with
             | H : (_ ?= _) = Eq |- _ => apply <- Qeq_alt in H
             | H : (_ ?= _) = Lt |- _ => apply <- Qlt_alt in H
             | H : (_ ?= _) = Gt |- _ => apply <- Qgt_alt in H
             end;
      destruct (Z.even (Qfloor v)); try lia; exfalso; lra.
  - destruct (np_round_cases v) as [[E _]|[E _]];
      destruct (np_round_cases v') as [[E' _]|[E' _]]; rewrite E, E'; lia.
Qed.

(** The way back from the model's output to bytes.  The value handed to the
    cast always lies between 0 and 255, so the cast to [uint8] never wraps;
    the conversion saturates at both ends, is monotone, and undoes the
    scaling of the input: a byte divided by 255 comes back as itself. *)
Theorem pixel_conversion :
  (forall v, (0 <= restored_value v <= 255)%Z /\ to_byte v = restored_value v) /\
  (forall p, (0 <= p <= 255)%Z -> to_byte (to_unit p) = p) /\
  (forall v, v <= 0 -> to_byte v = 0%Z) /\
  (forall v, 1 <= v -> to_byte v = 255%Z) /\
  (forall v v', v <= v' -> (to_byte v <= to_byte v')%Z).
Proof.
  assert (Hrange : forall v, (0 <= restored_value v <= 255)%Z).
  { intros v. unfold restored_value. apply np_round_between.
    change (inject_Z 0) with 0. change (inject_Z 1) with 1.
    change (inject_Z 255) with 255.
    pose proof (clamp_range 0 1 (clamp 0 1 v) ltac:(lra)). lra. }
  assert (Hbyte : forall v, to_byte v = restored_value v).
  { intros v. unfold to_byte, astype_uint8. apply Z.mod_small.
    specialize (Hrange v). lia. }
  assert (Hint : forall v z, clamp 0 1 v * 255 == inject_Z z ->
                   restored_value v = z).
  { intros v z Hz. unfold restored_value. apply np_round_integer.
    change (inject_Z 0) with 0. change (inject_Z 1) with 1.
    change (inject_Z 255) with 255.
    now rewrite clamp_idempotent by lra. }
  split; [|split; [|split; [|split]]].
  - intros v. split; [apply Hrange|apply Hbyte].
  - intros p Hp. rewrite Hbyte. apply Hint.
    assert (Hu : 0 <= to_unit p <= 1).
    { unfold to_unit. change (inject_Z 255) with 255.
      assert (0 <= inject_Z p <= 255).
      { split; [change 0 with (inject_Z 0)|change 255 with (inject_Z 255)];
          rewrite <- Zle_Qle; lia. }
      split.
      - apply Qle_shift_div_l; lra.
      - apply Qle_shift_div_r; lra. }
    rewrite clamp_inside by exact Hu.
    unfold to_unit. change (inject_Z 255) with 255. field.
  - intros v Hv. rewrite Hbyte. apply Hint.
    unfold clamp. destruct (Qlt_le_dec v 0) as [Hlt|Hge].
    + change (inject_Z 0) with 0. lra.
    + destruct (Qlt_le_dec 1 v); [lra|].
      change (inject_Z 0) with 0. lra.
  - intros v Hv. rewrite Hbyte. apply Hint.
    unfold clamp. destruct (Qlt_le_dec v 0) as [Hlt|Hge]; [lra|].
    destruct (Qlt_le_dec 1 v) as [Hlt|Hle].
    + change (inject_Z 255) with 255. lra.
    + change (inject_Z 255) with 255. lra.
  - intros v v' Hv. rewrite !Hbyte. unfold restored_value.
    apply np_round_monotone.
    change (inject_Z 0) with 0. change (inject_Z 1) with 1.
    change (inject_Z 255) with 255.
    pose proof (clamp_le 0 1 v v' ltac:(lra) Hv) as H1.
    pose proof (clamp_le 0 1 _ _ ltac:(lra) H1) as H2. lra.
Qed.
End PixelValues.
